(** * Grid path-finding search core: a shallow embedding of the A* variants

    The repository ships several renditions of the same weighted search:
    - [Improved]  : docs.codexhub.ai/examples/improved-astar.js
                    (function [astar] and its helpers);
    - [ClassAStar]: second half of docs.codexhub.ai/examples/modern-astar.js
                    (classes [Algorithm] and [AStar], array frontier);
    - [ModernAStar]: first half of docs.codexhub.ai/examples/modern-astar.js
                    (ES6 class [AStar] with a [Map] frontier and a [Set]);
    - [Utils]     : the shared path-finding utilities ([getNeighbors] with the
                    diagonal switch, [getShortestPath], [createBoardArray]);
    - [NodeClass] : the methods of class [Node];
    - [PriorityQueue], [OptimizedAStar]: the binary heap and the search that
                    keeps its frontier in it.

    Encoding.  A cell id "r-c" is the pair of its coordinates; parsing an id
    ([split("-")], [parseInt] or [Number]) is the projection of the pair and
    the template literal [`${x}-${y}`] is pairing: this is what the source
    does on the ids of a board, two array indices (see [canonical]).  A
    JavaScript number is an integer, [Infinity] or [NaN], and a sum is the
    sum of the integers: this is what the source computes as long as the
    numbers stay of magnitude at most [2^53] (see [small_numbers]).  An
    object reference is the key of the object in the node dictionary, so that
    every read of a field goes through the shared store and sees earlier
    in-place mutations. *)

From Equations Require Import Equations.
From stdpp Require Import gmap list sorting.
From Stdlib Require Import ZArith Lia.

Local Open Scope Z_scope.

(** ** JavaScript values used by the search *)

Module JS.

(** Numbers: integers, [Infinity], and [NaN] (the sum with [undefined]).
    [add] is the addition of doubles on integers whose sum is of magnitude
    at most [2^53]; beyond that the source rounds or overflows. *)
Inductive Num : Type :=
| Fin (z : Z)
| Infinity
| NaN.

Definition add (a b : Num) : Num :=
  match a, b with
  | NaN, _ | _, NaN => NaN
  | Infinity, _ | _, Infinity => Infinity
  | Fin x, Fin y => Fin (x + y)
  end.

(** [a < b]; every comparison with [NaN] is false. *)
Definition ltb (a b : Num) : bool :=
  match a, b with
  | Fin x, Fin y => x <? y
  | Fin _, Infinity => true
  | _, _ => false
  end.

(** [a > b] *)
Definition gtb (a b : Num) : bool := ltb b a.

(** [a === b] on numbers *)
Definition eqb (a b : Num) : bool :=
  match a, b with
  | Fin x, Fin y => x =? y
  | Infinity, Infinity => true
  | _, _ => false
  end.

(** A numeric field that may still be [undefined] or [null]. *)
Inductive Opt : Type :=
| Undefined
| Null
| Val (z : Z).

(** [ToNumber]: [null] is 0 and [undefined] is [NaN]. *)
Definition toNumber (o : Opt) : Num :=
  match o with
  | Undefined => NaN
  | Null => Fin 0
  | Val z => Fin z
  end.

(** [!o]: [undefined], [null] and [0] are falsy. *)
Definition falsy (o : Opt) : bool :=
  match o with
  | Undefined | Null => true
  | Val z => z =? 0
  end.

(** The result of a call that may raise a [TypeError] before it has
    changed anything. *)
Inductive Result (A : Type) : Type :=
| Ok (a : A)
| TypeError.
Arguments Ok {A} a.
Arguments TypeError {A}.

Definition bind {A B} (r : Result A) (k : A → Result B) : Result B :=
  match r with
  | Ok a => k a
  | TypeError => TypeError
  end.

(** A statement sequence that mutates the store either runs to its end or
    is cut short by a [TypeError]; both leave a store behind. *)
Inductive Completion (S : Type) : Type :=
| Normal (s : S)
| Abrupt (s : S).
Arguments Normal {S} s.
Arguments Abrupt {S} s.

End JS.

Notation "'try' x ← r ; k" := (JS.bind r (λ x, k))
  (at level 10, x name, r at level 100, k at level 200,
   format "'[' 'try'  x  ←  r ;  '/' k ']'").

(** ** The cell record (class [Node]) *)

Abbreviation Id := (Z * Z)%type (only parsing).

Inductive Status : Type :=
| Unvisited | Wall | StartCell | TargetCell | Visited | ShortestPath.

Inductive Direction : Type := Up | Down | Left | Right.

(** Turn instructions: ["f"] (forward), ["l"] and ["r"] (quarter turns). *)
Inductive Move : Type := forward | turn_left | turn_right.

#[global] Instance Status_eq_dec : EqDecision Status.
Proof. solve_decision. Defined.
#[global] Instance Direction_eq_dec : EqDecision Direction.
Proof. solve_decision. Defined.
#[global] Instance Move_eq_dec : EqDecision Move.
Proof. solve_decision. Defined.
#[global] Instance Num_eq_dec : EqDecision JS.Num.
Proof. solve_decision. Defined.
#[global] Instance Opt_eq_dec : EqDecision JS.Opt.
Proof. solve_decision. Defined.

Record Node : Type := mkNode {
  id : Id;
  status : Status;
  previousNode : option Id;
  path : option (list Move);
  direction : option Direction;
  distance : JS.Num;
  totalDistance : JS.Num;
  heuristicDistance : JS.Opt;
  weight : Z
}.

#[global] Instance Node_eq_dec : EqDecision Node.
Proof. solve_decision. Defined.

(** [new Node(id, status)] *)
Definition newNode (i : Id) (s : Status) : Node :=
  {| id := i; status := s; previousNode := None; path := None;
     direction := None; distance := JS.Infinity; totalDistance := JS.Infinity;
     heuristicDistance := JS.Null; weight := 0 |}.

Definition set_status (s : Status) (n : Node) : Node :=
  {| id := id n; status := s; previousNode := previousNode n; path := path n;
     direction := direction n; distance := distance n;
     totalDistance := totalDistance n;
     heuristicDistance := heuristicDistance n; weight := weight n |}.

Definition set_heuristicDistance (h : JS.Opt) (n : Node) : Node :=
  {| id := id n; status := status n; previousNode := previousNode n;
     path := path n; direction := direction n; distance := distance n;
     totalDistance := totalDistance n;
     heuristicDistance := h; weight := weight n |}.

Definition set_totalDistance (t : JS.Num) (n : Node) : Node :=
  {| id := id n; status := status n; previousNode := previousNode n;
     path := path n; direction := direction n; distance := distance n;
     totalDistance := t;
     heuristicDistance := heuristicDistance n; weight := weight n |}.

Definition set_weight (w : Z) (n : Node) : Node :=
  {| id := id n; status := status n; previousNode := previousNode n;
     path := path n; direction := direction n; distance := distance n;
     totalDistance := totalDistance n;
     heuristicDistance := heuristicDistance n; weight := w |}.

Definition set_direction (d : option Direction) (n : Node) : Node :=
  {| id := id n; status := status n; previousNode := previousNode n;
     path := path n; direction := d; distance := distance n;
     totalDistance := totalDistance n;
     heuristicDistance := heuristicDistance n; weight := weight n |}.

(** ** The node dictionary and the board

    [nodes] is a plain object used as a dictionary: [okeys] is
    [Object.keys(nodes)] (insertion order), [oget] the lookup. *)

Record NodeDict : Type := mkDict {
  okeys : list Id;
  oget : gmap Id Node
}.

Definition lookupNode (nodes : NodeDict) (k : Id) : option Node := oget nodes !! k.

(** In-place mutation of the object stored under [k]. *)
Definition mutate (g : Node → Node) (k : Id) (nodes : NodeDict) : NodeDict :=
  {| okeys := okeys nodes; oget := alter g k (oget nodes) |}.

(** [nodes[k] = v]: a new key goes to the end of the key order. *)
Definition assign (k : Id) (v : Node) (nodes : NodeDict) : NodeDict :=
  {| okeys := if decide (k ∈ okeys nodes) then okeys nodes else okeys nodes ++ [k];
     oget := <[k := v]> (oget nodes) |}.

(** [boardArray]: rows of cells, each cell recorded by its truthiness. *)
Abbreviation Board := (list (list bool)) (only parsing).

(** [boardArray[x] && boardArray[x][y]] *)
Definition inBoard (boardArray : Board) (x y : Z) : bool :=
  if (x <? 0) || (y <? 0) then false
  else match boardArray !! Z.to_nat x with
       | Some row => match row !! Z.to_nat y with
                     | Some b => b
                     | None => false
                     end
       | None => false
       end.

(** The four cardinal offsets in the order of the source
    (up, down, left, right) and the four diagonals that diagonal mode
    pushes after them. *)
Definition cardinal : list (Z * Z) := [(-1, 0); (1, 0); (0, -1); (0, 1)].
Definition diagonal : list (Z * Z) := [(-1, -1); (-1, 1); (1, -1); (1, 1)].

(** [Math.abs(x1 - x2) + Math.abs(y1 - y2)] on two ids. *)
Definition manhattan (a b : Id) : Z :=
  Z.abs (a.1 - b.1) + Z.abs (a.2 - b.2).

(** ** Where the integers stand for the numbers and the strings of the source

    An id stands for the string ["r-c"] of a row and a column of a board,
    two array indices.  On such a string [split("-")] followed by [parseInt]
    and followed by [Number] give the same two numbers, and the template
    literal of the two numbers gives the string back.  On other strings the
    two parsers differ (["-1-0"] is no row and column for [parseInt], and row
    0, column 1 for [Number]): the statements that compare or compose what
    the renditions read from an id are about canonical ids. *)
Definition canonical (k : Id) : Prop := (0 ≤ k.1 < 2 ^ 32) ∧ (0 ≤ k.2 < 2 ^ 32).

#[global] Instance canonical_dec (k : Id) : Decision (canonical k).
Proof. unfold canonical. apply _. Defined.

(** A [Z] stands for the double that holds it.  Every integer of magnitude
    at most [2^53] is a double, and the sum or difference of two of them is
    exact when it is in that range too; beyond it the source rounds, and
    [2^1023 + 2^1023] is [Infinity].  [small_numbers] keeps a search within
    that range: every key is canonical, so a Manhattan or Chebyshev distance
    is below [2^33]; a cached heuristic is of magnitude at most [2^51]; and
    the weights are so small for the size of the grid that no sum of one cost
    of a step ([|weight| + 2] at most) for every node exceeds [2^51].  A
    search closes a cell at most once and stores in a cell the cost of a
    closed cell plus the cost of one step, so the costs it forms are sums of
    at most one step for every node; a [totalDistance] adds one heuristic.
    This is the invariant of the four loops ([astar_numbers_stay_small],
    [class_numbers_stay_small], [modern_numbers_stay_small] and
    [optimizedAStar_numbers_stay_small] at the end of the file). *)
Definition small_numbers (nodes : NodeDict) : Prop :=
  map_Forall (λ k n,
      canonical k
      ∧ (Z.abs (weight n) + 2) * Z.of_nat (size (oget nodes)) ≤ 2 ^ 51
      ∧ Z.abs (match heuristicDistance n with JS.Val h => h | _ => 0 end) ≤ 2 ^ 51)
    (oget nodes).

#[global] Instance small_numbers_dec (nodes : NodeDict) : Decision (small_numbers nodes).
Proof. unfold small_numbers. apply _. Defined.

(** ** improved-astar.js *)

Module Improved.

(** What one call of [astar] can do: [return false], [return "success!"],
    or raise a [TypeError]. *)
Inductive Outcome : Type := ReturnFalse | ReturnSuccess | Throws.

#[global] Instance Outcome_eq_dec : EqDecision Outcome.
Proof. solve_decision. Defined.

(** The mutable data of one run.  [nodesToAnimate] holds references (keys)
    to the pushed node objects; [heuristicCalls] logs, in order, the cell
    for which the caller-supplied heuristic callback was invoked. *)
Record State : Type := mkState {
  nodes : NodeDict;
  unvisitedNodes : list Id;
  nodesToAnimate : list Id;
  heuristicCalls : list Id
}.

(** [validateInputs]; a missing ([null]) id is [None].  The dictionary, the
    array and the board are always present in this embedding. *)
Definition validateInputs (nodes : NodeDict) (start target : option Id) : bool :=
  match start, target with
  | Some s, Some t =>
      match lookupNode nodes s, lookupNode nodes t with
      | Some _, Some _ => negb (bool_decide (s = t))
      | _, _ => false
      end
  | _, _ => false
  end.

Definition initializeStartNode (nodes : NodeDict) (start : Id) : NodeDict :=
  mutate (λ n,
    {| id := id n; status := status n; previousNode := previousNode n;
       path := path n; direction := Some Up; distance := JS.Fin 0;
       totalDistance := JS.Fin 0;
       heuristicDistance := heuristicDistance n; weight := weight n |})
    start nodes.

(** The scan of [findClosestNode]: [closest] is the pair of the reference
    and the object it points to (the store does not change during the scan),
    [i] the loop index. *)
Fixpoint findClosestNode_scan (nodes : NodeDict) (unvisited : list Id) (i : nat)
    (closestNode : option (Id * Node)) (closestIndex : nat)
    : JS.Result (option (Id * Node) * nat) :=
  match unvisited with
  | [] => JS.Ok (closestNode, closestIndex)
  | nodeId :: rest =>
      match lookupNode nodes nodeId with
      | None => JS.TypeError
      | Some node =>
          if decide (status node = Wall) then
            findClosestNode_scan nodes rest (S i) closestNode closestIndex
          else
            match closestNode with
            | None => findClosestNode_scan nodes rest (S i) (Some (nodeId, node)) i
            | Some (_, c) =>
                if JS.gtb (totalDistance c) (totalDistance node) then
                  findClosestNode_scan nodes rest (S i) (Some (nodeId, node)) i
                else if JS.eqb (totalDistance c) (totalDistance node)
                        && JS.gtb (JS.toNumber (heuristicDistance c))
                                  (JS.toNumber (heuristicDistance node)) then
                  findClosestNode_scan nodes rest (S i) (Some (nodeId, node)) i
                else
                  findClosestNode_scan nodes rest (S i) closestNode closestIndex
            end
      end
  end.

(** [findClosestNode]: the chosen reference ([None] is [null]) and the
    array after [splice(closestIndex, 1)]. *)
Definition findClosestNode (nodes : NodeDict) (unvisitedNodes : list Id)
    : JS.Result (option Id * list Id) :=
  try res ← findClosestNode_scan nodes unvisitedNodes 0 None 0;
  JS.Ok (fst <$> res.1, delete res.2 unvisitedNodes).

Fixpoint getNeighbors_from (nodes : NodeDict) (boardArray : Board) (x y : Z)
    (directions : list (Z * Z)) (neighbors : list Id) : JS.Result (list Id) :=
  match directions with
  | [] => JS.Ok neighbors
  | (dx, dy) :: rest =>
      let newX := x + dx in
      let newY := y + dy in
      if inBoard boardArray newX newY then
        match lookupNode nodes (newX, newY) with
        | None => JS.TypeError
        | Some n =>
            if decide (status n = Wall)
            then getNeighbors_from nodes boardArray x y rest neighbors
            else getNeighbors_from nodes boardArray x y rest (neighbors ++ [(newX, newY)])
        end
      else getNeighbors_from nodes boardArray x y rest neighbors
  end.

Definition getNeighbors (nodeId : Id) (nodes : NodeDict) (boardArray : Board)
    : JS.Result (list Id) :=
  getNeighbors_from nodes boardArray nodeId.1 nodeId.2 cardinal [].

Definition manhattanDistance (nodeOne nodeTwo : Node) : Z :=
  manhattan (id nodeOne) (id nodeTwo).

(** [calculateNodeDistance]: [cost, path, direction]. *)
Definition calculateNodeDistance (nodeOne nodeTwo : Node)
    : Z * list Move * option Direction :=
  let '(x1, y1) := id nodeOne in
  let '(x2, y2) := id nodeTwo in
  if x2 <? x1 then (1, [forward], Some Up)
  else if x2 >? x1 then (1, [forward], Some Down)
  else if y2 <? y1 then (1, [forward], Some Left)
  else if y2 >? y1 then (1, [forward], Some Right)
  else (1, [forward], direction nodeOne).

Definition updateNodeWithNewPath (newDistance : JS.Num) (previousNodeId : Id)
    (distanceData : Z * list Move * option Direction) (node : Node) : Node :=
  {| id := id node; status := status node;
     previousNode := Some previousNodeId;
     path := Some distanceData.1.2;
     direction := distanceData.2;
     distance := newDistance;
     totalDistance := JS.add newDistance (JS.toNumber (heuristicDistance node));
     heuristicDistance := heuristicDistance node; weight := weight node |}.

(** [updateSingleNeighbor]; the three node arguments are references.  The
    unused [algorithmName] and [startNode] arguments are left out. *)
Definition updateSingleNeighbor (heuristicFn : Node → Node → Z)
    (nodes : NodeDict) (calls : list Id)
    (currentNode neighborNode targetNode : Id) : JS.Result (NodeDict * list Id) :=
  match lookupNode nodes currentNode, lookupNode nodes neighborNode with
  | Some cur, Some nb =>
      let distanceData := calculateNodeDistance cur nb in
      try cached ←
        (if JS.falsy (heuristicDistance nb) then
           match lookupNode nodes targetNode with
           | Some tg =>
               JS.Ok (mutate (set_heuristicDistance (JS.Val (heuristicFn nb tg)))
                        neighborNode nodes,
                      calls ++ [neighborNode])
           | None => JS.TypeError
           end
         else JS.Ok (nodes, calls));
      let '(nodes1, calls1) := cached in
      match lookupNode nodes1 currentNode, lookupNode nodes1 neighborNode with
      | Some cur1, Some nb1 =>
          let distanceToCompare :=
            JS.add (JS.add (distance cur1) (JS.Fin (weight nb1)))
                   (JS.Fin distanceData.1.1) in
          if JS.ltb distanceToCompare (distance nb1) then
            JS.Ok (mutate (updateNodeWithNewPath distanceToCompare (id cur1) distanceData)
                     neighborNode nodes1, calls1)
          else JS.Ok (nodes1, calls1)
      | _, _ => JS.TypeError
      end
  | _, _ => JS.TypeError
  end.

Fixpoint updateNeighbors_each (heuristicFn : Node → Node → Z)
    (nodes : NodeDict) (calls : list Id) (currentNode : Id)
    (neighbors : list Id) (targetId : Id) : JS.Completion (NodeDict * list Id) :=
  match neighbors with
  | [] => JS.Normal (nodes, calls)
  | neighborId :: rest =>
      match updateSingleNeighbor heuristicFn nodes calls currentNode neighborId targetId with
      | JS.Ok (nodes1, calls1) =>
          updateNeighbors_each heuristicFn nodes1 calls1 currentNode rest targetId
      | JS.TypeError => JS.Abrupt (nodes, calls)
      end
  end.

Definition updateNeighbors (heuristicFn : Node → Node → Z)
    (nodes : NodeDict) (calls : list Id) (currentNode : Id)
    (boardArray : Board) (targetId : Id) : JS.Completion (NodeDict * list Id) :=
  match lookupNode nodes currentNode with
  | None => JS.Abrupt (nodes, calls)
  | Some cur =>
      match getNeighbors (id cur) nodes boardArray with
      | JS.TypeError => JS.Abrupt (nodes, calls)
      | JS.Ok neighbors =>
          updateNeighbors_each heuristicFn nodes calls currentNode neighbors targetId
      end
  end.

(** One turn of the [while] loop of [astar]. *)
Inductive Step : Type :=
| Next (s : State)
| Stop (o : Outcome) (s : State).

Definition iteration (heuristic : Node → Node → Z) (boardArray : Board)
    (target : Id) (s : State) : Step :=
  match findClosestNode (nodes s) (unvisitedNodes s) with
  | JS.TypeError => Stop Throws s
  | JS.Ok (currentNode, unvisited1) =>
      let s1 := {| nodes := nodes s; unvisitedNodes := unvisited1;
                   nodesToAnimate := nodesToAnimate s;
                   heuristicCalls := heuristicCalls s |} in
      match currentNode with
      | None => Stop Throws s1
      | Some ref =>
          match lookupNode (nodes s) ref with
          | None => Stop Throws s1
          | Some cur =>
              if decide (status cur = Wall) then Next s1
              else if JS.eqb (distance cur) JS.Infinity then Stop ReturnFalse s1
              else
                let s2 := {| nodes := mutate (set_status Visited) ref (nodes s);
                             unvisitedNodes := unvisited1;
                             nodesToAnimate := nodesToAnimate s ++ [ref];
                             heuristicCalls := heuristicCalls s |} in
                if decide (id cur = target) then Stop ReturnSuccess s2
                else
                  match updateNeighbors heuristic (nodes s2) (heuristicCalls s2)
                          ref boardArray target with
                  | JS.Normal (nodes3, calls3) =>
                      Next {| nodes := nodes3; unvisitedNodes := unvisited1;
                              nodesToAnimate := nodesToAnimate s2;
                              heuristicCalls := calls3 |}
                  | JS.Abrupt (nodes3, calls3) =>
                      Stop Throws {| nodes := nodes3; unvisitedNodes := unvisited1;
                                     nodesToAnimate := nodesToAnimate s2;
                                     heuristicCalls := calls3 |}
                  end
          end
      end
  end.

(** The [while (unvisitedNodes.length > 0)] loop; [None] only when the
    fuel runs out. *)
Fixpoint astar_loop (heuristic : Node → Node → Z) (boardArray : Board)
    (target : Id) (fuel : nat) (s : State) : option (Outcome * State) :=
  match unvisitedNodes s with
  | [] => Some (ReturnFalse, s)
  | _ :: _ =>
      match fuel with
      | O => None
      | S fuel' =>
          match iteration heuristic boardArray target s with
          | Next s' => astar_loop heuristic boardArray target fuel' s'
          | Stop o s' => Some (o, s')
          end
      end
  end.

(** [astar(nodes, start, target, nodesToAnimate, boardArray, name, heuristic)];
    every turn of the loop removes one element of [unvisitedNodes], so its
    length is fuel enough ([astar_total]). *)
Definition astar (nodes : NodeDict) (start target : option Id)
    (nodesToAnimate : list Id) (boardArray : Board)
    (heuristic : Node → Node → Z) : option (Outcome * State) :=
  match start, target with
  | Some s, Some t =>
      if validateInputs nodes start target then
        let nodes1 := initializeStartNode nodes s in
        let unvisitedNodes := okeys nodes1 in
        astar_loop heuristic boardArray t (length unvisitedNodes)
          {| nodes := nodes1; unvisitedNodes := unvisitedNodes;
             nodesToAnimate := nodesToAnimate; heuristicCalls := [] |}
      else Some (ReturnFalse,
                 {| nodes := nodes; unvisitedNodes := [];
                    nodesToAnimate := nodesToAnimate; heuristicCalls := [] |})
  | _, _ => Some (ReturnFalse,
                  {| nodes := nodes; unvisitedNodes := [];
                     nodesToAnimate := nodesToAnimate; heuristicCalls := [] |})
  end.

End Improved.

(** ** modern-astar.js, second half: classes [Algorithm] and [AStar] *)

Module ClassAStar.

(** [execute] may also fall off the end of its body and return
    [undefined]. *)
Inductive Outcome : Type := ReturnFalse | ReturnSuccess | ReturnUndefined | Throws.

#[global] Instance Outcome_eq_dec : EqDecision Outcome.
Proof. solve_decision. Defined.

(** [this.nodes], [this.nodesToAnimate] and the local [unvisitedNodes]. *)
Record State : Type := mkState {
  nodes : NodeDict;
  nodesToAnimate : list Id;
  unvisitedNodes : list Id
}.

(** [Algorithm.getNeighbors]: up, right, down, left. *)
Definition directions : list (Z * Z) := [(-1, 0); (0, 1); (1, 0); (0, -1)].

Definition getNeighbors (nodes : NodeDict) (boardArray : Board) (nodeId : Id)
    : JS.Result (list Id) :=
  Improved.getNeighbors_from nodes boardArray nodeId.1 nodeId.2 directions [].

Definition calculateManhattanDistance (nodeId1 nodeId2 : Id) : Z :=
  manhattan nodeId1 nodeId2.

(** [AStar.getDistance]: [cost, path, direction]. *)
Definition getDistance (nodeOne nodeTwo : Node) : Z * list Move * option Direction :=
  let '(x1, y1) := id nodeOne in
  let '(x2, y2) := id nodeTwo in
  if (x2 <? x1) && (y1 =? y2) then
    let cost := if decide (direction nodeOne = Some Up) then 1 else 2 in
    (cost, [forward], Some Up)
  else if (x2 >? x1) && (y1 =? y2) then
    let cost := if decide (direction nodeOne = Some Down) then 1 else 2 in
    (cost, [forward], Some Down)
  else if (y2 <? y1) && (x1 =? x2) then
    let cost := if decide (direction nodeOne = Some Left) then 1 else 2 in
    (cost, [forward], Some Left)
  else if (y2 >? y1) && (x1 =? x2) then
    let cost := if decide (direction nodeOne = Some Right) then 1 else 2 in
    (cost, [forward], Some Right)
  else (1, [forward], direction nodeOne).

(** The scan of [AStar.findClosestNode]; walls are not skipped here. *)
Fixpoint findClosestNode_scan (nodes : NodeDict) (unvisited : list Id) (i : nat)
    (currentClosest : option (Id * Node)) (index : nat)
    : JS.Result (option (Id * Node) * nat) :=
  match unvisited with
  | [] => JS.Ok (currentClosest, index)
  | nodeId :: rest =>
      match lookupNode nodes nodeId with
      | None => JS.TypeError
      | Some node =>
          match currentClosest with
          | None => findClosestNode_scan nodes rest (S i) (Some (nodeId, node)) i
          | Some (_, c) =>
              if JS.gtb (totalDistance c) (totalDistance node) then
                findClosestNode_scan nodes rest (S i) (Some (nodeId, node)) i
              else if JS.eqb (totalDistance c) (totalDistance node) then
                if JS.gtb (JS.toNumber (heuristicDistance c))
                          (JS.toNumber (heuristicDistance node))
                then findClosestNode_scan nodes rest (S i) (Some (nodeId, node)) i
                else findClosestNode_scan nodes rest (S i) currentClosest index
              else findClosestNode_scan nodes rest (S i) currentClosest index
          end
      end
  end.

Definition findClosestNode (nodes : NodeDict) (unvisitedNodes : list Id)
    : JS.Result (option Id * list Id) :=
  try res ← findClosestNode_scan nodes unvisitedNodes 0 None 0;
  JS.Ok (fst <$> res.1, delete res.2 unvisitedNodes).

(** [AStar.updateNode(currentNode, targetNode, actualTargetNode, startNode)];
    the arguments are references. *)
Definition updateNode (nodes : NodeDict) (currentNode targetNode actualTargetNode : Id)
    : JS.Result NodeDict :=
  match lookupNode nodes currentNode, lookupNode nodes targetNode with
  | Some cur, Some nb =>
      let distanceData := getDistance cur nb in
      try nodes1 ←
        (if JS.falsy (heuristicDistance nb) then
           match lookupNode nodes actualTargetNode with
           | Some tg =>
               JS.Ok (mutate (set_heuristicDistance
                                (JS.Val (calculateManhattanDistance (id nb) (id tg))))
                        targetNode nodes)
           | None => JS.TypeError
           end
         else JS.Ok nodes);
      match lookupNode nodes1 currentNode, lookupNode nodes1 targetNode with
      | Some cur1, Some nb1 =>
          let distanceToCompare :=
            JS.add (JS.add (distance cur1) (JS.Fin (weight nb1)))
                   (JS.Fin distanceData.1.1) in
          if JS.ltb distanceToCompare (distance nb1) then
            JS.Ok (mutate (Improved.updateNodeWithNewPath distanceToCompare (id cur1)
                             distanceData) targetNode nodes1)
          else JS.Ok nodes1
      | _, _ => JS.TypeError
      end
  | _, _ => JS.TypeError
  end.

Fixpoint updateNeighbors_each (nodes : NodeDict) (node : Id) (neighbors : list Id)
    (target : Id) : JS.Completion NodeDict :=
  match neighbors with
  | [] => JS.Normal nodes
  | neighborId :: rest =>
      match updateNode nodes node neighborId target with
      | JS.Ok nodes1 => updateNeighbors_each nodes1 node rest target
      | JS.TypeError => JS.Abrupt nodes
      end
  end.

Definition updateNeighbors (nodes : NodeDict) (boardArray : Board) (node target : Id)
    : JS.Completion NodeDict :=
  match lookupNode nodes node with
  | None => JS.Abrupt nodes
  | Some cur =>
      match getNeighbors nodes boardArray (id cur) with
      | JS.TypeError => JS.Abrupt nodes
      | JS.Ok neighbors => updateNeighbors_each nodes node neighbors target
      end
  end.

(** The inner loop
    [while (currentNode.status === "wall" && unvisitedNodes.length)]. *)
Fixpoint skipWalls (fuel : nat) (nodes : NodeDict) (currentNode : option Id)
    (unvisited : list Id) : option (JS.Result (option Id * list Id)) :=
  match currentNode ≫= lookupNode nodes with
  | None => Some JS.TypeError
  | Some cur =>
      if bool_decide (status cur = Wall) && negb (bool_decide (unvisited = [])) then
        match fuel with
        | O => None
        | S fuel' =>
            match findClosestNode nodes unvisited with
            | JS.TypeError => Some JS.TypeError
            | JS.Ok (next, unvisited1) => skipWalls fuel' nodes next unvisited1
            end
        end
      else Some (JS.Ok (currentNode, unvisited))
  end.

Fixpoint execute_loop (fuel : nat) (boardArray : Board) (target : Id) (s : State)
    : option (Outcome * State) :=
  match unvisitedNodes s with
  | [] => Some (ReturnUndefined, s)
  | _ :: _ =>
      match fuel with
      | O => None
      | S fuel' =>
          match findClosestNode (nodes s) (unvisitedNodes s) with
          | JS.TypeError => Some (Throws, s)
          | JS.Ok (first, unvisited0) =>
              match skipWalls fuel' (nodes s) first unvisited0 with
              | None => None
              | Some JS.TypeError => Some (Throws, s)
              | Some (JS.Ok (currentNode, unvisited1)) =>
                  let s1 := {| nodes := nodes s; nodesToAnimate := nodesToAnimate s;
                               unvisitedNodes := unvisited1 |} in
                  match currentNode, currentNode ≫= lookupNode (nodes s) with
                  | Some ref, Some cur =>
                      if JS.eqb (distance cur) JS.Infinity then Some (ReturnFalse, s1)
                      else
                        let nodes2 := mutate (set_status Visited) ref (nodes s) in
                        let s2 := {| nodes := nodes2;
                                     nodesToAnimate := nodesToAnimate s ++ [ref];
                                     unvisitedNodes := unvisited1 |} in
                        if decide (id cur = target) then Some (ReturnSuccess, s2)
                        else
                          match updateNeighbors nodes2 boardArray ref target with
                          | JS.Normal nodes3 =>
                              execute_loop fuel' boardArray target
                                {| nodes := nodes3; nodesToAnimate := nodesToAnimate s2;
                                   unvisitedNodes := unvisited1 |}
                          | JS.Abrupt nodes3 =>
                              Some (Throws,
                                    {| nodes := nodes3; nodesToAnimate := nodesToAnimate s2;
                                       unvisitedNodes := unvisited1 |})
                          end
                  | _, _ => Some (Throws, s1)
                  end
              end
          end
      end
  end.

(** [AStar.execute(start, target)] on an instance holding [nodes],
    [boardArray] and [nodesToAnimate]. *)
Definition execute (nodes : NodeDict) (boardArray : Board) (nodesToAnimate : list Id)
    (start target : option Id) : option (Outcome * State) :=
  let s0 := {| nodes := nodes; nodesToAnimate := nodesToAnimate;
               unvisitedNodes := [] |} in
  match start, target with
  | Some s, Some t =>
      if bool_decide (s = t) then Some (ReturnFalse, s0)
      else
        match lookupNode nodes s with
        | None => Some (Throws, s0)
        | Some _ =>
            let nodes1 := Improved.initializeStartNode nodes s in
            execute_loop (S (length (okeys nodes1))) boardArray t
              {| nodes := nodes1; nodesToAnimate := nodesToAnimate;
                 unvisitedNodes := okeys nodes1 |}
        end
  | _, _ => Some (ReturnFalse, s0)
  end.

End ClassAStar.

(** ** modern-astar.js, first half: the ES6 class [AStar] *)

Module ModernAStar.

Inductive Outcome : Type := ReturnFalse | ReturnSuccess | Throws.

#[global] Instance Outcome_eq_dec : EqDecision Outcome.
Proof. solve_decision. Defined.

(** [this.options].  The ['euclidean'] heuristic takes a square root and
    falls outside the integer numbers of this embedding, and so does a
    [weight] that is no integer; every other name selects the Manhattan
    formula ([other_name] is the [default] branch).  The statements about
    [execute] are about these options only. *)
Inductive HeuristicName : Type := manhattan_name | chebyshev_name | other_name.

Record Options : Type := mkOptions {
  allowDiagonal : bool;
  heuristicFunction : HeuristicName;
  options_weight : Z
}.

Definition defaultOptions : Options :=
  {| allowDiagonal := false; heuristicFunction := manhattan_name; options_weight := 1 |}.

(** A [Map] from ids to numbers keeps its entries in insertion order. *)
Abbreviation NumMap := (list ((Z * Z) * JS.Num)) (only parsing).

Fixpoint map_get (m : NumMap) (k : Id) : option JS.Num :=
  match m with
  | [] => None
  | (k', v) :: rest => if decide (k' = k) then Some v else map_get rest k
  end.

Fixpoint map_set (m : NumMap) (k : Id) (v : JS.Num) : NumMap :=
  match m with
  | [] => [(k, v)]
  | (k', v') :: rest =>
      if decide (k' = k) then (k, v) :: rest else (k', v') :: map_set rest k v
  end.

Fixpoint map_delete (m : NumMap) (k : Id) : NumMap :=
  match m with
  | [] => []
  | (k', v') :: rest =>
      if decide (k' = k) then rest else (k', v') :: map_delete rest k
  end.

(** [#findNodeWithLowestDistance]: a [reduce] over the entries that starts
    from the first key; [None] is the [undefined] of an empty map. *)
Definition findNodeWithLowestDistance (unvisitedMap : NumMap) : option Id :=
  match unvisitedMap with
  | [] => None
  | (first, _) :: _ =>
      Some (foldl (λ lowest entry,
                     if JS.ltb entry.2 (default JS.NaN (map_get unvisitedMap lowest))
                     then entry.1 else lowest)
                  first unvisitedMap)
  end.

(** [#getNeighbors] *)
Fixpoint getNeighbors_from (nodes : NodeDict) (boardArray : Board) (x y : Z)
    (directions : list (Z * Z)) (neighbors : list Id) : JS.Result (list Id) :=
  match directions with
  | [] => JS.Ok neighbors
  | (dx, dy) :: rest =>
      let newX := x + dx in
      let newY := y + dy in
      if negb (inBoard boardArray newX newY) then
        getNeighbors_from nodes boardArray x y rest neighbors
      else
        match lookupNode nodes (newX, newY) with
        | None => JS.TypeError
        | Some n =>
            if decide (status n = Wall) then
              getNeighbors_from nodes boardArray x y rest neighbors
            else if (Z.abs dx =? 1) && (Z.abs dy =? 1) then
              match lookupNode nodes (x, newY) with
              | None => JS.TypeError
              | Some horizontalNeighbor =>
                  if decide (status horizontalNeighbor = Wall) then
                    match lookupNode nodes (newX, y) with
                    | None => JS.TypeError
                    | Some verticalNeighbor =>
                        if decide (status verticalNeighbor = Wall) then
                          getNeighbors_from nodes boardArray x y rest neighbors
                        else
                          getNeighbors_from nodes boardArray x y rest
                            (neighbors ++ [(newX, newY)])
                    end
                  else
                    getNeighbors_from nodes boardArray x y rest
                      (neighbors ++ [(newX, newY)])
              end
            else
              getNeighbors_from nodes boardArray x y rest (neighbors ++ [(newX, newY)])
        end
  end.

Definition getNeighbors (options : Options) (nodeId : Id) (nodes : NodeDict)
    (boardArray : Board) : JS.Result (list Id) :=
  getNeighbors_from nodes boardArray nodeId.1 nodeId.2
    (if allowDiagonal options then cardinal ++ diagonal else cardinal) [].

(** [#getDistance] *)
Definition getDistance (nodeA nodeB : Node) : Z * list Move * Direction :=
  let '(x1, y1) := id nodeA in
  let '(x2, y2) := id nodeB in
  if x1 =? x2 then (if y2 >? y1 then (1, [forward], Right) else (1, [forward], Left))
  else (if x2 >? x1 then (1, [forward], Down) else (1, [forward], Up)).

(** [#calculateHeuristic] *)
Definition calculateHeuristic (options : Options) (node targetNode : Node) : Z :=
  let '(x1, y1) := id node in
  let '(x2, y2) := id targetNode in
  match heuristicFunction options with
  | manhattan_name => options_weight options * (Z.abs (x1 - x2) + Z.abs (y1 - y2))
  | chebyshev_name => options_weight options * Z.max (Z.abs (x1 - x2)) (Z.abs (y1 - y2))
  | other_name => options_weight options * (Z.abs (x1 - x2) + Z.abs (y1 - y2))
  end.

(** The data of one call of [execute].  [stub] names the key under which
    [{...undefined, distance: 0, totalDistance: 0, direction: 'up'}] was
    stored when the start id has no node: that object has neither [id] nor
    [status] and is kept apart from the [Node] records. *)
Record State : Type := mkState {
  nodes : NodeDict;
  nodesToAnimate : list Id;
  visitedSet : gset Id;
  unvisitedMap : NumMap;
  stub : option Id
}.

(** The body of the [forEach] callback of [#updateNeighbors]. *)
Definition updateNeighbor (options : Options) (currentId : Id) (currentNode : Node)
    (targetId : Id) (visitedSet : gset Id) (nodes : NodeDict) (unvisitedMap : NumMap)
    (neighborId : Id) : JS.Completion (NodeDict * NumMap) :=
  if decide (neighborId ∈ visitedSet) then JS.Normal (nodes, unvisitedMap)
  else
    match lookupNode nodes neighborId with
    | None => JS.Abrupt (nodes, unvisitedMap)
    | Some neighborNode =>
        let '(cost, steps, heading) := getDistance currentNode neighborNode in
        let distanceToCompare :=
          JS.add (JS.add (distance currentNode) (JS.Fin (weight neighborNode)))
                 (JS.Fin cost) in
        if JS.ltb distanceToCompare (distance neighborNode) then
          let updated :=
            {| id := id neighborNode; status := status neighborNode;
               previousNode := Some currentId; path := Some steps;
               direction := Some heading; distance := distanceToCompare;
               totalDistance := totalDistance neighborNode;
               heuristicDistance := heuristicDistance neighborNode;
               weight := weight neighborNode |} in
          let nodes1 := assign neighborId updated nodes in
          let finish (n : Node) :=
            let total := JS.add (distance n) (JS.toNumber (heuristicDistance n)) in
            JS.Normal (assign neighborId (set_totalDistance total n) nodes1,
                       map_set unvisitedMap neighborId total) in
          if decide (heuristicDistance neighborNode = JS.Undefined) then
            match lookupNode nodes1 targetId with
            | None => JS.Abrupt (nodes1, unvisitedMap)
            | Some targetNode =>
                finish (set_heuristicDistance
                          (JS.Val (calculateHeuristic options neighborNode targetNode))
                          updated)
            end
          else finish updated
        else JS.Normal (nodes, unvisitedMap)
    end.

Fixpoint updateNeighbors_each (options : Options) (currentId : Id) (currentNode : Node)
    (targetId : Id) (visitedSet : gset Id) (nodes : NodeDict) (unvisitedMap : NumMap)
    (neighbors : list Id) : JS.Completion (NodeDict * NumMap) :=
  match neighbors with
  | [] => JS.Normal (nodes, unvisitedMap)
  | neighborId :: rest =>
      match updateNeighbor options currentId currentNode targetId visitedSet
              nodes unvisitedMap neighborId with
      | JS.Normal (nodes1, map1) =>
          updateNeighbors_each options currentId currentNode targetId visitedSet
            nodes1 map1 rest
      | JS.Abrupt r => JS.Abrupt r
      end
  end.

(** [#updateNeighbors] *)
Definition updateNeighbors (options : Options) (currentId : Id) (nodes : NodeDict)
    (boardArray : Board) (targetId : Id) (unvisitedMap : NumMap) (visitedSet : gset Id)
    : JS.Completion (NodeDict * NumMap) :=
  match lookupNode nodes currentId with
  | None => JS.Abrupt (nodes, unvisitedMap)
  | Some currentNode =>
      match getNeighbors options currentId nodes boardArray with
      | JS.TypeError => JS.Abrupt (nodes, unvisitedMap)
      | JS.Ok neighbors =>
          updateNeighbors_each options currentId currentNode targetId visitedSet
            nodes unvisitedMap neighbors
      end
  end.

(** The main loop of [execute]; [None] only when the fuel runs out. *)
Fixpoint execute_loop (options : Options) (boardArray : Board) (targetId : Id)
    (fuel : nat) (s : State) : option (Outcome * State) :=
  match findNodeWithLowestDistance (unvisitedMap s) with
  | None => Some (ReturnFalse, s)
  | Some currentId =>
      match fuel with
      | O => None
      | S fuel' =>
          let s1 := {| nodes := nodes s; nodesToAnimate := nodesToAnimate s;
                       visitedSet := visitedSet s;
                       unvisitedMap := map_delete (unvisitedMap s) currentId;
                       stub := stub s |} in
          match lookupNode (nodes s) currentId with
          | None => Some (Throws, s1)
          | Some currentNode =>
              if bool_decide (status currentNode = Wall)
                 || bool_decide (currentId ∈ visitedSet s)
              then execute_loop options boardArray targetId fuel' s1
              else if JS.eqb (distance currentNode) JS.Infinity
              then Some (ReturnFalse, s1)
              else
                let s2 := {| nodes := mutate (set_status Visited) currentId (nodes s);
                             nodesToAnimate := nodesToAnimate s ++ [currentId];
                             visitedSet := {[currentId]} ∪ visitedSet s;
                             unvisitedMap := unvisitedMap s1;
                             stub := stub s |} in
                if bool_decide (currentId = targetId) then Some (ReturnSuccess, s2)
                else
                  match updateNeighbors options currentId (nodes s2) boardArray
                          targetId (unvisitedMap s2) (visitedSet s2) with
                  | JS.Normal (nodes3, map3) =>
                      execute_loop options boardArray targetId fuel'
                        {| nodes := nodes3; nodesToAnimate := nodesToAnimate s2;
                           visitedSet := visitedSet s2; unvisitedMap := map3;
                           stub := stub s |}
                  | JS.Abrupt (nodes3, map3) =>
                      Some (Throws,
                            {| nodes := nodes3; nodesToAnimate := nodesToAnimate s2;
                               visitedSet := visitedSet s2; unvisitedMap := map3;
                               stub := stub s |})
                  end
          end
      end
  end.

(** [execute(nodes, startId, targetId, boardArray)] with [fuel] turns of the
    main loop, called on an instance that the constructor has just built
    ([this.nodesToAnimate] is [[]]): a call that the guard rejects returns
    before the trace is cleared and leaves the trace of the instance as it
    was, which is the empty one here.  When [nodes[startId]] is missing, the
    source stores an object without [id] under that key; a [Node] has an
    [id], so the dictionary after the call is [nodes] of the state together
    with the key [stub].  The stub object is visited first; [#getDistance]
    raises at the first neighbour, and without neighbours the frontier is
    empty on the next turn. *)
Definition execute (options : Options) (fuel : nat) (nodes : NodeDict)
    (startId targetId : option Id) (boardArray : Board) : option (Outcome * State) :=
  match startId, targetId with
  | Some s, Some t =>
      if bool_decide (s = t) then
        Some (ReturnFalse,
              {| nodes := nodes; nodesToAnimate := []; visitedSet := ∅;
                 unvisitedMap := []; stub := None |})
      else
        match lookupNode nodes s with
        | Some startNode =>
            let nodes1 :=
              assign s {| id := id startNode; status := status startNode;
                          previousNode := previousNode startNode;
                          path := path startNode; direction := Some Up;
                          distance := JS.Fin 0; totalDistance := JS.Fin 0;
                          heuristicDistance := heuristicDistance startNode;
                          weight := weight startNode |} nodes in
            execute_loop options boardArray t fuel
              {| nodes := nodes1; nodesToAnimate := []; visitedSet := ∅;
                 unvisitedMap := [(s, JS.Fin 0)]; stub := None |}
        | None =>
            let s1 := {| nodes := nodes; nodesToAnimate := [s]; visitedSet := {[s]};
                         unvisitedMap := []; stub := Some s |} in
            match getNeighbors options s nodes boardArray with
            | JS.Ok [] => Some (ReturnFalse, s1)
            | _ => Some (Throws, s1)
            end
        end
  | _, _ =>
      Some (ReturnFalse,
            {| nodes := nodes; nodesToAnimate := []; visitedSet := ∅;
               unvisitedMap := []; stub := None |})
  end.

(** [getShortestPath]: [while (currentNodeId)] walks [previousNode] and
    unshifts each node; [None] when the fuel runs out before a [null]. *)
Fixpoint getShortestPath_walk (fuel : nat) (nodes : NodeDict) (path : list Id)
    (currentNodeId : option Id) : option (JS.Result (list Id)) :=
  match currentNodeId with
  | None => Some (JS.Ok path)
  | Some k =>
      match fuel with
      | O => None
      | S fuel' =>
          match lookupNode nodes k with
          | None => Some JS.TypeError
          | Some n => getShortestPath_walk fuel' nodes (k :: path) (previousNode n)
          end
      end
  end.

Definition getShortestPath (fuel : nat) (nodes : NodeDict) (targetId : option Id)
    : option (JS.Result (list Id)) :=
  getShortestPath_walk fuel nodes [] targetId.

End ModernAStar.

(** ** The shared path-finding utilities *)

Module Utils.

Definition calculateManhattanDistance (nodeA nodeB : Node) : Z :=
  manhattan (id nodeA) (id nodeB).

(** [getNeighbors(nodeId, nodes, boardArray, allowDiagonal)] *)
Fixpoint getNeighbors_from (nodes : NodeDict) (boardArray : Board) (x y : Z)
    (directions : list (Z * Z)) (neighbors : list Id) : JS.Result (list Id) :=
  match directions with
  | [] => JS.Ok neighbors
  | (dx, dy) :: rest =>
      let newX := x + dx in
      let newY := y + dy in
      let pushIfFree :=
        match lookupNode nodes (newX, newY) with
        | None => JS.TypeError
        | Some n =>
            if decide (status n = Wall)
            then getNeighbors_from nodes boardArray x y rest neighbors
            else getNeighbors_from nodes boardArray x y rest (neighbors ++ [(newX, newY)])
        end in
      if inBoard boardArray newX newY then
        if (Z.abs dx =? 1) && (Z.abs dy =? 1) then
          match lookupNode nodes (x, newY) with
          | None => JS.TypeError
          | Some adjacentX =>
              if decide (status adjacentX = Wall) then
                match lookupNode nodes (newX, y) with
                | None => JS.TypeError
                | Some adjacentY =>
                    if decide (status adjacentY = Wall)
                    then getNeighbors_from nodes boardArray x y rest neighbors
                    else pushIfFree
                end
              else pushIfFree
          end
        else pushIfFree
      else getNeighbors_from nodes boardArray x y rest neighbors
  end.

Definition getNeighbors (nodeId : Id) (nodes : NodeDict) (boardArray : Board)
    (allowDiagonal : bool) : JS.Result (list Id) :=
  getNeighbors_from nodes boardArray nodeId.1 nodeId.2
    (if allowDiagonal then cardinal ++ diagonal else cardinal) [].

(** [getShortestPath]: [while (currentNodeId !== null)]. *)
Definition getShortestPath (fuel : nat) (nodes : NodeDict) (targetId : option Id)
    : option (JS.Result (list Id)) :=
  ModernAStar.getShortestPath_walk fuel nodes [] targetId.

(** [calculateNodeDistance]: one unit, plus one for any change of heading. *)
Definition calculateNodeDistance (nodeOne nodeTwo : Node)
    : Z * list Move * option Direction :=
  let '(x1, y1) := id nodeOne in
  let '(x2, y2) := id nodeTwo in
  if (x2 <? x1) && (y1 =? y2) then
    let turnCost := if decide (direction nodeOne = Some Up) then 0 else 1 in
    (1 + turnCost, [forward], Some Up)
  else if (x2 >? x1) && (y1 =? y2) then
    let turnCost := if decide (direction nodeOne = Some Down) then 0 else 1 in
    (1 + turnCost, [forward], Some Down)
  else if (y2 <? y1) && (x1 =? x2) then
    let turnCost := if decide (direction nodeOne = Some Left) then 0 else 1 in
    (1 + turnCost, [forward], Some Left)
  else if (y2 >? y1) && (x1 =? x2) then
    let turnCost := if decide (direction nodeOne = Some Right) then 0 else 1 in
    (1 + turnCost, [forward], Some Right)
  else (1, [forward], direction nodeOne).

(** [createBoardArray(nodes, width, height)]: cell [i][j] holds
    [nodes[`${i}-${j}`]], a node object (truthy) or [undefined] (falsy);
    the board records the truthiness. *)
Definition createBoardArray (nodes : NodeDict) (width height : nat) : Board :=
  (λ i, (λ j, bool_decide (is_Some (lookupNode nodes (Z.of_nat i, Z.of_nat j))))
          <$> seq 0 width) <$> seq 0 height.

End Utils.

(** ** The methods of class [Node] *)

Module NodeClass.

(** [reverseData], the fields kept for the bidirectional searches. *)
Record ReverseData : Type := mkReverseData {
  reverse_previousNode : option Id;
  reverse_path : option (list Move);
  reverse_direction : option Direction;
  reverse_storedDirection : option Direction;
  reverse_distance : JS.Num;
  reverse_weight : Z;
  reverse_relatesToObject : bool;
  reverse_overwriteObjectRelation : bool
}.

(** An instance of the class: the fields a search reads and writes (the
    record [Node]) and the remaining ones. *)
Record Object : Type := mkObject {
  fields : Node;
  storedDirection : option Direction;
  relatesToObject : bool;
  overwriteObjectRelation : bool;
  reverseData : ReverseData
}.

(** The object literal assigned to [reverseData] by the constructor and by
    [reset], with its [weight]. *)
Definition freshReverseData (w : Z) : ReverseData :=
  {| reverse_previousNode := None; reverse_path := None; reverse_direction := None;
     reverse_storedDirection := None; reverse_distance := JS.Infinity;
     reverse_weight := w; reverse_relatesToObject := false;
     reverse_overwriteObjectRelation := false |}.

(** [new Node(id, status)] *)
Definition new (i : Id) (s : Status) : Object :=
  {| fields := newNode i s; storedDirection := None; relatesToObject := false;
     overwriteObjectRelation := false; reverseData := freshReverseData 0 |}.

(** [isWall()], [isVisited()], [isUnvisited()] *)
Definition isWall (this : Object) : bool := bool_decide (status (fields this) = Wall).
Definition isVisited (this : Object) : bool := bool_decide (status (fields this) = Visited).
Definition isUnvisited (this : Object) : bool :=
  bool_decide (status (fields this) = Unvisited).

(** [reset(keepWalls, keepWeights)] *)
Definition reset (keepWalls keepWeights : bool) (this : Object) : Object :=
  let status1 :=
    if keepWalls && bool_decide (status (fields this) = Wall)
    then status (fields this) else Unvisited in
  let weight1 := if negb keepWeights then 0 else weight (fields this) in
  {| fields :=
       {| id := id (fields this); status := status1; previousNode := None;
          path := None; direction := None; distance := JS.Infinity;
          totalDistance := JS.Infinity; heuristicDistance := JS.Null;
          weight := weight1 |};
     storedDirection := None; relatesToObject := false;
     overwriteObjectRelation := false;
     reverseData := freshReverseData weight1 |}.

(** [setStatus(status)]; like the other setters it returns [this]. *)
Definition setStatus (s : Status) (this : Object) : Object :=
  {| fields := set_status s (fields this); storedDirection := storedDirection this;
     relatesToObject := relatesToObject this;
     overwriteObjectRelation := overwriteObjectRelation this;
     reverseData := reverseData this |}.

Definition markAsWall (this : Object) : Object := setStatus Wall this.
Definition markAsVisited (this : Object) : Object := setStatus Visited this.
Definition markAsShortestPath (this : Object) : Object := setStatus ShortestPath this.

(** [setWeight(weight)] *)
Definition setWeight (w : Z) (this : Object) : Object :=
  {| fields := set_weight w (fields this); storedDirection := storedDirection this;
     relatesToObject := relatesToObject this;
     overwriteObjectRelation := overwriteObjectRelation this;
     reverseData :=
       {| reverse_previousNode := reverse_previousNode (reverseData this);
          reverse_path := reverse_path (reverseData this);
          reverse_direction := reverse_direction (reverseData this);
          reverse_storedDirection := reverse_storedDirection (reverseData this);
          reverse_distance := reverse_distance (reverseData this);
          reverse_weight := w;
          reverse_relatesToObject := reverse_relatesToObject (reverseData this);
          reverse_overwriteObjectRelation :=
            reverse_overwriteObjectRelation (reverseData this) |} |}.

(** [getCoordinates()]: the array [[row, column]], as a pair. *)
Definition getCoordinates (this : Object) : Z * Z :=
  ((id (fields this)).1, (id (fields this)).2).

(** [manhattanDistanceTo(otherNode)] *)
Definition manhattanDistanceTo (this otherNode : Object) : Z :=
  let '(row1, col1) := getCoordinates this in
  let '(row2, col2) := getCoordinates otherNode in
  Z.abs (row1 - row2) + Z.abs (col1 - col2).

(** A method call that changes the object. *)
Inductive Call : Type :=
| call_reset (keepWalls keepWeights : bool)
| call_setStatus (s : Status)
| call_markAsWall
| call_markAsVisited
| call_markAsShortestPath
| call_setWeight (w : Z).

Definition call (c : Call) (this : Object) : Object :=
  match c with
  | call_reset keepWalls keepWeights => reset keepWalls keepWeights this
  | call_setStatus s => setStatus s this
  | call_markAsWall => markAsWall this
  | call_markAsVisited => markAsVisited this
  | call_markAsShortestPath => markAsShortestPath this
  | call_setWeight w => setWeight w this
  end.

(** A chain of calls, first to last. *)
Definition calls (cs : list Call) (this : Object) : Object :=
  foldl (λ o c, call c o) this cs.

End NodeClass.

(** ** Numbers with both infinities *)

Module Number.

(** What a subtraction of two numbers can give. *)
Inductive t : Type := NegInfinity | Finite (z : Z) | PosInfinity | NotANumber.

(** [a - b] *)
Definition sub (a b : JS.Num) : t :=
  match a, b with
  | JS.Fin x, JS.Fin y => Finite (x - y)
  | JS.Fin _, JS.Infinity => NegInfinity
  | JS.Infinity, JS.Fin _ => PosInfinity
  | _, _ => NotANumber
  end.

(** [r < 0] *)
Definition negative (r : t) : bool :=
  match r with
  | NegInfinity => true
  | Finite z => z <? 0
  | _ => false
  end.

(** [r >= 0] *)
Definition nonnegative (r : t) : bool :=
  match r with
  | PosInfinity => true
  | Finite z => 0 <=? z
  | _ => false
  end.

End Number.

(** ** The binary heap: class [PriorityQueue] *)

Module PriorityQueue.

(** The object literal [{ element, priority }]. *)
Record Item (A : Type) : Type := mkItem { element : A; priority : JS.Num }.
Arguments mkItem {A} element priority.
Arguments element {A} i.
Arguments priority {A} i.

Definition inspect {X : Type} (x : X) : {y : X | x = y} := exist _ x eq_refl.

Section Queue.

Local Open Scope nat_scope.

Context {A : Type}.

(** [this.compare], a function from two items to a number; [this.values]
    is the list the functions below take and return. *)
Variable compare : Item A → Item A → Number.t.

(** The loop of [_bubbleUp].  The parent index [(idx - 1) / 2] is below
    [idx], inside the array. *)
Equations bubbleUp_loop (values : list (Item A)) (idx : nat) (element : Item A)
    : list (Item A) by wf idx lt :=
  bubbleUp_loop values 0 element := values;
  bubbleUp_loop values (S i) element :=
    let parentIdx := i / 2 in
    match values !! parentIdx with
    | None => values
    | Some parent =>
        if Number.nonnegative (compare element parent) then values
        else bubbleUp_loop (<[S i := parent]> (<[parentIdx := element]> values))
               parentIdx element
    end.
Next Obligation.
  intros. change (i / 2 < S i).
  pose proof (Nat.Div0.div_le_upper_bound i 2 i). lia.
Qed.

(** [_bubbleUp()]: starts from the last item. *)
Definition bubbleUp (values : list (Item A)) : list (Item A) :=
  match last values with
  | None => values
  | Some element => bubbleUp_loop values (length values - 1) element
  end.

(** [enqueue(element, priority)] *)
Definition enqueue (values : list (Item A)) (element : A) (priority : JS.Num)
    : list (Item A) :=
  bubbleUp (values ++ [mkItem element priority]).

(** One turn of the loop of [_sinkDown]: the value of [swap] when the turn
    reaches [if (swap === null) break]. *)
Definition sinkDown_swap (values : list (Item A)) (length idx : nat) (element : Item A)
    : option nat :=
  let leftChildIdx := 2 * idx + 1 in
  let rightChildIdx := 2 * idx + 2 in
  let swap :=
    if leftChildIdx <? length then
      match values !! leftChildIdx with
      | Some leftChild =>
          if Number.negative (compare leftChild element) then Some leftChildIdx else None
      | None => None
      end
    else None in
  if rightChildIdx <? length then
    match values !! rightChildIdx with
    | Some rightChild =>
        if match swap with
           | None => Number.negative (compare rightChild element)
           | Some _ =>
               match values !! leftChildIdx with
               | Some leftChild => Number.negative (compare rightChild leftChild)
               | None => false
               end
           end
        then Some rightChildIdx else swap
    | None => swap
    end
  else swap.

Lemma sinkDown_swap_bounds values length idx element sw :
  sinkDown_swap values length idx element = Some sw → idx < sw < length.
Proof.
  unfold sinkDown_swap.
  destruct (Nat.ltb_spec (2 * idx + 1) length), (Nat.ltb_spec (2 * idx + 2) length);
    repeat case_match; intros ?; simplify_eq; lia.
Qed.

(** The loop of [_sinkDown]; [length] is the constant taken before it. *)
Equations sinkDown_loop (values : list (Item A)) (length idx : nat) (element : Item A)
    : list (Item A) by wf (length - idx) lt :=
  sinkDown_loop values length idx element
    with inspect (sinkDown_swap values length idx element) := {
    | exist _ None _ => values
    | exist _ (Some swap) Hswap =>
        match values !! swap with
        | None => values
        | Some child =>
            sinkDown_loop (<[swap := element]> (<[idx := child]> values)) length swap element
        end }.
Next Obligation.
  intros. apply sinkDown_swap_bounds in Hswap. lia.
Qed.

(** [_sinkDown()]: starts from the first item. *)
Definition sinkDown (values : list (Item A)) : list (Item A) :=
  match values with
  | [] => values
  | element :: _ => sinkDown_loop values (length values) 0 element
  end.

(** [dequeue()]: the element returned ([None] is [null]) and the array
    left behind. *)
Definition dequeue (values : list (Item A)) : option A * list (Item A) :=
  match values with
  | [] => (None, values)
  | max :: _ =>
      let popped := take (length values - 1) values in
      match last values, popped with
      | Some end_, _ :: _ => (Some (element max), sinkDown (<[0 := end_]> popped))
      | _, _ => (Some (element max), popped)
      end
  end.

(** [peek()], [isEmpty()], [size()] *)
Definition peek (values : list (Item A)) : option A :=
  match values with
  | [] => None
  | first :: _ => Some (element first)
  end.

Definition isEmpty (values : list (Item A)) : bool := bool_decide (length values = 0).

Definition size (values : list (Item A)) : nat := length values.

End Queue.

(** The default comparator [(a, b) => a.priority - b.priority]. *)
Definition defaultCompare {A : Type} (a b : Item A) : Number.t :=
  Number.sub (priority a) (priority b).

End PriorityQueue.

(** ** The search on the heap: [optimizedAStar] *)

Module OptimizedAStar.

Import PriorityQueue.

(** What one call of [optimizedAStar] can do. *)
Inductive Outcome : Type := ReturnFalse | ReturnSuccess | Throws.

#[global] Instance Outcome_eq_dec : EqDecision Outcome.
Proof. solve_decision. Defined.

(** The mutable data of one run: the store, [unvisitedQueue.values], the
    set [visited] and the array [nodesToAnimate] (references as keys). *)
Record State : Type := mkState {
  nodes : NodeDict;
  unvisitedQueue : list (Item Id);
  visited : gset Id;
  nodesToAnimate : list Id
}.

(** The helpers that follow [optimizedAStar] in its file. *)
Definition manhattanDistance (nodeOne nodeTwo : Node) : Z :=
  manhattan (id nodeOne) (id nodeTwo).

Fixpoint getNeighbors_from (nodes : NodeDict) (boardArray : Board) (x y : Z)
    (directions : list (Z * Z)) (neighbors : list Id) : JS.Result (list Id) :=
  match directions with
  | [] => JS.Ok neighbors
  | (dx, dy) :: rest =>
      let newX := x + dx in
      let newY := y + dy in
      if inBoard boardArray newX newY then
        match lookupNode nodes (newX, newY) with
        | None => JS.TypeError
        | Some n =>
            if decide (status n = Wall)
            then getNeighbors_from nodes boardArray x y rest neighbors
            else getNeighbors_from nodes boardArray x y rest (neighbors ++ [(newX, newY)])
        end
      else getNeighbors_from nodes boardArray x y rest neighbors
  end.

Definition getNeighbors (id : Id) (nodes : NodeDict) (boardArray : Board)
    : JS.Result (list Id) :=
  getNeighbors_from nodes boardArray id.1 id.2 cardinal [].

(** [getDistance]: [cost, path, direction]. *)
Definition getDistance (nodeOne nodeTwo : Node) : Z * list Move * option Direction :=
  let '(x1, y1) := id nodeOne in
  let '(x2, y2) := id nodeTwo in
  if x2 <? x1 then (1, [forward], Some Up)
  else if x2 >? x1 then (1, [forward], Some Down)
  else if y2 <? y1 then (1, [forward], Some Left)
  else if y2 >? y1 then (1, [forward], Some Right)
  else (1, [forward], direction nodeOne).

(** The comparator handed to the queue.  It is a closure over [nodes] and
    reads the heuristic of the two cells in the store as it is at the time
    of the call.  Reading a cell that has no node would raise a [TypeError];
    the ids in the queue all come out of [nodes[start]] and of
    [getNeighbors], which have read their nodes before, so that case stands
    for no run of the search and yields [NaN] here. *)
Definition compareNodes (nodes : NodeDict) (a b : Item Id) : Number.t :=
  if negb (JS.eqb (priority a) (priority b)) then Number.sub (priority a) (priority b)
  else
    match lookupNode nodes (element a), lookupNode nodes (element b) with
    | Some nodeA, Some nodeB =>
        Number.sub (JS.toNumber (heuristicDistance nodeA))
                   (JS.toNumber (heuristicDistance nodeB))
    | _, _ => Number.NotANumber
    end.

(** The assignments of the branch [if (newDistance < neighbor.distance)]. *)
Definition withNewPath (newDistance : JS.Num) (currentId : Id)
    (dist : Z * list Move * option Direction) (neighbor : Node) : Node :=
  {| id := id neighbor; status := status neighbor;
     previousNode := Some currentId;
     path := Some dist.1.2;
     direction := dist.2;
     distance := newDistance;
     totalDistance := JS.add newDistance (JS.toNumber (heuristicDistance neighbor));
     heuristicDistance := heuristicDistance neighbor; weight := weight neighbor |}.

(** The body of [for (const neighborId of neighbors)]; [dist] is the
    constant [distance] of the source. *)
Definition processNeighbor (target currentId neighborId : Id) (s : State)
    : JS.Result State :=
  if bool_decide (neighborId ∈ visited s) then JS.Ok s
  else
    match lookupNode (nodes s) neighborId with
    | None => JS.TypeError
    | Some neighbor =>
        if decide (status neighbor = Wall) then JS.Ok s
        else
          try nodes1 ←
            (if JS.falsy (heuristicDistance neighbor) then
               match lookupNode (nodes s) target with
               | Some tg =>
                   JS.Ok (mutate (set_heuristicDistance
                                    (JS.Val (manhattanDistance neighbor tg)))
                            neighborId (nodes s))
               | None => JS.TypeError
               end
             else JS.Ok (nodes s));
          match lookupNode nodes1 currentId, lookupNode nodes1 neighborId with
          | Some currentNode, Some neighbor1 =>
              let dist := getDistance currentNode neighbor1 in
              let newDistance :=
                JS.add (JS.add (distance currentNode) (JS.Fin (weight neighbor1)))
                       (JS.Fin dist.1.1) in
              if JS.ltb newDistance (distance neighbor1) then
                let neighbor2 := withNewPath newDistance currentId dist neighbor1 in
                let nodes2 := mutate (λ _, neighbor2) neighborId nodes1 in
                JS.Ok {| nodes := nodes2;
                         unvisitedQueue :=
                           enqueue (compareNodes nodes2) (unvisitedQueue s)
                             neighborId (totalDistance neighbor2);
                         visited := visited s;
                         nodesToAnimate := nodesToAnimate s |}
              else JS.Ok {| nodes := nodes1; unvisitedQueue := unvisitedQueue s;
                            visited := visited s;
                            nodesToAnimate := nodesToAnimate s |}
          | _, _ => JS.TypeError
          end
    end.

Fixpoint processNeighbors (target currentId : Id) (neighbors : list Id) (s : State)
    : JS.Completion State :=
  match neighbors with
  | [] => JS.Normal s
  | neighborId :: rest =>
      match processNeighbor target currentId neighborId s with
      | JS.Ok s1 => processNeighbors target currentId rest s1
      | JS.TypeError => JS.Abrupt s
      end
  end.

(** One turn of the [while] loop. *)
Inductive Step : Type :=
| Next (s : State)
| Stop (o : Outcome) (s : State).

Definition iteration (boardArray : Board) (target : Id) (s : State) : Step :=
  let dequeued := dequeue (compareNodes (nodes s)) (unvisitedQueue s) in
  let s1 := {| nodes := nodes s; unvisitedQueue := dequeued.2;
               visited := visited s; nodesToAnimate := nodesToAnimate s |} in
  match dequeued.1 with
  | None => Stop Throws s1
  | Some currentId =>
      if bool_decide (currentId ∈ visited s) then Next s1
      else
        match lookupNode (nodes s) currentId with
        | None => Stop Throws s1
        | Some currentNode =>
            if decide (status currentNode = Wall) then Next s1
            else
              let s2 := {| nodes := mutate (set_status Visited) currentId (nodes s);
                           unvisitedQueue := dequeued.2;
                           visited := {[currentId]} ∪ visited s;
                           nodesToAnimate := nodesToAnimate s ++ [currentId] |} in
              if decide (currentId = target) then Stop ReturnSuccess s2
              else
                match getNeighbors currentId (nodes s2) boardArray with
                | JS.TypeError => Stop Throws s2
                | JS.Ok neighbors =>
                    match processNeighbors target currentId neighbors s2 with
                    | JS.Normal s3 => Next s3
                    | JS.Abrupt s3 => Stop Throws s3
                    end
                end
        end
  end.

(** The [while (!unvisitedQueue.isEmpty())] loop; [None] only when the
    fuel runs out. *)
Fixpoint optimizedAStar_loop (boardArray : Board) (target : Id) (fuel : nat)
    (s : State) : option (Outcome * State) :=
  if isEmpty (unvisitedQueue s) then Some (ReturnFalse, s)
  else
    match fuel with
    | O => None
    | S fuel' =>
        match iteration boardArray target s with
        | Next s' => optimizedAStar_loop boardArray target fuel' s'
        | Stop o s' => Some (o, s')
        end
    end.

(** The state in which the loop starts. *)
Definition initial (nodes : NodeDict) (start : Id) (nodesToAnimate : list Id) : State :=
  let nodes1 :=
    mutate (λ n,
      {| id := id n; status := status n; previousNode := previousNode n;
         path := path n; direction := Some Up; distance := JS.Fin 0;
         totalDistance := JS.Fin 0;
         heuristicDistance := heuristicDistance n; weight := weight n |})
      start nodes in
  {| nodes := nodes1;
     unvisitedQueue := enqueue (compareNodes nodes1) [] start (JS.Fin 0);
     visited := ∅; nodesToAnimate := nodesToAnimate |}.

(** [optimizedAStar(nodes, start, target, nodesToAnimate, boardArray)]; a
    missing id is [None].  Every turn of the loop takes one item out of the
    queue and a cell is expanded once, so four turns for every node and one
    more are fuel enough. *)
Definition optimizedAStar (nodes : NodeDict) (start target : option Id)
    (nodesToAnimate : list Id) (boardArray : Board) : option (Outcome * State) :=
  let unchanged := {| nodes := nodes; unvisitedQueue := []; visited := ∅;
                      nodesToAnimate := nodesToAnimate |} in
  match start, target with
  | Some st, Some tg =>
      if bool_decide (st = tg) then Some (ReturnFalse, unchanged)
      else
        match lookupNode nodes st with
        | None => Some (Throws, unchanged)
        | Some _ =>
            optimizedAStar_loop boardArray tg (4 * base.size (oget nodes) + 1)%nat
              (initial nodes st nodesToAnimate)
        end
  | _, _ => Some (ReturnFalse, unchanged)
  end.

End OptimizedAStar.

(** ** Test grids *)

Module Fixture.

(** Ids of an [h]-by-[w] grid in row-major order. *)
Definition gridIds (h w : nat) : list Id :=
  r ← seq 0 h; c ← seq 0 w; [(Z.of_nat r, Z.of_nat c)].

(** The grid of the test suites: every cell is [new Node(id, "unvisited")]. *)
Definition freshGrid (h w : nat) : NodeDict :=
  {| okeys := gridIds h w;
     oget := list_to_map ((λ i, (i, newNode i Unvisited)) <$> gridIds h w) |}.

(** [Array(h).fill().map(() => Array(w).fill(1))] *)
Definition fullBoard (h w : nat) : Board := replicate h (replicate w true).

(** The nodes of [runAStarExample]: object literals without a
    [heuristicDistance] property. *)
Definition plainNode (i : Id) : Node :=
  {| id := i; status := Unvisited; previousNode := None; path := None;
     direction := None; distance := JS.Infinity; totalDistance := JS.Infinity;
     heuristicDistance := JS.Undefined; weight := 0 |}.

Definition plainGrid (h w : nat) : NodeDict :=
  {| okeys := gridIds h w;
     oget := list_to_map ((λ i, (i, plainNode i)) <$> gridIds h w) |}.

Definition setWalls (ws : list Id) (nodes : NodeDict) : NodeDict :=
  foldr (mutate (set_status Wall)) nodes ws.

(** The nodes of the [getDistance] test suite: [new Node(id, "unvisited")]
    with its [direction] set. *)
Definition facing (i : Id) (d : Direction) : Node :=
  set_direction (Some d) (newNode i Unvisited).

(** The eight cases of the [getDistance] test suite, in file order: the two
    nodes and the expected [cost, path, direction]. *)
Definition getDistance_tests : list (Node * Node * (Z * list Move * option Direction)) :=
  [ (facing (2, 1) Up,    newNode (1, 1) Unvisited, (1, [forward], Some Up));
    (facing (2, 1) Right, newNode (1, 1) Unvisited, (2, [turn_left; forward], Some Up));
    (facing (2, 1) Left,  newNode (1, 1) Unvisited, (2, [turn_right; forward], Some Up));
    (facing (2, 1) Down,  newNode (1, 1) Unvisited,
       (3, [turn_right; turn_right; forward], Some Up));
    (facing (1, 1) Up,    newNode (2, 1) Unvisited,
       (3, [turn_right; turn_right; forward], Some Down));
    (facing (1, 2) Up,    newNode (1, 1) Unvisited, (2, [turn_left; forward], Some Left));
    (facing (1, 1) Up,    newNode (1, 2) Unvisited, (2, [turn_right; forward], Some Right));
    (facing (1, 1) Right, newNode (1, 2) Unvisited, (1, [forward], Some Right)) ].

End Fixture.

(** * Properties *)

(** ** Cost model: [AStar.getDistance] *)

Section GetDistance.

Import ClassAStar.

(** Whatever the heading, the recorded path is the single instruction
    ["f"] and the cost is 1 or 2. *)
Lemma getDistance_path_and_cost (nodeOne nodeTwo : Node) :
  (getDistance nodeOne nodeTwo).1.2 = [forward] ∧
  ((getDistance nodeOne nodeTwo).1.1 = 1 ∨ (getDistance nodeOne nodeTwo).1.1 = 2).
Proof.
  unfold getDistance.
  destruct (id nodeOne) as [x1 y1], (id nodeTwo) as [x2 y2].
  repeat (case_match; simpl; auto).
Qed.

(** The cell one step away in direction [d]. *)
Definition step_to (d : Direction) (c : Id) : Id :=
  match d with
  | Up => (c.1 - 1, c.2)
  | Down => (c.1 + 1, c.2)
  | Left => (c.1, c.2 - 1)
  | Right => (c.1, c.2 + 1)
  end.

(** Between adjacent cells: moving on in the current heading costs 1, any
    other heading costs 2, and the new heading is the direction of the
    move. *)
Lemma getDistance_adjacent (nodeOne nodeTwo : Node) (d : Direction) :
  id nodeTwo = step_to d (id nodeOne) →
  getDistance nodeOne nodeTwo =
    (if decide (direction nodeOne = Some d) then 1 else 2, [forward], Some d).
Proof.
  intros H. unfold getDistance. rewrite H.
  destruct (id nodeOne) as [x y]; destruct d; simpl;
    repeat match goal with
           | |- context [?a <? ?b] => destruct (Z.ltb_spec a b); try lia
           | |- context [?a >? ?b] => rewrite (Z.gtb_ltb a b)
           | |- context [?a =? ?b] => destruct (Z.eqb_spec a b); try lia
           end; simpl; reflexivity.
Qed.

(** C1, on the input of the test "current direction is down, target above":
    the suite expects [3, ["r", "r", "f"], "up"]; [AStar.getDistance] prices the
    reversal like a quarter turn and records no turn instruction. *)
Theorem getDistance_reversal_is_priced_as_turn :
  getDistance (Fixture.facing (2, 1) Down) (newNode (1, 1) Unvisited)
    = (2, [forward], Some Up)
  ∧ getDistance (Fixture.facing (2, 1) Down) (newNode (1, 1) Unvisited)
    ≠ (3, [turn_right; turn_right; forward], Some Up).
Proof. split; [reflexivity | discriminate]. Qed.

(** Of the eight cases of the suite, [AStar.getDistance] meets the two
    that keep the heading. *)
Lemma getDistance_tests_met :
  filter (λ t, getDistance t.1.1 t.1.2 = t.2) Fixture.getDistance_tests
  = [ (Fixture.facing (2, 1) Up, newNode (1, 1) Unvisited, (1, [forward], Some Up));
      (Fixture.facing (1, 1) Right, newNode (1, 2) Unvisited, (1, [forward], Some Right)) ].
Proof. reflexivity. Qed.

(** The renditions of the cost model in the utilities and in
    improved-astar.js record the same single instruction; the first prices
    like [AStar.getDistance], the second charges 1 whatever the heading. *)
Lemma sibling_cost_models (nodeOne nodeTwo : Node) :
  Utils.calculateNodeDistance nodeOne nodeTwo = getDistance nodeOne nodeTwo
  ∧ (Improved.calculateNodeDistance nodeOne nodeTwo).1 = (1, [forward])
  ∧ (ModernAStar.getDistance nodeOne nodeTwo).1 = (1, [forward]).
Proof.
  unfold Utils.calculateNodeDistance, getDistance, Improved.calculateNodeDistance,
    ModernAStar.getDistance.
  destruct (id nodeOne) as [x1 y1], (id nodeTwo) as [x2 y2].
  split_and!; repeat (case_match; simpl; try reflexivity).
Qed.

End GetDistance.

(** ** Input validation *)

Section Validation.

(** [astar] of improved-astar.js: a missing id, an id without a node, or
    equal ids make the call return [false] with the dictionary and the trace
    untouched. *)
Lemma astar_invalid_input_returns_false (nodes : NodeDict) (start target : option Id)
    (trace : list Id) (boardArray : Board) (heuristic : Node → Node → Z) :
  start = None ∨ target = None ∨ start ≫= lookupNode nodes = None
  ∨ target ≫= lookupNode nodes = None ∨ start = target →
  Improved.astar nodes start target trace boardArray heuristic
  = Some (Improved.ReturnFalse,
          {| Improved.nodes := nodes; Improved.unvisitedNodes := [];
             Improved.nodesToAnimate := trace; Improved.heuristicCalls := [] |}).
Proof.
  intros H. unfold Improved.astar, Improved.validateInputs.
  destruct start as [s|], target as [t|]; simpl in *; try reflexivity.
  destruct (lookupNode nodes s) eqn:Hs, (lookupNode nodes t) eqn:Ht; try reflexivity.
  destruct H as [H|[H|[H|[H|H]]]]; try discriminate.
  injection H as ->. rewrite bool_decide_eq_true_2; reflexivity.
Qed.

(** [AStar.execute] guards the same call with
    [!start || !target || start === target] only. *)
Lemma execute_guard (nodes : NodeDict) (boardArray : Board) (trace : list Id)
    (start target : option Id) :
  start = None ∨ target = None ∨ start = target →
  ClassAStar.execute nodes boardArray trace start target
  = Some (ClassAStar.ReturnFalse,
          {| ClassAStar.nodes := nodes; ClassAStar.nodesToAnimate := trace;
             ClassAStar.unvisitedNodes := [] |}).
Proof.
  intros H. unfold ClassAStar.execute.
  destruct start as [s|], target as [t|]; try reflexivity.
  destruct H as [H|[H|H]]; try discriminate.
  injection H as ->. rewrite bool_decide_eq_true_2; reflexivity.
Qed.

(** C3, on a 1-by-2 grid: with a start id that has no node [AStar.execute]
    raises a [TypeError] at [this.nodes[start].distance = 0]; with a target id
    that has no node it sets the start cost to 0, marks the start visited,
    appends it to the trace and then raises in [updateNode].  [astar] returns
    [false] on both inputs and changes nothing. *)
Theorem execute_absent_cell_is_not_rejected :
  let grid := Fixture.freshGrid 1 2 in
  let board := Fixture.fullBoard 1 2 in
  (fst <$> ClassAStar.execute grid board [] (Some (5, 5)) (Some (0, 0)))
    = Some ClassAStar.Throws
  ∧ (∃ s, ClassAStar.execute grid board [] (Some (0, 0)) (Some (5, 5))
          = Some (ClassAStar.Throws, s)
        ∧ ClassAStar.nodesToAnimate s = [(0, 0)]
        ∧ (distance <$> lookupNode (ClassAStar.nodes s) (0, 0)) = Some (JS.Fin 0)
        ∧ (status <$> lookupNode (ClassAStar.nodes s) (0, 0)) = Some Visited)
  ∧ (fst <$> Improved.astar grid (Some (5, 5)) (Some (0, 0)) [] board
               Improved.manhattanDistance) = Some Improved.ReturnFalse
  ∧ (fst <$> Improved.astar grid (Some (0, 0)) (Some (5, 5)) [] board
               Improved.manhattanDistance) = Some Improved.ReturnFalse.
Proof.
  repeat split; try reflexivity.
  eexists. split; [vm_compute; reflexivity|]. repeat split; reflexivity.
Qed.

End Validation.

(** ** Path reconstruction: [getShortestPath] *)

Section ShortestPath.

Import ModernAStar.

(** A chain of back-pointers: [chain nodes k ks] when following
    [previousNode] from [k] visits exactly [ks] (nearest first) and then
    meets [null]. *)
Inductive chain (nodes : NodeDict) : option Id → list Id → Prop :=
| chain_end : chain nodes None []
| chain_link k n ks :
    lookupNode nodes k = Some n →
    chain nodes (previousNode n) ks →
    chain nodes (Some k) (k :: ks).

(** Following [previousNode] from [k] never meets [null]. *)
Definition endless (nodes : NodeDict) (k : option Id) : Prop :=
  ∀ ks, ¬ chain nodes k ks.

(** What the specification asks for a chain that misses the start: no path
    is handed back unless it begins at the start cell. *)
Definition only_paths_from_start (nodes : NodeDict) (start : Id) (target : option Id)
    : Prop :=
  ∀ fuel p, getShortestPath fuel nodes target = Some (JS.Ok p) → head p = Some start.

Lemma getShortestPath_walk_chain (nodes : NodeDict) (k : option Id) (ks : list Id) :
  chain nodes k ks →
  ∀ fuel acc, (length ks ≤ fuel)%nat →
  getShortestPath_walk fuel nodes acc k = Some (JS.Ok (reverse ks ++ acc)).
Proof.
  induction 1 as [|k n ks Hk Hc IH]; intros fuel acc Hfuel.
  - destruct fuel; reflexivity.
  - destruct fuel as [|fuel]; simpl in *; [lia|].
    rewrite Hk, IH by lia. rewrite reverse_cons, <- app_assoc. reflexivity.
Qed.

Lemma getShortestPath_walk_returns (nodes : NodeDict) (fuel : nat) :
  ∀ k acc p, getShortestPath_walk fuel nodes acc k = Some (JS.Ok p) →
  ∃ ks, chain nodes k ks ∧ p = reverse ks ++ acc.
Proof.
  induction fuel as [|fuel IH]; intros k acc p H; destruct k as [k|]; simpl in H;
    try discriminate.
  - injection H as <-. exists []. split; [constructor | reflexivity].
  - destruct (lookupNode nodes k) as [n|] eqn:Hk; [|discriminate].
    apply IH in H as (ks & Hc & ->). exists (k :: ks). split.
    + econstructor; eauto.
    + rewrite reverse_cons, <- app_assoc. reflexivity.
  - injection H as <-. exists []. split; [constructor | reflexivity].
Qed.

(** A two-cell dictionary whose back-pointers form a cycle. *)
Definition cyclic : NodeDict :=
  {| okeys := [(0, 0); (0, 1)];
     oget := {[ (0, 0) := mkNode (0, 0) Visited (Some (0, 1)) None None
                            (JS.Fin 0) (JS.Fin 0) JS.Null 0;
                (0, 1) := mkNode (0, 1) Visited (Some (0, 0)) None None
                            (JS.Fin 1) (JS.Fin 1) JS.Null 0 ]} |}.

(** C8 fails as stated: on a fresh grid the target has no back-pointer, the
    chain from it never reaches the start, and [getShortestPath] hands back
    the one-cell path made of the target alone. *)
Lemma getShortestPath_gives_partial_path :
  getShortestPath 1 (Fixture.freshGrid 1 2) (Some (0, 1)) = Some (JS.Ok [(0, 1)])
  ∧ ¬ only_paths_from_start (Fixture.freshGrid 1 2) (0, 0) (Some (0, 1)).
Proof.
  split; [reflexivity|].
  intros H. specialize (H 1%nat [(0, 1)] eq_refl). discriminate.
Qed.

(** C8 as amended: [getShortestPath] (both renditions) takes no start cell
    and signals nothing.  On a chain of back-pointers that ends in [null] it
    returns, with fuel for every link, exactly the cells of the chain from its
    far end to the target, whether or not that end is the start; whenever it
    returns a path, the path is such a chain; and on a chain that never meets
    [null] (a cycle) no amount of fuel lets it return. *)
Theorem getShortestPath_follows_back_pointers (nodes : NodeDict) (target : option Id) :
  (∀ ks fuel, chain nodes target ks → (length ks ≤ fuel)%nat →
     getShortestPath fuel nodes target = Some (JS.Ok (reverse ks))
     ∧ Utils.getShortestPath fuel nodes target = Some (JS.Ok (reverse ks)))
  ∧ (∀ fuel p, getShortestPath fuel nodes target = Some (JS.Ok p) →
       chain nodes target (reverse p))
  ∧ (endless nodes target →
       ∀ fuel p, getShortestPath fuel nodes target ≠ Some (JS.Ok p)).
Proof.
  split; [|split].
  - intros ks fuel Hc Hf. unfold Utils.getShortestPath, getShortestPath.
    rewrite (getShortestPath_walk_chain _ _ _ Hc) by done.
    rewrite app_nil_r. done.
  - intros fuel p H. apply getShortestPath_walk_returns in H as (ks & Hc & ->).
    rewrite app_nil_r, reverse_involutive. done.
  - intros Hend fuel p H. apply getShortestPath_walk_returns in H as (ks & Hc & _).
    exact (Hend ks Hc).
Qed.

Lemma cyclic_is_endless : endless cyclic (Some (0, 0)).
Proof.
  assert (H : ∀ ks, ¬ chain cyclic (Some (0, 0)) ks ∧ ¬ chain cyclic (Some (0, 1)) ks).
  { induction ks as [|k ks [IH0 IH1]]; split; intros Hc;
      inversion Hc as [|k' n ks' Hlook Hrest]; subst.
    - vm_compute in Hlook. injection Hlook as <-. simpl in Hrest. apply (IH1 Hrest).
    - vm_compute in Hlook. injection Hlook as <-. simpl in Hrest. apply (IH0 Hrest). }
  intros ks. apply H.
Qed.

Lemma getShortestPath_follows_back_pointers_witness :
  (getShortestPath 7 (Fixture.freshGrid 1 2) (Some (0, 1)) = Some (JS.Ok (reverse [(0, 1)]))
   ∧ Utils.getShortestPath 7 (Fixture.freshGrid 1 2) (Some (0, 1))
     = Some (JS.Ok (reverse [(0, 1)])))
  ∧ (∀ fuel p, getShortestPath fuel cyclic (Some (0, 0)) ≠ Some (JS.Ok p)).
Proof.
  split.
  - apply (getShortestPath_follows_back_pointers (Fixture.freshGrid 1 2) (Some (0, 1))).
    + econstructor; [reflexivity|]. constructor.
    + simpl. lia.
  - apply (getShortestPath_follows_back_pointers cyclic (Some (0, 0))).
    exact cyclic_is_endless.
Defined.

End ShortestPath.

(** ** Adjacency in diagonal mode *)

Section Neighbors.

Variable nodes : NodeDict.
Variable boardArray : Board.
Variables x y : Z.

(** The status of the cell [c] is ["wall"]. *)
Definition isWall (c : Id) : bool :=
  match lookupNode nodes c with
  | Some n => bool_decide (status n = Wall)
  | None => false
  end.

(** The rule in the words of the specification: the candidate at offset
    [d] is kept when it is on the board and not a wall and, for a diagonal
    offset, when its two orthogonal companions are not both walls. *)
Definition admitted (d : Z * Z) : bool :=
  inBoard boardArray (x + d.1) (y + d.2)
  && negb (isWall (x + d.1, y + d.2))
  && negb ((Z.abs d.1 =? 1) && (Z.abs d.2 =? 1)
           && isWall (x, y + d.2) && isWall (x + d.1, y)).

Definition shift (d : Z * Z) : Id := (x + d.1, y + d.2).

(** Every candidate on the board, and its two companions, has a node. *)
Definition candidates_have_nodes (directions : list (Z * Z)) : Prop :=
  ∀ d, d ∈ directions → inBoard boardArray (x + d.1) (y + d.2) = true →
       is_Some (lookupNode nodes (x + d.1, y + d.2))
       ∧ is_Some (lookupNode nodes (x, y + d.2))
       ∧ is_Some (lookupNode nodes (x + d.1, y)).

Lemma candidates_have_nodes_cons d directions :
  candidates_have_nodes (d :: directions) →
  (inBoard boardArray (x + d.1) (y + d.2) = true →
     is_Some (lookupNode nodes (x + d.1, y + d.2))
     ∧ is_Some (lookupNode nodes (x, y + d.2))
     ∧ is_Some (lookupNode nodes (x + d.1, y)))
  ∧ candidates_have_nodes directions.
Proof.
  intros H. split.
  - apply H. left.
  - intros d' Hd'. apply H. right. done.
Qed.

Lemma filter_admitted_cons (d : Z * Z) (directions : list (Z * Z)) :
  filter (λ d, admitted d) (d :: directions)
  = if admitted d then d :: filter (λ d, admitted d) directions
    else filter (λ d, admitted d) directions.
Proof.
  rewrite filter_cons. destruct (admitted d); reflexivity.
Qed.

Ltac neighbours_step IH :=
  simpl; repeat case_bool_decide; try done; simpl;
  rewrite ?andb_false_r, ?andb_true_r; simpl;
  rewrite IH; rewrite <- ?app_assoc; reflexivity.

Lemma modern_getNeighbors_from_admitted (directions : list (Z * Z)) :
  candidates_have_nodes directions →
  ∀ neighbors,
    ModernAStar.getNeighbors_from nodes boardArray x y directions neighbors
    = JS.Ok (neighbors ++ (shift <$> filter (λ d, admitted d) directions)).
Proof.
  induction directions as [|[dx dy] directions IH]; intros Hwf neighbors; simpl.
  { rewrite app_nil_r. reflexivity. }
  apply candidates_have_nodes_cons in Hwf as [Hd Hwf]. simpl in Hd.
  specialize (IH Hwf).
  rewrite filter_admitted_cons. unfold admitted at 1, isWall. simpl.
  destruct (inBoard boardArray (x + dx) (y + dy)) eqn:Hin; simpl.
  2: { neighbours_step IH. }
  destruct (Hd eq_refl) as ([n Hn] & [h Hh] & [v Hv]).
  rewrite Hn. destruct (decide (status n = Wall)) as [Hw|Hw].
  { neighbours_step IH. }
  destruct ((Z.abs dx =? 1) && (Z.abs dy =? 1)) eqn:Hdiag.
  2: { apply andb_false_iff in Hdiag. destruct Hdiag as [Hdiag|Hdiag];
       neighbours_step IH. }
  apply andb_true_iff in Hdiag as [Hdx Hdy].
  rewrite Hh. destruct (decide (status h = Wall)) as [Hhw|Hhw].
  2: { neighbours_step IH. }
  rewrite Hv. destruct (decide (status v = Wall)) as [Hvw|Hvw]; neighbours_step IH.
Qed.

Lemma utils_getNeighbors_from_admitted (directions : list (Z * Z)) :
  candidates_have_nodes directions →
  ∀ neighbors,
    Utils.getNeighbors_from nodes boardArray x y directions neighbors
    = JS.Ok (neighbors ++ (shift <$> filter (λ d, admitted d) directions)).
Proof.
  induction directions as [|[dx dy] directions IH]; intros Hwf neighbors; simpl.
  { rewrite app_nil_r. reflexivity. }
  apply candidates_have_nodes_cons in Hwf as [Hd Hwf]. simpl in Hd.
  specialize (IH Hwf).
  rewrite filter_admitted_cons. unfold admitted at 1, isWall. simpl.
  destruct (inBoard boardArray (x + dx) (y + dy)) eqn:Hin; simpl.
  2: { neighbours_step IH. }
  destruct (Hd eq_refl) as ([n Hn] & [h Hh] & [v Hv]).
  rewrite Hn.
  destruct ((Z.abs dx =? 1) && (Z.abs dy =? 1)) eqn:Hdiag.
  2: { apply andb_false_iff in Hdiag.
       destruct (decide (status n = Wall)) as [Hw|Hw];
       destruct Hdiag as [Hdiag|Hdiag]; neighbours_step IH. }
  apply andb_true_iff in Hdiag as [Hdx Hdy].
  rewrite Hh. destruct (decide (status h = Wall)) as [Hhw|Hhw].
  2: { destruct (decide (status n = Wall)) as [Hw|Hw]; neighbours_step IH. }
  rewrite Hv. destruct (decide (status v = Wall)) as [Hvw|Hvw];
    destruct (decide (status n = Wall)) as [Hw|Hw]; neighbours_step IH.
Qed.

End Neighbors.

Section Fixtures.

Import Fixture.

Lemma inBoard_fullBoard (h w : nat) (i j : Z) :
  inBoard (fullBoard h w) i j = true ↔ 0 ≤ i < Z.of_nat h ∧ 0 ≤ j < Z.of_nat w.
Proof.
  unfold inBoard, fullBoard.
  destruct (Z.ltb_spec i 0), (Z.ltb_spec j 0); simpl; try (split; [discriminate|lia]).
  destruct (decide (Z.to_nat i < h)%nat) as [Hi|Hi].
  - rewrite (lookup_replicate_2 h (replicate w true) _ Hi).
    destruct (decide (Z.to_nat j < w)%nat) as [Hj|Hj].
    + rewrite (lookup_replicate_2 w true _ Hj). split; [lia|done].
    + assert (replicate w true !! Z.to_nat j = None) as ->
        by (apply lookup_replicate_None; lia).
      split; [discriminate|lia].
  - assert (replicate h (replicate w true) !! Z.to_nat i = None) as ->
      by (apply lookup_replicate_None; lia).
    split; [discriminate|lia].
Qed.

(** The truthy cells of a full board form a rectangle. *)
Lemma fullBoard_rectangle (h w : nat) (i j i' j' : Z) :
  inBoard (fullBoard h w) i j = true → inBoard (fullBoard h w) i' j' = true →
  inBoard (fullBoard h w) i j' = true.
Proof. rewrite !inBoard_fullBoard. lia. Qed.

End Fixtures.

Section NeighborsTheorem.

Lemma cardinal_not_diagonal (d : Z * Z) :
  d ∈ cardinal → (Z.abs d.1 =? 1) && (Z.abs d.2 =? 1) = false.
Proof.
  unfold cardinal. rewrite !elem_of_cons, elem_of_nil.
  intros [-> | [-> | [-> | [-> | []]]]]; reflexivity.
Qed.

Lemma diagonal_is_diagonal (d : Z * Z) :
  d ∈ diagonal → (Z.abs d.1 =? 1) && (Z.abs d.2 =? 1) = true.
Proof.
  unfold diagonal. rewrite !elem_of_cons, elem_of_nil.
  intros [-> | [-> | [-> | [-> | []]]]]; reflexivity.
Qed.

Lemma elem_of_admitted (nodes : NodeDict) (boardArray : Board) (x y : Z)
    (directions : list (Z * Z)) (d : Z * Z) :
  d ∈ directions →
  (x + d.1, y + d.2) ∈ shift x y <$> filter (λ d, admitted nodes boardArray x y d) directions
  ↔ admitted nodes boardArray x y d = true.
Proof.
  intros Hd. rewrite list_elem_of_fmap. split.
  - intros (d' & Heq & Hin). apply list_elem_of_filter in Hin as [Hadm _].
    unfold shift in Heq. destruct d, d'; simpl in *.
    assert (z = z1) as -> by (injection Heq; lia).
    assert (z0 = z2) as -> by (injection Heq; lia).
    apply Is_true_true. done.
  - intros Hadm. exists d. split; [reflexivity|].
    apply list_elem_of_filter. split; [apply Is_true_true; done|done].
Qed.

(** C9.  In diagonal mode, on a rectangular board whose cells all have a
    node, [#getNeighbors] (modern-astar.js) and [getNeighbors] (utilities)
    return the same list; it holds only cells one step away in one of the
    eight directions; a cardinal candidate is in it exactly when it is on the
    board and not a wall; a diagonal candidate is in it exactly when it is on
    the board, not a wall, and its two orthogonal companions are not both
    walls. *)
Theorem getNeighbors_diagonal_mode (options : ModernAStar.Options)
    (nodes : NodeDict) (boardArray : Board) (x y : Z) :
  ModernAStar.allowDiagonal options = true →
  (∀ i j, inBoard boardArray i j = true → is_Some (lookupNode nodes (i, j))) →
  (∀ i j i' j', inBoard boardArray i j = true → inBoard boardArray i' j' = true →
                inBoard boardArray i j' = true) →
  inBoard boardArray x y = true →
  ∃ neighbors,
    ModernAStar.getNeighbors options (x, y) nodes boardArray = JS.Ok neighbors
    ∧ Utils.getNeighbors (x, y) nodes boardArray true = JS.Ok neighbors
    ∧ (∀ c, c ∈ neighbors → ∃ d, d ∈ cardinal ++ diagonal ∧ c = (x + d.1, y + d.2))
    ∧ (∀ d, d ∈ cardinal →
         (x + d.1, y + d.2) ∈ neighbors
         ↔ inBoard boardArray (x + d.1) (y + d.2) = true
           ∧ isWall nodes (x + d.1, y + d.2) = false)
    ∧ (∀ d, d ∈ diagonal →
         (x + d.1, y + d.2) ∈ neighbors
         ↔ inBoard boardArray (x + d.1) (y + d.2) = true
           ∧ isWall nodes (x + d.1, y + d.2) = false
           ∧ ¬ (isWall nodes (x, y + d.2) = true ∧ isWall nodes (x + d.1, y) = true)).
Proof.
  intros Hdiag Hnodes Hrect Hcell.
  assert (Hwf : candidates_have_nodes nodes boardArray x y (cardinal ++ diagonal)).
  { intros d _ Hin. repeat split; apply Hnodes; eauto. }
  exists (shift x y <$> filter (λ d, admitted nodes boardArray x y d) (cardinal ++ diagonal)).
  split; [|split; [|split; [|split]]].
  - unfold ModernAStar.getNeighbors. rewrite Hdiag. simpl fst; simpl snd.
    rewrite (modern_getNeighbors_from_admitted _ _ _ _ _ Hwf). reflexivity.
  - unfold Utils.getNeighbors. simpl fst; simpl snd.
    rewrite (utils_getNeighbors_from_admitted _ _ _ _ _ Hwf). reflexivity.
  - intros c Hc. apply list_elem_of_fmap in Hc as (d & -> & Hd).
    apply list_elem_of_filter in Hd as [_ Hd]. exists d. done.
  - intros d Hd. rewrite elem_of_admitted by (apply elem_of_app; auto).
    unfold admitted. rewrite (cardinal_not_diagonal d Hd). simpl.
    rewrite andb_true_r, andb_true_iff, negb_true_iff. done.
  - intros d Hd. rewrite elem_of_admitted by (apply elem_of_app; auto).
    unfold admitted. rewrite (diagonal_is_diagonal d Hd). simpl.
    rewrite !andb_true_iff, !negb_true_iff, andb_false_iff.
    destruct (isWall nodes (x, y + d.2)), (isWall nodes (x + d.1, y)); intuition congruence.
Qed.

(** A 3-by-3 grid with walls north and west of the centre: seen from the
    centre, the north-west diagonal is a corner cut. *)
Definition cornered : NodeDict :=
  Fixture.setWalls [(0, 1); (1, 0)] (Fixture.freshGrid 3 3).

Lemma cornered_has_nodes (i j : Z) :
  inBoard (Fixture.fullBoard 3 3) i j = true → is_Some (lookupNode cornered (i, j)).
Proof.
  rewrite inBoard_fullBoard. intros [Hi Hj].
  assert (i = 0 ∨ i = 1 ∨ i = 2) as [-> | [-> | ->]] by lia;
  assert (j = 0 ∨ j = 1 ∨ j = 2) as [-> | [-> | ->]] by lia;
  vm_compute; eauto.
Qed.

Lemma getNeighbors_diagonal_mode_witness :
  ∃ neighbors,
    ModernAStar.getNeighbors (ModernAStar.mkOptions true ModernAStar.manhattan_name 1)
      (1, 1) cornered (Fixture.fullBoard 3 3) = JS.Ok neighbors
    ∧ ((0, 0) ∉ neighbors) ∧ ((0, 2) ∈ neighbors)
    ∧ ((0, 1) ∉ neighbors) ∧ ((1, 2) ∈ neighbors).
Proof.
  destruct (getNeighbors_diagonal_mode
              (ModernAStar.mkOptions true ModernAStar.manhattan_name 1)
              cornered (Fixture.fullBoard 3 3) 1 1 eq_refl cornered_has_nodes
              (fullBoard_rectangle 3 3) eq_refl)
    as (neighbors & Hm & _ & _ & Hcard & Hdiag).
  exists neighbors. split; [exact Hm|].
  split; [|split; [|split]].
  - intros H. apply (Hdiag (-1, -1)) in H; [|repeat constructor].
    destruct H as (_ & _ & H). apply H. split; reflexivity.
  - apply (Hdiag (-1, 1)); [repeat constructor|]. vm_compute. intuition discriminate.
  - intros H. apply (Hcard (-1, 0)) in H; [|repeat constructor].
    destruct H as [_ H]. vm_compute in H. discriminate.
  - apply (Hcard (0, 1)); [repeat constructor|]. vm_compute. done.
Defined.

End NeighborsTheorem.

(** ** The node store *)

Section Store.

Lemma lookupNode_mutate (g : Node → Node) (k k' : Id) (nodes : NodeDict) :
  lookupNode (mutate g k nodes) k'
  = if decide (k = k') then g <$> lookupNode nodes k' else lookupNode nodes k'.
Proof.
  unfold lookupNode, mutate. simpl. rewrite lookup_alter.
  destruct (decide (k = k')) as [->|]; reflexivity.
Qed.

Lemma lookupNode_mutate_eq (g : Node → Node) (k : Id) (nodes : NodeDict) (n : Node) :
  lookupNode nodes k = Some n → lookupNode (mutate g k nodes) k = Some (g n).
Proof. intros H. rewrite lookupNode_mutate, decide_True, H; done. Qed.

Lemma lookupNode_mutate_ne (g : Node → Node) (k k' : Id) (nodes : NodeDict) :
  k ≠ k' → lookupNode (mutate g k nodes) k' = lookupNode nodes k'.
Proof. intros H. rewrite lookupNode_mutate, decide_False; done. Qed.

Lemma mutate_mutate (g1 g2 : Node → Node) (k : Id) (nodes : NodeDict) :
  mutate g1 k (mutate g2 k nodes) = mutate (g1 ∘ g2) k nodes.
Proof. unfold mutate. simpl. f_equal. apply alter_alter_eq. Qed.

Lemma mutate_ext (g1 g2 : Node → Node) (k : Id) (nodes : NodeDict) :
  (∀ n, lookupNode nodes k = Some n → g1 n = g2 n) →
  mutate g1 k nodes = mutate g2 k nodes.
Proof. intros H. unfold mutate. f_equal. apply alter_ext. exact H. Qed.

End Store.

(** ** Frontier selection *)

Section Selection.

(** [n] does not displace [c] in the scan: it has no lower [totalDistance]
    and, on a tie of [totalDistance], no lower [heuristicDistance]. *)
Definition holds_against (c n : Node) : Prop :=
  JS.gtb (totalDistance c) (totalDistance n) = false
  ∧ (JS.eqb (totalDistance c) (totalDistance n) = true →
     JS.gtb (JS.toNumber (heuristicDistance c)) (JS.toNumber (heuristicDistance n)) = false).

Lemma gtb_trans (a b c : JS.Num) :
  JS.gtb a b = true → JS.gtb b c = true → JS.gtb a c = true.
Proof.
  unfold JS.gtb, JS.ltb. destruct a, b, c; try done.
  rewrite !Z.ltb_lt. lia.
Qed.

Lemma ltb_irrefl (a : JS.Num) : JS.ltb a a = false.
Proof. destruct a; simpl; try done. apply Z.ltb_irrefl. Qed.

Lemma ltb_trans (a b c : JS.Num) : JS.ltb a b = true → JS.ltb b c = true → JS.ltb a c = true.
Proof. intros H1 H2. apply (gtb_trans c b a); done. Qed.

Lemma gtb_eqb_l (a b c : JS.Num) :
  JS.eqb a b = true → JS.gtb a c = JS.gtb b c.
Proof.
  unfold JS.eqb, JS.gtb, JS.ltb. destruct a, b, c; try done.
  all: rewrite Z.eqb_eq; intros ->; done.
Qed.

Lemma gtb_eqb_r (a b c : JS.Num) :
  JS.eqb b c = true → JS.gtb a b = JS.gtb a c.
Proof.
  unfold JS.eqb, JS.gtb, JS.ltb. destruct a, b, c; try done.
  all: rewrite Z.eqb_eq; intros ->; done.
Qed.

Lemma eqb_trans (a b c : JS.Num) :
  JS.eqb a b = true → JS.eqb b c = true → JS.eqb a c = true.
Proof.
  unfold JS.eqb. destruct a, b, c; try done. rewrite !Z.eqb_eq. lia.
Qed.

Lemma eqb_sym (a b : JS.Num) : JS.eqb a b = JS.eqb b a.
Proof. unfold JS.eqb. destruct a, b; try done. apply Z.eqb_sym. Qed.

Lemma gtb_not_eqb (a b : JS.Num) : JS.gtb a b = true → JS.eqb a b = false.
Proof.
  unfold JS.eqb, JS.gtb, JS.ltb. destruct a, b; try done.
  rewrite Z.ltb_lt, Z.eqb_neq. lia.
Qed.

(** The replacement test of the scans. *)
Definition displaces (n c : Node) : bool :=
  JS.gtb (totalDistance c) (totalDistance n)
  || JS.eqb (totalDistance c) (totalDistance n)
     && JS.gtb (JS.toNumber (heuristicDistance c)) (JS.toNumber (heuristicDistance n)).

Lemma not_displaces (n c : Node) : displaces n c = false ↔ holds_against c n.
Proof.
  unfold displaces, holds_against.
  destruct (JS.gtb (totalDistance c) (totalDistance n)),
           (JS.eqb (totalDistance c) (totalDistance n)),
           (JS.gtb (JS.toNumber (heuristicDistance c)) (JS.toNumber (heuristicDistance n)));
    simpl; intuition congruence.
Qed.

(** A cell that displaces the current choice also holds against every
    cell the current choice held against. *)
Lemma displaces_holds (n c m : Node) :
  displaces n c = true → holds_against c m → holds_against n m.
Proof.
  unfold displaces, holds_against. intros Hd [H1 H2].
  apply orb_true_iff in Hd as [Hd|Hd].
  - split.
    + destruct (JS.gtb (totalDistance n) (totalDistance m)) eqn:E; [|done].
      rewrite (gtb_trans _ _ _ Hd E) in H1. done.
    + intros E. rewrite <- (gtb_eqb_r _ _ _ E), Hd in H1. done.
  - apply andb_true_iff in Hd as [He Hh]. split.
    + rewrite <- (gtb_eqb_l _ _ _ He). done.
    + intros E. specialize (H2 (eqb_trans _ _ _ He E)).
      destruct (JS.gtb (JS.toNumber (heuristicDistance n))
                       (JS.toNumber (heuristicDistance m))) eqn:E2; [|done].
      rewrite (gtb_trans _ _ _ Hh E2) in H2. done.
Qed.

Lemma holds_against_refl (c : Node) : holds_against c c.
Proof.
  unfold holds_against, JS.gtb, JS.ltb.
  destruct (totalDistance c), (JS.toNumber (heuristicDistance c)); simpl;
    rewrite ?Z.ltb_irrefl; done.
Qed.

End Selection.

Section Scan.

(** Both array scans are instances of one loop that differ in the cells
    they pass over: [findClosestNode] of improved-astar.js passes over walls,
    [AStar.findClosestNode] over nothing. *)
Variable skip : Node → bool.
Variable nodes : NodeDict.

Fixpoint scan (unvisited : list Id) (i : nat) (closest : option (Id * Node))
    (index : nat) : JS.Result (option (Id * Node) * nat) :=
  match unvisited with
  | [] => JS.Ok (closest, index)
  | nodeId :: rest =>
      match lookupNode nodes nodeId with
      | None => JS.TypeError
      | Some node =>
          if skip node then scan rest (S i) closest index
          else match closest with
               | None => scan rest (S i) (Some (nodeId, node)) i
               | Some (_, c) =>
                   if displaces node c then scan rest (S i) (Some (nodeId, node)) i
                   else scan rest (S i) closest index
               end
      end
  end.

(** [closest] is the right choice among the cells [seen] of the array [L]. *)
Definition chosen (L seen : list Id) (closest : option (Id * Node)) (index : nat) : Prop :=
  match closest with
  | None => ∀ k, k ∈ seen → ∃ n, lookupNode nodes k = Some n ∧ skip n = true
  | Some (k, c) =>
      L !! index = Some k ∧ lookupNode nodes k = Some c ∧ skip c = false
      ∧ ∀ k' n', k' ∈ seen → lookupNode nodes k' = Some n' → skip n' = false →
                 holds_against c n'
  end.

Lemma scan_chosen (L : list Id) :
  ∀ unvisited seen closest index res,
    L = seen ++ unvisited →
    chosen L seen closest index →
    scan unvisited (length seen) closest index = JS.Ok res →
    chosen L L res.1 res.2 ∧ (res.1 = None → res.2 = index).
Proof.
  induction unvisited as [|nodeId rest IH]; intros seen closest index res HL Hc Hs;
    simpl in Hs.
  - injection Hs as <-. rewrite app_nil_r in HL. subst seen. done.
  - destruct (lookupNode nodes nodeId) as [node|] eqn:Hnode; [|discriminate].
    assert (HL' : L = (seen ++ [nodeId]) ++ rest) by (rewrite <- app_assoc; done).
    assert (Hi : L !! length seen = Some nodeId).
    { rewrite HL. rewrite lookup_app_r by lia. rewrite Nat.sub_diag. done. }
    replace (S (length seen)) with (length (seen ++ [nodeId])) in Hs
      by (rewrite length_app; simpl; lia).
    destruct (skip node) eqn:Hskip.
    + apply (IH _ _ _ _ HL') in Hs; [done|].
      destruct closest as [[k c]|]; simpl in *.
      * destruct Hc as (H1 & H2 & H3 & H4). split_and!; try done.
        intros k' n' Hk' Hn' Hsk. apply elem_of_app in Hk' as [Hk'|Hk'].
        { eauto. }
        apply list_elem_of_singleton in Hk' as ->. congruence.
      * intros k Hk. apply elem_of_app in Hk as [Hk|Hk]; [eauto|].
        apply list_elem_of_singleton in Hk as ->. eauto.
    + destruct closest as [[k c]|]; simpl in *.
      * destruct Hc as (H1 & H2 & H3 & H4).
        destruct (displaces node c) eqn:Hd.
        { apply (IH _ _ _ _ HL') in Hs.
          - destruct Hs as [Hs Hnone]. split; [done|].
            intros E. exfalso. rewrite E in Hs. simpl in Hs.
            destruct (Hs nodeId) as (n & Hn & Hsn).
            { rewrite HL. apply elem_of_app. right. left. }
            congruence.
          - simpl. split_and!; try done.
            intros k' n' Hk' Hn' Hsk. apply elem_of_app in Hk' as [Hk'|Hk'].
            + eapply displaces_holds; eauto.
            + apply list_elem_of_singleton in Hk' as ->.
              assert (n' = node) as -> by congruence. apply holds_against_refl. }
        { apply (IH _ _ _ _ HL') in Hs; [done|].
          simpl. split_and!; try done.
          intros k' n' Hk' Hn' Hsk. apply elem_of_app in Hk' as [Hk'|Hk'].
          - eauto.
          - apply list_elem_of_singleton in Hk' as ->.
            assert (n' = node) as -> by congruence. apply not_displaces. done. }
      * apply (IH _ _ _ _ HL') in Hs.
        { destruct Hs as [Hs Hnone]. split; [done|].
          intros E. exfalso. rewrite E in Hs. simpl in Hs.
          destruct (Hs nodeId) as (n & Hn & Hsn).
          { rewrite HL. apply elem_of_app. right. left. }
          congruence. }
        simpl. split_and!; try done.
        intros k' n' Hk' Hn' Hsk. apply elem_of_app in Hk' as [Hk'|Hk'].
        { destruct (Hc _ Hk') as (n & Hn & Hsn). congruence. }
        apply list_elem_of_singleton in Hk' as ->.
        assert (n' = node) as -> by congruence. apply holds_against_refl.
Qed.

Lemma scan_total :
  ∀ unvisited i closest index,
    (∀ k, k ∈ unvisited → is_Some (lookupNode nodes k)) →
    ∃ res, scan unvisited i closest index = JS.Ok res.
Proof.
  induction unvisited as [|nodeId rest IH]; intros i closest index Hall; simpl.
  - eauto.
  - destruct (Hall nodeId) as [node Hnode]; [left|]. rewrite Hnode.
    assert (Hrest : ∀ k, k ∈ rest → is_Some (lookupNode nodes k))
      by (intros k Hk; apply Hall; right; done).
    destruct (skip node); [eauto|].
    destruct closest as [[k c]|]; [|eauto].
    destruct (displaces node c); eauto.
Qed.

(** The outcome of a whole scan followed by [splice(index, 1)]. *)
Definition selected (unvisited : list Id) (r : option Id) (unvisited' : list Id) : Prop :=
  match r with
  | Some ref =>
      ∃ index cur,
        unvisited !! index = Some ref ∧ unvisited' = delete index unvisited
        ∧ lookupNode nodes ref = Some cur ∧ skip cur = false
        ∧ ∀ k' n', k' ∈ unvisited → lookupNode nodes k' = Some n' → skip n' = false →
                   holds_against cur n'
  | None =>
      unvisited' = delete 0%nat unvisited
      ∧ ∀ k, k ∈ unvisited → ∃ n, lookupNode nodes k = Some n ∧ skip n = true
  end.

Lemma scan_selected (unvisited : list Id) (res : option (Id * Node) * nat) :
  scan unvisited 0 None 0 = JS.Ok res →
  selected unvisited (fst <$> res.1) (delete res.2 unvisited).
Proof.
  intros Hs.
  apply (scan_chosen unvisited unvisited [] None 0%nat res eq_refl) in Hs.
  2: { simpl. intros k Hk. inversion Hk. }
  destruct Hs as [Hc Hnone]. destruct res as [[[k c]|] index]; simpl in *.
  - destruct Hc as (H1 & H2 & H3 & H4). exists index, c. done.
  - rewrite Hnone by done. done.
Qed.

End Scan.

Lemma improved_scan_is_scan (nodes : NodeDict) (unvisited : list Id) :
  ∀ i closest index,
    Improved.findClosestNode_scan nodes unvisited i closest index
    = scan (λ n, bool_decide (status n = Wall)) nodes unvisited i closest index.
Proof.
  induction unvisited as [|nodeId rest IH]; intros i closest index; simpl; [done|].
  destruct (lookupNode nodes nodeId) as [node|]; [|done].
  destruct (decide (status node = Wall)) as [Hw|Hw].
  - rewrite bool_decide_eq_true_2 by done. apply IH.
  - rewrite bool_decide_eq_false_2 by done.
    destruct closest as [[k c]|]; [|apply IH].
    unfold displaces.
    destruct (JS.gtb (totalDistance c) (totalDistance node)); simpl; [apply IH|].
    destruct (JS.eqb (totalDistance c) (totalDistance node)
              && JS.gtb (JS.toNumber (heuristicDistance c))
                        (JS.toNumber (heuristicDistance node))); apply IH.
Qed.

Lemma class_scan_is_scan (nodes : NodeDict) (unvisited : list Id) :
  ∀ i closest index,
    ClassAStar.findClosestNode_scan nodes unvisited i closest index
    = scan (λ _, false) nodes unvisited i closest index.
Proof.
  induction unvisited as [|nodeId rest IH]; intros i closest index; simpl; [done|].
  destruct (lookupNode nodes nodeId) as [node|]; [|done].
  destruct closest as [[k c]|]; [|apply IH].
  unfold displaces.
  destruct (JS.gtb (totalDistance c) (totalDistance node)); simpl; [apply IH|].
  destruct (JS.eqb (totalDistance c) (totalDistance node)); simpl; [|apply IH].
  destruct (JS.gtb (JS.toNumber (heuristicDistance c))
                   (JS.toNumber (heuristicDistance node))); apply IH.
Qed.

(** [findClosestNode] of improved-astar.js returns a cell of the array that
    is not a wall and that no other non-wall cell of the array displaces, and
    removes it from the array; it returns [null] only when every cell of the
    array is a wall. *)
Lemma improved_findClosestNode_selected (nodes : NodeDict) (unvisited unvisited' : list Id)
    (r : option Id) :
  Improved.findClosestNode nodes unvisited = JS.Ok (r, unvisited') →
  selected (λ n, bool_decide (status n = Wall)) nodes unvisited r unvisited'.
Proof.
  unfold Improved.findClosestNode. rewrite improved_scan_is_scan.
  destruct (scan _ nodes unvisited 0 None 0) as [res|] eqn:Hs; simpl; [|done].
  intros [= <- <-]. apply scan_selected. done.
Qed.

Lemma class_findClosestNode_selected (nodes : NodeDict) (unvisited unvisited' : list Id)
    (r : option Id) :
  ClassAStar.findClosestNode nodes unvisited = JS.Ok (r, unvisited') →
  selected (λ _, false) nodes unvisited r unvisited'.
Proof.
  unfold ClassAStar.findClosestNode. rewrite class_scan_is_scan.
  destruct (scan _ nodes unvisited 0 None 0) as [res|] eqn:Hs; simpl; [|done].
  intros [= <- <-]. apply scan_selected. done.
Qed.

Lemma improved_findClosestNode_total (nodes : NodeDict) (unvisited : list Id) :
  (∀ k, k ∈ unvisited → is_Some (lookupNode nodes k)) →
  ∃ r, Improved.findClosestNode nodes unvisited = JS.Ok r.
Proof.
  intros Hall. unfold Improved.findClosestNode. rewrite improved_scan_is_scan.
  destruct (scan_total (λ n, bool_decide (status n = Wall)) nodes unvisited 0 None 0 Hall)
    as [res ->]. simpl. eauto.
Qed.

Section SelectionTheorems.

(** X19.  The array selectors return a cell of the frontier with the lowest
    [totalDistance] and, among those that tie, the lowest
    [heuristicDistance]; the selector of improved-astar.js compares the
    non-wall cells only. *)
Lemma findClosestNode_lowest (nodes : NodeDict) (unvisited unvisited' : list Id) (ref : Id) :
  (Improved.findClosestNode nodes unvisited = JS.Ok (Some ref, unvisited') →
   ∃ cur, lookupNode nodes ref = Some cur ∧ ref ∈ unvisited ∧ status cur ≠ Wall
     ∧ ∀ k n, k ∈ unvisited → lookupNode nodes k = Some n → status n ≠ Wall →
         JS.ltb (totalDistance n) (totalDistance cur) = false
         ∧ (JS.eqb (totalDistance cur) (totalDistance n) = true →
            JS.ltb (JS.toNumber (heuristicDistance n))
                   (JS.toNumber (heuristicDistance cur)) = false))
  ∧ (ClassAStar.findClosestNode nodes unvisited = JS.Ok (Some ref, unvisited') →
     ∃ cur, lookupNode nodes ref = Some cur ∧ ref ∈ unvisited
       ∧ ∀ k n, k ∈ unvisited → lookupNode nodes k = Some n →
           JS.ltb (totalDistance n) (totalDistance cur) = false
           ∧ (JS.eqb (totalDistance cur) (totalDistance n) = true →
              JS.ltb (JS.toNumber (heuristicDistance n))
                     (JS.toNumber (heuristicDistance cur)) = false)).
Proof.
  split; intros H.
  - apply improved_findClosestNode_selected in H as (index & cur & H1 & _ & H3 & H4 & H5).
    exists cur. split_and!; try done.
    + eapply list_elem_of_lookup_2; eauto.
    + intros Hw. rewrite bool_decide_eq_true_2 in H4; done.
    + intros k n Hk Hn Hw. apply (H5 k n Hk Hn).
      rewrite bool_decide_eq_false_2; done.
  - apply class_findClosestNode_selected in H as (index & cur & H1 & _ & H3 & _ & H5).
    exists cur. split_and!; try done.
    + eapply list_elem_of_lookup_2; eauto.
    + intros k n Hk Hn. apply (H5 k n Hk Hn). done.
Qed.

Lemma map_get_elem (m : ModernAStar.NumMap) (k : Id) (v : JS.Num) :
  NoDup m.*1 → (k, v) ∈ m → ModernAStar.map_get m k = Some v.
Proof.
  induction m as [|[k1 v1] m IH]; intros Hnd Hin; [inversion Hin|].
  simpl in *. apply NoDup_cons in Hnd as [Hk1 Hnd].
  apply elem_of_cons in Hin as [[= -> ->]|Hin].
  - rewrite decide_True; done.
  - destruct (decide (k1 = k)) as [->|]; [|auto].
    destruct Hk1. apply list_elem_of_fmap. exists (k, v). done.
Qed.

(** The [reduce] of [#findNodeWithLowestDistance] keeps a key whose value
    no entry seen so far is below. *)
Lemma reduce_lowest (m : ModernAStar.NumMap) :
  NoDup m.*1 →
  ∀ (l seen : ModernAStar.NumMap) (lowest : Id) (v : JS.Num),
    (∀ e, e ∈ l → e ∈ m) →
    ModernAStar.map_get m lowest = Some v →
    (∀ e, e ∈ seen → JS.ltb e.2 v = false) →
    ∃ v', ModernAStar.map_get m
            (foldl (λ lowest entry,
                      if JS.ltb entry.2 (default JS.NaN (ModernAStar.map_get m lowest))
                      then entry.1 else lowest) lowest l) = Some v'
          ∧ ∀ e, e ∈ seen ++ l → JS.ltb e.2 v' = false.
Proof.
  intros Hnd. induction l as [|[k1 v1] l IH]; intros seen lowest v Hsub Hget Hseen; simpl.
  - exists v. rewrite app_nil_r. done.
  - assert (Hget1 : ModernAStar.map_get m k1 = Some v1)
      by (apply map_get_elem; [done|apply Hsub; left]).
    assert (Hsub' : ∀ e, e ∈ l → e ∈ m) by (intros e He; apply Hsub; right; done).
    rewrite Hget. simpl. destruct (JS.ltb v1 v) eqn:Hlt.
    + destruct (IH (seen ++ [(k1, v1)]) k1 v1 Hsub' Hget1) as (v' & Hv' & Hall).
      * intros e He. apply elem_of_app in He as [He|He].
        -- destruct (JS.ltb e.2 v1) eqn:E; [|done].
           specialize (Hseen e He). rewrite (ltb_trans _ _ _ E Hlt) in Hseen. done.
        -- apply list_elem_of_singleton in He as ->. apply ltb_irrefl.
      * exists v'. split; [done|]. intros e He. apply Hall.
        rewrite <- app_assoc. done.
    + destruct (IH (seen ++ [(k1, v1)]) lowest v Hsub' Hget) as (v' & Hv' & Hall).
      * intros e He. apply elem_of_app in He as [He|He]; [auto|].
        apply list_elem_of_singleton in He as ->. done.
      * exists v'. split; [done|]. intros e He. apply Hall.
        rewrite <- app_assoc. done.
Qed.

(** X22.  On a map without repeated keys, [#findNodeWithLowestDistance]
    returns a key of the frontier with the lowest [totalDistance]: no entry
    of the map is below the value stored under it. *)
Lemma findNodeWithLowestDistance_lowest (m : ModernAStar.NumMap) (k : Id) :
  NoDup m.*1 → ModernAStar.findNodeWithLowestDistance m = Some k →
  ∃ v, ModernAStar.map_get m k = Some v ∧ ∀ e, e ∈ m → JS.ltb e.2 v = false.
Proof.
  intros Hnd. unfold ModernAStar.findNodeWithLowestDistance.
  destruct m as [|[first v0] rest] eqn:Hm; [done|].
  intros H. apply (inj Some) in H. rewrite <- H. rewrite <- Hm in *.
  destruct (reduce_lowest m Hnd m [] first v0) as (v' & Hv' & Hall).
  - done.
  - apply map_get_elem; [done|]. rewrite Hm. left.
  - intros e He. inversion He.
  - exists v'. done.
Qed.

(** A 1-by-4 grid of [runAStarExample] nodes with weight 2 on cell "0-2". *)
Definition tieGrid : NodeDict := mutate (set_weight 2) (0, 2) (Fixture.plainGrid 1 4).

(** C6, from "0-1" to "0-3" on [tieGrid]: after the start is expanded the
    frontier holds "0-0" and "0-2", both with [totalDistance] 4 and with
    heuristic 3 and 1.  [#findNodeWithLowestDistance] compares
    [totalDistance] only and keeps the first entry, so "0-0" is taken out
    first; on the same cells [findClosestNode] takes "0-2". *)
Theorem findNodeWithLowestDistance_ignores_heuristic :
  ∃ s,
    ModernAStar.execute ModernAStar.defaultOptions 4 tieGrid (Some (0, 1)) (Some (0, 3))
      (Fixture.fullBoard 1 4) = Some (ModernAStar.ReturnSuccess, s)
    ∧ ModernAStar.nodesToAnimate s = [(0, 1); (0, 0); (0, 2); (0, 3)]
    ∧ ((λ n, (totalDistance n, heuristicDistance n)) <$> lookupNode (ModernAStar.nodes s) (0, 0))
      = Some (JS.Fin 4, JS.Val 3)
    ∧ ((λ n, (totalDistance n, heuristicDistance n)) <$> lookupNode (ModernAStar.nodes s) (0, 2))
      = Some (JS.Fin 4, JS.Val 1)
    ∧ ModernAStar.findNodeWithLowestDistance [((0, 0), JS.Fin 4); ((0, 2), JS.Fin 4)]
      = Some (0, 0)
    ∧ Improved.findClosestNode (ModernAStar.nodes s) [(0, 0); (0, 2)]
      = JS.Ok (Some (0, 2), [(0, 0)]).
Proof.
  eexists. split; [vm_compute; reflexivity|]. split_and!; reflexivity.
Qed.

End SelectionTheorems.

(** ** Relaxation *)

Section Relaxation.

(** The two array renditions relax a neighbour in the same way, with their
    own heuristic and step cost. *)
Variable heuristic : Node → Node → Z.
Variable stepCost : Node → Node → Z * list Move * option Direction.

(** The candidate cost [currentNode.distance + neighborNode.weight + distance[0]]. *)
Definition candidate (cur nb : Node) : JS.Num :=
  JS.add (JS.add (distance cur) (JS.Fin (weight nb))) (JS.Fin (stepCost cur nb).1.1).

(** The neighbour with its heuristic filled in when the stored one is falsy. *)
Definition withHeuristic (nb tg : Node) : Node :=
  if JS.falsy (heuristicDistance nb)
  then set_heuristicDistance (JS.Val (heuristic nb tg)) nb
  else nb.

(** The record of the neighbour after the relaxation attempt. *)
Definition relaxed (cur nb tg : Node) : Node :=
  if JS.ltb (candidate cur nb) (distance nb)
  then Improved.updateNodeWithNewPath (candidate cur nb) (id cur)
         (stepCost cur nb) (withHeuristic nb tg)
  else withHeuristic nb tg.

(** What relaxation never changes in a record. *)
Lemma relaxed_frame (cur nb tg : Node) :
  id (relaxed cur nb tg) = id nb
  ∧ status (relaxed cur nb tg) = status nb
  ∧ weight (relaxed cur nb tg) = weight nb.
Proof.
  unfold relaxed, withHeuristic.
  destruct (JS.ltb _ _), (JS.falsy _); simpl; done.
Qed.

(** The record is rewritten exactly when the candidate is strictly lower. *)
Lemma relaxed_improves (cur nb tg : Node) :
  JS.ltb (candidate cur nb) (distance nb) = true →
  distance (relaxed cur nb tg) = candidate cur nb
  ∧ totalDistance (relaxed cur nb tg)
    = JS.add (candidate cur nb) (JS.toNumber (heuristicDistance (withHeuristic nb tg)))
  ∧ previousNode (relaxed cur nb tg) = Some (id cur)
  ∧ path (relaxed cur nb tg) = Some (stepCost cur nb).1.2
  ∧ direction (relaxed cur nb tg) = (stepCost cur nb).2.
Proof. unfold relaxed. intros ->. simpl. done. Qed.

Lemma relaxed_keeps (cur nb tg : Node) :
  JS.ltb (candidate cur nb) (distance nb) = false →
  distance (relaxed cur nb tg) = distance nb
  ∧ totalDistance (relaxed cur nb tg) = totalDistance nb
  ∧ previousNode (relaxed cur nb tg) = previousNode nb
  ∧ path (relaxed cur nb tg) = path nb
  ∧ direction (relaxed cur nb tg) = direction nb.
Proof.
  unfold relaxed, withHeuristic. intros ->.
  destruct (JS.falsy _); simpl; done.
Qed.

Lemma relaxed_changes_iff (cur nb tg : Node) :
  distance (relaxed cur nb tg) ≠ distance nb
  ↔ JS.ltb (candidate cur nb) (distance nb) = true.
Proof.
  destruct (JS.ltb (candidate cur nb) (distance nb)) eqn:Hlt.
  - destruct (relaxed_improves _ _ tg Hlt) as [-> _]. split; [done|].
    intros _ E. rewrite E, ltb_irrefl in Hlt. done.
  - destruct (relaxed_keeps _ _ tg Hlt) as [-> _]. split; [done|discriminate].
Qed.

End Relaxation.

Section RelaxationOfTheCode.

Lemma updateSingleNeighbor_relaxed (heuristic : Node → Node → Z)
    (nodes : NodeDict) (calls : list Id) (cur nb tg : Id) (curN nbN tgN : Node) :
  lookupNode nodes cur = Some curN →
  lookupNode nodes nb = Some nbN →
  lookupNode nodes tg = Some tgN →
  Improved.updateSingleNeighbor heuristic nodes calls cur nb tg
  = JS.Ok (mutate (λ _, relaxed heuristic Improved.calculateNodeDistance curN nbN tgN)
             nb nodes,
           calls ++ (if JS.falsy (heuristicDistance nbN) then [nb] else [])).
Proof.
  intros Hcur Hnb Htg. unfold Improved.updateSingleNeighbor.
  rewrite Hcur, Hnb. unfold relaxed, withHeuristic, candidate.
  destruct (JS.falsy (heuristicDistance nbN)) eqn:Hf; simpl.
  - rewrite Htg. simpl.
    rewrite (lookupNode_mutate_eq _ _ _ _ Hnb).
    rewrite lookupNode_mutate. destruct (decide (nb = cur)) as [->|Hne].
    + rewrite Hcur. simpl. assert (curN = nbN) as -> by congruence. simpl.
      destruct (JS.ltb _ (distance nbN)) eqn:Hlt.
      * f_equal. f_equal. rewrite mutate_mutate. apply mutate_ext.
        intros n Hn. assert (n = nbN) as -> by congruence. reflexivity.
      * f_equal. f_equal. apply mutate_ext.
        intros n Hn. assert (n = nbN) as -> by congruence. reflexivity.
    + rewrite Hcur. simpl.
      destruct (JS.ltb _ (distance nbN)) eqn:Hlt.
      * f_equal. f_equal. rewrite mutate_mutate. apply mutate_ext.
        intros n Hn. assert (n = nbN) as -> by congruence. reflexivity.
      * f_equal. f_equal. apply mutate_ext.
        intros n Hn. assert (n = nbN) as -> by congruence. reflexivity.
  - rewrite Hcur, Hnb. rewrite app_nil_r.
    destruct (JS.ltb _ (distance nbN)) eqn:Hlt.
    + f_equal. f_equal. apply mutate_ext. intros n Hn.
      assert (n = nbN) as -> by congruence. reflexivity.
    + f_equal. f_equal. unfold mutate. destruct nodes as [ks m]. simpl. f_equal.
      symmetry. apply alter_id. intros n Hn. unfold lookupNode in Hnb. simpl in Hnb.
      congruence.
Qed.

Lemma updateNode_relaxed (nodes : NodeDict) (cur nb tg : Id) (curN nbN tgN : Node) :
  lookupNode nodes cur = Some curN →
  lookupNode nodes nb = Some nbN →
  lookupNode nodes tg = Some tgN →
  ClassAStar.updateNode nodes cur nb tg
  = JS.Ok (mutate (λ _, relaxed (λ a b, ClassAStar.calculateManhattanDistance (id a) (id b))
                          ClassAStar.getDistance curN nbN tgN) nb nodes).
Proof.
  intros Hcur Hnb Htg. unfold ClassAStar.updateNode.
  rewrite Hcur, Hnb. unfold relaxed, withHeuristic, candidate.
  destruct (JS.falsy (heuristicDistance nbN)) eqn:Hf; simpl.
  - rewrite Htg. simpl.
    rewrite (lookupNode_mutate_eq _ _ _ _ Hnb).
    rewrite lookupNode_mutate. destruct (decide (nb = cur)) as [->|Hne].
    + rewrite Hcur. simpl. assert (curN = nbN) as -> by congruence. simpl.
      destruct (JS.ltb _ (distance nbN)) eqn:Hlt.
      * f_equal. rewrite mutate_mutate. apply mutate_ext.
        intros n Hn. assert (n = nbN) as -> by congruence. reflexivity.
      * f_equal. apply mutate_ext.
        intros n Hn. assert (n = nbN) as -> by congruence. reflexivity.
    + rewrite Hcur. simpl.
      destruct (JS.ltb _ (distance nbN)) eqn:Hlt.
      * f_equal. rewrite mutate_mutate. apply mutate_ext.
        intros n Hn. assert (n = nbN) as -> by congruence. reflexivity.
      * f_equal. apply mutate_ext.
        intros n Hn. assert (n = nbN) as -> by congruence. reflexivity.
  - rewrite Hcur, Hnb.
    destruct (JS.ltb _ (distance nbN)) eqn:Hlt.
    + f_equal. apply mutate_ext. intros n Hn.
      assert (n = nbN) as -> by congruence. reflexivity.
    + f_equal. unfold mutate. destruct nodes as [ks m]. simpl. f_equal.
      symmetry. apply alter_id. intros n Hn. unfold lookupNode in Hnb. simpl in Hnb.
      congruence.
Qed.

(** [getNeighbors] of improved-astar.js and of class [Algorithm]: every
    cell it adds is one step away in one of the given directions, on the
    board, and not a wall. *)
Lemma getNeighbors_from_sound (nodes : NodeDict) (boardArray : Board) (x y : Z) :
  ∀ directions neighbors res,
    Improved.getNeighbors_from nodes boardArray x y directions neighbors = JS.Ok res →
    ∀ c, c ∈ res →
      c ∈ neighbors
      ∨ ∃ d n, d ∈ directions ∧ c = (x + d.1, y + d.2)
               ∧ inBoard boardArray (x + d.1) (y + d.2) = true
               ∧ lookupNode nodes c = Some n ∧ status n ≠ Wall.
Proof.
  induction directions as [|[dx dy] directions IH]; intros neighbors res H c Hc;
    simpl in H.
  - injection H as <-. auto.
  - assert (Hrest : ∀ acc, Improved.getNeighbors_from nodes boardArray x y directions acc
                           = JS.Ok res → c ∈ acc ∨
              ∃ d n, d ∈ (dx, dy) :: directions ∧ c = (x + d.1, y + d.2)
                     ∧ inBoard boardArray (x + d.1) (y + d.2) = true
                     ∧ lookupNode nodes c = Some n ∧ status n ≠ Wall).
    { intros acc Hacc. destruct (IH _ _ Hacc c Hc) as [?|(d & n & Hd & ?)]; [auto|].
      right. exists d, n. split; [right; done|done]. }
    destruct (inBoard boardArray (x + dx) (y + dy)) eqn:Hin; [|auto].
    destruct (lookupNode nodes (x + dx, y + dy)) as [n|] eqn:Hn; [|discriminate].
    destruct (decide (status n = Wall)) as [Hw|Hw]; [auto|].
    destruct (Hrest _ H) as [Hacc|?]; [|auto].
    apply elem_of_app in Hacc as [?|Hacc]; [auto|].
    apply list_elem_of_singleton in Hacc as ->.
    right. exists (dx, dy), n. split; [left|done].
Qed.

Lemma getNeighbors_from_total (nodes : NodeDict) (boardArray : Board) (x y : Z) :
  (∀ i j, inBoard boardArray i j = true → is_Some (lookupNode nodes (i, j))) →
  ∀ directions neighbors,
    ∃ res, Improved.getNeighbors_from nodes boardArray x y directions neighbors = JS.Ok res.
Proof.
  intros Hnodes. induction directions as [|[dx dy] directions IH]; intros neighbors; simpl.
  - eauto.
  - destruct (inBoard boardArray (x + dx) (y + dy)) eqn:Hin; [|eauto].
    destruct (Hnodes _ _ Hin) as [n ->].
    destruct (decide (status n = Wall)); eauto.
Qed.

End RelaxationOfTheCode.

(** ** One run of [astar] (improved-astar.js) *)

Section ImprovedRun.

Import Improved.

Variable heuristic : Node → Node → Z.
Variable boardArray : Board.
Variable target : Id.

(** The two elementary changes the loop makes to the store: marking the
    extracted cell visited, and one relaxation attempt on a neighbour of
    the extracted cell. *)
Inductive action (nodes : NodeDict) : NodeDict → Prop :=
| action_visit ref cur :
    lookupNode nodes ref = Some cur →
    status cur ≠ Wall →
    JS.eqb (distance cur) JS.Infinity = false →
    action nodes (mutate (set_status Visited) ref nodes)
| action_relax cur nb curN nbN tgN d :
    lookupNode nodes cur = Some curN →
    lookupNode nodes nb = Some nbN →
    lookupNode nodes target = Some tgN →
    status nbN ≠ Wall →
    d ∈ cardinal →
    nb = ((id curN).1 + d.1, (id curN).2 + d.2) →
    inBoard boardArray nb.1 nb.2 = true →
    action nodes (mutate (λ _, relaxed heuristic calculateNodeDistance curN nbN tgN) nb nodes).

(** The states of the loop: [during s0 s] when [s] is [s0] or the state
    left by some later turn of the loop started in [s0]. *)
Inductive during (s0 : State) : State → Prop :=
| during_start : during s0 s0
| during_next s s' :
    during s0 s → unvisitedNodes s ≠ [] →
    iteration heuristic boardArray target s = Next s' → during s0 s'
| during_stop s o s' :
    during s0 s → unvisitedNodes s ≠ [] →
    iteration heuristic boardArray target s = Stop o s' → during s0 s'.

Lemma astar_loop_during (fuel : nat) :
  ∀ s0 s o s', during s0 s → astar_loop heuristic boardArray target fuel s = Some (o, s') →
               during s0 s'.
Proof.
  induction fuel as [|fuel IH]; intros s0 s o s' Hd H; simpl in H.
  - destruct (unvisitedNodes s); [|discriminate]. injection H as <- <-. done.
  - destruct (unvisitedNodes s) as [|k rest] eqn:Hu.
    { injection H as <- <-. done. }
    destruct (iteration heuristic boardArray target s) as [s1|o1 s1] eqn:Hit.
    + eapply IH; [|exact H]. eapply during_next; eauto. rewrite Hu. done.
    + injection H as <- <-. eapply during_stop; eauto. rewrite Hu. done.
Qed.

(** A property of states that every turn of the loop preserves holds
    throughout the run. *)
Lemma during_invariant (P : State → Prop) (s0 : State) :
  P s0 →
  (∀ s s', P s → iteration heuristic boardArray target s = Next s' → P s') →
  (∀ s o s', P s → iteration heuristic boardArray target s = Stop o s' → P s') →
  ∀ s, during s0 s → P s.
Proof. intros H0 Hn Hs s Hd. induction Hd; eauto. Qed.

Lemma lookupNode_action_dom (nodes nodes' : NodeDict) (k : Id) :
  action nodes nodes' →
  is_Some (lookupNode nodes' k) ↔ is_Some (lookupNode nodes k).
Proof.
  intros [ref cur Hr Hw Hd | cur nb curN nbN tgN d Hc Hn Ht Hw Hd Hnb Hin];
    rewrite lookupNode_mutate; destruct (decide (_ = k)); try done;
    rewrite fmap_is_Some; done.
Qed.

Lemma action_okeys (nodes nodes' : NodeDict) :
  action nodes nodes' → okeys nodes' = okeys nodes.
Proof. intros []; reflexivity. Qed.

(** A property [I] of stores and a relation [R] between the old and the
    new record of a cell that both elementary changes respect carry over to
    any sequence of them. *)
Lemma rtc_action_invariant (I : NodeDict → Prop) (R : Node → Node → Prop) :
  (∀ n, R n n) → (∀ a b c, R a b → R b c → R a c) →
  (∀ nodes nodes', I nodes → action nodes nodes' →
      I nodes' ∧ ∀ k n, lookupNode nodes k = Some n →
                        ∃ n', lookupNode nodes' k = Some n' ∧ R n n') →
  ∀ nodes nodes', I nodes → rtc action nodes nodes' →
      I nodes' ∧ ∀ k n, lookupNode nodes k = Some n →
                        ∃ n', lookupNode nodes' k = Some n' ∧ R n n'.
Proof.
  intros Hrefl Htrans Hact nodes nodes' HI Hrtc.
  induction Hrtc as [|a b c Hab Hbc IH]; [eauto|].
  destruct (Hact _ _ HI Hab) as [HIb Hab'].
  destruct (IH HIb) as [HIc Hbc']. split; [done|].
  intros k n Hn. destruct (Hab' _ _ Hn) as (n1 & Hn1 & HR1).
  destruct (Hbc' _ _ Hn1) as (n2 & Hn2 & HR2). eauto.
Qed.

(** The relaxations of [updateNeighbors] on the neighbours found by
    [getNeighbors]. *)
Lemma updateNeighbors_each_actions (cur : Id) (idc : Id) :
  ∀ neighbors nodes calls,
    (∃ curN, lookupNode nodes cur = Some curN ∧ id curN = idc) →
    is_Some (lookupNode nodes target) →
    (∀ nb, nb ∈ neighbors →
       ∃ d n, d ∈ cardinal ∧ nb = (idc.1 + d.1, idc.2 + d.2)
              ∧ inBoard boardArray (idc.1 + d.1) (idc.2 + d.2) = true
              ∧ lookupNode nodes nb = Some n ∧ status n ≠ Wall) →
    ∃ nodes' calls',
      updateNeighbors_each heuristic nodes calls cur neighbors target
      = JS.Normal (nodes', calls')
      ∧ rtc action nodes nodes'.
Proof.
  induction neighbors as [|nb rest IH]; intros nodes calls Hcur Htg Hall; simpl.
  - eauto using rtc_refl.
  - destruct Hcur as (curN & Hcur & Hid). destruct Htg as [tgN Htg].
    destruct (Hall nb) as (d & nbN & Hd & Hnb & Hin & Hn & Hw); [left|].
    rewrite (updateSingleNeighbor_relaxed _ _ _ _ _ _ _ _ _ Hcur Hn Htg).
    set (nodes1 := mutate _ nb nodes).
    assert (Hact : action nodes nodes1).
    { eapply (action_relax nodes cur nb curN nbN tgN d); eauto.
      - rewrite Hid. done.
      - rewrite Hnb. done. }
    destruct (IH nodes1 (calls ++ (if JS.falsy (heuristicDistance nbN) then [nb] else [])))
      as (nodes' & calls' & Heq & Hrtc).
    + unfold nodes1. rewrite lookupNode_mutate. destruct (decide (nb = cur)) as [->|].
      * rewrite Hcur. simpl. eexists. split; [done|].
        assert (curN = nbN) as -> by congruence.
        rewrite <- Hid. apply relaxed_frame.
      * eauto.
    + apply (lookupNode_action_dom _ _ _ Hact). eauto.
    + intros nb' Hnb'. destruct (Hall nb') as (d' & n' & Hd' & Hnb'eq & Hin' & Hn' & Hw');
        [right; done|].
      unfold nodes1. rewrite lookupNode_mutate. destruct (decide (nb = nb')) as [->|].
      * rewrite Hn'. simpl. eexists d', _. split_and!; try done.
        assert (n' = nbN) as -> by congruence.
        destruct (relaxed_frame heuristic calculateNodeDistance curN nbN tgN)
          as (_ & -> & _). done.
      * exists d', n'. done.
    + exists nodes', calls'. split; [done|]. eapply rtc_l; eauto.
Qed.

Lemma updateNeighbors_actions (nodes : NodeDict) (calls : list Id) (ref : Id) (cur : Node) :
  lookupNode nodes ref = Some cur →
  is_Some (lookupNode nodes target) →
  (getNeighbors (id cur) nodes boardArray = JS.TypeError
   ∧ updateNeighbors heuristic nodes calls ref boardArray target = JS.Abrupt (nodes, calls))
  ∨ (∃ nodes' calls',
       updateNeighbors heuristic nodes calls ref boardArray target
       = JS.Normal (nodes', calls')
       ∧ rtc action nodes nodes').
Proof.
  intros Hcur Htg. unfold updateNeighbors. rewrite Hcur.
  destruct (getNeighbors (id cur) nodes boardArray) as [neighbors|] eqn:Hg; [|auto].
  right. apply (updateNeighbors_each_actions ref (id cur)); eauto.
  intros nb Hnb. unfold getNeighbors in Hg.
  destruct (getNeighbors_from_sound _ _ _ _ _ _ _ Hg nb Hnb) as [Hnil|(d & n & ?)].
  - inversion Hnil.
  - exists d, n. intuition (subst; auto).
Qed.

(** Every way a turn of the loop can go. *)
Lemma iteration_cases (s : State) :
  is_Some (lookupNode (nodes s) target) →
  (findClosestNode (nodes s) (unvisitedNodes s) = JS.TypeError
   ∧ iteration heuristic boardArray target s = Stop Throws s)
  ∨ (∃ unv1,
       findClosestNode (nodes s) (unvisitedNodes s) = JS.Ok (None, unv1)
       ∧ iteration heuristic boardArray target s
         = Stop Throws (mkState (nodes s) unv1 (nodesToAnimate s) (heuristicCalls s)))
  ∨ (∃ ref unv1 cur,
       findClosestNode (nodes s) (unvisitedNodes s) = JS.Ok (Some ref, unv1)
       ∧ lookupNode (nodes s) ref = Some cur ∧ status cur ≠ Wall
       ∧ ((JS.eqb (distance cur) JS.Infinity = true
           ∧ iteration heuristic boardArray target s
             = Stop ReturnFalse
                 (mkState (nodes s) unv1 (nodesToAnimate s) (heuristicCalls s)))
          ∨ (JS.eqb (distance cur) JS.Infinity = false
             ∧ ∃ nodes2, nodes2 = mutate (set_status Visited) ref (nodes s)
               ∧ ((id cur = target
                   ∧ iteration heuristic boardArray target s
                     = Stop ReturnSuccess
                         (mkState nodes2 unv1 (nodesToAnimate s ++ [ref])
                            (heuristicCalls s)))
                  ∨ (id cur ≠ target
                     ∧ getNeighbors (id cur) nodes2 boardArray = JS.TypeError
                     ∧ iteration heuristic boardArray target s
                       = Stop Throws
                           (mkState nodes2 unv1 (nodesToAnimate s ++ [ref])
                              (heuristicCalls s)))
                  ∨ (id cur ≠ target
                     ∧ ∃ nodes3 calls3,
                         rtc action nodes2 nodes3
                         ∧ iteration heuristic boardArray target s
                           = Next (mkState nodes3 unv1 (nodesToAnimate s ++ [ref])
                                     calls3)))))).
Proof.
  intros Htg. unfold iteration.
  destruct (findClosestNode (nodes s) (unvisitedNodes s)) as [[r unv1]|] eqn:Hf; [|auto].
  right. destruct r as [ref|]; [|left; eauto]. right.
  destruct (improved_findClosestNode_selected _ _ _ _ Hf)
    as (index & cur & H1 & H2 & H3 & H4 & H5).
  apply bool_decide_eq_false in H4.
  exists ref, unv1, cur. rewrite H3. split_and!; try done.
  destruct (decide (status cur = Wall)) as [?|_]; [done|].
  destruct (JS.eqb (distance cur) JS.Infinity) eqn:Hinf; [auto|].
  right. split; [done|]. eexists. split; [reflexivity|].
  destruct (decide (id cur = target)) as [Hid|Hid]; [auto|]. right.
  simpl.
  assert (Hcur2 : lookupNode (mutate (set_status Visited) ref (nodes s)) ref
                  = Some (set_status Visited cur))
    by (apply lookupNode_mutate_eq; done).
  assert (Htg2 : is_Some (lookupNode (mutate (set_status Visited) ref (nodes s)) target)).
  { rewrite lookupNode_mutate. destruct (decide (ref = target)); [|done].
    rewrite fmap_is_Some. done. }
  destruct (updateNeighbors_actions _ (heuristicCalls s) _ _ Hcur2 Htg2)
    as [[Hg ->]|(nodes3 & calls3 & -> & Hrtc)].
  - left. done.
  - right. split; [done|]. eauto.
Qed.

(** What a turn does to the store and to the trace, whatever its result. *)
Definition result_state (r : Step) : State :=
  match r with
  | Next s' => s'
  | Stop _ s' => s'
  end.

Lemma iteration_effect (s : State) :
  is_Some (lookupNode (nodes s) target) →
  let s' := result_state (iteration heuristic boardArray target s) in
  rtc action (nodes s) (nodes s')
  ∧ ((nodesToAnimate s' = nodesToAnimate s ∧ nodes s' = nodes s)
     ∨ ∃ ref cur,
         nodesToAnimate s' = nodesToAnimate s ++ [ref]
         ∧ lookupNode (nodes s) ref = Some cur ∧ status cur ≠ Wall
         ∧ JS.eqb (distance cur) JS.Infinity = false
         ∧ rtc action (mutate (set_status Visited) ref (nodes s)) (nodes s')).
Proof.
  intros Htg.
  destruct (iteration_cases s Htg)
    as [[_ ->]|[(unv1 & _ & ->)|(ref & unv1 & cur & _ & Hcur & Hw & Hrest)]]; simpl.
  - split; [apply rtc_refl|auto].
  - split; [apply rtc_refl|auto].
  - destruct Hrest as [[_ ->]|(Hinf & nodes2 & -> & Hrest)]; simpl.
    { split; [apply rtc_refl|auto]. }
    assert (Hv : action (nodes s) (mutate (set_status Visited) ref (nodes s)))
      by (eapply action_visit; eauto).
    destruct Hrest as [[_ ->]|[(_ & _ & ->)|(_ & nodes3 & calls3 & Hrtc & ->)]]; simpl.
    + split; [apply rtc_once; done|]. right. exists ref, cur. split_and!; try done.
    + split; [apply rtc_once; done|]. right. exists ref, cur. split_and!; try done.
    + split; [eapply rtc_l; eauto|]. right. exists ref, cur. split_and!; try done.
Qed.

Lemma rtc_action_dom (nodes nodes' : NodeDict) (k : Id) :
  rtc action nodes nodes' →
  is_Some (lookupNode nodes' k) ↔ is_Some (lookupNode nodes k).
Proof.
  induction 1 as [|a b c Hab Hbc IH]; [done|].
  rewrite IH. apply lookupNode_action_dom. done.
Qed.

Lemma during_actions (s0 s : State) :
  is_Some (lookupNode (nodes s0) target) →
  during s0 s → rtc action (nodes s0) (nodes s).
Proof.
  intros Htg Hd. induction Hd as [|s s' Hd IH Hu Hit|s o s' Hd IH Hu Hit].
  - apply rtc_refl.
  - assert (Htg' : is_Some (lookupNode (nodes s) target))
      by (apply (rtc_action_dom _ _ _ IH); done).
    destruct (iteration_effect s Htg') as [Hrtc _]. rewrite Hit in Hrtc.
    eapply rtc_trans; eauto.
  - assert (Htg' : is_Some (lookupNode (nodes s) target))
      by (apply (rtc_action_dom _ _ _ IH); done).
    destruct (iteration_effect s Htg') as [Hrtc _]. rewrite Hit in Hrtc.
    eapply rtc_trans; eauto.
Qed.

(** A turn that goes on has removed one cell of the array. *)
Lemma iteration_Next_length (s s' : State) :
  iteration heuristic boardArray target s = Next s' →
  unvisitedNodes s ≠ [] →
  S (length (unvisitedNodes s')) = length (unvisitedNodes s).
Proof.
  intros Hit Hne. unfold iteration in Hit.
  destruct (findClosestNode (nodes s) (unvisitedNodes s)) as [[r unv1]|] eqn:Hf;
    [|discriminate].
  pose proof (improved_findClosestNode_selected _ _ _ _ Hf) as Hsel.
  assert (Hlen : S (length unv1) = length (unvisitedNodes s)).
  { destruct r as [ref|]; simpl in Hsel.
    - destruct Hsel as (index & cur & H1 & -> & _).
      rewrite length_delete by eauto.
      apply lookup_lt_Some in H1. lia.
    - destruct Hsel as [-> _]. destruct (unvisitedNodes s); [done|]. simpl. lia. }
  destruct r as [ref|]; [|discriminate].
  destruct (lookupNode (nodes s) ref) as [cur|]; [|discriminate].
  destruct (decide (status cur = Wall)).
  { injection Hit as <-. done. }
  destruct (JS.eqb (distance cur) JS.Infinity); [discriminate|].
  destruct (decide (id cur = target)); [discriminate|].
  destruct (updateNeighbors _ _ _ _ _ _) as [[??]|[??]]; [|discriminate].
  injection Hit as <-. done.
Qed.

(** The loop returns: the length of the array is fuel enough. *)
Lemma astar_loop_total (fuel : nat) :
  ∀ s, (length (unvisitedNodes s) ≤ fuel)%nat →
       ∃ r, astar_loop heuristic boardArray target fuel s = Some r.
Proof.
  induction fuel as [|fuel IH]; intros s Hlen; simpl.
  - destruct (unvisitedNodes s); [eauto|simpl in Hlen; lia].
  - destruct (unvisitedNodes s) as [|k rest] eqn:Hu; [eauto|].
    destruct (iteration heuristic boardArray target s) as [s1|o1 s1] eqn:Hit; [|eauto].
    apply IH. apply iteration_Next_length in Hit; [|rewrite Hu; done].
    rewrite Hu in Hit. simpl in *. lia.
Qed.

(** How the loop ends. *)
Lemma astar_loop_end (fuel : nat) :
  ∀ s0 s o s', during s0 s →
    astar_loop heuristic boardArray target fuel s = Some (o, s') →
    (during s0 s' ∧ unvisitedNodes s' = [] ∧ o = ReturnFalse)
    ∨ (∃ s1, during s0 s1 ∧ unvisitedNodes s1 ≠ []
             ∧ iteration heuristic boardArray target s1 = Stop o s').
Proof.
  induction fuel as [|fuel IH]; intros s0 s o s' Hd H; simpl in H.
  - destruct (unvisitedNodes s) eqn:Hu; [|discriminate]. injection H as <- <-. auto.
  - destruct (unvisitedNodes s) as [|k rest] eqn:Hu.
    { injection H as <- <-. auto. }
    destruct (iteration heuristic boardArray target s) as [s1|o1 s1] eqn:Hit.
    + eapply IH; [|exact H]. eapply during_next; eauto. rewrite Hu. done.
    + injection H as <- <-. right. exists s. rewrite Hu. done.
Qed.

End ImprovedRun.

Section ImprovedAstar.

Import Improved.

(** The state in which the loop of [astar] starts. *)
Definition initial (nodes : NodeDict) (start : Id) (trace : list Id) : State :=
  {| nodes := initializeStartNode nodes start; unvisitedNodes := okeys nodes;
     nodesToAnimate := trace; heuristicCalls := [] |}.

Lemma astar_valid (nodes : NodeDict) (start target : Id) (trace : list Id)
    (boardArray : Board) (heuristic : Node → Node → Z) :
  validateInputs nodes (Some start) (Some target) = true →
  astar nodes (Some start) (Some target) trace boardArray heuristic
  = astar_loop heuristic boardArray target (length (okeys nodes))
      (initial nodes start trace).
Proof. intros H. unfold astar. rewrite H. reflexivity. Qed.

Lemma validateInputs_true (nodes : NodeDict) (start target : option Id) :
  validateInputs nodes start target = true →
  ∃ st tg, start = Some st ∧ target = Some tg ∧ st ≠ tg
           ∧ is_Some (lookupNode nodes st) ∧ is_Some (lookupNode nodes tg).
Proof.
  unfold validateInputs. destruct start as [st|], target as [tg|]; try discriminate.
  destruct (lookupNode nodes st) eqn:Hs, (lookupNode nodes tg) eqn:Ht; try discriminate.
  intros H. apply negb_true_iff, bool_decide_eq_false in H.
  exists st, tg. eauto.
Qed.

(** [astar] always returns or raises; it never runs forever. *)
Lemma astar_total (nodes : NodeDict) (start target : option Id) (trace : list Id)
    (boardArray : Board) (heuristic : Node → Node → Z) :
  ∃ r, astar nodes start target trace boardArray heuristic = Some r.
Proof.
  unfold astar. destruct start as [st|], target as [tg|]; eauto.
  destruct (validateInputs nodes (Some st) (Some tg)); eauto.
  apply astar_loop_total. simpl. lia.
Qed.

End ImprovedAstar.

(** ** Walls *)

Section Walls.

Import Improved.

Variable heuristic : Node → Node → Z.
Variable boardArray : Board.
Variable target : Id.

(** What the loop never does to a record: change its id or weight, touch a
    wall, turn a cell into a wall, or take back a visit. *)
Definition kept (n n' : Node) : Prop :=
  id n' = id n ∧ weight n' = weight n
  ∧ (status n = Wall → n' = n)
  ∧ (status n ≠ Wall → status n' ≠ Wall)
  ∧ (status n = Visited → status n' = Visited).

Lemma kept_refl (n : Node) : kept n n.
Proof. unfold kept. done. Qed.

Lemma kept_trans (a b c : Node) : kept a b → kept b c → kept a c.
Proof.
  unfold kept. intros (H1 & H2 & H3 & H4 & H5) (G1 & G2 & G3 & G4 & G5).
  split_and!; try congruence.
  - intros Hw. rewrite (G3 (eq_ind_r (λ x, status x = Wall) Hw (H3 Hw))). auto.
  - auto.
  - auto.
Qed.

Lemma action_kept (nodes nodes' : NodeDict) :
  action heuristic boardArray target nodes nodes' →
  ∀ k n, lookupNode nodes k = Some n →
         ∃ n', lookupNode nodes' k = Some n' ∧ kept n n'.
Proof.
  intros [ref cur Hr Hw Hd | cur nb curN nbN tgN d Hc Hn Ht Hw Hd Hnb Hin] k n Hk;
    rewrite lookupNode_mutate; destruct (decide (_ = k)) as [->|]; rewrite Hk; simpl;
    eauto using kept_refl.
  - eexists. split; [done|]. assert (n = cur) as -> by congruence.
    unfold kept. simpl. split_and!; done.
  - eexists. split; [done|]. assert (n = nbN) as -> by congruence.
    destruct (relaxed_frame heuristic calculateNodeDistance curN nbN tgN)
      as (E1 & E2 & E3).
    unfold kept. rewrite E1, E2, E3. split_and!; done.
Qed.

Lemma rtc_action_kept (nodes nodes' : NodeDict) :
  rtc (action heuristic boardArray target) nodes nodes' →
  ∀ k n, lookupNode nodes k = Some n →
         ∃ n', lookupNode nodes' k = Some n' ∧ kept n n'.
Proof.
  intros Hrtc.
  apply (rtc_action_invariant heuristic boardArray target (λ _, True) kept
           kept_refl kept_trans); auto.
  intros a b _ Hab. split; [done|]. apply action_kept. done.
Qed.

(** No wall holds a finite cost. *)
Definition walls_infinite (nodes : NodeDict) : Prop :=
  map_Forall (λ _ n, status n = Wall → distance n = JS.Infinity) (oget nodes).

#[global] Instance walls_infinite_dec (nodes : NodeDict) : Decision (walls_infinite nodes).
Proof. unfold walls_infinite. apply _. Defined.

Lemma rtc_action_walls (nodes nodes' : NodeDict) :
  rtc (action heuristic boardArray target) nodes nodes' →
  walls_infinite nodes → walls_infinite nodes'.
Proof.
  intros Hrtc Hw k n' Hk Hs.
  assert (Hdom : is_Some (lookupNode nodes k))
    by (apply (rtc_action_dom _ _ _ _ _ _ Hrtc); unfold lookupNode; eauto).
  destruct Hdom as [n Hn].
  destruct (rtc_action_kept _ _ Hrtc _ _ Hn) as (n2 & Hn2 & HK).
  assert (n2 = n') as -> by (unfold lookupNode in Hn2; congruence).
  destruct HK as (_ & _ & K3 & K4 & _).
  destruct (decide (status n = Wall)) as [Hsn|Hsn].
  - rewrite (K3 Hsn). apply (Hw k n Hn Hsn).
  - destruct (K4 Hsn Hs).
Qed.

(** The cells appended to the trace since [trace0] are marked visited. *)
Definition trace_visited (trace0 : list Id) (s : State) : Prop :=
  ∃ added, nodesToAnimate s = trace0 ++ added
           ∧ ∀ k, k ∈ added → ∃ n, lookupNode (nodes s) k = Some n ∧ status n = Visited.

Lemma during_trace_visited (s0 s : State) :
  is_Some (lookupNode (nodes s0) target) →
  during heuristic boardArray target s0 s →
  trace_visited (nodesToAnimate s0) s.
Proof.
  intros Htg Hd.
  assert (Hstep : ∀ s1, during heuristic boardArray target s0 s1 →
            trace_visited (nodesToAnimate s0) s1 →
            trace_visited (nodesToAnimate s0)
              (result_state (iteration heuristic boardArray target s1))).
  { intros s1 Hd1 (added & Hadd & Hvis).
    assert (Htg1 : is_Some (lookupNode (nodes s1) target)).
    { apply (rtc_action_dom _ _ _ _ _ _ (during_actions _ _ _ _ _ Htg Hd1)). done. }
    destruct (iteration_effect heuristic boardArray target s1 Htg1) as [Hrtc Htr].
    destruct Htr as [[Htr _]|(ref & cur & Htr & Hcur & Hw & _ & Hrtc2)].
    - exists added. rewrite Htr. split; [done|].
      intros k Hk. destruct (Hvis k Hk) as (n & Hn & Hs).
      destruct (rtc_action_kept _ _ Hrtc _ _ Hn) as (n' & Hn' & HK).
      exists n'. split; [done|]. apply HK. done.
    - exists (added ++ [ref]). rewrite Htr, Hadd, app_assoc. split; [done|].
      intros k Hk. apply elem_of_app in Hk as [Hk|Hk].
      + destruct (Hvis k Hk) as (n & Hn & Hs).
        destruct (rtc_action_kept _ _ Hrtc _ _ Hn) as (n' & Hn' & HK).
        exists n'. split; [done|]. apply HK. done.
      + apply list_elem_of_singleton in Hk as ->.
        pose proof (lookupNode_mutate_eq (set_status Visited) _ _ _ Hcur) as Hv.
        destruct (rtc_action_kept _ _ Hrtc2 _ _ Hv) as (n' & Hn' & HK).
        exists n'. split; [done|]. apply HK. done. }
  induction Hd as [|s s' Hd IH Hu Hit|s o s' Hd IH Hu Hit].
  - exists []. rewrite app_nil_r. split; [done|]. intros k Hk. inversion Hk.
  - specialize (Hstep s Hd IH). rewrite Hit in Hstep. done.
  - specialize (Hstep s Hd IH). rewrite Hit in Hstep. done.
Qed.

(** The cells appended to the trace since [trace0] were not walls in the
    store [nodes0]. *)
Definition trace_unwalled (nodes0 : NodeDict) (trace0 : list Id) (s : State) : Prop :=
  ∃ added, nodesToAnimate s = trace0 ++ added
           ∧ ∀ k, k ∈ added → ∃ n0, lookupNode nodes0 k = Some n0 ∧ status n0 ≠ Wall.

Lemma during_trace_unwalled (s0 s : State) :
  is_Some (lookupNode (nodes s0) target) →
  during heuristic boardArray target s0 s →
  trace_unwalled (nodes s0) (nodesToAnimate s0) s.
Proof.
  intros Htg Hd.
  induction Hd as [|s s' Hd IH Hu Hit|s o s' Hd IH Hu Hit].
  - exists []. rewrite app_nil_r. split; [done|]. intros k Hk. inversion Hk.
  - destruct IH as (added & Hadd & Hfree).
    pose proof (during_actions _ _ _ _ _ Htg Hd) as Hrtc0.
    assert (Htg1 : is_Some (lookupNode (nodes s) target))
      by (apply (rtc_action_dom _ _ _ _ _ _ Hrtc0); done).
    destruct (iteration_effect heuristic boardArray target s Htg1) as [_ Htr].
    rewrite Hit in Htr. simpl in Htr.
    destruct Htr as [[Htr _]|(ref & cur & Htr & Hcur & Hw & _)].
    + exists added. rewrite Htr. done.
    + exists (added ++ [ref]). rewrite Htr, Hadd, app_assoc. split; [done|].
      intros k Hk. apply elem_of_app in Hk as [Hk|Hk]; [auto|].
      apply list_elem_of_singleton in Hk as ->.
      destruct (proj1 (rtc_action_dom _ _ _ _ _ ref Hrtc0)) as [n0 Hn0]; [eauto|].
      exists n0. split; [done|]. intros Hw0.
      destruct (rtc_action_kept _ _ Hrtc0 _ _ Hn0) as (n' & Hn' & HK).
      assert (n' = cur) as -> by congruence.
      destruct HK as (_ & _ & K3 & _). rewrite (K3 Hw0) in Hw. done.
  - destruct IH as (added & Hadd & Hfree).
    pose proof (during_actions _ _ _ _ _ Htg Hd) as Hrtc0.
    assert (Htg1 : is_Some (lookupNode (nodes s) target))
      by (apply (rtc_action_dom _ _ _ _ _ _ Hrtc0); done).
    destruct (iteration_effect heuristic boardArray target s Htg1) as [_ Htr].
    rewrite Hit in Htr. simpl in Htr.
    destruct Htr as [[Htr _]|(ref & cur & Htr & Hcur & Hw & _)].
    + exists added. rewrite Htr. done.
    + exists (added ++ [ref]). rewrite Htr, Hadd, app_assoc. split; [done|].
      intros k Hk. apply elem_of_app in Hk as [Hk|Hk]; [auto|].
      apply list_elem_of_singleton in Hk as ->.
      destruct (proj1 (rtc_action_dom _ _ _ _ _ ref Hrtc0)) as [n0 Hn0]; [eauto|].
      exists n0. split; [done|]. intros Hw0.
      destruct (rtc_action_kept _ _ Hrtc0 _ _ Hn0) as (n' & Hn' & HK).
      assert (n' = cur) as -> by congruence.
      destruct HK as (_ & _ & K3 & _). rewrite (K3 Hw0) in Hw. done.
Qed.

End Walls.

Section WallsTheorem.

Import Improved.

Lemma lookupNode_initializeStartNode (nodes : NodeDict) (st k : Id) :
  is_Some (lookupNode (initializeStartNode nodes st) k) ↔ is_Some (lookupNode nodes k).
Proof.
  unfold initializeStartNode. rewrite lookupNode_mutate.
  destruct (decide (st = k)); [|done]. rewrite fmap_is_Some. done.
Qed.

Lemma initializeStartNode_walls (nodes : NodeDict) (st : Id) :
  (∀ n, lookupNode nodes st = Some n → status n ≠ Wall) →
  walls_infinite nodes → walls_infinite (initializeStartNode nodes st).
Proof.
  intros Hst Hw k n' Hk Hs.
  change (lookupNode (initializeStartNode nodes st) k = Some n') in Hk.
  unfold initializeStartNode in Hk. rewrite lookupNode_mutate in Hk.
  destruct (decide (st = k)) as [->|].
  - destruct (lookupNode nodes k) as [n|] eqn:Hn; [|done].
    simpl in Hk. injection Hk as <-. simpl in Hs. destruct (Hst n eq_refl Hs).
  - apply (Hw k n' Hk Hs).
Qed.

(** The claim of C2 as it is written, for one call. *)
Definition no_wall_holds_a_cost (nodes : NodeDict) (start target : option Id)
    (boardArray : Board) : Prop :=
  ∀ o s', astar nodes start target [] boardArray manhattanDistance = Some (o, s') →
          walls_infinite (Improved.nodes s').

(** C2 fails as stated when the start cell is itself a wall: on a fresh
    1-by-2 grid with a wall at "0-0", a search from "0-0" returns [false] and
    leaves the wall "0-0" with cost 0. *)
Lemma astar_wall_start_holds_a_cost :
  let grid := Fixture.setWalls [(0, 0)] (Fixture.freshGrid 1 2) in
  walls_infinite grid
  ∧ ¬ no_wall_holds_a_cost grid (Some (0, 0)) (Some (0, 1)) (Fixture.fullBoard 1 2).
Proof.
  split.
  - apply (bool_decide_unpack _). vm_compute. exact I.
  - intros H.
    destruct (astar (Fixture.setWalls [(0, 0)] (Fixture.freshGrid 1 2)) (Some (0, 0))
                (Some (0, 1)) [] (Fixture.fullBoard 1 2) manhattanDistance)
      as [[o s']|] eqn:Hrun; [|vm_compute in Hrun; discriminate].
    specialize (H o s' Hrun).
    vm_compute in Hrun. injection Hrun as <- <-.
    specialize (H (0, 0) _ eq_refl eq_refl). discriminate.
Qed.

(** What the loop has appended to [trace]: cells that were not walls in
    the grid passed to [astar], each marked visited. *)
Definition appended_off_walls (nodes : NodeDict) (trace : list Id) (s : State) : Prop :=
  ∃ added, nodesToAnimate s = trace ++ added
    ∧ ∀ k, k ∈ added →
        (∃ n, lookupNode nodes k = Some n ∧ status n ≠ Wall)
        ∧ ∃ n', lookupNode (Improved.nodes s) k = Some n' ∧ status n' = Visited.

Lemma initializeStartNode_status (nodes : NodeDict) (st k : Id) (n0 : Node) :
  lookupNode (initializeStartNode nodes st) k = Some n0 →
  ∃ n, lookupNode nodes k = Some n ∧ status n = status n0.
Proof.
  unfold initializeStartNode. rewrite lookupNode_mutate.
  destruct (decide (st = k)) as [->|]; [|eauto].
  destruct (lookupNode nodes k) as [n|]; [|done]. simpl. intros [= <-]. eauto.
Qed.

(** C2 as amended.  For every input, [astar] returns or raises, and in every
    state of the loop (the last one included) the cells it has appended to
    the trace were not walls in the grid passed in and are marked visited.
    When moreover no wall holds a finite cost before the call and the start
    cell is not a wall, no wall holds a finite cost in any state of the loop,
    after any single relaxation, or in the state left behind. *)
Theorem astar_keeps_walls_out (nodes : NodeDict) (start target : option Id)
    (trace : list Id) (boardArray : Board) (heuristic : Node → Node → Z) :
  (∃ o s', astar nodes start target trace boardArray heuristic = Some (o, s')
           ∧ appended_off_walls nodes trace s')
  ∧ (∀ st tg s,
       start = Some st → target = Some tg →
       validateInputs nodes start target = true →
       during heuristic boardArray tg (initial nodes st trace) s →
       appended_off_walls nodes trace s)
  ∧ (walls_infinite nodes →
     (∀ st n, start = Some st → lookupNode nodes st = Some n → status n ≠ Wall) →
     (∀ o s', astar nodes start target trace boardArray heuristic = Some (o, s') →
              walls_infinite (Improved.nodes s'))
     ∧ (∀ st tg s,
          start = Some st → target = Some tg →
          validateInputs nodes start target = true →
          during heuristic boardArray tg (initial nodes st trace) s →
          walls_infinite (Improved.nodes s))
     ∧ (∀ st tg nodes',
          start = Some st → target = Some tg →
          validateInputs nodes start target = true →
          rtc (action heuristic boardArray tg) (initializeStartNode nodes st) nodes' →
          walls_infinite nodes')).
Proof.
  assert (Htrace : ∀ st tg s,
       start = Some st → target = Some tg →
       validateInputs nodes start target = true →
       during heuristic boardArray tg (initial nodes st trace) s →
       appended_off_walls nodes trace s).
  { intros st tg s Hst Htg Hv Hd.
    assert (Htg0 : is_Some (lookupNode (Improved.nodes (initial nodes st trace)) tg)).
    { simpl. apply lookupNode_initializeStartNode.
      destruct (validateInputs_true _ _ _ Hv) as (st' & tg' & ? & ? & ? & ? & ?).
      congruence. }
    destruct (during_trace_visited heuristic boardArray tg _ _ Htg0 Hd)
      as (added & Hadd & Hvis).
    destruct (during_trace_unwalled heuristic boardArray tg _ _ Htg0 Hd)
      as (added' & Hadd' & Hfree).
    simpl in Hadd, Hadd', Hfree.
    assert (added' = added) as -> by (rewrite Hadd in Hadd'; eapply app_inv_head; eauto).
    exists added. split; [done|]. intros k Hk. split; [|auto].
    destruct (Hfree k Hk) as (n0 & Hn0 & Hw0).
    destruct (initializeStartNode_status _ _ _ _ Hn0) as (n & Hn & Hs).
    exists n. split; [done|]. congruence. }
  split; [|split; [exact Htrace|]].
  - destruct (validateInputs nodes start target) eqn:Hv.
    + destruct (validateInputs_true _ _ _ Hv) as (st & tg & -> & -> & _).
      destruct (astar_total nodes (Some st) (Some tg) trace boardArray heuristic)
        as [[o s'] Hrun].
      exists o, s'. split; [done|].
      rewrite astar_valid in Hrun by done.
      apply (Htrace st tg s' eq_refl eq_refl eq_refl).
      eapply astar_loop_during; [|exact Hrun]. constructor.
    + exists ReturnFalse. eexists. split.
      { unfold astar. destruct start, target; try reflexivity. rewrite Hv. reflexivity. }
      exists []. simpl. rewrite app_nil_r. split; [done|]. intros k Hk. inversion Hk.
  - intros Hwalls Hstart.
    assert (Hstore : ∀ st tg nodes',
         start = Some st → target = Some tg →
         validateInputs nodes start target = true →
         rtc (action heuristic boardArray tg) (initializeStartNode nodes st) nodes' →
         walls_infinite nodes').
    { intros st tg nodes' -> -> Hv Hrtc.
      eapply rtc_action_walls; [exact Hrtc|].
      apply initializeStartNode_walls; eauto. }
    assert (Hstates : ∀ st tg s,
         start = Some st → target = Some tg →
         validateInputs nodes start target = true →
         during heuristic boardArray tg (initial nodes st trace) s →
         walls_infinite (Improved.nodes s)).
    { intros st tg s Hst Htg Hv Hd.
      assert (Htg0 : is_Some (lookupNode (Improved.nodes (initial nodes st trace)) tg)).
      { simpl. apply lookupNode_initializeStartNode.
        destruct (validateInputs_true _ _ _ Hv) as (st' & tg' & ? & ? & ? & ? & ?).
        congruence. }
      apply (Hstore st tg _ Hst Htg Hv).
      apply (during_actions heuristic boardArray tg _ _ Htg0 Hd). }
    split; [|split; [exact Hstates|exact Hstore]].
    intros o s' Hrun.
    destruct (validateInputs nodes start target) eqn:Hv.
    + destruct (validateInputs_true _ _ _ Hv) as (st & tg & -> & -> & _).
      rewrite astar_valid in Hrun by done.
      apply (Hstates st tg s' eq_refl eq_refl eq_refl).
      eapply astar_loop_during; [|exact Hrun]. constructor.
    + unfold astar in Hrun.
      assert (Improved.nodes s' = nodes) as ->; [|done].
      destruct start, target; try (injection Hrun as _ <-; done).
      rewrite Hv in Hrun. injection Hrun as _ <-. done.
Qed.

(** The grid of the test "should handle walls correctly". *)
Definition walledGrid : NodeDict :=
  Fixture.setWalls [(1, 1); (1, 2); (2, 1)] (Fixture.freshGrid 4 4).

Lemma astar_keeps_walls_out_witness :
  ∃ o s', astar walledGrid (Some (0, 0)) (Some (3, 3)) [] (Fixture.fullBoard 4 4)
            manhattanDistance = Some (o, s')
          ∧ appended_off_walls walledGrid [] s'
          ∧ walls_infinite (Improved.nodes s').
Proof.
  destruct (astar_keeps_walls_out walledGrid (Some (0, 0)) (Some (3, 3)) []
              (Fixture.fullBoard 4 4) manhattanDistance) as ((o & s' & Hrun & Htr) & _ & Hcost).
  exists o, s'. split; [exact Hrun|]. split; [exact Htr|].
  apply Hcost with (o := o); [| |exact Hrun].
  - apply (bool_decide_unpack _). vm_compute. exact I.
  - intros st n [= <-] Hn. vm_compute in Hn. injection Hn as <-. discriminate.
Defined.

End WallsTheorem.

(** ** Costs only go down *)

Section Monotone.

Import Improved.

Variable boardArray : Board.
Variable target : Id.
(** The id stored in the record of the target cell. *)
Variable idT : Id.









Lemma calculateNodeDistance_cost (a b : Node) : (calculateNodeDistance a b).1.1 = 1.
Proof.
  unfold calculateNodeDistance. destruct (id a), (id b).
  repeat case_match; reflexivity.
Qed.




End Monotone.

Section MonotoneTheorem.

Import Improved.



(** A grid as [new Node] or [reset] leaves it, with weights that are not
    negative. *)
Definition fresh_costs (nodes : NodeDict) : Prop :=
  map_Forall (λ _ n, distance n = JS.Infinity ∧ totalDistance n = JS.Infinity
                     ∧ 0 ≤ weight n) (oget nodes).

#[global] Instance fresh_costs_dec (nodes : NodeDict) : Decision (fresh_costs nodes).
Proof. unfold fresh_costs. apply _. Defined.





(** The grid of the test "should consider node weights". *)
Definition weightedGrid : NodeDict :=
  mutate (set_weight 10) (1, 1) (mutate (set_weight 10) (2, 2) (Fixture.freshGrid 4 4)).


End MonotoneTheorem.

(** ** The visitation trace *)

Section Trace.

Import Improved.

Variable heuristic : Node → Node → Z.
Variable boardArray : Board.

(** Every node record carries the key it is stored under. *)
Definition ids_match (nodes : NodeDict) : Prop :=
  map_Forall (λ k n, id n = k) (oget nodes).

(** No cell has a cost yet. *)
Definition undiscovered (nodes : NodeDict) : Prop :=
  map_Forall (λ _ n, distance n = JS.Infinity) (oget nodes).

#[global] Instance ids_match_dec (nodes : NodeDict) : Decision (ids_match nodes).
Proof. unfold ids_match. apply _. Defined.

#[global] Instance undiscovered_dec (nodes : NodeDict) : Decision (undiscovered nodes).
Proof. unfold undiscovered. apply _. Defined.

Lemma initial_only_start_finite (nodes : NodeDict) (st k : Id) (n : Node) :
  undiscovered nodes →
  lookupNode (initializeStartNode nodes st) k = Some n →
  JS.eqb (distance n) JS.Infinity = false → k = st.
Proof.
  intros Hfresh Hk Hfin. unfold initializeStartNode in Hk.
  rewrite lookupNode_mutate in Hk. destruct (decide (st = k)) as [->|]; [done|].
  rewrite (Hfresh k n Hk) in Hfin. discriminate.
Qed.

Lemma during_trace_starts (nodes : NodeDict) (st tg : Id) (trace : list Id) :
  undiscovered nodes → is_Some (lookupNode nodes tg) →
  ∀ s, during heuristic boardArray tg (initial nodes st trace) s →
       (Improved.nodes s = initializeStartNode nodes st ∧ nodesToAnimate s = trace)
       ∨ ∃ rest, nodesToAnimate s = trace ++ st :: rest.
Proof.
  intros Hfresh Htg.
  assert (Htg0 : is_Some (lookupNode (Improved.nodes (initial nodes st trace)) tg))
    by (simpl; apply lookupNode_initializeStartNode; done).
  assert (Hstep : ∀ s, during heuristic boardArray tg (initial nodes st trace) s →
     (Improved.nodes s = initializeStartNode nodes st ∧ nodesToAnimate s = trace)
       ∨ (∃ rest, nodesToAnimate s = trace ++ st :: rest) →
     let s' := result_state (iteration heuristic boardArray tg s) in
     (Improved.nodes s' = initializeStartNode nodes st ∧ nodesToAnimate s' = trace)
       ∨ (∃ rest, nodesToAnimate s' = trace ++ st :: rest)).
  { intros s Hd IH.
    assert (Htg1 : is_Some (lookupNode (Improved.nodes s) tg)).
    { apply (rtc_action_dom _ _ _ _ _ _ (during_actions _ _ _ _ _ Htg0 Hd)). done. }
    destruct (iteration_effect heuristic boardArray tg s Htg1) as [_ Htr].
    destruct Htr as [[Htr Hn]|(ref & cur & Htr & Hcur & _ & Hfin & _)]; simpl.
    - rewrite Htr, Hn. done.
    - right. rewrite Htr. destruct IH as [[Hn0 Ht0]|[rest Hrest]].
      + rewrite Hn0 in Hcur.
        rewrite (initial_only_start_finite _ _ _ _ Hfresh Hcur Hfin), Ht0.
        exists []. done.
      + exists (rest ++ [ref]). rewrite Hrest, <- app_assoc. done. }
  intros s Hd. induction Hd as [|s s' Hd IH Hu Hit|s o s' Hd IH Hu Hit].
  - left. done.
  - specialize (Hstep s Hd IH). rewrite Hit in Hstep. done.
  - specialize (Hstep s Hd IH). rewrite Hit in Hstep. done.
Qed.

Lemma initializeStartNode_ids (nodes : NodeDict) (st : Id) :
  ids_match nodes → ids_match (initializeStartNode nodes st).
Proof.
  intros Hids k n Hk. change (lookupNode (initializeStartNode nodes st) k = Some n) in Hk.
  unfold initializeStartNode in Hk. rewrite lookupNode_mutate in Hk.
  destruct (decide (st = k)) as [->|]; [|apply (Hids k n Hk)].
  destruct (lookupNode nodes k) as [n0|] eqn:Hn0; [|done].
  injection Hk as <-. simpl. apply (Hids k n0 Hn0).
Qed.

Lemma rtc_action_ids (tg : Id) (nodes nodes' : NodeDict) :
  rtc (action heuristic boardArray tg) nodes nodes' →
  ids_match nodes → ids_match nodes'.
Proof.
  intros Hrtc Hids k n' Hk.
  assert (Hdom : is_Some (lookupNode nodes k))
    by (apply (rtc_action_dom _ _ _ _ _ _ Hrtc); unfold lookupNode; eauto).
  destruct Hdom as [n Hn].
  destruct (rtc_action_kept _ _ _ _ _ Hrtc _ _ Hn) as (n2 & Hn2 & HK).
  assert (n2 = n') as -> by (unfold lookupNode in Hn2; congruence).
  destruct HK as (-> & _). apply (Hids k n Hn).
Qed.

(** A successful run of [astar] on a grid without costs: the cells it
    appends to the trace begin with the start cell, end with the target
    cell, and are all marked visited. *)
Lemma astar_success_trace (nodes : NodeDict) (start target : option Id)
    (trace : list Id) (s' : State) :
  undiscovered nodes → ids_match nodes →
  astar nodes start target trace boardArray heuristic = Some (ReturnSuccess, s') →
  ∃ st tg middle,
    start = Some st ∧ target = Some tg
    ∧ nodesToAnimate s' = trace ++ st :: middle ++ [tg]
    ∧ ∀ k, k ∈ st :: middle ++ [tg] →
           ∃ n, lookupNode (Improved.nodes s') k = Some n ∧ status n = Visited.
Proof.
  intros Hfresh Hids Hrun.
  destruct (validateInputs nodes start target) eqn:Hv.
  2: { unfold astar in Hrun. destruct start, target; try discriminate.
       rewrite Hv in Hrun. discriminate. }
  destruct (validateInputs_true _ _ _ Hv) as (st & tg & -> & -> & Hne & _ & Htg).
  rewrite astar_valid in Hrun by done.
  assert (Htg0 : is_Some (lookupNode (Improved.nodes (initial nodes st trace)) tg))
    by (simpl; apply lookupNode_initializeStartNode; done).
  pose proof (astar_loop_during _ _ _ _ _ _ _ _ (during_start _ _ _ _) Hrun) as Hd'.
  destruct (astar_loop_end _ _ _ _ _ _ _ _ (during_start _ _ _ _) Hrun)
    as [(_ & _ & ?)|(s1 & Hd1 & Hu1 & Hit)]; [discriminate|].
  assert (Hrtc1 := during_actions _ _ _ _ _ Htg0 Hd1).
  assert (Htg1 : is_Some (lookupNode (Improved.nodes s1) tg))
    by (apply (rtc_action_dom _ _ _ _ _ _ Hrtc1); done).
  destruct (iteration_cases heuristic boardArray tg s1 Htg1)
    as [[_ E]|[(unv1 & _ & E)|(ref & unv1 & cur & _ & Hcur & Hw & Hrest)]];
    try (rewrite E in Hit; discriminate).
  destruct Hrest as [[_ E]|(Hfin & nodes2 & -> & Hrest)];
    [rewrite E in Hit; discriminate|].
  destruct Hrest as [[Hid E]|[(_ & _ & E)|(_ & n3 & c3 & _ & E)]];
    try (rewrite E in Hit; discriminate).
  rewrite E in Hit. injection Hit as <-.
  assert (ref = tg) as ->.
  { rewrite <- Hid. symmetry.
    apply (rtc_action_ids tg _ _ Hrtc1 (initializeStartNode_ids _ _ Hids) ref cur Hcur). }
  destruct (during_trace_starts nodes st tg trace Hfresh Htg s1 Hd1)
    as [[Hn0 _]|[rest Hrest]].
  { rewrite Hn0 in Hcur.
    destruct Hne. symmetry.
    apply (initial_only_start_finite _ _ _ _ Hfresh Hcur Hfin). }
  exists st, tg, rest. split_and!; try done.
  { simpl. rewrite Hrest, <- app_assoc. done. }
  destruct (during_trace_visited heuristic boardArray tg _ _ Htg0 Hd')
    as (added & Hadd & Hvis).
  simpl in Hadd. rewrite Hrest, <- app_assoc in Hadd.
  apply app_inv_head in Hadd. subst added. exact Hvis.
Qed.

End Trace.

Section ModernTrace.

Import ModernAStar.

Variable options : Options.
Variable boardArray : Board.
Variable targetId : Id.

Lemma lookupNode_assign (k k' : Id) (v : Node) (nodes : NodeDict) :
  lookupNode (assign k v nodes) k' = if decide (k = k') then Some v else lookupNode nodes k'.
Proof.
  unfold lookupNode, assign. simpl. rewrite lookup_insert.
  destruct (decide (k = k')); reflexivity.
Qed.

Lemma foldl_pick (g : Id → Id * JS.Num → bool) (l : NumMap) :
  ∀ acc, foldl (λ lowest entry, if g lowest entry then entry.1 else lowest) acc l
         ∈ acc :: l.*1.
Proof.
  induction l as [|[k1 v1] l IH]; intros acc; simpl; [left|].
  specialize (IH (if g acc (k1, v1) then k1 else acc)).
  apply elem_of_cons in IH as [->|IH].
  - destruct (g acc (k1, v1)); [right; left|left].
  - right. right. done.
Qed.

Lemma findNodeWithLowestDistance_elem (m : NumMap) (k : Id) :
  findNodeWithLowestDistance m = Some k → k ∈ m.*1.
Proof.
  unfold findNodeWithLowestDistance. destruct m as [|[first v0] rest] eqn:Hm; [done|].
  intros H. apply (inj Some) in H. rewrite <- H.
  pose proof (foldl_pick
    (λ lowest entry, JS.ltb entry.2 (default JS.NaN (map_get ((first, v0) :: rest) lowest)))
    ((first, v0) :: rest) first) as Hpick.
  apply elem_of_cons in Hpick as [->|Hpick]; [left|exact Hpick].
Qed.

Lemma map_delete_elem (m : NumMap) (k : Id) (e : Id * JS.Num) :
  e ∈ map_delete m k → e ∈ m.
Proof.
  induction m as [|[k1 v1] m IH]; simpl; [done|].
  destruct (decide (k1 = k)).
  - intros H. right. done.
  - intros H. apply elem_of_cons in H as [->|H]; [left|right; auto].
Qed.

(** The [forEach] callback rewrites only the record of a neighbour that is
    not in the visited set. *)
Lemma updateNeighbor_frame (currentId : Id) (currentNode : Node) (visitedSet : gset Id)
    (nodes : NodeDict) (m : NumMap) (neighborId : Id) (k : Id) :
  k ∈ visitedSet →
  ∀ r, updateNeighbor options currentId currentNode targetId visitedSet nodes m neighborId = r →
  lookupNode (match r with JS.Normal x | JS.Abrupt x => x.1 end) k = lookupNode nodes k.
Proof.
  intros Hk r <-. unfold updateNeighbor.
  destruct (decide (neighborId ∈ visitedSet)) as [Hin|Hnin]; [done|].
  assert (Hne : neighborId ≠ k) by (intros ->; done).
  destruct (lookupNode nodes neighborId) as [nb|]; [|done].
  destruct (getDistance currentNode nb) as [[cost steps] heading].
  destruct (JS.ltb _ _); [|done].
  destruct (decide (heuristicDistance nb = JS.Undefined)).
  - destruct (lookupNode (assign neighborId _ nodes) targetId); simpl;
      rewrite ?lookupNode_assign, ?decide_False by done; done.
  - simpl. rewrite !lookupNode_assign, !decide_False by done. done.
Qed.

Lemma updateNeighbors_each_frame (currentId : Id) (currentNode : Node)
    (visitedSet : gset Id) (k : Id) :
  k ∈ visitedSet →
  ∀ neighbors nodes m r,
    updateNeighbors_each options currentId currentNode targetId visitedSet nodes m neighbors = r →
    lookupNode (match r with JS.Normal x | JS.Abrupt x => x.1 end) k = lookupNode nodes k.
Proof.
  intros Hk. induction neighbors as [|nb rest IH]; intros nodes m r <-; simpl; [done|].
  pose proof (updateNeighbor_frame currentId currentNode visitedSet nodes m nb k Hk _ eq_refl)
    as Hone.
  destruct (updateNeighbor options currentId currentNode targetId visitedSet nodes m nb)
    as [[nodes1 m1]|[nodes1 m1]]; simpl in *; [|done].
  rewrite (IH nodes1 m1 _ eq_refl). done.
Qed.

Lemma updateNeighbors_frame (currentId : Id) (nodes : NodeDict) (m : NumMap)
    (visitedSet : gset Id) (k : Id) :
  k ∈ visitedSet →
  ∀ r, updateNeighbors options currentId nodes boardArray targetId m visitedSet = r →
  lookupNode (match r with JS.Normal x | JS.Abrupt x => x.1 end) k = lookupNode nodes k.
Proof.
  intros Hk r <-. unfold updateNeighbors.
  destruct (lookupNode nodes currentId) as [cur|]; [|done].
  destruct (getNeighbors options currentId nodes boardArray) as [neighbors|]; [|done].
  apply (updateNeighbors_each_frame currentId cur visitedSet k Hk _ _ _ _ eq_refl).
Qed.

(** The trace is empty while only the start id is in the frontier, or it
    begins with the start; its cells are in the visited set and marked
    visited. *)
Definition trace_ok (startId : Id) (s : State) : Prop :=
  ((nodesToAnimate s = [] ∧ ∀ e, e ∈ unvisitedMap s → e.1 = startId)
   ∨ ∃ rest, nodesToAnimate s = startId :: rest)
  ∧ ∀ k, k ∈ nodesToAnimate s →
         k ∈ visitedSet s ∧ ∃ n, lookupNode (nodes s) k = Some n ∧ status n = Visited.

Lemma execute_loop_success (startId : Id) (fuel : nat) :
  startId ≠ targetId →
  ∀ s s', trace_ok startId s →
    execute_loop options boardArray targetId fuel s = Some (ReturnSuccess, s') →
    ∃ middle, nodesToAnimate s' = startId :: middle ++ [targetId]
      ∧ ∀ k, k ∈ nodesToAnimate s' →
             ∃ n, lookupNode (nodes s') k = Some n ∧ status n = Visited.
Proof.
  intros Hne. induction fuel as [|fuel IH]; intros s s' [Hshape Hvis] Hrun; simpl in Hrun.
  { destruct (findNodeWithLowestDistance (unvisitedMap s)); discriminate. }
  destruct (findNodeWithLowestDistance (unvisitedMap s)) as [currentId|] eqn:Hfind;
    [|discriminate].
  destruct (lookupNode (nodes s) currentId) as [cur|] eqn:Hcur; [|discriminate].
  destruct (bool_decide (status cur = Wall) || bool_decide (currentId ∈ visitedSet s)).
  { apply IH in Hrun; [done|]. split; simpl; [|done].
    destruct Hshape as [[Hnil Hkeys]|?]; [|auto].
    left. split; [done|]. intros e He. apply Hkeys. eapply map_delete_elem; eauto. }
  destruct (JS.eqb (distance cur) JS.Infinity); [discriminate|].
  assert (Hshape2 : ∃ rest, nodesToAnimate s ++ [currentId] = startId :: rest).
  { destruct Hshape as [[Hnil Hkeys]|[rest ->]]; [|eauto].
    rewrite Hnil. apply findNodeWithLowestDistance_elem in Hfind.
    apply list_elem_of_fmap in Hfind as (e & -> & He). rewrite (Hkeys e He). eauto. }
  assert (Hvis2 : ∀ k, k ∈ nodesToAnimate s ++ [currentId] →
            k ∈ ({[currentId]} ∪ visitedSet s : gset Id)
            ∧ ∃ n, lookupNode (mutate (set_status Visited) currentId (nodes s)) k = Some n
                   ∧ status n = Visited).
  { intros k Hk. rewrite lookupNode_mutate. apply elem_of_app in Hk as [Hk|Hk].
    - destruct (Hvis k Hk) as (Hin & n & Hn & Hs).
      split; [apply elem_of_union; right; done|].
      destruct (decide (currentId = k)); rewrite Hn; simpl; eauto.
    - apply list_elem_of_singleton in Hk as ->.
      split; [apply elem_of_union; left; apply elem_of_singleton; done|].
      rewrite decide_True, Hcur by done. simpl. eauto. }
  destruct (bool_decide (currentId = targetId)) eqn:Htg.
  { apply bool_decide_eq_true in Htg as ->. injection Hrun as <-. simpl.
    destruct Hshape as [[Hnil Hkeys]|[rest Hrest]].
    - exfalso. apply findNodeWithLowestDistance_elem in Hfind.
      apply list_elem_of_fmap in Hfind as (e & -> & He). apply Hne. symmetry. auto.
    - exists rest. split; [rewrite Hrest; done|]. intros k Hk. apply (Hvis2 k Hk). }
  simpl in Hrun.
  pose proof (updateNeighbors_frame currentId
                (mutate (set_status Visited) currentId (nodes s))
                (map_delete (unvisitedMap s) currentId)
                ({[currentId]} ∪ visitedSet s)) as Hframe.
  destruct (updateNeighbors options currentId _ boardArray targetId _ _)
    as [[nodes3 m3]|[nodes3 m3]]; [|discriminate].
  apply IH in Hrun; [done|]. split; simpl; [auto|].
  intros k Hk. destruct (Hvis2 k Hk) as (Hin & n & Hn & Hs). split; [done|].
  exists n. split; [|done]. rewrite <- Hn. apply (Hframe k Hin _ eq_refl).
Qed.

End ModernTrace.

(** The claim of C10 as it is written, for one call of [astar]. *)
Definition trace_runs_from_start_to_target (nodes : NodeDict) (start target : Id)
    (boardArray : Board) : Prop :=
  ∀ s', Improved.astar nodes (Some start) (Some target) [] boardArray
          Improved.manhattanDistance = Some (Improved.ReturnSuccess, s') →
        head (Improved.nodesToAnimate s') = Some start
        ∧ last (Improved.nodesToAnimate s') = Some target.

(** C10 fails as stated on a grid that has not been reset.  A search from
    "0-1" to "0-2" on a fresh 1-by-3 grid leaves "0-1" with both costs at 0.
    In a search from "0-2" to "0-0" on the grid left behind, "0-1" ties with
    the new start and comes first among the keys: [astar] returns
    ["success!"] with the trace "0-1", "0-2", "0-0", which begins with the
    old start. *)
Lemma stale_start_heads_the_trace :
  ∃ s1, Improved.astar (Fixture.freshGrid 1 3) (Some (0, 1)) (Some (0, 2)) []
          (Fixture.fullBoard 1 3) Improved.manhattanDistance
        = Some (Improved.ReturnSuccess, s1)
        ∧ (∃ s2, Improved.astar (Improved.nodes s1) (Some (0, 2)) (Some (0, 0)) []
                   (Fixture.fullBoard 1 3) Improved.manhattanDistance
                 = Some (Improved.ReturnSuccess, s2)
                 ∧ Improved.nodesToAnimate s2 = [(0, 1); (0, 2); (0, 0)])
        ∧ ¬ trace_runs_from_start_to_target (Improved.nodes s1) (0, 2) (0, 0)
              (Fixture.fullBoard 1 3).
Proof.
  eexists. split; [vm_compute; reflexivity|].
  split; [eexists; split; vm_compute; reflexivity|].
  intros H. unfold trace_runs_from_start_to_target in H.
  match type of H with
  | ∀ s', ?run = _ → _ =>
      assert (Hrun : ∃ s2, run = Some (Improved.ReturnSuccess, s2)
                           ∧ head (Improved.nodesToAnimate s2) = Some (0, 1))
        by (eexists; split; vm_compute; reflexivity)
  end.
  destruct Hrun as (s2 & Hrun & Hh). destruct (H s2 Hrun) as [Hhead _].
  rewrite Hh in Hhead. discriminate.
Qed.

(** C10 as amended.  When [astar] of improved-astar.js, started on a grid
    without costs whose records carry their keys, returns ["success!"], the
    cells appended to the trace begin with the start cell and end with the
    target cell, so the trace is not empty, and every one of them, the start
    and the target included, is marked visited.  The same holds of [execute]
    of the ES6 class on every grid and with whatever fuel it needed. *)
Theorem success_trace_runs_from_start_to_target (nodes : NodeDict)
    (start target : option Id) (trace : list Id) (boardArray : Board)
    (heuristic : Node → Node → Z) (options : ModernAStar.Options) (fuel : nat) :
  (undiscovered nodes → ids_match nodes →
   ∀ s', Improved.astar nodes start target trace boardArray heuristic
         = Some (Improved.ReturnSuccess, s') →
     ∃ st tg middle,
       start = Some st ∧ target = Some tg
       ∧ Improved.nodesToAnimate s' = trace ++ st :: middle ++ [tg]
       ∧ ∀ k, k ∈ st :: middle ++ [tg] →
              ∃ n, lookupNode (Improved.nodes s') k = Some n ∧ status n = Visited)
  ∧ (∀ s', ModernAStar.execute options fuel nodes start target boardArray
           = Some (ModernAStar.ReturnSuccess, s') →
       ∃ st tg middle,
         start = Some st ∧ target = Some tg
         ∧ ModernAStar.nodesToAnimate s' = st :: middle ++ [tg]
         ∧ ∀ k, k ∈ st :: middle ++ [tg] →
                ∃ n, lookupNode (ModernAStar.nodes s') k = Some n ∧ status n = Visited).
Proof.
  split.
  - intros Hfresh Hids s' Hrun. eapply astar_success_trace; eauto.
  - intros s' Hrun. unfold ModernAStar.execute in Hrun.
    destruct start as [st|], target as [tg|]; try discriminate.
    destruct (bool_decide (st = tg)) eqn:Hne; [discriminate|].
    apply bool_decide_eq_false in Hne.
    destruct (lookupNode nodes st) as [startNode|] eqn:Hst.
    2: { destruct (ModernAStar.getNeighbors options st nodes boardArray) as [[|]|];
         discriminate. }
    apply (execute_loop_success options boardArray tg st fuel Hne) in Hrun.
    + destruct Hrun as (middle & Htr & Hvis). exists st, tg, middle.
      split_and!; try done. rewrite <- Htr. done.
    + split; simpl.
      * left. split; [done|]. intros e He. apply list_elem_of_singleton in He as ->. done.
      * intros k Hk. inversion Hk.
Qed.

Lemma success_trace_runs_from_start_to_target_witness :
  (∃ s', Improved.astar walledGrid (Some (0, 0)) (Some (3, 3)) [] (Fixture.fullBoard 4 4)
           Improved.manhattanDistance = Some (Improved.ReturnSuccess, s')
         ∧ ∃ st tg middle,
             Some (0, 0) = Some st ∧ Some (3, 3) = Some tg
             ∧ Improved.nodesToAnimate s' = [] ++ st :: middle ++ [tg]
             ∧ ∀ k, k ∈ st :: middle ++ [tg] →
                    ∃ n, lookupNode (Improved.nodes s') k = Some n ∧ status n = Visited)
  ∧ (∃ s', ModernAStar.execute ModernAStar.defaultOptions 16 walledGrid (Some (0, 0))
             (Some (3, 3)) (Fixture.fullBoard 4 4) = Some (ModernAStar.ReturnSuccess, s')
           ∧ ∃ st tg middle,
               Some (0, 0) = Some st ∧ Some (3, 3) = Some tg
               ∧ ModernAStar.nodesToAnimate s' = st :: middle ++ [tg]
               ∧ ∀ k, k ∈ st :: middle ++ [tg] →
                      ∃ n, lookupNode (ModernAStar.nodes s') k = Some n ∧ status n = Visited).
Proof.
  assert (Hfresh : undiscovered walledGrid) by (apply (bool_decide_unpack _); vm_compute; exact I).
  assert (Hids : ids_match walledGrid) by (apply (bool_decide_unpack _); vm_compute; exact I).
  destruct (success_trace_runs_from_start_to_target walledGrid (Some (0, 0)) (Some (3, 3)) []
              (Fixture.fullBoard 4 4) Improved.manhattanDistance
              ModernAStar.defaultOptions 16) as [H1 H2].
  split.
  - eexists. split; [vm_compute; reflexivity|]. apply (H1 Hfresh Hids). vm_compute. reflexivity.
  - eexists. split; [vm_compute; reflexivity|]. apply H2. vm_compute. reflexivity.
Defined.

(** ** The cached heuristic *)

Section Heuristic.

Import Improved.

Variable boardArray : Board.
Variable target : Id.
Variable idT : Id.

(** The heuristic of a record is the Manhattan distance to the target, or
    it is still falsy and the cell has not been relaxed. *)
Definition heuristic_cached (n : Node) : Prop :=
  heuristicDistance n = JS.Val (manhattan (id n) idT)
  ∨ (JS.falsy (heuristicDistance n) = true ∧ previousNode n = None).

Definition store_cached (nodes : NodeDict) : Prop :=
  (∃ tgN, lookupNode nodes target = Some tgN ∧ id tgN = idT)
  ∧ ∀ k n, lookupNode nodes k = Some n → heuristic_cached n.

Lemma relaxed_cached (curN nbN tgN : Node) :
  heuristic_cached nbN → id tgN = idT →
  heuristicDistance (relaxed manhattanDistance calculateNodeDistance curN nbN tgN)
  = JS.Val (manhattan (id nbN) idT).
Proof.
  intros Hc Hid. unfold relaxed, withHeuristic, manhattanDistance. rewrite Hid.
  destruct (JS.falsy (heuristicDistance nbN)) eqn:Hf;
    destruct (JS.ltb _ _); simpl; try done.
  all: destruct Hc as [Hc|[Hc _]]; [done|congruence].
Qed.

Lemma action_cached (nodes nodes' : NodeDict) :
  store_cached nodes →
  action manhattanDistance boardArray target nodes nodes' →
  store_cached nodes'
  ∧ ∀ k n, lookupNode nodes k = Some n → ∃ n', lookupNode nodes' k = Some n' ∧ True.
Proof.
  intros [(tgN0 & Htg0 & Hid0) Hall]
         [ref cur Hr Hw Hd | cur nb curN nbN tgN d Hc Hn Ht Hw Hd Hnb Hin].
  - split; [split|].
    + rewrite lookupNode_mutate. destruct (decide (ref = target)); rewrite Htg0; simpl;
        eauto.
    + intros k n. rewrite lookupNode_mutate. destruct (decide (ref = k)) as [->|]; [|eauto].
      rewrite Hr. simpl. intros [= <-]. apply (Hall _ _ Hr).
    + intros k n Hk. rewrite lookupNode_mutate.
      destruct (decide (ref = k)); rewrite Hk; simpl; eauto.
  - assert (tgN = tgN0) as -> by congruence.
    split; [split|].
    + rewrite lookupNode_mutate. destruct (decide (nb = target)) as [->|]; [|eauto].
      rewrite Htg0. simpl. eexists. split; [done|].
      assert (nbN = tgN0) as -> by congruence. rewrite <- Hid0. apply relaxed_frame.
    + intros k n. rewrite lookupNode_mutate. destruct (decide (nb = k)) as [->|]; [|eauto].
      rewrite Hn. simpl. intros [= <-]. left.
      rewrite (relaxed_cached curN nbN tgN0 (Hall _ _ Hn) Hid0).
      destruct (relaxed_frame manhattanDistance calculateNodeDistance curN nbN tgN0)
        as (-> & _). done.
    + intros k n Hk. rewrite lookupNode_mutate.
      destruct (decide (nb = k)); rewrite Hk; simpl; eauto.
Qed.

Lemma rtc_action_cached (nodes nodes' : NodeDict) :
  store_cached nodes →
  rtc (action manhattanDistance boardArray target) nodes nodes' →
  store_cached nodes'.
Proof.
  intros Hc Hrtc.
  apply (rtc_action_invariant manhattanDistance boardArray target store_cached
           (λ _ _, True)) with (nodes := nodes); auto.
  intros a b. apply action_cached.
Qed.

End Heuristic.

Section HeuristicTheorems.

Import Improved.

(** No heuristic is cached and no cell has a predecessor yet. *)
Definition unrelaxed (nodes : NodeDict) : Prop :=
  map_Forall (λ _ n, JS.falsy (heuristicDistance n) = true ∧ previousNode n = None)
             (oget nodes).

(** After a run of [astar] with the default heuristic on a reset grid,
    every cell that was given a predecessor holds the Manhattan distance to
    the target as its heuristic. *)
Lemma astar_heuristic_is_manhattan (nodes : NodeDict) (start : option Id) (tg : Id)
    (tgN : Node) (trace : list Id) (boardArray : Board) (o : Outcome) (s' : State) :
  unrelaxed nodes → lookupNode nodes tg = Some tgN →
  astar nodes start (Some tg) trace boardArray manhattanDistance = Some (o, s') →
  ∀ k n, lookupNode (Improved.nodes s') k = Some n → previousNode n ≠ None →
         heuristicDistance n = JS.Val (manhattan (id n) (id tgN)).
Proof.
  intros Hfresh Htg Hrun.
  assert (Hcached : store_cached tg (id tgN) (Improved.nodes s')).
  { destruct (validateInputs nodes start (Some tg)) eqn:Hv.
    - destruct (validateInputs_true _ _ _ Hv) as (st & tg' & -> & [= <-] & _).
      rewrite astar_valid in Hrun by done.
      assert (Hc0 : store_cached tg (id tgN) (initializeStartNode nodes st)).
      { unfold initializeStartNode. split.
        - rewrite lookupNode_mutate. destruct (decide (st = tg)); rewrite Htg; simpl; eauto.
        - intros k n. rewrite lookupNode_mutate. destruct (decide (st = k)) as [->|].
          + destruct (lookupNode nodes k) as [n0|] eqn:Hk; [|done]. simpl. intros [= <-].
            right. simpl. apply (Hfresh k n0 Hk).
          + intros Hk. right. apply (Hfresh k n Hk). }
      eapply rtc_action_cached; [exact Hc0|].
      apply (during_actions manhattanDistance boardArray tg (initial nodes st trace)).
      + destruct Hc0 as [(t & Ht & _) _]. simpl. eauto.
      + eapply astar_loop_during; [|exact Hrun]. constructor.
    - unfold astar in Hrun.
      assert (s' = mkState nodes [] trace []) as ->.
      { destruct start; try (injection Hrun as _ <-; done).
        rewrite Hv in Hrun. injection Hrun as _ <-. done. }
      simpl. split; [eauto|]. intros k n Hk. right. apply (Hfresh k n Hk). }
  intros k n Hk Hprev. destruct Hcached as [_ Hall].
  destruct (Hall k n Hk) as [?|[_ ?]]; done.
Qed.

(** [!neighborNode.heuristicDistance] also holds for a cached 0: the
    heuristic callback is then invoked again. *)
Lemma zero_heuristic_is_recomputed (heuristic : Node → Node → Z) (nodes : NodeDict)
    (calls : list Id) (cur nb tg : Id) (curN nbN tgN : Node) :
  lookupNode nodes cur = Some curN → lookupNode nodes nb = Some nbN →
  lookupNode nodes tg = Some tgN →
  heuristicDistance nbN = JS.Val 0 →
  ∃ nodes', updateSingleNeighbor heuristic nodes calls cur nb tg
            = JS.Ok (nodes', calls ++ [nb]).
Proof.
  intros Hc Hn Ht Hz.
  rewrite (updateSingleNeighbor_relaxed _ _ _ _ _ _ _ _ _ Hc Hn Ht), Hz. simpl. eauto.
Qed.

(** The 2-by-2 grid with weight 10 on the target "1-1". *)
Definition heavyTarget : NodeDict := mutate (set_weight 10) (1, 1) (Fixture.freshGrid 2 2).

(** C7, from "0-0" to "1-1" on [heavyTarget]: the target is relaxed from
    "1-0" and again from "0-1"; its heuristic is 0, which [!] takes for
    missing, so the heuristic callback runs twice for the target. *)
Theorem heuristic_of_target_is_computed_twice :
  ∃ s', astar heavyTarget (Some (0, 0)) (Some (1, 1)) [] (Fixture.fullBoard 2 2)
          manhattanDistance = Some (ReturnSuccess, s')
        ∧ heuristicCalls s' = [(1, 0); (0, 1); (1, 1); (0, 0); (1, 1)]
        ∧ length (filter (λ k, k = (1, 1)) (heuristicCalls s')) = 2%nat
        ∧ (heuristicDistance <$> lookupNode (Improved.nodes s') (1, 1)) = Some (JS.Val 0).
Proof.
  eexists. split; [vm_compute; reflexivity|]. split_and!; reflexivity.
Qed.

End HeuristicTheorems.

(** ** Unreachable targets *)

Section Unreachable.

Import Improved.

Variable heuristic : Node → Node → Z.
Variable boardArray : Board.
(** The grid passed to [astar]. *)
Variable nodes0 : NodeDict.
Variables st tg : Id.

(** One move of the search: to a cell one cardinal step away that is on
    the board and not a wall. *)
Definition edge (a b : Id) : Prop :=
  ∃ d n, d ∈ cardinal ∧ b = (a.1 + d.1, a.2 + d.2)
         ∧ inBoard boardArray b.1 b.2 = true
         ∧ lookupNode nodes0 b = Some n ∧ status n ≠ Wall.

Definition reachable : Id → Id → Prop := rtc edge.

Hypothesis Hids : ids_match nodes0.
Hypothesis Hfresh : undiscovered nodes0.
Hypothesis Hnoprev : map_Forall (λ _ n, previousNode n = None) (oget nodes0).

(** What is known of the store at any point of the run. *)
Definition explored (nodes : NodeDict) : Prop :=
  rtc (action heuristic boardArray tg) (initializeStartNode nodes0 st) nodes
  ∧ (∀ k n, lookupNode nodes k = Some n →
            JS.eqb (distance n) JS.Infinity = false → reachable st k)
  ∧ (∀ k n, lookupNode nodes k = Some n →
            JS.eqb (distance n) JS.Infinity = true → previousNode n = None).

Lemma explored_initial : explored (initializeStartNode nodes0 st).
Proof.
  split_and!.
  - apply rtc_refl.
  - intros k n Hk Hfin.
    rewrite (initial_only_start_finite _ _ _ _ Hfresh Hk Hfin). apply rtc_refl.
  - intros k n Hk Hinf. unfold initializeStartNode in Hk.
    rewrite lookupNode_mutate in Hk. destruct (decide (st = k)) as [->|].
    + destruct (lookupNode nodes0 k); [|done]. injection Hk as <-. discriminate.
    + apply (Hnoprev k n Hk).
Qed.

Lemma explored_ids (nodes : NodeDict) : explored nodes → ids_match nodes.
Proof.
  intros [Hrtc _]. eapply rtc_action_ids; [exact Hrtc|].
  apply initializeStartNode_ids. done.
Qed.

(** A cell that is not a wall now was not a wall in the grid passed in. *)
Lemma explored_not_wall (nodes : NodeDict) (k : Id) (n : Node) :
  explored nodes → lookupNode nodes k = Some n → status n ≠ Wall →
  ∃ n0, lookupNode nodes0 k = Some n0 ∧ status n0 ≠ Wall.
Proof.
  intros [Hrtc _] Hk Hs.
  assert (Hdom : is_Some (lookupNode (initializeStartNode nodes0 st) k))
    by (apply (rtc_action_dom _ _ _ _ _ _ Hrtc); eauto).
  destruct Hdom as [n1 Hn1].
  destruct (rtc_action_kept _ _ _ _ _ Hrtc _ _ Hn1) as (n2 & Hn2 & HK).
  assert (n2 = n) as -> by congruence.
  unfold initializeStartNode in Hn1. rewrite lookupNode_mutate in Hn1.
  destruct (lookupNode nodes0 k) as [n0|] eqn:Hn0.
  2: { destruct (decide (st = k)); discriminate. }
  exists n0. split; [done|]. intros Hw.
  assert (status n1 = Wall).
  { destruct (decide (st = k)); simpl in Hn1; injection Hn1 as <-; done. }
  destruct HK as (_ & _ & K3 & _). rewrite (K3 H) in Hs. done.
Qed.

Lemma ltb_true_finite (a b : JS.Num) : JS.ltb a b = true → ∃ z, a = JS.Fin z.
Proof. destruct a; simpl; try done. eauto. Qed.

Lemma add_finite (a b : JS.Num) (z : Z) :
  JS.add a b = JS.Fin z → ∃ x y, a = JS.Fin x ∧ b = JS.Fin y.
Proof. destruct a, b; simpl; try done. eauto. Qed.

Lemma action_explored (nodes nodes' : NodeDict) :
  explored nodes → action heuristic boardArray tg nodes nodes' → explored nodes'.
Proof.
  intros Hex Hact. pose proof Hex as (Hrtc & Hreach & Hprev).
  split; [eapply rtc_r; eauto|].
  destruct Hact as [ref cur Hr Hw Hd | cur nb curN nbN tgN d Hc Hn Ht Hw Hd Hnb Hin].
  - split; intros k n; rewrite lookupNode_mutate;
      (destruct (decide (ref = k)) as [->|]; [|eauto]);
      rewrite Hr; simpl; intros [= <-]; simpl; eauto.
  - split; intros k n; rewrite lookupNode_mutate;
      (destruct (decide (nb = k)) as [->|]; [|eauto]);
      rewrite Hn; simpl; intros [= <-].
    + destruct (JS.ltb (candidate calculateNodeDistance curN nbN) (distance nbN)) eqn:Hlt.
      * intros _.
        destruct (ltb_true_finite _ _ Hlt) as [z Hz]. unfold candidate in Hz.
        apply add_finite in Hz as (x & y & Hx & _).
        apply add_finite in Hx as (dc & w & Hdc & _).
        assert (Hcur : reachable st cur).
        { apply (Hreach cur curN Hc). rewrite Hdc. done. }
        eapply rtc_r; [exact Hcur|].
        assert (Hidc : id curN = cur) by (apply (explored_ids _ Hex cur curN Hc)).
        destruct (explored_not_wall _ _ _ Hex Hn Hw) as (n0 & Hn0 & Hw0).
        exists d, n0. rewrite <- Hidc. subst k. done.
      * destruct (relaxed_keeps heuristic calculateNodeDistance curN nbN tgN Hlt)
          as (-> & _). eauto.
    + destruct (JS.ltb (candidate calculateNodeDistance curN nbN) (distance nbN)) eqn:Hlt.
      * destruct (relaxed_improves heuristic calculateNodeDistance curN nbN tgN Hlt)
          as (-> & _).
        destruct (ltb_true_finite _ _ Hlt) as [z ->]. discriminate.
      * destruct (relaxed_keeps heuristic calculateNodeDistance curN nbN tgN Hlt)
          as (-> & _ & -> & _). eauto.
Qed.

Lemma rtc_action_explored (nodes nodes' : NodeDict) :
  explored nodes → rtc (action heuristic boardArray tg) nodes nodes' → explored nodes'.
Proof.
  intros Hex Hrtc. induction Hrtc as [|a b c Hab Hbc IH]; [done|].
  apply IH. eapply action_explored; eauto.
Qed.

End Unreachable.

Section UnreachableTheorem.

Import Improved.

Lemma elem_of_delete_other {A : Type} (l : list A) (i : nat) (r k : A) :
  l !! i = Some r → k ∈ l → k ≠ r → k ∈ delete i l.
Proof.
  intros Hi Hk Hne. rewrite delete_take_drop.
  rewrite <- (take_drop_middle l i r Hi) in Hk.
  apply elem_of_app in Hk as [Hk|Hk]; apply elem_of_app; [left; done|].
  apply elem_of_cons in Hk as [->|Hk]; [done|right; done].
Qed.

(** Every cell of the board has a node. *)
Definition board_has_nodes (boardArray : Board) (nodes : NodeDict) : Prop :=
  ∀ i j, inBoard boardArray i j = true → is_Some (lookupNode nodes (i, j)).

(** [Object.keys(nodes)] lists the keys of the dictionary. *)
Definition keys_listed (nodes : NodeDict) : Prop :=
  ∀ k, k ∈ okeys nodes ↔ is_Some (lookupNode nodes k).

Definition no_predecessors (nodes : NodeDict) : Prop :=
  map_Forall (λ _ n, previousNode n = None) (oget nodes).

#[global] Instance no_predecessors_dec (nodes : NodeDict) : Decision (no_predecessors nodes).
Proof. unfold no_predecessors. apply _. Defined.

Section Loop.

Variable heuristic : Node → Node → Z.
Variable boardArray : Board.
Variable nodes0 : NodeDict.
Variables st tg : Id.
Variable trace : list Id.

Hypothesis Hids : ids_match nodes0.
Hypothesis Hfresh : undiscovered nodes0.
Hypothesis Hnoprev : no_predecessors nodes0.
Hypothesis Hboard : board_has_nodes boardArray nodes0.
Hypothesis Hkeys : keys_listed nodes0.
Hypothesis Htarget : ∃ n, lookupNode nodes0 tg = Some n ∧ status n ≠ Wall.
Hypothesis Hunreachable : ¬ reachable boardArray nodes0 st tg.

Let s0 : State := initial nodes0 st trace.

Lemma during_facts (s : State) :
  during heuristic boardArray tg s0 s →
  explored heuristic boardArray nodes0 st tg (Improved.nodes s)
  ∧ (∀ k, is_Some (lookupNode (Improved.nodes s) k) ↔ is_Some (lookupNode nodes0 k))
  ∧ (∃ n, lookupNode (Improved.nodes s) tg = Some n ∧ status n ≠ Wall).
Proof.
  intros Hd.
  assert (Htg0 : is_Some (lookupNode (Improved.nodes s0) tg)).
  { simpl. apply lookupNode_initializeStartNode. destruct Htarget as (n & -> & _). eauto. }
  pose proof (during_actions _ _ _ _ _ Htg0 Hd) as Hrtc. simpl in Hrtc.
  split_and!.
  - eapply rtc_action_explored; eauto using explored_initial.
  - intros k. rewrite (rtc_action_dom _ _ _ _ _ _ Hrtc).
    apply lookupNode_initializeStartNode.
  - destruct Htarget as (n0 & Hn0 & Hw0).
    assert (Hn1 : ∃ n1, lookupNode (initializeStartNode nodes0 st) tg = Some n1
                        ∧ status n1 ≠ Wall).
    { unfold initializeStartNode. rewrite lookupNode_mutate, Hn0.
      destruct (decide (st = tg)); simpl; eauto. }
    destruct Hn1 as (n1 & Hn1 & Hw1).
    destruct (rtc_action_kept _ _ _ _ _ Hrtc _ _ Hn1) as (n & Hn & HK).
    exists n. split; [done|]. apply HK. done.
Qed.

Lemma astar_loop_unreachable (fuel : nat) :
  ∀ s, during heuristic boardArray tg s0 s →
       tg ∈ unvisitedNodes s →
       (∀ k, k ∈ unvisitedNodes s → k ∈ okeys nodes0) →
       (length (unvisitedNodes s) ≤ fuel)%nat →
       ∃ s', astar_loop heuristic boardArray tg fuel s = Some (ReturnFalse, s')
             ∧ during heuristic boardArray tg s0 s'.
Proof.
  induction fuel as [|fuel IH]; intros s Hd Htg Hsub Hlen.
  { destruct (unvisitedNodes s); [inversion Htg|simpl in Hlen; lia]. }
  assert (Hne : unvisitedNodes s ≠ []) by (intros E; rewrite E in Htg; inversion Htg).
  destruct (during_facts s Hd) as (Hex & Hdom & (tgN & HtgN & HtgW)).
  assert (Hall : ∀ k, k ∈ unvisitedNodes s → is_Some (lookupNode (Improved.nodes s) k)).
  { intros k Hk. apply Hdom, Hkeys, Hsub. done. }
  pose proof (iteration_cases heuristic boardArray tg s (ex_intro _ tgN HtgN)) as Hcases.
  pose proof (iteration_Next_length heuristic boardArray tg s) as Hshrink.
  simpl. destruct (unvisitedNodes s) as [|k0 rest] eqn:Hu; [done|].
  rewrite <- Hu in *. clear Hne.
  destruct Hcases
    as [[Hf _]|[(unv1 & Hf & _)|(ref & unv1 & cur & Hf & Hcur & Hw & Hrest)]].
  - destruct (improved_findClosestNode_total _ _ Hall) as [r Hr]. congruence.
  - apply improved_findClosestNode_selected in Hf as [_ Hwalls].
    destruct (Hwalls tg Htg) as (n & Hn & Hs).
    apply bool_decide_eq_true in Hs. congruence.
  - pose proof (improved_findClosestNode_selected _ _ _ _ Hf)
      as (index & cur' & Hidx & Hunv1 & _).
    destruct Hrest as [[_ H]|(Hfin & nodes2 & -> & Hrest)].
    { destruct (iteration heuristic boardArray tg s) as [s1|o1 s1] eqn:Hit; [done|].
      injection H as -> ->.
      eexists. split; [done|]. eapply during_stop; eauto. rewrite Hu. done. }
    assert (Hidc : id cur = ref).
    { apply (explored_ids _ _ _ _ _ Hids _ Hex ref cur Hcur). }
    assert (Hreach : reachable boardArray nodes0 st ref).
    { destruct Hex as (_ & Hr & _). apply (Hr ref cur Hcur Hfin). }
    destruct Hrest as [[Hid _]|[(_ & Hg & _)|(Hid & nodes3 & calls3 & Hrtc3 & Hit)]].
    + exfalso. apply Hunreachable. rewrite <- Hid, Hidc. done.
    + exfalso. unfold getNeighbors in Hg.
      destruct (getNeighbors_from_total (mutate (set_status Visited) ref (Improved.nodes s))
                  boardArray (id cur).1 (id cur).2) with (directions := cardinal)
                  (neighbors := @nil Id) as [res Hres]; [|congruence].
      intros i j Hin. rewrite lookupNode_mutate.
      destruct (decide (ref = (i, j))); [rewrite fmap_is_Some|]; apply Hdom, Hboard; done.
    + rewrite Hit. apply IH.
      * eapply during_next; eauto. rewrite Hu. done.
      * simpl. rewrite Hunv1. eapply elem_of_delete_other; eauto. congruence.
      * simpl. intros k Hk. apply Hsub. rewrite Hunv1 in Hk.
        eapply list_elem_of_delete_inv; eauto.
      * specialize (Hshrink _ Hit). rewrite Hu in Hshrink, Hlen.
        specialize (Hshrink ltac:(done)). simpl in *. lia.
Qed.

End Loop.

End UnreachableTheorem.

Section UnreachableResults.

Import Improved.

(** X18.  On a reset grid whose board cells all have nodes, a target that
    is not a wall and that no sequence of moves reaches from the start makes
    [astar] return [false], whatever the heuristic, and the target keeps no
    predecessor. *)
Lemma astar_unreachable_returns_false (nodes : NodeDict) (start target : option Id)
    (trace : list Id) (boardArray : Board) (heuristic : Node → Node → Z) :
  ids_match nodes → undiscovered nodes → no_predecessors nodes →
  board_has_nodes boardArray nodes → keys_listed nodes →
  (∀ tg n, target = Some tg → lookupNode nodes tg = Some n → status n ≠ Wall) →
  (∀ st tg, start = Some st → target = Some tg → ¬ reachable boardArray nodes st tg) →
  ∃ s', astar nodes start target trace boardArray heuristic = Some (ReturnFalse, s')
        ∧ ∀ tg n, target = Some tg → lookupNode (Improved.nodes s') tg = Some n →
                  previousNode n = None.
Proof.
  intros Hids Hfresh Hnoprev Hboard Hkeys Hwall Hunreach.
  destruct (validateInputs nodes start target) eqn:Hv.
  - destruct (validateInputs_true _ _ _ Hv) as (st & tg & -> & -> & _ & _ & [tgN HtgN]).
    rewrite astar_valid by done.
    assert (Htarget : ∃ n, lookupNode nodes tg = Some n ∧ status n ≠ Wall) by eauto.
    destruct (astar_loop_unreachable heuristic boardArray nodes st tg trace
                Hids Hfresh Hnoprev Hboard Hkeys Htarget (Hunreach st tg eq_refl eq_refl)
                (length (okeys nodes)) (initial nodes st trace))
      as (s' & Hrun & Hd).
    + constructor.
    + simpl. apply Hkeys. eauto.
    + simpl. auto.
    + simpl. lia.
    + exists s'. split; [done|]. intros tg' n [= <-] Hn.
      destruct (during_facts heuristic boardArray nodes st tg trace Hids Hfresh Hnoprev
                  Htarget s' Hd) as ((_ & Hreach & Hprev) & _).
      apply (Hprev tg n Hn).
      destruct (JS.eqb (distance n) JS.Infinity) eqn:E; [done|].
      destruct (Hunreach st tg eq_refl eq_refl). apply (Hreach tg n Hn E).
  - eexists. split.
    { unfold astar. destruct start, target; try reflexivity. rewrite Hv. reflexivity. }
    simpl. intros tg n _ Hn. apply (Hnoprev tg n Hn).
Qed.

(** The grid of the test "should return false when no path exists". *)
Definition blockedGrid : NodeDict :=
  Fixture.setWalls [(1, 0); (1, 1); (1, 2); (1, 3); (0, 1); (2, 0)] (Fixture.freshGrid 4 4).

Lemma blockedGrid_has_nodes :
  board_has_nodes (Fixture.fullBoard 4 4) blockedGrid.
Proof.
  intros i j. rewrite inBoard_fullBoard. intros [Hi Hj].
  assert (i = 0 ∨ i = 1 ∨ i = 2 ∨ i = 3) as [-> | [-> | [-> | ->]]] by lia;
  assert (j = 0 ∨ j = 1 ∨ j = 2 ∨ j = 3) as [-> | [-> | [-> | ->]]] by lia;
  vm_compute; eauto.
Qed.

Lemma blockedGrid_keys : keys_listed blockedGrid.
Proof.
  intros k. split.
  - intros Hk. vm_compute in Hk.
    repeat (apply elem_of_cons in Hk as [->|Hk]; [vm_compute; eauto|]).
    inversion Hk.
  - intros [n Hn]. unfold lookupNode in Hn.
    apply (map_Forall_lookup_1 (λ k _, k ∈ okeys blockedGrid) _ k n) in Hn; [done|].
    apply (bool_decide_unpack _). vm_compute. exact I.
Qed.

Lemma blockedGrid_start_is_shut_in (k : Id) :
  reachable (Fixture.fullBoard 4 4) blockedGrid (0, 0) k → k = (0, 0).
Proof.
  intros Hr. apply rtc_inv in Hr as [<-|(b & Hedge & _)]; [done|].
  exfalso. destruct Hedge as (d & n & Hd & -> & Hin & Hn & Hw).
  unfold cardinal in Hd. rewrite !elem_of_cons, elem_of_nil in Hd.
  destruct Hd as [-> | [-> | [-> | [-> | []]]]]; vm_compute in Hin, Hn;
    try discriminate; injection Hn as <-; apply Hw; reflexivity.
Qed.

(** On the blocked grid of the test suite [astar] returns [false] and the
    target "3-3" keeps [previousNode === null]. *)
Lemma astar_blocked_grid_returns_false :
  ∃ s', astar blockedGrid (Some (0, 0)) (Some (3, 3)) [] (Fixture.fullBoard 4 4)
          manhattanDistance = Some (ReturnFalse, s')
        ∧ ∀ tg n, Some (3, 3) = Some tg → lookupNode (Improved.nodes s') tg = Some n →
                  previousNode n = None.
Proof.
  apply astar_unreachable_returns_false.
  - apply (bool_decide_unpack _). vm_compute. exact I.
  - apply (bool_decide_unpack _). vm_compute. exact I.
  - apply (bool_decide_unpack _). vm_compute. exact I.
  - exact blockedGrid_has_nodes.
  - exact blockedGrid_keys.
  - intros tg n [= <-] Hn. vm_compute in Hn. injection Hn as <-. discriminate.
  - intros st tg [= <-] [= <-] Hr.
    apply blockedGrid_start_is_shut_in in Hr. discriminate.
Defined.

(** C4, on a 1-by-2 grid whose target "0-1" is a wall: the start is
    expanded, the only cell left in [unvisitedNodes] is the wall,
    [findClosestNode] returns [null], and [currentNode.status] raises a
    [TypeError]; [astar] does not return [false]. *)
Theorem astar_wall_target_throws :
  let grid := Fixture.setWalls [(0, 1)] (Fixture.freshGrid 1 2) in
  ¬ reachable (Fixture.fullBoard 1 2) grid (0, 0) (0, 1)
  ∧ ∃ s', astar grid (Some (0, 0)) (Some (0, 1)) [] (Fixture.fullBoard 1 2)
            manhattanDistance = Some (Throws, s')
          ∧ nodesToAnimate s' = [(0, 0)]
          ∧ findClosestNode (Improved.nodes s') [(0, 1)] = JS.Ok (None, []).
Proof.
  split.
  - intros Hr. apply rtc_inv_r in Hr as [?|(k & _ & d & n & _ & _ & _ & Hn & Hw)];
      [discriminate|].
    vm_compute in Hn. injection Hn as <-. apply Hw. reflexivity.
  - eexists. split; [vm_compute; reflexivity|]. split; reflexivity.
Qed.

End UnreachableResults.

(** ** The binary heap of [PriorityQueue] *)

Section Heap.

Import PriorityQueue.
Local Open Scope nat_scope.

Context {A : Type}.
Variable compare : Item A → Item A → Number.t.

(** [p] may stand above [c] in the heap: [compare(c, p) >= 0]. *)
Definition above (p c : Item A) : Prop := Number.nonnegative (compare c p) = true.

(** The heap order of the array: every item stands below its parent, the
    item at index [(i - 1) / 2]. *)
Definition heap_ordered (values : list (Item A)) : Prop :=
  ∀ i c p, values !! S i = Some c → values !! (i / 2) = Some p → above p c.

Lemma half_le (i : nat) : i / 2 ≤ i.
Proof. apply Nat.Div0.div_le_upper_bound. lia. Qed.

(** The children of [idx] are at [2 idx + 1] and [2 idx + 2]. *)
Lemma child_cases (i idx : nat) : i / 2 = idx ↔ S i = 2 * idx + 1 ∨ S i = 2 * idx + 2.
Proof.
  pose proof (Nat.div_mod_eq i 2). pose proof (Nat.mod_upper_bound i 2 ltac:(lia)).
  split.
  - intros <-. lia.
  - intros [E|E].
    + assert (i = idx * 2 + 0) as -> by lia. rewrite Nat.div_add_l by lia. simpl. lia.
    + assert (i = idx * 2 + 1) as -> by lia. rewrite Nat.div_add_l by lia. simpl. lia.
Qed.

Lemma insert_Permutation (l : list (Item A)) (j : nat) (x y : Item A) :
  l !! j = Some y → y :: <[j := x]> l ≡ₚ x :: l.
Proof.
  revert j. induction l as [|a l IH]; intros [|j] H; simplify_eq/=.
  - apply perm_swap.
  - rewrite (perm_swap a y), (IH j H). apply perm_swap.
Qed.

(** Exchanging two items of an array rearranges it. *)
Lemma swap_Permutation (l : list (Item A)) (i j : nat) (x y : Item A) :
  l !! i = Some x → l !! j = Some y → <[j := x]> (<[i := y]> l) ≡ₚ l.
Proof.
  revert i j. induction l as [|a l IH]; intros [|i] [|j] Hi Hj; simplify_eq/=.
  - done.
  - apply insert_Permutation. done.
  - apply insert_Permutation. done.
  - f_equiv. eauto.
Qed.

Lemma sinkDown_loop_turn (values : list (Item A)) (length idx : nat) (element : Item A) :
  sinkDown_loop compare values length idx element
  = match sinkDown_swap compare values length idx element with
    | None => values
    | Some swap =>
        match values !! swap with
        | None => values
        | Some child =>
            sinkDown_loop compare (<[swap := element]> (<[idx := child]> values))
              length swap element
        end
    end.
Proof.
  rewrite sinkDown_loop_equation_1. unfold sinkDown_loop_unfold_clause_1, inspect.
  destruct (sinkDown_swap compare values length idx element); reflexivity.
Qed.

Lemma bubbleUp_loop_Permutation (idx : nat) :
  ∀ values element, values !! idx = Some element →
    bubbleUp_loop compare values idx element ≡ₚ values.
Proof.
  induction idx as [idx IH] using lt_wf_ind. intros values element He.
  destruct idx as [|j]; [rewrite bubbleUp_loop_equation_1; done|].
  rewrite bubbleUp_loop_equation_2. cbv zeta. pose proof (half_le j).
  destruct (values !! (j / 2)) as [parent|] eqn:Hparent; [|done].
  destruct (Number.nonnegative (compare element parent)); [done|].
  rewrite IH.
  - apply swap_Permutation; done.
  - lia.
  - rewrite list_lookup_insert_ne by lia.
    apply list_lookup_insert_eq. apply lookup_lt_Some in Hparent. done.
Qed.

Lemma sinkDown_loop_Permutation (m : nat) :
  ∀ values n idx element, n - idx ≤ m → values !! idx = Some element →
    sinkDown_loop compare values n idx element ≡ₚ values.
Proof.
  induction m as [|m IH]; intros values n idx element Hm He;
    rewrite sinkDown_loop_turn;
    pose proof (sinkDown_swap_bounds compare values n idx element) as Hbounds;
    destruct (sinkDown_swap compare values n idx element) as [sw|]; try done.
  { specialize (Hbounds sw eq_refl). lia. }
  specialize (Hbounds sw eq_refl).
  destruct (values !! sw) as [child|] eqn:Hsw; [|done].
  rewrite IH.
  - apply swap_Permutation; done.
  - lia.
  - apply list_lookup_insert_eq. rewrite length_insert. apply lookup_lt_Some in Hsw. done.
Qed.

Lemma enqueue_Permutation (values : list (Item A)) (x : A) (p : JS.Num) :
  enqueue compare values x p ≡ₚ mkItem x p :: values.
Proof.
  unfold enqueue, bubbleUp. rewrite last_snoc, length_app. simpl.
  rewrite bubbleUp_loop_Permutation.
  - rewrite Permutation_app_comm. done.
  - replace (length values + 1 - 1) with (length values) by lia.
    rewrite lookup_app_r by lia. rewrite Nat.sub_diag. done.
Qed.

Lemma dequeue_cons (top : Item A) (tl : list (Item A)) :
  dequeue compare (top :: tl)
  = match last (top :: tl), take (length (top :: tl) - 1) (top :: tl) with
    | Some end_, _ :: rest => (Some (element top), sinkDown compare (end_ :: rest))
    | _, popped => (Some (element top), popped)
    end.
Proof.
  unfold dequeue. destruct (last (top :: tl)); [|done].
  destruct (take (length (top :: tl) - 1) (top :: tl)); done.
Qed.

Lemma dequeue_Permutation (top : Item A) (tl : list (Item A)) :
  ∃ rest, dequeue compare (top :: tl) = (Some (element top), rest) ∧ rest ≡ₚ tl.
Proof.
  rewrite dequeue_cons.
  destruct (last (top :: tl)) as [end_|] eqn:Hlast.
  2: { rewrite last_cons in Hlast. destruct (last tl); done. }
  apply last_Some in Hlast as [l' Hl']. rewrite Hl'.
  rewrite length_app. simpl. replace (length l' + 1 - 1) with (length l') by lia.
  rewrite take_app_length.
  destruct l' as [|first popped]; simpl in Hl'.
  - injection Hl' as -> ->. exists []. done.
  - injection Hl' as -> ->. eexists. split; [reflexivity|].
    unfold sinkDown. rewrite sinkDown_loop_Permutation with (m := length (end_ :: popped)).
    + rewrite Permutation_cons_append. done.
    + simpl. lia.
    + done.
Qed.

(** X1.  Whatever the comparator and whatever the array holds, the queue
    only rearranges its items: [enqueue] adds exactly the new item, [dequeue]
    returns the element of the first item and leaves exactly the others,
    [peek] returns the same element and changes nothing, and on an empty
    queue [dequeue] and [peek] return [null].  [size] and [isEmpty] count
    accordingly. *)
Theorem queue_only_rearranges_items (values : list (Item A)) (x : A) (p : JS.Num) :
  enqueue compare values x p ≡ₚ mkItem x p :: values
  ∧ size (enqueue compare values x p) = S (size values)
  ∧ isEmpty (enqueue compare values x p) = false
  ∧ peek values = (dequeue compare values).1
  ∧ size (dequeue compare values).2 = size values - 1
  ∧ match values with
    | [] => dequeue compare values = (None, []) ∧ isEmpty values = true
    | top :: others =>
        ∃ rest, dequeue compare values = (Some (element top), rest) ∧ rest ≡ₚ others
    end.
Proof.
  pose proof (enqueue_Permutation values x p) as He.
  assert (Hlen : length (enqueue compare values x p) = S (length values)).
  { rewrite (Permutation_length He). done. }
  split_and!; try done.
  - unfold isEmpty. rewrite Hlen. done.
  - destruct values as [|top tl]; [done|].
    destruct (dequeue_Permutation top tl) as (rest & -> & _). done.
  - destruct values as [|top tl]; [done|].
    destruct (dequeue_Permutation top tl) as (rest & -> & Hr). unfold size. simpl.
    rewrite (Permutation_length Hr). lia.
  - destruct values as [|top tl]; [done|]. apply dequeue_Permutation.
Qed.

(** The comparator orders the items that satisfy [ordered]: of two of them
    one is not before the other, [< 0] is the contrary of [>= 0], and the
    order is transitive. *)
Variable ordered : Item A → Prop.

Definition orders : Prop :=
  (∀ a b, ordered a → ordered b →
     Number.nonnegative (compare a b) = false → Number.nonnegative (compare b a) = true)
  ∧ (∀ a b, ordered a → ordered b →
       Number.negative (compare a b) = negb (Number.nonnegative (compare a b)))
  ∧ (∀ a b c, ordered a → ordered b → ordered c → above a b → above b c → above a c).

Hypothesis Horders : orders.

Lemma compare_trans (a b c : Item A) :
  ordered a → ordered b → ordered c → above a b → above b c → above a c.
Proof. apply Horders. Qed.

Lemma above_refl (a : Item A) : ordered a → above a a.
Proof.
  intros Ha. unfold above.
  destruct (Number.nonnegative (compare a a)) eqn:E; [done|].
  destruct Horders as (Htotal & _). rewrite (Htotal a a Ha Ha E) in E. done.
Qed.

Lemma not_nonnegative_above (a b : Item A) :
  ordered a → ordered b → Number.nonnegative (compare a b) = false → above a b.
Proof. intros Ha Hb H. destruct Horders as (Htotal & _). apply Htotal; done. Qed.

Lemma negative_above (a b : Item A) :
  ordered a → ordered b → Number.negative (compare a b) = true → above a b.
Proof.
  intros Ha Hb H. destruct Horders as (_ & Hneg & _). rewrite Hneg in H by done.
  apply negb_true_iff in H. apply not_nonnegative_above; done.
Qed.

Lemma not_negative_above (a b : Item A) :
  ordered a → ordered b → Number.negative (compare a b) = false → above b a.
Proof.
  intros Ha Hb H. destruct Horders as (_ & Hneg & _). rewrite Hneg in H by done.
  apply negb_false_iff in H. done.
Qed.

(** The loop of [_bubbleUp] restores the heap order of an array that is
    ordered everywhere but at [idx]. *)
Lemma bubbleUp_loop_heap (idx : nat) :
  ∀ values element,
    Forall ordered values →
    values !! idx = Some element →
    (∀ i c p, S i ≠ idx → values !! S i = Some c → values !! (i / 2) = Some p → above p c) →
    (∀ i j c g, idx = S j → i / 2 = idx → values !! S i = Some c →
                values !! (j / 2) = Some g → above g c) →
    heap_ordered (bubbleUp_loop compare values idx element).
Proof.
  induction idx as [idx IH] using lt_wf_ind. intros values element Hok He Hheap Hgrand.
  destruct idx as [|j].
  { rewrite bubbleUp_loop_equation_1.
    intros i c p Hc Hp. apply (Hheap i c p); [lia|done|done]. }
  rewrite bubbleUp_loop_equation_2. cbv zeta. pose proof (half_le j) as Hj.
  destruct (values !! (j / 2)) as [parent|] eqn:Hparent.
  2: { apply lookup_lt_Some in He. apply lookup_ge_None in Hparent. lia. }
  assert (Hoe : ordered element) by (eapply Forall_lookup_1; eauto).
  assert (Hop : ordered parent) by (eapply Forall_lookup_1; eauto).
  destruct (Number.nonnegative (compare element parent)) eqn:Hcmp.
  { intros i c p Hc Hp.
    destruct (decide (S i = S j)) as [E|E].
    - injection E as ->. rewrite He in Hc. rewrite Hparent in Hp. simplify_eq. done.
    - eauto. }
  set (values' := <[S j := parent]> (<[j / 2 := element]> values)).
  assert (Hperm : values' ≡ₚ values) by (apply swap_Permutation; done).
  assert (Hlook : ∀ k, k ≠ S j → k ≠ j / 2 → values' !! k = values !! k).
  { intros k H1 H2. unfold values'.
    rewrite list_lookup_insert_ne by done. rewrite list_lookup_insert_ne by done. done. }
  assert (Hlj : values' !! S j = Some parent).
  { unfold values'. apply list_lookup_insert_eq. rewrite length_insert.
    apply lookup_lt_Some in He. done. }
  assert (Hlp : values' !! (j / 2) = Some element).
  { unfold values'. rewrite list_lookup_insert_ne by lia.
    apply list_lookup_insert_eq. apply lookup_lt_Some in Hparent. done. }
  assert (Hep : above element parent) by (apply not_nonnegative_above; done).
  apply (IH (j / 2) ltac:(lia) values' element).
  - rewrite Hperm. done.
  - done.
  - intros i c p Hne Hc Hp. pose proof (half_le i).
    destruct (decide (S i = S j)) as [E|E].
    { injection E as ->. rewrite Hlj in Hc. rewrite Hlp in Hp. simplify_eq. done. }
    destruct (decide (i / 2 = S j)) as [E2|E2].
    { rewrite E2, Hlj in Hp. simplify_eq.
      rewrite Hlook in Hc by lia.
      eapply (Hgrand i j c p); eauto. }
    destruct (decide (i / 2 = j / 2)) as [E3|E3].
    { rewrite E3, Hlp in Hp. simplify_eq.
      rewrite Hlook in Hc by lia.
      assert (Hoc : ordered c) by (eapply Forall_lookup_1; eauto).
      apply (compare_trans p parent c); try done.
      apply (Hheap i c parent); [done|done|]. rewrite E3. done. }
    rewrite Hlook in Hc by lia. rewrite Hlook in Hp by lia. eauto.
  - intros i j' c g Hj' Hi Hc Hg. pose proof (half_le j'). pose proof (half_le i).
    rewrite Hlook in Hg by lia.
    assert (Hog : ordered g) by (eapply Forall_lookup_1; eauto).
    assert (Hgp : above g parent).
    { apply (Hheap j' parent g); [lia| |done]. rewrite <- Hj'. done. }
    destruct (decide (S i = S j)) as [E|E].
    { injection E as ->. rewrite Hlj in Hc. simplify_eq. done. }
    rewrite Hlook in Hc by lia.
    assert (Hoc : ordered c) by (eapply Forall_lookup_1; eauto).
    apply (compare_trans g parent c); try done.
    apply (Hheap i c parent); [done|done|]. rewrite Hi. done.
Qed.

Lemma enqueue_heap (values : list (Item A)) (x : A) (p : JS.Num) :
  Forall ordered values → ordered (mkItem x p) → heap_ordered values →
  heap_ordered (enqueue compare values x p).
Proof.
  intros Hok Hitem Hheap. unfold enqueue, bubbleUp.
  rewrite last_snoc, length_app. simpl.
  replace (length values + 1 - 1) with (length values) by lia.
  apply bubbleUp_loop_heap.
  - apply Forall_app. split; [done|]. constructor; done.
  - rewrite lookup_app_r by lia. rewrite Nat.sub_diag. done.
  - intros i c q Hne Hc Hq. pose proof (half_le i).
    assert (Hi : S i < length values).
    { apply lookup_lt_Some in Hc. rewrite length_app in Hc. simpl in Hc. lia. }
    rewrite lookup_app_l in Hc by lia. rewrite lookup_app_l in Hq by lia. eauto.
  - intros i j c g _ Hi Hc _. exfalso. pose proof (half_le i).
    apply lookup_lt_Some in Hc. rewrite length_app in Hc. simpl in Hc. lia.
Qed.

(** The choice of [swap] in one turn of [_sinkDown]: no child stands above
    the sinking item when it is [null]; otherwise it names a child that
    stands above the sinking item and above the other child. *)
Lemma sinkDown_swap_spec (values : list (Item A)) (idx : nat) (element : Item A) :
  Forall ordered values → ordered element →
  match sinkDown_swap compare values (length values) idx element with
  | None => ∀ i c, i / 2 = idx → values !! S i = Some c → above element c
  | Some sw =>
      ∃ child, values !! sw = Some child ∧ (sw - 1) / 2 = idx ∧ 0 < sw
               ∧ above child element
               ∧ ∀ i c, i / 2 = idx → values !! S i = Some c → above child c
  end.
Proof.
  intros Hok Hoe. unfold sinkDown_swap.
  assert (Hl : (2 * idx + 1 - 1) / 2 = idx).
  { replace (2 * idx + 1 - 1) with (idx * 2) by lia. apply Nat.div_mul. lia. }
  assert (Hr : (2 * idx + 2 - 1) / 2 = idx).
  { replace (2 * idx + 2 - 1) with (idx * 2 + 1) by lia.
    rewrite Nat.div_add_l by lia. simpl. lia. }
  destruct (Nat.ltb_spec (2 * idx + 1) (length values)) as [HL|HL].
  - destruct (lookup_lt_is_Some_2 values (2 * idx + 1) HL) as [L HLk]. rewrite HLk.
    assert (HoL : ordered L) by (eapply Forall_lookup_1; eauto).
    destruct (Nat.ltb_spec (2 * idx + 2) (length values)) as [HR|HR].
    + destruct (lookup_lt_is_Some_2 values (2 * idx + 2) HR) as [R HRk]. rewrite HRk.
      assert (HoR : ordered R) by (eapply Forall_lookup_1; eauto).
      destruct (Number.negative (compare L element)) eqn:HLe.
      * destruct (Number.negative (compare R L)) eqn:HRL.
        -- exists R. split_and!; [done|done|lia| |].
           ++ apply (compare_trans R L element); try done; apply negative_above; done.
           ++ intros i c Hi Hc. apply child_cases in Hi as [Hi|Hi]; rewrite Hi in Hc;
                simplify_eq.
              ** apply negative_above; done.
              ** apply above_refl. done.
        -- exists L. split_and!; [done|done|lia| |].
           ++ apply negative_above; done.
           ++ intros i c Hi Hc. apply child_cases in Hi as [Hi|Hi]; rewrite Hi in Hc;
                simplify_eq.
              ** apply above_refl. done.
              ** apply not_negative_above; done.
      * destruct (Number.negative (compare R element)) eqn:HRe.
        -- exists R. split_and!; [done|done|lia| |].
           ++ apply negative_above; done.
           ++ intros i c Hi Hc. apply child_cases in Hi as [Hi|Hi]; rewrite Hi in Hc;
                simplify_eq.
              ** apply (compare_trans R element L); try done.
                 --- apply negative_above; done.
                 --- apply not_negative_above; done.
              ** apply above_refl. done.
        -- intros i c Hi Hc. apply child_cases in Hi as [Hi|Hi]; rewrite Hi in Hc;
             simplify_eq; apply not_negative_above; done.
    + destruct (Number.negative (compare L element)) eqn:HLe.
      * exists L. split_and!; [done|done|lia| |].
        -- apply negative_above; done.
        -- intros i c Hi Hc. apply child_cases in Hi as [Hi|Hi]; rewrite Hi in Hc.
           ++ simplify_eq. apply above_refl. done.
           ++ apply lookup_lt_Some in Hc. lia.
      * intros i c Hi Hc. apply child_cases in Hi as [Hi|Hi]; rewrite Hi in Hc.
        -- simplify_eq. apply not_negative_above; done.
        -- apply lookup_lt_Some in Hc. lia.
  - destruct (Nat.ltb_spec (2 * idx + 2) (length values)) as [HR|HR]; [lia|].
    intros i c Hi Hc. apply lookup_lt_Some in Hc.
    apply child_cases in Hi. lia.
Qed.

(** The loop of [_sinkDown] restores the heap order of an array that is
    ordered everywhere but between [idx] and its children. *)
Lemma sinkDown_loop_heap (m : nat) :
  ∀ values idx element,
    length values - idx ≤ m →
    Forall ordered values →
    values !! idx = Some element →
    (∀ i c p, i / 2 ≠ idx → values !! S i = Some c → values !! (i / 2) = Some p →
              above p c) →
    (∀ i j c g, idx = S j → i / 2 = idx → values !! S i = Some c →
                values !! (j / 2) = Some g → above g c) →
    heap_ordered (sinkDown_loop compare values (length values) idx element).
Proof.
  induction m as [|m IH]; intros values idx element Hm Hok He Hheap Hgrand.
  { apply lookup_lt_Some in He. lia. }
  assert (Hoe : ordered element) by (eapply Forall_lookup_1; eauto).
  rewrite sinkDown_loop_turn.
  pose proof (sinkDown_swap_spec values idx element Hok Hoe) as Hswap.
  pose proof (sinkDown_swap_bounds compare values (length values) idx element) as Hbounds.
  destruct (sinkDown_swap compare values (length values) idx element) as [sw|].
  2: { intros i c p Hc Hp.
       destruct (decide (i / 2 = idx)) as [E|E]; [|eauto].
       rewrite E, He in Hp. simplify_eq. eauto. }
  destruct Hswap as (child & Hsw & Hpar & Hpos & Hce & Hcc).
  specialize (Hbounds sw eq_refl). rewrite Hsw.
  assert (Hoc : ordered child) by (eapply Forall_lookup_1; eauto).
  set (values' := <[sw := element]> (<[idx := child]> values)).
  assert (Hperm : values' ≡ₚ values) by (apply swap_Permutation; done).
  assert (Hlen : length values' = length values).
  { unfold values'. rewrite !length_insert. done. }
  assert (Hlook : ∀ k, k ≠ sw → k ≠ idx → values' !! k = values !! k).
  { intros k H1 H2. unfold values'.
    rewrite list_lookup_insert_ne by done. rewrite list_lookup_insert_ne by done. done. }
  assert (Hls : values' !! sw = Some element).
  { unfold values'. apply list_lookup_insert_eq. rewrite length_insert. lia. }
  assert (Hli : values' !! idx = Some child).
  { unfold values'. rewrite list_lookup_insert_ne by lia.
    apply list_lookup_insert_eq. lia. }
  destruct sw as [|s]; [lia|].
  replace (S s - 1) with s in Hpar by lia.
  rewrite <- Hlen.
  apply (IH values' (S s) element).
  - lia.
  - rewrite Hperm. done.
  - done.
  - intros i c p Hne Hc Hp. pose proof (half_le i).
    destruct (decide (i = s)) as [->|E1].
    { rewrite Hls in Hc. rewrite Hpar, Hli in Hp. simplify_eq. done. }
    destruct (decide (i / 2 = idx)) as [E2|E2].
    { rewrite E2, Hli in Hp. simplify_eq. rewrite Hlook in Hc by lia. eauto. }
    rewrite (Hlook (i / 2)) in Hp by lia.
    destruct (decide (S i = idx)) as [E3|E3].
    { rewrite E3, Hli in Hc. simplify_eq.
      apply (Hgrand s i c p); try done. }
    rewrite Hlook in Hc by lia. eauto.
  - intros i j c g Hj Hi Hc Hg. injection Hj as <-.
    rewrite Hpar, Hli in Hg. simplify_eq. pose proof (half_le i).
    rewrite Hlook in Hc by lia.
    apply (Hheap i c g); [lia|done|]. rewrite Hi. done.
Qed.

Lemma heap_ordered_take (values : list (Item A)) (n : nat) :
  heap_ordered values → heap_ordered (take n values).
Proof.
  intros H i c p Hc Hp.
  apply lookup_take_Some in Hc as [Hc _]. apply lookup_take_Some in Hp as [Hp _]. eauto.
Qed.

(** The first item of an ordered heap stands above every item. *)
Lemma heap_root_above (values : list (Item A)) (root : Item A) :
  Forall ordered values → heap_ordered values → values !! 0 = Some root →
  ∀ i x, values !! i = Some x → above root x.
Proof.
  intros Hok Hheap Hroot i. induction i as [i IH] using lt_wf_ind. intros x Hx.
  assert (Hor : ordered root) by (eapply Forall_lookup_1; eauto).
  destruct i as [|i].
  { simplify_eq. apply above_refl. done. }
  pose proof (half_le i).
  destruct (lookup_lt_is_Some_2 values (i / 2)) as [p Hp].
  { apply lookup_lt_Some in Hx. lia. }
  assert (Hop : ordered p) by (eapply Forall_lookup_1; eauto).
  assert (Hox : ordered x) by (eapply Forall_lookup_1; eauto).
  apply (compare_trans root p x); try done.
  - apply (IH (i / 2)); [lia|done].
  - eauto.
Qed.

Lemma dequeue_heap (top : Item A) (others : list (Item A)) :
  Forall ordered (top :: others) → heap_ordered (top :: others) →
  ∃ rest, dequeue compare (top :: others) = (Some (element top), rest)
          ∧ rest ≡ₚ others ∧ heap_ordered rest
          ∧ ∀ x, x ∈ top :: others → above top x.
Proof.
  intros Hok Hheap.
  destruct (dequeue_Permutation top others) as (rest & Hdq & Hperm).
  exists rest. split_and!; try done.
  2: { intros x Hx. apply list_elem_of_lookup in Hx as [i Hi].
       apply (heap_root_above (top :: others) top Hok Hheap eq_refl i x Hi). }
  rewrite dequeue_cons in Hdq.
  destruct (last (top :: others)) as [end_|] eqn:Hlast.
  2: { rewrite last_cons in Hlast. destruct (last others); done. }
  pose proof Hlast as Hlast'.
  apply last_Some in Hlast' as [l' Hl'].
  assert (Htake : take (length (top :: others) - 1) (top :: others) = l').
  { rewrite Hl'. rewrite length_app. simpl.
    replace (length l' + 1 - 1) with (length l') by lia. apply take_app_length. }
  rewrite Htake in Hdq.
  assert (Hheap' : heap_ordered l') by (rewrite <- Htake; apply heap_ordered_take; done).
  destruct l' as [|first popped].
  - injection Hdq as <-. intros i c p Hc. done.
  - injection Hdq as <-.
    assert (Hok' : Forall ordered (end_ :: popped)).
    { rewrite Hl' in Hok. apply Forall_app in Hok as [H1 H2].
      apply Forall_cons in H1 as [_ H1]. apply Forall_cons in H2 as [H2 _].
      constructor; done. }
    unfold sinkDown.
    apply (sinkDown_loop_heap (length (end_ :: popped)) (end_ :: popped) 0 end_);
      try done.
    intros i c p Hne Hc Hp. apply (Hheap' i c p); [done|].
    destruct (i / 2) as [|k] eqn:E; done.
Qed.

(** X2.  With a comparator that orders the items, [enqueue] and [dequeue]
    keep the heap order of the array: after either, every item still
    compares [>= 0] with its parent. *)
Theorem queue_keeps_heap_order (values : list (Item A)) (x : A) (p : JS.Num) :
  Forall ordered values → heap_ordered values →
  (ordered (mkItem x p) → heap_ordered (enqueue compare values x p))
  ∧ heap_ordered (dequeue compare values).2.
Proof.
  intros Hok Hheap. split.
  - intros Hitem. apply enqueue_heap; done.
  - destruct values as [|top others]; [done|].
    destruct (dequeue_heap top others Hok Hheap) as (rest & -> & _ & Hrest & _). done.
Qed.

(** X3.  On a heap-ordered array that is not empty, [dequeue] and [peek]
    return the element of an item that no item of the queue is before:
    every item compares [>= 0] with it.  [dequeue] removes that item and no
    other. *)
Theorem dequeue_returns_a_first_item (values : list (Item A)) :
  Forall ordered values → heap_ordered values → values ≠ [] →
  ∃ top rest,
    dequeue compare values = (Some (element top), rest)
    ∧ peek values = Some (element top)
    ∧ values ≡ₚ top :: rest
    ∧ ∀ x, x ∈ values → Number.nonnegative (compare x top) = true.
Proof.
  intros Hok Hheap Hne. destruct values as [|top others]; [done|].
  destruct (dequeue_heap top others Hok Hheap) as (rest & Hdq & Hperm & _ & Habove).
  exists top, rest. split_and!; try done. rewrite Hperm. done.
Qed.

(** Enqueueing the items of a list one by one, and dequeueing [n] times in
    a row. *)
Definition enqueue_all (items values : list (Item A)) : list (Item A) :=
  foldl (λ q it, enqueue compare q (element it) (priority it)) values items.

Fixpoint dequeue_all (n : nat) (values : list (Item A)) : list A :=
  match n with
  | O => []
  | S n' =>
      match dequeue compare values with
      | (Some x, rest) => x :: dequeue_all n' rest
      | (None, _) => []
      end
  end.

Lemma enqueue_all_heap (items : list (Item A)) :
  ∀ values, Forall ordered values → Forall ordered items → heap_ordered values →
    heap_ordered (enqueue_all items values)
    ∧ enqueue_all items values ≡ₚ items ++ values.
Proof.
  induction items as [|[x p] items IH]; intros values Hv Hi Hheap; simpl; [done|].
  apply Forall_cons in Hi as [Hx Hi].
  pose proof (enqueue_heap values x p Hv Hx Hheap) as H1.
  pose proof (enqueue_Permutation values x p) as H2.
  destruct (IH (enqueue compare values x p)) as [H3 H4]; try done.
  { rewrite H2. constructor; done. }
  split; [done|]. rewrite H4, H2. rewrite Permutation_middle. done.
Qed.

Lemma dequeue_all_sorted (n : nat) :
  ∀ values, length values = n → Forall ordered values → heap_ordered values →
    ∃ sorted, dequeue_all n values = element <$> sorted
              ∧ sorted ≡ₚ values ∧ StronglySorted above sorted.
Proof.
  induction n as [|n IH]; intros values Hlen Hok Hheap.
  { destruct values; [|done]. exists []. split_and!; try done. constructor. }
  destruct values as [|top others]; [done|].
  destruct (dequeue_heap top others Hok Hheap) as (rest & Hdq & Hperm & Hheap' & Habove).
  cbn [dequeue_all]. rewrite Hdq.
  destruct (IH rest) as (sorted & Hs1 & Hs2 & Hs3).
  - apply Permutation_length in Hperm. simpl in *. lia.
  - rewrite Hperm. apply Forall_cons in Hok as [_ Hok]. done.
  - done.
  - exists (top :: sorted). split_and!.
    + simpl. rewrite Hs1. done.
    + rewrite Hs2, Hperm. done.
    + constructor; [done|]. apply Forall_forall. intros x Hx. apply Habove.
      right. rewrite <- Hperm, <- Hs2. done.
Qed.

(** X4.  The queue sorts: after the items of a list have been enqueued
    into an empty queue, dequeueing as many times returns their elements in
    an order in which no item comes before an earlier one. *)
Theorem queue_sorts (items : list (Item A)) :
  Forall ordered items →
  ∃ sorted,
    dequeue_all (length items) (enqueue_all items []) = element <$> sorted
    ∧ sorted ≡ₚ items
    ∧ StronglySorted (λ a b, Number.nonnegative (compare b a) = true) sorted.
Proof.
  intros Hok.
  destruct (enqueue_all_heap items [] ltac:(constructor) Hok) as [H1 H2].
  { intros i c p Hc. done. }
  rewrite app_nil_r in H2.
  destruct (dequeue_all_sorted (length items) (enqueue_all items [])) as (sorted & ? & ? & ?).
  - rewrite (Permutation_length H2). done.
  - rewrite H2. done.
  - done.
  - exists sorted. split_and!; try done. etrans; done.
Qed.

End Heap.

Section DefaultCompare.

Import PriorityQueue.

(** The items the default comparator orders: those whose priority is a
    finite number ([Infinity - Infinity] is [NaN]). *)
Definition finite_priority {A : Type} (it : Item A) : Prop :=
  ∃ z, priority it = JS.Fin z.

Lemma defaultCompare_orders {A : Type} :
  orders (A := A) defaultCompare finite_priority.
Proof.
  unfold orders, above, defaultCompare, finite_priority.
  split_and!.
  - intros a b [x ->] [y ->]. simpl. rewrite Z.leb_gt, Z.leb_le. lia.
  - intros a b [x ->] [y ->]. simpl.
    destruct (Z.ltb_spec (x - y) 0), (Z.leb_spec 0 (x - y)); simpl; try done; lia.
  - intros a b c [x ->] [y ->] [z ->]. simpl. rewrite !Z.leb_le. lia.
Qed.

(** A heap of three cells, with priorities 1, 3 and 2. *)
Definition sampleHeap : list (Item Id) :=
  [mkItem (0, 0) (JS.Fin 1); mkItem (0, 1) (JS.Fin 3); mkItem (0, 2) (JS.Fin 2)].

Lemma sampleHeap_ordered : heap_ordered defaultCompare sampleHeap.
Proof.
  intros i c p Hc Hp. destruct i as [|[|i]]; simpl in *; simplify_eq; reflexivity.
Qed.

Lemma sampleHeap_finite : Forall finite_priority sampleHeap.
Proof. repeat constructor; eexists; reflexivity. Qed.

Lemma queue_keeps_heap_order_witness :
  heap_ordered defaultCompare (enqueue defaultCompare sampleHeap (1, 1) (JS.Fin 0))
  ∧ heap_ordered defaultCompare (dequeue defaultCompare sampleHeap).2.
Proof.
  destruct (queue_keeps_heap_order defaultCompare finite_priority defaultCompare_orders
              sampleHeap (1, 1) (JS.Fin 0) sampleHeap_finite sampleHeap_ordered)
    as [H1 H2].
  split; [apply H1; eexists; reflexivity|exact H2].
Defined.

Lemma dequeue_returns_a_first_item_witness :
  ∃ top rest,
    dequeue defaultCompare sampleHeap = (Some (element top), rest)
    ∧ peek sampleHeap = Some (element top)
    ∧ sampleHeap ≡ₚ top :: rest
    ∧ ∀ x, x ∈ sampleHeap → Number.nonnegative (defaultCompare x top) = true.
Proof.
  apply (dequeue_returns_a_first_item defaultCompare finite_priority defaultCompare_orders
           sampleHeap sampleHeap_finite sampleHeap_ordered).
  discriminate.
Defined.

Lemma queue_sorts_witness :
  ∃ sorted,
    dequeue_all defaultCompare 3 (enqueue_all defaultCompare (reverse sampleHeap) [])
    = element <$> sorted
    ∧ sorted ≡ₚ reverse sampleHeap
    ∧ StronglySorted (λ a b, Number.nonnegative (defaultCompare b a) = true) sorted.
Proof.
  apply (queue_sorts defaultCompare finite_priority defaultCompare_orders
           (reverse sampleHeap)).
  repeat constructor; eexists; reflexivity.
Defined.

End DefaultCompare.

(** ** The methods of class [Node] *)

Section NodeMethods.

Import NodeClass.

(** What the constructor sets and no method but [setWeight] and [reset]
    touches: the bidirectional data, the stored direction and the object
    relations, with the two weights equal. *)
Definition pristine (this : Object) : Prop :=
  reverseData this = freshReverseData (weight (fields this))
  ∧ storedDirection this = None
  ∧ relatesToObject this = false
  ∧ overwriteObjectRelation this = false.

Lemma call_pristine (c : Call) (this : Object) :
  pristine this → pristine (call c this) ∧ id (fields (call c this)) = id (fields this).
Proof.
  unfold pristine. intros (H1 & H2 & H3 & H4).
  destruct c as [kw kg|s| | | |w]; simpl; try (split_and!; done).
  unfold setWeight. simpl. rewrite H1. simpl. split_and!; done.
Qed.

Lemma calls_pristine (cs : list Call) :
  ∀ this, pristine this →
          pristine (calls cs this) ∧ id (fields (calls cs this)) = id (fields this).
Proof.
  induction cs as [|c cs IH]; intros this H; [done|].
  destruct (call_pristine c this H) as [H1 H2].
  destruct (IH (call c this) H1) as [H3 H4].
  unfold calls in *. simpl. split; [done|congruence].
Qed.

(** X5.  [reset] rebuilds the node from its id: what it leaves is the
    object [new Node(id)] followed by [setStatus] and [setWeight] with the
    status and the weight that were to be kept.  So [reset()] without
    arguments gives back the freshly constructed node, a wall stays a wall
    exactly when [keepWalls] is set, and resetting twice changes nothing
    more. *)
Theorem reset_rebuilds_the_node (keepWalls keepWeights : bool) (this : Object) :
  reset keepWalls keepWeights this
  = setWeight (if keepWeights then weight (fields this) else 0)
      (setStatus (if keepWalls && isWall this then Wall else Unvisited)
         (new (id (fields this)) Unvisited))
  ∧ reset false false this = new (id (fields this)) Unvisited
  ∧ isWall (reset keepWalls keepWeights this) = keepWalls && isWall this
  ∧ reset keepWalls keepWeights (reset keepWalls keepWeights this)
    = reset keepWalls keepWeights this.
Proof.
  unfold reset, setWeight, setStatus, new, isWall, newNode, set_weight, set_status,
    freshReverseData. simpl.
  destruct keepWalls, keepWeights; simpl;
    destruct (decide (status (fields this) = Wall)) as [E|E];
    [rewrite !(bool_decide_eq_true_2 _ E)|rewrite !(bool_decide_eq_false_2 _ E)
    |rewrite !(bool_decide_eq_true_2 _ E)|rewrite !(bool_decide_eq_false_2 _ E)| | | | ];
    simpl; rewrite ?E; simpl; rewrite ?bool_decide_eq_true_2 by done; done.
Qed.

(** X6.  Through any chain of method calls on a constructed node the id
    stays the one given to the constructor, [reverseData.weight] stays equal
    to [weight], and no other bidirectional field, stored direction or
    object relation leaves its initial value. *)
Theorem methods_keep_the_weights_equal (i : Id) (s : Status) (cs : list Call) :
  let this := calls cs (new i s) in
  id (fields this) = i
  ∧ reverse_weight (reverseData this) = weight (fields this)
  ∧ reverseData this = freshReverseData (weight (fields this))
  ∧ storedDirection this = None
  ∧ relatesToObject this = false
  ∧ overwriteObjectRelation this = false.
Proof.
  destruct (calls_pristine cs (new i s)) as [(H1 & H2 & H3 & H4) H5].
  { unfold pristine. done. }
  simpl. split_and!; try done. rewrite H1. done.
Qed.

End NodeMethods.

(** ** Boards made by [createBoardArray] and the cardinal neighbours *)

Section Boards.

(** A cell of the board made by [createBoardArray] is truthy exactly when it
    lies in the [height]-by-[width] rectangle and the dictionary has a node
    for it. *)
Lemma createBoardArray_inBoard (nodes : NodeDict) (width height : nat) (x y : Z) :
  inBoard (Utils.createBoardArray nodes width height) x y = true
  ↔ 0 ≤ x < Z.of_nat height ∧ 0 ≤ y < Z.of_nat width ∧ is_Some (lookupNode nodes (x, y)).
Proof.
  unfold inBoard, Utils.createBoardArray.
  destruct (Z.ltb_spec x 0), (Z.ltb_spec y 0); simpl; try (split; [discriminate|lia]).
  rewrite list_lookup_fmap.
  destruct (decide (Z.to_nat x < height)%nat) as [Hx|Hx].
  2: { rewrite lookup_seq_ge by lia. simpl. split; [discriminate|lia]. }
  rewrite lookup_seq_lt by done. simpl. rewrite list_lookup_fmap.
  destruct (decide (Z.to_nat y < width)%nat) as [Hy|Hy].
  2: { rewrite lookup_seq_ge by lia. simpl. split; [discriminate|lia]. }
  rewrite lookup_seq_lt by done. simpl.
  rewrite !Z2Nat.id by lia. rewrite bool_decide_eq_true. split; [|tauto].
  intros ?. split_and!; try done; lia.
Qed.

End Boards.

Section CardinalNeighbors.

Variable nodes : NodeDict.
Variable boardArray : Board.
Variables x y : Z.

(** The candidate at offset [d] is on the board and is not a wall. *)
Definition free (d : Z * Z) : bool :=
  inBoard boardArray (x + d.1) (y + d.2) && negb (isWall nodes (x + d.1, y + d.2)).

(** The candidate at offset [d] is on the board and has no node: reading
    its [status] raises. *)
Definition missing (d : Z * Z) : bool :=
  inBoard boardArray (x + d.1) (y + d.2)
  && bool_decide (lookupNode nodes (x + d.1, y + d.2) = None).

Lemma filter_free_cons (d : Z * Z) (directions : list (Z * Z)) :
  filter (λ d, free d) (d :: directions)
  = if free d then d :: filter (λ d, free d) directions
    else filter (λ d, free d) directions.
Proof. rewrite filter_cons. destruct (free d); reflexivity. Qed.

Lemma improved_getNeighbors_from_exact (directions : list (Z * Z)) :
  ∀ neighbors,
    Improved.getNeighbors_from nodes boardArray x y directions neighbors
    = if existsb missing directions then JS.TypeError
      else JS.Ok (neighbors ++ (shift x y <$> filter (λ d, free d) directions)).
Proof.
  induction directions as [|[dx dy] directions IH]; intros neighbors; simpl.
  { rewrite app_nil_r. done. }
  rewrite filter_free_cons. unfold free at 1, missing at 1, isWall. simpl.
  destruct (inBoard boardArray (x + dx) (y + dy)) eqn:Hin; simpl; [|apply IH].
  destruct (lookupNode nodes (x + dx, y + dy)) as [n|] eqn:Hn; simpl; [|done].
  destruct (decide (status n = Wall)) as [Hw|Hw].
  - rewrite bool_decide_eq_true_2 by done. simpl. apply IH.
  - rewrite bool_decide_eq_false_2 by done. simpl. rewrite IH.
    destruct (existsb missing directions); [done|].
    rewrite <- app_assoc. done.
Qed.

(** Without diagonal offsets the three texts of the neighbour loop compute
    the same result, [TypeError] included. *)
Lemma cardinal_getNeighbors_from_agree (directions : list (Z * Z)) :
  (∀ d, d ∈ directions → (Z.abs d.1 =? 1) && (Z.abs d.2 =? 1) = false) →
  ∀ neighbors,
    Utils.getNeighbors_from nodes boardArray x y directions neighbors
    = Improved.getNeighbors_from nodes boardArray x y directions neighbors
    ∧ ModernAStar.getNeighbors_from nodes boardArray x y directions neighbors
      = Improved.getNeighbors_from nodes boardArray x y directions neighbors.
Proof.
  induction directions as [|[dx dy] directions IH]; intros Hcard neighbors; simpl; [done|].
  assert (Hd : (Z.abs dx =? 1) && (Z.abs dy =? 1) = false)
    by (apply (Hcard (dx, dy)); left).
  assert (Hrest : ∀ d, d ∈ directions → (Z.abs d.1 =? 1) && (Z.abs d.2 =? 1) = false)
    by (intros d Hin; apply Hcard; right; done).
  rewrite Hd.
  destruct (inBoard boardArray (x + dx) (y + dy)); simpl; [|apply IH; done].
  destruct (lookupNode nodes (x + dx, y + dy)) as [n|]; [|done].
  destruct (decide (status n = Wall)); apply IH; done.
Qed.

End CardinalNeighbors.

Section NeighborFunctions.

Lemma existsb_Permutation {X : Type} (f : X → bool) (l l' : list X) :
  l ≡ₚ l' → existsb f l = existsb f l'.
Proof.
  induction 1 as [|a l l' _ IH|a b l|l1 l2 l3 _ IH1 _ IH2]; simpl.
  - done.
  - rewrite IH. done.
  - destruct (f a), (f b); done.
  - congruence.
Qed.

Lemma directions_Permutation : cardinal ≡ₚ ClassAStar.directions.
Proof.
  unfold cardinal, ClassAStar.directions.
  apply perm_skip.
  change ([(1, 0); (0, -1)] ++ [(0, 1)] ≡ₚ [(0, 1)] ++ [(1, 0); (0, -1)]).
  apply Permutation_app_comm.
Qed.

(** X7.  Without diagonal moves the neighbour functions agree on the id of
    every row and column: [getNeighbors] of the utilities and
    [#getNeighbors] of the ES6 class return what [getNeighbors] of
    improved-astar.js returns, a [TypeError] included, and
    [Algorithm.getNeighbors], which looks clockwise, returns the same cells
    in another order and raises on the same inputs. *)
Theorem neighbour_functions_agree_without_diagonals (nodeId : Id) (nodes : NodeDict)
    (boardArray : Board) (h : ModernAStar.HeuristicName) (w : Z) :
  canonical nodeId →
  Utils.getNeighbors nodeId nodes boardArray false
  = Improved.getNeighbors nodeId nodes boardArray
  ∧ ModernAStar.getNeighbors (ModernAStar.mkOptions false h w)
      nodeId nodes boardArray
    = Improved.getNeighbors nodeId nodes boardArray
  ∧ match Improved.getNeighbors nodeId nodes boardArray,
          ClassAStar.getNeighbors nodes boardArray nodeId with
    | JS.Ok neighbors, JS.Ok clockwise => neighbors ≡ₚ clockwise
    | JS.TypeError, JS.TypeError => True
    | _, _ => False
    end.
Proof.
  intros _.
  unfold Utils.getNeighbors, ModernAStar.getNeighbors, Improved.getNeighbors,
    ClassAStar.getNeighbors. simpl ModernAStar.allowDiagonal. cbv iota.
  destruct (cardinal_getNeighbors_from_agree nodes boardArray nodeId.1 nodeId.2 cardinal
              cardinal_not_diagonal []) as [-> ->].
  split_and!; try done.
  rewrite !improved_getNeighbors_from_exact.
  rewrite <- (existsb_Permutation _ _ _ directions_Permutation).
  destruct (existsb _ cardinal); [done|].
  simpl. rewrite <- directions_Permutation. done.
Qed.

Lemma neighbour_functions_agree_without_diagonals_witness :
  Utils.getNeighbors (1, 1) (Fixture.freshGrid 3 3) (Fixture.fullBoard 3 3) false
  = Improved.getNeighbors (1, 1) (Fixture.freshGrid 3 3) (Fixture.fullBoard 3 3)
  ∧ ModernAStar.getNeighbors ModernAStar.defaultOptions (1, 1) (Fixture.freshGrid 3 3)
      (Fixture.fullBoard 3 3)
    = Improved.getNeighbors (1, 1) (Fixture.freshGrid 3 3) (Fixture.fullBoard 3 3)
  ∧ match Improved.getNeighbors (1, 1) (Fixture.freshGrid 3 3) (Fixture.fullBoard 3 3),
          ClassAStar.getNeighbors (Fixture.freshGrid 3 3) (Fixture.fullBoard 3 3) (1, 1) with
    | JS.Ok neighbors, JS.Ok clockwise => neighbors ≡ₚ clockwise
    | JS.TypeError, JS.TypeError => True
    | _, _ => False
    end.
Proof.
  apply (neighbour_functions_agree_without_diagonals (1, 1) (Fixture.freshGrid 3 3)
           (Fixture.fullBoard 3 3) ModernAStar.manhattan_name 1).
  apply (bool_decide_unpack _). vm_compute. exact I.
Defined.

(** X8.  On the board that [createBoardArray] makes from a dictionary,
    looking for the cardinal neighbours of the id of any row and column
    never raises, and the cells returned are exactly the cells one cardinal
    step away that lie in the [height]-by-[width] rectangle and have a node
    that is not a wall. *)
Theorem createBoardArray_neighbors (nodes : NodeDict) (width height : nat) (nodeId : Id) :
  canonical nodeId →
  ∃ neighbors,
    Improved.getNeighbors nodeId nodes (Utils.createBoardArray nodes width height)
    = JS.Ok neighbors
    ∧ Utils.getNeighbors nodeId nodes (Utils.createBoardArray nodes width height) false
      = JS.Ok neighbors
    ∧ ∀ c, c ∈ neighbors
           ↔ ∃ d n, d ∈ cardinal ∧ c = (nodeId.1 + d.1, nodeId.2 + d.2)
                    ∧ 0 ≤ c.1 < Z.of_nat height ∧ 0 ≤ c.2 < Z.of_nat width
                    ∧ lookupNode nodes c = Some n ∧ status n ≠ Wall.
Proof.
  intros _.
  set (boardArray := Utils.createBoardArray nodes width height).
  assert (Hexact := improved_getNeighbors_from_exact nodes boardArray nodeId.1 nodeId.2
                      cardinal []).
  assert (Hnone : existsb (missing nodes boardArray nodeId.1 nodeId.2) cardinal = false).
  { apply not_true_is_false. intros H. apply existsb_exists in H as (d & _ & H).
    unfold missing in H. apply andb_true_iff in H as [Hin Hno].
    apply bool_decide_eq_true in Hno.
    apply createBoardArray_inBoard in Hin as (_ & _ & [n Hn]). congruence. }
  rewrite Hnone in Hexact. simpl in Hexact.
  eexists. split; [exact Hexact|]. split.
  { unfold Utils.getNeighbors.
    destruct (cardinal_getNeighbors_from_agree nodes boardArray nodeId.1 nodeId.2 cardinal
                cardinal_not_diagonal []) as [-> _].
    exact Hexact. }
  intros c. rewrite list_elem_of_fmap. split.
  - intros (d & -> & Hd). apply list_elem_of_filter in Hd as [Hfree Hd].
    apply Is_true_true in Hfree. unfold free in Hfree.
    apply andb_true_iff in Hfree as [Hin Hw]. apply negb_true_iff in Hw.
    apply createBoardArray_inBoard in Hin as (Hx & Hy & [n Hn]).
    unfold isWall in Hw. rewrite Hn in Hw. apply bool_decide_eq_false in Hw.
    exists d, n. done.
  - intros (d & n & Hd & -> & Hx & Hy & Hn & Hw). exists d. split; [done|].
    apply list_elem_of_filter. split; [|done]. apply Is_true_true. unfold free.
    apply andb_true_iff. split.
    + apply createBoardArray_inBoard. eauto.
    + unfold isWall. simpl. rewrite Hn. apply negb_true_iff, bool_decide_eq_false. done.
Qed.

Lemma createBoardArray_neighbors_witness :
  ∃ neighbors,
    Improved.getNeighbors (0, 0) walledGrid (Utils.createBoardArray walledGrid 4 4)
    = JS.Ok neighbors
    ∧ Utils.getNeighbors (0, 0) walledGrid (Utils.createBoardArray walledGrid 4 4) false
      = JS.Ok neighbors
    ∧ ∀ c, c ∈ neighbors
           ↔ ∃ d n, d ∈ cardinal ∧ c = ((0, 0).1 + d.1, (0, 0).2 + d.2)
                    ∧ 0 ≤ c.1 < Z.of_nat 4 ∧ 0 ≤ c.2 < Z.of_nat 4
                    ∧ lookupNode walledGrid c = Some n ∧ status n ≠ Wall.
Proof.
  apply (createBoardArray_neighbors walledGrid 4 4 (0, 0)).
  apply (bool_decide_unpack _). vm_compute. exact I.
Defined.

End NeighborFunctions.

(** ** The Manhattan distance *)

Section Manhattan.

(** X9.  On the ids of rows and columns the five texts of the Manhattan
    distance compute the same number; it is a metric on those ids (never
    negative, zero between equal ids only, symmetric, with the triangle
    inequality), and one cardinal step changes the distance to any cell by
    exactly one. *)
Theorem manhattan_distance_is_a_metric (a b c : Node) :
  canonical (id a) → canonical (id b) → canonical (id c) →
  Utils.calculateManhattanDistance a b = Improved.manhattanDistance a b
  ∧ ClassAStar.calculateManhattanDistance (id a) (id b) = Improved.manhattanDistance a b
  ∧ ModernAStar.calculateHeuristic ModernAStar.defaultOptions a b
    = Improved.manhattanDistance a b
  ∧ (∀ oa ob, NodeClass.fields oa = a → NodeClass.fields ob = b →
       NodeClass.manhattanDistanceTo oa ob = Improved.manhattanDistance a b)
  ∧ 0 ≤ Improved.manhattanDistance a b < 2 ^ 33
  ∧ (Improved.manhattanDistance a b = 0 ↔ id a = id b)
  ∧ Improved.manhattanDistance a b = Improved.manhattanDistance b a
  ∧ Improved.manhattanDistance a c
    ≤ Improved.manhattanDistance a b + Improved.manhattanDistance b c
  ∧ (Z.abs ((id a).1 - (id b).1) + Z.abs ((id a).2 - (id b).2) = 1 →
       Z.abs (Improved.manhattanDistance a c - Improved.manhattanDistance b c) = 1).
Proof.
  unfold canonical, Utils.calculateManhattanDistance, Improved.manhattanDistance,
    ClassAStar.calculateManhattanDistance, ModernAStar.calculateHeuristic,
    NodeClass.manhattanDistanceTo, NodeClass.getCoordinates, manhattan.
  destruct (id a) as [x1 y1] eqn:Ha, (id b) as [x2 y2] eqn:Hb, (id c) as [x3 y3] eqn:Hc.
  simpl. intros Ca Cb Cc. split_and!; try lia.
  - intros oa ob -> ->. rewrite Ha, Hb. simpl. done.
  - split; [intros H; f_equal; lia|intros [= -> ->]; lia].
Qed.

(** Three cells of a 4-by-4 grid. *)
Definition cornerCell : Node := newNode (0, 0) Unvisited.
Definition besideCorner : Node := newNode (0, 1) Unvisited.
Definition farCell : Node := newNode (3, 3) Unvisited.

Lemma manhattan_distance_is_a_metric_witness :
  Utils.calculateManhattanDistance cornerCell besideCorner
  = Improved.manhattanDistance cornerCell besideCorner
  ∧ ClassAStar.calculateManhattanDistance (id cornerCell) (id besideCorner)
    = Improved.manhattanDistance cornerCell besideCorner
  ∧ ModernAStar.calculateHeuristic ModernAStar.defaultOptions cornerCell besideCorner
    = Improved.manhattanDistance cornerCell besideCorner
  ∧ (∀ oa ob, NodeClass.fields oa = cornerCell → NodeClass.fields ob = besideCorner →
       NodeClass.manhattanDistanceTo oa ob
       = Improved.manhattanDistance cornerCell besideCorner)
  ∧ 0 ≤ Improved.manhattanDistance cornerCell besideCorner < 2 ^ 33
  ∧ (Improved.manhattanDistance cornerCell besideCorner = 0
     ↔ id cornerCell = id besideCorner)
  ∧ Improved.manhattanDistance cornerCell besideCorner
    = Improved.manhattanDistance besideCorner cornerCell
  ∧ Improved.manhattanDistance cornerCell farCell
    ≤ Improved.manhattanDistance cornerCell besideCorner
      + Improved.manhattanDistance besideCorner farCell
  ∧ (Z.abs ((id cornerCell).1 - (id besideCorner).1)
     + Z.abs ((id cornerCell).2 - (id besideCorner).2) = 1 →
       Z.abs (Improved.manhattanDistance cornerCell farCell
              - Improved.manhattanDistance besideCorner farCell) = 1).
Proof.
  apply (manhattan_distance_is_a_metric cornerCell besideCorner farCell);
    apply (bool_decide_unpack _); vm_compute; exact I.
Defined.

End Manhattan.

(** ** What [astar] leaves in place *)

Section Frame.

Import Improved.

(** The status of a record changes to ["visited"] or not at all. *)
Definition status_moves (n n' : Node) : Prop :=
  status n' = status n ∨ status n' = Visited.

Lemma status_moves_trans (a b c : Node) :
  status_moves a b → status_moves b c → status_moves a c.
Proof. unfold status_moves. intros [H1|H1] [H2|H2]; rewrite ?H2, ?H1; auto. Qed.

Lemma rtc_action_status (heuristic : Node → Node → Z) (boardArray : Board) (target : Id)
    (nodes nodes' : NodeDict) :
  rtc (action heuristic boardArray target) nodes nodes' →
  ∀ k n, lookupNode nodes k = Some n →
         ∃ n', lookupNode nodes' k = Some n' ∧ status_moves n n'.
Proof.
  intros Hrtc.
  apply (rtc_action_invariant heuristic boardArray target (λ _, True) status_moves);
    try done.
  - intros n. left. done.
  - apply status_moves_trans.
  - intros a b _ Hab. split; [done|]. intros k n Hk.
    destruct Hab as [ref cur Hr Hw Hd | cur nb curN nbN tgN d Hc Hn Ht Hw Hd Hnb Hin];
      rewrite lookupNode_mutate; destruct (decide (_ = k)) as [->|]; rewrite Hk; simpl;
      eexists; (split; [done|]); unfold status_moves; simpl; auto.
    left. assert (n = nbN) as -> by congruence.
    apply (relaxed_frame heuristic calculateNodeDistance curN nbN tgN).
Qed.

Lemma rtc_action_okeys (heuristic : Node → Node → Z) (boardArray : Board) (target : Id)
    (nodes nodes' : NodeDict) :
  rtc (action heuristic boardArray target) nodes nodes' → okeys nodes' = okeys nodes.
Proof.
  induction 1 as [|a b c Hab Hbc IH]; [done|].
  rewrite IH. eapply action_okeys. done.
Qed.

(** X10.  [astar] always returns or raises, and whatever the input it
    keeps the keys of the dictionary, the earlier entries of
    [nodesToAnimate], and the [id] and [weight] of every node; a status
    changes to ["visited"] or not at all, a wall stays a wall, and a wall that
    is not the start cell is left exactly as it was. *)
Theorem astar_changes_only_search_fields (nodes : NodeDict) (start target : option Id)
    (trace : list Id) (boardArray : Board) (heuristic : Node → Node → Z) :
  ∃ o s',
    astar nodes start target trace boardArray heuristic = Some (o, s')
    ∧ okeys (Improved.nodes s') = okeys nodes
    ∧ (∃ added, nodesToAnimate s' = trace ++ added)
    ∧ ∀ k, match lookupNode nodes k with
           | None => lookupNode (Improved.nodes s') k = None
           | Some n =>
               ∃ n', lookupNode (Improved.nodes s') k = Some n'
                     ∧ id n' = id n ∧ weight n' = weight n
                     ∧ (status n' = status n ∨ status n' = Visited)
                     ∧ (status n = Wall → status n' = Wall)
                     ∧ (status n = Wall → start ≠ Some k → n' = n)
           end.
Proof.
  destruct (validateInputs nodes start target) eqn:Hv.
  2: { eexists _, _. split.
       { unfold astar. destruct start, target; try reflexivity. rewrite Hv. reflexivity. }
       simpl. split_and!; [done|exists []; rewrite app_nil_r; done|].
       intros k. destruct (lookupNode nodes k) as [n|]; [|done].
       exists n. split_and!; auto. }
  destruct (validateInputs_true _ _ _ Hv) as (st & tg & -> & -> & Hne & Hst & Htg).
  destruct (astar_total nodes (Some st) (Some tg) trace boardArray heuristic)
    as [[o s'] Hrun].
  exists o, s'. split; [done|].
  rewrite astar_valid in Hrun by done.
  assert (Htg0 : is_Some (lookupNode (Improved.nodes (initial nodes st trace)) tg))
    by (simpl; apply lookupNode_initializeStartNode; done).
  pose proof (astar_loop_during _ _ _ _ _ _ _ _ (during_start _ _ _ _) Hrun) as Hd.
  pose proof (during_actions _ _ _ _ _ Htg0 Hd) as Hrtc. simpl in Hrtc.
  split_and!.
  - rewrite (rtc_action_okeys _ _ _ _ _ Hrtc). done.
  - destruct (during_trace_visited _ _ _ _ _ Htg0 Hd) as (added & Hadd & _). eauto.
  - intros k. destruct (lookupNode nodes k) as [n|] eqn:Hn.
    2: { destruct (lookupNode (Improved.nodes s') k) eqn:E; [|done].
         assert (H : is_Some (lookupNode nodes k)).
         { apply lookupNode_initializeStartNode with (st := st).
           apply (rtc_action_dom _ _ _ _ _ _ Hrtc). eauto. }
         rewrite Hn in H. destruct H. done. }
    assert (Hn1 : ∃ n1, lookupNode (initializeStartNode nodes st) k = Some n1
                        ∧ id n1 = id n ∧ weight n1 = weight n ∧ status n1 = status n
                        ∧ (st ≠ k → n1 = n)).
    { unfold initializeStartNode. rewrite lookupNode_mutate, Hn.
      destruct (decide (st = k)); simpl; eexists; split_and!; done. }
    destruct Hn1 as (n1 & Hn1 & E1 & E2 & E3 & E4).
    destruct (rtc_action_kept _ _ _ _ _ Hrtc _ _ Hn1) as (n' & Hn' & K1 & K2 & K3 & K4 & K5).
    destruct (rtc_action_status _ _ _ _ _ Hrtc _ _ Hn1) as (n'' & Hn'' & Hs).
    assert (n'' = n') as -> by congruence.
    exists n'. split_and!; try congruence.
    + unfold status_moves in Hs. rewrite E3 in Hs. done.
    + intros Hw. rewrite K3 by congruence. congruence.
    + intros Hw Hne'. rewrite K3 by congruence. apply E4. congruence.
Qed.

(** One turn of the loop moves at most one cell from [unvisitedNodes] to
    the trace and drops no other. *)
Lemma iteration_moves (heuristic : Node → Node → Z) (boardArray : Board) (target : Id)
    (s : State) :
  let s' := result_state (iteration heuristic boardArray target s) in
  nodesToAnimate s' ++ unvisitedNodes s' ⊆+ nodesToAnimate s ++ unvisitedNodes s.
Proof.
  unfold iteration.
  destruct (findClosestNode (Improved.nodes s) (unvisitedNodes s)) as [[r unv1]|] eqn:Hf;
    [|done].
  pose proof (improved_findClosestNode_selected _ _ _ _ Hf) as Hsel.
  destruct r as [ref|]; simpl in Hsel.
  2: { destruct Hsel as [-> _]. simpl. apply submseteq_app; [done|].
       apply sublist_submseteq, sublist_delete. }
  destruct Hsel as (index & cur & Hidx & -> & Hcur & _).
  assert (Hsub : delete index (unvisitedNodes s) ⊆+ unvisitedNodes s).
  { apply sublist_submseteq, sublist_delete. }
  assert (Hmove : (nodesToAnimate s ++ [ref]) ++ delete index (unvisitedNodes s)
                  ⊆+ nodesToAnimate s ++ unvisitedNodes s).
  { rewrite <- app_assoc. apply submseteq_app; [done|]. simpl.
    rewrite delete_take_drop. rewrite <- (take_drop_middle _ _ _ Hidx) at 3.
    rewrite Permutation_middle. done. }
  rewrite Hcur.
  destruct (decide (status cur = Wall)); simpl.
  { apply submseteq_app; done. }
  destruct (JS.eqb (distance cur) JS.Infinity); simpl.
  { apply submseteq_app; done. }
  destruct (decide (id cur = target)); simpl; [done|].
  destruct (updateNeighbors _ _ _ _ _ _) as [[??]|[??]]; simpl; done.
Qed.

Lemma during_moves (heuristic : Node → Node → Z) (boardArray : Board) (target : Id)
    (s0 s : State) :
  during heuristic boardArray target s0 s →
  nodesToAnimate s ++ unvisitedNodes s ⊆+ nodesToAnimate s0 ++ unvisitedNodes s0.
Proof.
  induction 1 as [|s s' Hd IH Hu Hit|s o s' Hd IH Hu Hit]; [done| |];
    pose proof (iteration_moves heuristic boardArray target s) as Hm;
    rewrite Hit in Hm; simpl in Hm; etrans; done.
Qed.

Lemma NoDup_submseteq_inv {X : Type} (l k : list X) : l ⊆+ k → NoDup k → NoDup l.
Proof.
  intros Hsub Hnd. apply submseteq_Permutation in Hsub as [k' Hk'].
  rewrite Hk' in Hnd. apply NoDup_app in Hnd as [H _]. done.
Qed.

(** X11.  Started with an empty [nodesToAnimate], [astar] appends every
    cell at most once, appends keys of the dictionary only, and so never
    more cells than the dictionary has. *)
Theorem astar_animates_each_cell_once (nodes : NodeDict) (start target : option Id)
    (boardArray : Board) (heuristic : Node → Node → Z) :
  NoDup (okeys nodes) →
  ∃ o s',
    astar nodes start target [] boardArray heuristic = Some (o, s')
    ∧ NoDup (nodesToAnimate s')
    ∧ (∀ k, k ∈ nodesToAnimate s' → k ∈ okeys nodes)
    ∧ (length (nodesToAnimate s') ≤ length (okeys nodes))%nat.
Proof.
  intros Hnd.
  destruct (astar_total nodes start target [] boardArray heuristic) as [[o s'] Hrun].
  exists o, s'. split; [done|].
  assert (Hsub : nodesToAnimate s' ⊆+ okeys nodes).
  { destruct (validateInputs nodes start target) eqn:Hv.
    - destruct (validateInputs_true _ _ _ Hv) as (st & tg & -> & -> & _).
      rewrite astar_valid in Hrun by done.
      pose proof (astar_loop_during _ _ _ _ _ _ _ _ (during_start _ _ _ _) Hrun) as Hd.
      apply during_moves in Hd. simpl in Hd.
      etrans; [|exact Hd]. apply submseteq_inserts_r. done.
    - unfold astar in Hrun. destruct start, target; try rewrite Hv in Hrun;
        injection Hrun as <- <-; simpl; apply submseteq_nil_l. }
  split_and!.
  - eapply NoDup_submseteq_inv; done.
  - intros k Hk. eapply elem_of_submseteq; done.
  - apply submseteq_length. done.
Qed.

Lemma astar_animates_each_cell_once_witness :
  ∃ o s',
    astar walledGrid (Some (0, 0)) (Some (3, 3)) [] (Fixture.fullBoard 4 4)
      manhattanDistance = Some (o, s')
    ∧ NoDup (nodesToAnimate s')
    ∧ (∀ k, k ∈ nodesToAnimate s' → k ∈ okeys walledGrid)
    ∧ (length (nodesToAnimate s') ≤ length (okeys walledGrid))%nat.
Proof.
  apply (astar_animates_each_cell_once walledGrid (Some (0, 0)) (Some (3, 3))
           (Fixture.fullBoard 4 4) manhattanDistance).
  apply (bool_decide_unpack _). vm_compute. exact I.
Defined.

End Frame.

(** ** The cheapest route: [astar] with the Manhattan heuristic *)

Section Routes.

Variable boardArray : Board.
Variable nodes0 : NodeDict.

(** The weight of a cell of the grid. *)
Definition weightOf (k : Id) : Z :=
  match lookupNode nodes0 k with
  | Some n => weight n
  | None => 0
  end.

(** A path on the grid: each cell is one move ([edge]) from the one
    before it. *)
Fixpoint walk (p : list Id) : Prop :=
  match p with
  | a :: (b :: _) as rest => edge boardArray nodes0 a b ∧ walk rest
  | _ => True
  end.

(** What a path costs: one unit and the weight of the cell for every cell
    entered. *)
Fixpoint walk_cost (p : list Id) : Z :=
  match p with
  | a :: (b :: _) as rest => 1 + weightOf b + walk_cost rest
  | _ => 0
  end.

(** [route a k c]: some path leads from [a] to [k] at cost [c]. *)
Inductive route (a : Id) : Id → Z → Prop :=
| route_here : route a a 0
| route_step b k c :
    route a b c → edge boardArray nodes0 b k → route a k (c + 1 + weightOf k).

Lemma walk_snoc (p : list Id) (b k : Id) :
  walk (p ++ [b]) → edge boardArray nodes0 b k → walk ((p ++ [b]) ++ [k]).
Proof.
  induction p as [|a p IH]; simpl; [done|].
  destruct p as [|a' p]; simpl in *.
  - intros [H _] He. done.
  - intros [H Hw] He. split; [done|]. apply IH; done.
Qed.

Lemma walk_cost_snoc (p : list Id) (b k : Id) :
  walk_cost ((p ++ [b]) ++ [k]) = walk_cost (p ++ [b]) + 1 + weightOf k.
Proof.
  induction p as [|a p IH]; simpl; [lia|].
  destruct p as [|a' p]; simpl in *; lia.
Qed.

Lemma walk_snoc_inv (p : list Id) (b k : Id) :
  walk ((p ++ [b]) ++ [k]) → walk (p ++ [b]) ∧ edge boardArray nodes0 b k.
Proof.
  induction p as [|a p IH]; simpl; [tauto|].
  destruct p as [|a' p]; simpl in *; tauto.
Qed.

Lemma route_walk (a k : Id) (c : Z) :
  route a k c ↔ ∃ p, walk (a :: p) ∧ last (a :: p) = Some k ∧ walk_cost (a :: p) = c.
Proof.
  split.
  - induction 1 as [|b k c Hr (p & Hw & Hl & Hc) He].
    + exists []. done.
    + apply last_Some in Hl as [q Hq].
      exists (p ++ [k]). rewrite app_comm_cons, Hq. split_and!.
      * apply walk_snoc; [rewrite <- Hq|]; done.
      * apply last_snoc.
      * rewrite walk_cost_snoc, <- Hq, Hc. done.
  - intros (p & Hw & Hl & Hc). revert k c Hw Hl Hc.
    induction p as [|x p IH] using rev_ind; intros k c Hw Hl Hc.
    + simpl in *. simplify_eq. constructor.
    + rewrite app_comm_cons in Hl, Hc, Hw. rewrite last_snoc in Hl. simplify_eq.
      destruct (last (a :: p)) as [b|] eqn:Hb.
      2: { rewrite last_cons in Hb. destruct (last p); done. }
      pose proof Hb as Hb'. apply last_Some in Hb' as [q Hq].
      rewrite Hq in Hw |- *. rewrite walk_cost_snoc.
      apply walk_snoc_inv in Hw as [Hw He].
      apply route_step with (b := b); [|done].
      apply IH; [rewrite Hq; done|done|rewrite Hq; done].
Qed.

End Routes.

Section Expansion.

Import Improved.

Variable boardArray : Board.
Variable tg : Id.

(** One relaxation attempt from the cell [cur] on its neighbour [nb], as
    [updateSingleNeighbor] with the Manhattan heuristic leaves the store. *)
Definition relax1 (cur nb : Id) (nodes : NodeDict) : NodeDict :=
  match lookupNode nodes cur, lookupNode nodes nb, lookupNode nodes tg with
  | Some curN, Some nbN, Some tgN =>
      mutate (λ _, relaxed manhattanDistance calculateNodeDistance curN nbN tgN) nb nodes
  | _, _, _ => nodes
  end.

(** The cells [getNeighbors] returns for [ref]. *)
Definition neighborsOf (nodes : NodeDict) (ref : Id) : list Id :=
  shift ref.1 ref.2 <$> filter (λ d, free nodes boardArray ref.1 ref.2 d) cardinal.

Lemma relax1_dom (cur nb : Id) (nodes : NodeDict) (k : Id) :
  is_Some (lookupNode (relax1 cur nb nodes) k) ↔ is_Some (lookupNode nodes k).
Proof.
  unfold relax1.
  destruct (lookupNode nodes cur), (lookupNode nodes nb), (lookupNode nodes tg); try done.
  rewrite lookupNode_mutate. destruct (decide (nb = k)); [|done].
  rewrite fmap_is_Some. done.
Qed.

Lemma updateNeighbors_each_exact (cur : Id) :
  ∀ neighbors nodes calls,
    is_Some (lookupNode nodes cur) → is_Some (lookupNode nodes tg) →
    (∀ nb, nb ∈ neighbors → is_Some (lookupNode nodes nb)) →
    ∃ calls',
      updateNeighbors_each manhattanDistance nodes calls cur neighbors tg
      = JS.Normal (foldl (λ nd nb, relax1 cur nb nd) nodes neighbors, calls').
Proof.
  induction neighbors as [|nb rest IH]; intros nodes calls Hcur Htg Hall; simpl; [eauto|].
  destruct Hcur as [curN Hcur]. destruct Htg as [tgN Htg].
  destruct (Hall nb) as [nbN Hnb]; [left|].
  rewrite (updateSingleNeighbor_relaxed _ _ _ _ _ _ _ _ _ Hcur Hnb Htg).
  assert (E : mutate (λ _, relaxed manhattanDistance calculateNodeDistance curN nbN tgN)
                nb nodes = relax1 cur nb nodes).
  { unfold relax1. rewrite Hcur, Hnb, Htg. done. }
  rewrite E. apply IH.
  - apply relax1_dom. eauto.
  - apply relax1_dom. eauto.
  - intros nb' Hnb'. apply relax1_dom. apply Hall. right. done.
Qed.

Lemma getNeighbors_exact (nodes : NodeDict) (ref : Id) :
  (∀ i j, inBoard boardArray i j = true → is_Some (lookupNode nodes (i, j))) →
  getNeighbors ref nodes boardArray = JS.Ok (neighborsOf nodes ref).
Proof.
  intros Hboard. unfold getNeighbors. rewrite improved_getNeighbors_from_exact.
  assert (Hnone : existsb (missing nodes boardArray ref.1 ref.2) cardinal = false).
  { apply not_true_is_false. intros H. apply existsb_exists in H as (d & _ & H).
    unfold missing in H. apply andb_true_iff in H as [Hin Hno].
    apply bool_decide_eq_true in Hno. destruct (Hboard _ _ Hin) as [n Hn]. congruence. }
  rewrite Hnone. done.
Qed.

Lemma elem_of_neighborsOf (nodes : NodeDict) (ref v : Id) :
  (∀ i j, inBoard boardArray i j = true → is_Some (lookupNode nodes (i, j))) →
  v ∈ neighborsOf nodes ref
  ↔ ∃ d n, d ∈ cardinal ∧ v = (ref.1 + d.1, ref.2 + d.2)
           ∧ inBoard boardArray v.1 v.2 = true
           ∧ lookupNode nodes v = Some n ∧ status n ≠ Wall.
Proof.
  intros Hboard. unfold neighborsOf. rewrite list_elem_of_fmap. split.
  - intros (d & -> & Hd). apply list_elem_of_filter in Hd as [Hfree Hd].
    apply Is_true_true in Hfree. unfold free in Hfree.
    apply andb_true_iff in Hfree as [Hin Hw]. apply negb_true_iff in Hw.
    unfold isWall in Hw. unfold shift. simpl.
    destruct (lookupNode nodes (ref.1 + d.1, ref.2 + d.2)) as [n|] eqn:Hn.
    + apply bool_decide_eq_false in Hw. exists d, n. done.
    + destruct (Hboard _ _ Hin) as [n Hn']. congruence.
  - intros (d & n & Hd & -> & Hin & Hn & Hw). exists d. split; [done|].
    apply list_elem_of_filter. split; [|done]. apply Is_true_true. unfold free.
    simpl in Hin. rewrite Hin. simpl. unfold isWall. rewrite Hn.
    apply negb_true_iff, bool_decide_eq_false. done.
Qed.

End Expansion.

(** ** [optimizedAStar]: the loop ends *)

Section RunFacts.

Import PriorityQueue.

Lemma length_enqueue {A : Type} (compare : Item A → Item A → Number.t)
    (values : list (Item A)) (x : A) (p : JS.Num) :
  length (enqueue compare values x p) = S (length values).
Proof. rewrite (Permutation_length (enqueue_Permutation compare values x p)). done. Qed.

Lemma length_dequeue {A : Type} (compare : Item A → Item A → Number.t)
    (values : list (Item A)) :
  values ≠ [] → S (length (dequeue compare values).2) = length values.
Proof.
  destruct values as [|top tl]; [done|]. intros _.
  destruct (dequeue_Permutation compare top tl) as (rest & -> & Hrest).
  simpl. rewrite (Permutation_length Hrest). done.
Qed.

Lemma dom_mutate (g : Node → Node) (k : Id) (nodes : NodeDict) :
  dom (oget (mutate g k nodes)) = dom (oget nodes).
Proof. unfold mutate. simpl. apply dom_alter_L. Qed.

Lemma status_mutate (g : Node → Node) (k k' : Id) (nodes : NodeDict) :
  (∀ n, lookupNode nodes k = Some n → status (g n) = status n) →
  status <$> lookupNode (mutate g k nodes) k' = status <$> lookupNode nodes k'.
Proof.
  intros Hg. rewrite lookupNode_mutate. destruct (decide (k = k')) as [<-|]; [|done].
  destruct (lookupNode nodes k) as [n|] eqn:Hn; [|done]. simpl. rewrite Hg; done.
Qed.

Lemma size_difference_visit (D V : gset Id) (k : Id) :
  k ∈ D → k ∉ V → base.size (D ∖ V) = S (base.size (D ∖ ({[k]} ∪ V))).
Proof.
  intros HD HV.
  assert (D ∖ V = {[k]} ∪ D ∖ ({[k]} ∪ V)) as ->.
  { apply set_eq. intros x.
    rewrite elem_of_union, !elem_of_difference, elem_of_union, elem_of_singleton.
    destruct (decide (x = k)) as [->|]; tauto. }
  rewrite size_union; [rewrite size_singleton; done|].
  intros x. rewrite elem_of_singleton, elem_of_difference, elem_of_union, elem_of_singleton.
  tauto.
Qed.

End RunFacts.

Section OptimizedRun.

Import PriorityQueue OptimizedAStar.

Variable boardArray : Board.
Variable target : Id.

Lemma optimized_getNeighbors_from_length (nodes : NodeDict) (x y : Z) :
  ∀ directions neighbors result,
    getNeighbors_from nodes boardArray x y directions neighbors = JS.Ok result →
    (length result ≤ length neighbors + length directions)%nat.
Proof.
  induction directions as [|[dx dy] rest IH]; intros neighbors result H; simpl in H.
  - injection H as <-. lia.
  - simpl. destruct (inBoard boardArray (x + dx) (y + dy)).
    + destruct (lookupNode nodes (x + dx, y + dy)) as [n|]; [|done].
      destruct (decide (status n = Wall)); apply IH in H; [lia|].
      rewrite length_app in H. simpl in H. lia.
    + apply IH in H. lia.
Qed.

(** What the body of the [for] loop leaves alone, and how much it can add
    to the queue. *)
Definition grown (n : nat) (s s' : State) : Prop :=
  dom (oget (nodes s')) = dom (oget (nodes s))
  ∧ visited s' = visited s
  ∧ nodesToAnimate s' = nodesToAnimate s
  ∧ (length (unvisitedQueue s') ≤ length (unvisitedQueue s) + n)%nat
  ∧ ∀ k, status <$> lookupNode (nodes s') k = status <$> lookupNode (nodes s) k.

Lemma processNeighbor_grown (currentId neighborId : Id) (s s' : State) :
  processNeighbor target currentId neighborId s = JS.Ok s' → grown 1 s s'.
Proof.
  unfold processNeighbor, grown.
  destruct (bool_decide (neighborId ∈ visited s)).
  { intros [= <-]. split_and!; try done. lia. }
  destruct (lookupNode (nodes s) neighborId) as [neighbor|]; [|done].
  destruct (decide (status neighbor = Wall)).
  { intros [= <-]. split_and!; try done. lia. }
  set (cached := if JS.falsy (heuristicDistance neighbor) then _ else _).
  assert (Hc : ∀ nodes1, cached = JS.Ok nodes1 →
            dom (oget nodes1) = dom (oget (nodes s))
            ∧ ∀ k, status <$> lookupNode nodes1 k = status <$> lookupNode (nodes s) k).
  { unfold cached. intros nodes1. destruct (JS.falsy _).
    - destruct (lookupNode (nodes s) target); [|done]. intros [= <-].
      split; [apply dom_mutate|]. intros k. apply status_mutate. done.
    - intros [= <-]. done. }
  destruct cached as [nodes1|]; [|done]. destruct (Hc nodes1 eq_refl) as [Hd Hs]. simpl.
  destruct (lookupNode nodes1 currentId) as [currentNode|]; [|done].
  destruct (lookupNode nodes1 neighborId) as [neighbor1|] eqn:Hn1; [|done].
  destruct (JS.ltb _ _); intros [= <-];
    cbn [nodes visited unvisitedQueue nodesToAnimate]; split_and!; try done.
  - rewrite dom_mutate. done.
  - rewrite length_enqueue. lia.
  - intros k. rewrite <- Hs. apply status_mutate.
    intros n1 Hn. assert (n1 = neighbor1) as -> by congruence. done.
  - lia.
Qed.

Lemma processNeighbors_grown (currentId : Id) (neighbors : list Id) :
  ∀ s s', processNeighbors target currentId neighbors s = JS.Normal s'
          ∨ processNeighbors target currentId neighbors s = JS.Abrupt s' →
          grown (length neighbors) s s'.
Proof.
  induction neighbors as [|nb rest IH]; intros s s' H; simpl in H.
  - destruct H as [[= <-]|[=]]. unfold grown. split_and!; try done. simpl. lia.
  - destruct (processNeighbor target currentId nb s) as [s1|] eqn:H1.
    + apply processNeighbor_grown in H1 as (Hd & Hv & Ht & Hl & Hs).
      apply IH in H as (Hd' & Hv' & Ht' & Hl' & Hs').
      unfold grown. split_and!; try congruence. simpl. lia.
    + destruct H as [[=]|[= <-]]. unfold grown. split_and!; try done. lia.
Qed.

(** The measure of the loop: what is in the queue, and four items for
    every node that has not been expanded. *)
Definition workLeft (s : State) : nat :=
  (length (unvisitedQueue s) + 4 * base.size (dom (oget (nodes s)) ∖ visited s))%nat.

(** A turn that expands the cell [k]: it was the first in the queue, had a
    node and was in [visited] not yet; it is marked visited; no other status
    changes. *)
Definition expands (k : Id) (s s' : State) : Prop :=
  (dequeue (compareNodes (nodes s)) (unvisitedQueue s)).1 = Some k
  ∧ (k ∉ visited s) ∧ is_Some (lookupNode (nodes s) k)
  ∧ visited s' = {[k]} ∪ visited s
  ∧ nodesToAnimate s' = nodesToAnimate s ++ [k]
  ∧ ∀ k', status <$> lookupNode (nodes s') k'
          = if decide (k' = k) then Some Visited else status <$> lookupNode (nodes s) k'.

(** A turn that expands nothing. *)
Definition passes (s s' : State) : Prop :=
  nodes s' = nodes s ∧ visited s' = visited s ∧ nodesToAnimate s' = nodesToAnimate s
  ∧ unvisitedQueue s' = (dequeue (compareNodes (nodes s)) (unvisitedQueue s)).2.

(** What a turn of the loop does to the set, to the trace and to the
    measure. *)
Lemma iteration_effect_optimized (s : State) :
  unvisitedQueue s ≠ [] →
  match iteration boardArray target s with
  | Next s' =>
      (workLeft s' < workLeft s)%nat ∧ (passes s s' ∨ ∃ k, expands k s s')
  | Stop o s' =>
      (passes s s' ∧ o = Throws)
      ∨ ∃ k, expands k s s' ∧ (o = ReturnSuccess → k = target) ∧ o ≠ ReturnFalse
  end.
Proof.
  intros Hq. unfold iteration.
  pose proof (length_dequeue (compareNodes (nodes s)) _ Hq) as Hlen.
  unfold passes, expands.
  destruct (dequeue (compareNodes (nodes s)) (unvisitedQueue s)) as [[currentId|] rest];
    cbn [fst snd] in *; [|left; done].
  destruct (bool_decide (currentId ∈ visited s)) eqn:Hv.
  { split; [unfold workLeft; simpl; lia|left; done]. }
  apply bool_decide_eq_false in Hv.
  destruct (lookupNode (nodes s) currentId) as [currentNode|] eqn:Hcur; [|left; done].
  destruct (decide (status currentNode = Wall)).
  { split; [unfold workLeft; simpl; lia|left; done]. }
  assert (Hstatus : ∀ k', status <$> lookupNode (mutate (set_status Visited) currentId
                                                   (nodes s)) k'
                          = if decide (k' = currentId) then Some Visited
                            else status <$> lookupNode (nodes s) k').
  { intros k'. rewrite lookupNode_mutate.
    destruct (decide (currentId = k')) as [<-|Hne].
    - rewrite Hcur, decide_True by done. done.
    - rewrite decide_False by done. done. }
  destruct (decide (currentId = target)) as [->|Hne].
  { right. exists target. cbn [nodes visited unvisitedQueue nodesToAnimate].
    split_and!; first [done|eauto]. }
  destruct (getNeighbors _ _ _) as [neighbors|] eqn:Hn.
  2: { right. exists currentId. cbn [nodes visited unvisitedQueue nodesToAnimate].
       split_and!; first [done|eauto]. }
  apply optimized_getNeighbors_from_length in Hn. simpl in Hn.
  set (s2 := mkState (mutate _ _ _) _ _ _).
  destruct (processNeighbors target currentId neighbors s2) as [s3|s3] eqn:Hp.
  - destruct (processNeighbors_grown currentId neighbors s2 s3)
      as (Hd & Hv' & Ht & Hl & Hs); [left; done|].
    subst s2. cbn [nodes visited unvisitedQueue nodesToAnimate] in *. split.
    + unfold workLeft. rewrite Hd, Hv', dom_mutate.
      rewrite (size_difference_visit _ (visited s) currentId); [lia| |done].
      apply elem_of_dom. unfold lookupNode in Hcur. eauto.
    + right. exists currentId. split_and!; try done.
      intros k'. rewrite Hs. apply Hstatus.
  - destruct (processNeighbors_grown currentId neighbors s2 s3)
      as (Hd & Hv' & Ht & Hl & Hs); [right; done|].
    right. exists currentId. subst s2. cbn [nodes visited unvisitedQueue nodesToAnimate] in *.
    split_and!; try done. intros k'. rewrite Hs. apply Hstatus.
Qed.

Lemma optimizedAStar_loop_total (fuel : nat) :
  ∀ s, (workLeft s ≤ fuel)%nat →
       ∃ r, optimizedAStar_loop boardArray target fuel s = Some r.
Proof.
  induction fuel as [|fuel IH]; intros s Hfuel; simpl; unfold isEmpty.
  - destruct (unvisitedQueue s) as [|it rest] eqn:Hq; [rewrite bool_decide_eq_true_2; eauto|].
    unfold workLeft in Hfuel. rewrite Hq in Hfuel. simpl in Hfuel. lia.
  - destruct (unvisitedQueue s) as [|it rest] eqn:Hq; [rewrite bool_decide_eq_true_2; eauto|].
    rewrite bool_decide_eq_false_2 by done.
    pose proof (iteration_effect_optimized s) as Hit. rewrite Hq in Hit.
    destruct (iteration boardArray target s) as [s'|o s']; [|eauto].
    apply IH. destruct Hit as [Hlt _]; [done|]. lia.
Qed.

(** What the trace holds after some turns of a run that began with the
    trace [trace0] and with [start] alone in the queue: the cells added are
    distinct, they are the cells of [visited], they are marked visited, and
    the first of them is the start. *)
Definition traced (start : Id) (trace0 new : list Id) (s : State) : Prop :=
  nodesToAnimate s = trace0 ++ new ∧ NoDup new
  ∧ (∀ k, k ∈ new ↔ k ∈ visited s)
  ∧ (∀ k, k ∈ new → status <$> lookupNode (nodes s) k = Some Visited)
  ∧ ((new = [] ∧ (unvisitedQueue s = [mkItem start (JS.Fin 0)] ∨ unvisitedQueue s = []))
     ∨ head new = Some start).

Lemma traced_passes (start : Id) (trace0 new : list Id) (s s' : State) :
  traced start trace0 new s → passes s s' → traced start trace0 new s'.
Proof.
  intros (Ht & Hnd & Hvis & Hst & Hfirst) (Hn & Hv & Ha & Hq).
  unfold traced. rewrite Hn, Hv, Ha, Hq. split_and!; try done.
  destruct Hfirst as [[-> [E|E]]|?]; [left|left|right; done]; rewrite E; auto.
Qed.

Lemma traced_expands (start : Id) (trace0 new : list Id) (s s' : State) (k : Id) :
  traced start trace0 new s → expands k s s' → traced start trace0 (new ++ [k]) s'.
Proof.
  intros (Ht & Hnd & Hvis & Hst & Hfirst) (Hdq & Hk & _ & Hv & Ha & Hs).
  unfold traced. rewrite Hv, Ha, Ht, app_assoc. split_and!; try done.
  - apply NoDup_app. split_and!; [done| |apply NoDup_singleton].
    intros x Hx [->|[]%elem_of_nil]%elem_of_cons. apply Hk, Hvis. done.
  - intros x. rewrite elem_of_app, elem_of_union, elem_of_singleton, Hvis.
    rewrite elem_of_cons, elem_of_nil. tauto.
  - intros x Hx. rewrite Hs. destruct (decide (x = k)); [done|].
    apply elem_of_app in Hx as [Hx|[->|[]%elem_of_nil]%elem_of_cons]; [auto|done].
  - right. destruct Hfirst as [[-> [E|E]]|Hh].
    + rewrite E in Hdq. simpl in Hdq. injection Hdq as <-. done.
    + rewrite E in Hdq. simpl in Hdq. done.
    + destruct new; simpl in *; done.
Qed.

Lemma optimizedAStar_loop_traced (start : Id) (trace0 : list Id) (fuel : nat) :
  ∀ s new o s', traced start trace0 new s →
    optimizedAStar_loop boardArray target fuel s = Some (o, s') →
    ∃ new', traced start trace0 new' s'
            ∧ (o = ReturnSuccess → last new' = Some target).
Proof.
  induction fuel as [|fuel IH]; intros s new o s' Htr Hrun; simpl in Hrun;
    unfold isEmpty in Hrun.
  - destruct (unvisitedQueue s) as [|it rest] eqn:Hq.
    + rewrite bool_decide_eq_true_2 in Hrun by done. injection Hrun as <- <-.
      exists new. done.
    + rewrite bool_decide_eq_false_2 in Hrun by done. done.
  - destruct (unvisitedQueue s) as [|it rest] eqn:Hq.
    + rewrite bool_decide_eq_true_2 in Hrun by done. injection Hrun as <- <-.
      exists new. done.
    + rewrite bool_decide_eq_false_2 in Hrun by done.
      pose proof (iteration_effect_optimized s) as Heff. rewrite Hq in Heff.
      destruct (iteration boardArray target s) as [s1|o1 s1].
      * destruct Heff as [_ [Hp|(k & Hk)]]; [done| |].
        -- eapply IH; [|exact Hrun]. eapply traced_passes; eauto.
        -- eapply IH; [|exact Hrun]. eapply traced_expands; eauto.
      * injection Hrun as <- <-.
        destruct Heff as [[Hp ->]|(k & Hk & Hsucc & _)]; [done| |].
        -- exists new. split; [eapply traced_passes; eauto|done].
        -- exists (new ++ [k]). split; [eapply traced_expands; eauto|].
           intros E. rewrite last_snoc, (Hsucc E). done.
Qed.

End OptimizedRun.

Section OptimizedRunTheorem.

Import PriorityQueue OptimizedAStar.

(** X14.  Whatever its arguments, [optimizedAStar] returns or raises a
    [TypeError] after at most four turns of its loop for every node and one
    more.  The cells it adds to [nodesToAnimate] are distinct, each is marked
    visited in the store, the first is the start and, on ["success!"], the
    last is the target. *)
Theorem optimizedAStar_animates_each_cell_once (nodes : NodeDict)
    (start target : option Id) (trace : list Id) (boardArray : Board) :
  ∃ o s new,
    optimizedAStar nodes start target trace boardArray = Some (o, s)
    ∧ nodesToAnimate s = trace ++ new ∧ NoDup new
    ∧ (∀ k, k ∈ new ↔ k ∈ visited s)
    ∧ (∀ k, k ∈ new → status <$> lookupNode (OptimizedAStar.nodes s) k = Some Visited)
    ∧ (∀ k, head new = Some k → start = Some k)
    ∧ (o = ReturnSuccess → ∃ tg, target = Some tg ∧ last new = Some tg).
Proof.
  assert (Hnone : ∀ o, o ≠ ReturnSuccess →
            ∃ o' s new, Some (o, mkState nodes [] ∅ trace) = Some (o', s)
              ∧ nodesToAnimate s = trace ++ new ∧ NoDup new
              ∧ (∀ k, k ∈ new ↔ k ∈ visited s)
              ∧ (∀ k, k ∈ new → status <$> lookupNode (OptimizedAStar.nodes s) k
                                = Some Visited)
              ∧ (∀ k, head new = Some k → start = Some k)
              ∧ (o' = ReturnSuccess → ∃ tg, target = Some tg ∧ last new = Some tg)).
  { intros o Ho. exists o, (mkState nodes [] ∅ trace), []. simpl.
    rewrite app_nil_r. split_and!; try done.
    - apply NoDup_nil_2.
    - intros k. rewrite elem_of_nil. split; [done|]. apply not_elem_of_empty.
    - intros k Hk. apply elem_of_nil in Hk. done. }
  unfold optimizedAStar. destruct start as [st|], target as [tg|]; try (apply Hnone; done).
  destruct (bool_decide (st = tg)); [apply Hnone; done|].
  destruct (lookupNode nodes st) as [n|]; [|apply Hnone; done].
  destruct (optimizedAStar_loop_total boardArray tg (4 * base.size (oget nodes) + 1)
              (initial nodes st trace)) as [[o s] Hrun].
  { unfold workLeft, initial. cbn [OptimizedAStar.nodes unvisitedQueue visited].
    rewrite length_enqueue, dom_mutate, difference_empty_L, size_dom. simpl. lia. }
  pose proof Hrun as Hrun'.
  eapply (optimizedAStar_loop_traced boardArray tg st trace _ _ []) in Hrun'
    as (new & (Ht & Hnd & Hvis & Hst & Hfirst) & Hlast).
  2: { unfold traced, initial. cbn [OptimizedAStar.nodes unvisitedQueue visited nodesToAnimate].
       rewrite app_nil_r. split_and!; try done.
         - apply NoDup_nil_2.
         - intros k. rewrite elem_of_nil. split; [done|]. apply not_elem_of_empty.
         - intros k Hk. apply elem_of_nil in Hk. done.
         - left. split; [done|]. left. unfold enqueue, bubbleUp. simpl.
           rewrite bubbleUp_loop_equation_1. done. }
  exists o, s, new. split_and!; try done.
  - intros k Hk. destruct Hfirst as [[-> _]|Hh]; [done|]. congruence.
  - intros Ho. exists tg. split; [done|]. apply Hlast. done.
Qed.

End OptimizedRunTheorem.

(** ** Two comparators that agree on the items of the queue *)

Section Comparators.

Import PriorityQueue.
Local Open Scope nat_scope.

Context {A : Type}.
Variables c1 c2 : Item A → Item A → Number.t.
Variable P : Item A → Prop.
Hypothesis Hagree : ∀ a b, P a → P b → c1 a b = c2 a b.

Lemma bubbleUp_loop_agree (idx : nat) :
  ∀ values element, Forall P values → P element →
    bubbleUp_loop c1 values idx element = bubbleUp_loop c2 values idx element.
Proof.
  induction idx as [idx IH] using lt_wf_ind. intros values element Hall He.
  destruct idx as [|j]; [rewrite !bubbleUp_loop_equation_1; done|].
  rewrite !bubbleUp_loop_equation_2. cbv zeta. pose proof (half_le j).
  destruct (values !! (j / 2)) as [parent|] eqn:Hparent; [|done].
  assert (P parent) by (eapply Forall_lookup_1; eauto).
  rewrite Hagree by done.
  destruct (Number.nonnegative (c2 element parent)); [done|].
  apply IH; [lia| |done]. apply Forall_insert; [|done]. apply Forall_insert; done.
Qed.

Lemma sinkDown_swap_agree (values : list (Item A)) (n idx : nat) (element : Item A) :
  Forall P values → P element →
  sinkDown_swap c1 values n idx element = sinkDown_swap c2 values n idx element.
Proof.
  intros Hall He. unfold sinkDown_swap.
  destruct (values !! (2 * idx + 1)) as [leftChild|] eqn:Hl;
    destruct (values !! (2 * idx + 2)) as [rightChild|] eqn:Hr.
  - assert (P leftChild) by (eapply Forall_lookup_1; eauto).
    assert (P rightChild) by (eapply Forall_lookup_1; eauto).
    rewrite (Hagree leftChild element), (Hagree rightChild element),
      (Hagree rightChild leftChild) by done. done.
  - assert (P leftChild) by (eapply Forall_lookup_1; eauto).
    rewrite (Hagree leftChild element) by done. done.
  - assert (P rightChild) by (eapply Forall_lookup_1; eauto).
    rewrite (Hagree rightChild element) by done. done.
  - done.
Qed.

Lemma sinkDown_loop_agree (m : nat) :
  ∀ values n idx element, n - idx ≤ m → Forall P values → P element →
    sinkDown_loop c1 values n idx element = sinkDown_loop c2 values n idx element.
Proof.
  induction m as [|m IH]; intros values n idx element Hm Hall He;
    rewrite (sinkDown_loop_turn c1), (sinkDown_loop_turn c2);
    rewrite (sinkDown_swap_agree values n idx element Hall He);
    pose proof (sinkDown_swap_bounds c2 values n idx element) as Hbounds;
    destruct (sinkDown_swap c2 values n idx element) as [sw|]; try done.
  { specialize (Hbounds sw eq_refl). lia. }
  specialize (Hbounds sw eq_refl).
  destruct (values !! sw) as [child|] eqn:Hsw; [|done].
  assert (P child) by (eapply Forall_lookup_1; eauto).
  apply IH; [lia| |done]. apply Forall_insert; [|done]. apply Forall_insert; done.
Qed.

Lemma enqueue_agree (values : list (Item A)) (x : A) (p : JS.Num) :
  Forall P values → P (mkItem x p) → enqueue c1 values x p = enqueue c2 values x p.
Proof.
  intros Hall Hx. unfold enqueue, bubbleUp. rewrite last_snoc.
  apply bubbleUp_loop_agree; [|done]. apply Forall_app. split; [done|]. constructor; done.
Qed.

Lemma dequeue_agree (values : list (Item A)) :
  Forall P values → dequeue c1 values = dequeue c2 values.
Proof.
  intros Hall. destruct values as [|top tl]; [done|]. rewrite !dequeue_cons.
  destruct (last (top :: tl)) as [end_|] eqn:Hlast; [|done].
  destruct (take (length (top :: tl) - 1) (top :: tl)) as [|x rest] eqn:Htake; [done|].
  f_equal. unfold sinkDown.
  assert (P end_).
  { apply last_Some_elem_of in Hlast. rewrite Forall_forall in Hall. auto. }
  apply (sinkDown_loop_agree (length (end_ :: rest))); [lia| |done].
  constructor; [done|].
  assert (Hsub : Forall P (take (length (top :: tl) - 1) (top :: tl))) by (apply Forall_take; done).
  rewrite Htake in Hsub. inversion Hsub. done.
Qed.

End Comparators.

Section Cheapest.

Import Improved.

Variable boardArray : Board.
(** The grid passed to [astar], the start and the target. *)
Variable nodes0 : NodeDict.
Variables st tg : Id.

Hypothesis Hids : ids_match nodes0.
Hypothesis Hfresh : fresh_costs nodes0.
Hypothesis Hunrelaxed : unrelaxed nodes0.
Hypothesis Hboard : board_has_nodes boardArray nodes0.
Hypothesis Hkeys : keys_listed nodes0.
Hypothesis Hstart : ∃ n, lookupNode nodes0 st = Some n ∧ status n ≠ Wall.
Hypothesis Htarget : is_Some (lookupNode nodes0 tg).

Local Abbreviation Route := (route boardArray nodes0 st).
Local Abbreviation Edge := (edge boardArray nodes0).

Lemma weightOf_nonneg (k : Id) : 0 ≤ weightOf nodes0 k.
Proof.
  unfold weightOf. destruct (lookupNode nodes0 k) as [n|] eqn:Hn; [|done].
  apply (Hfresh k n Hn).
Qed.

Lemma route_nonneg (k : Id) (c : Z) : Route k c → 0 ≤ c.
Proof.
  induction 1 as [|b k c _ IH _]; [done|]. pose proof (weightOf_nonneg k). lia.
Qed.

(** The heuristic falls by at most one per move. *)
Lemma edge_heuristic (b k : Id) : Edge b k → manhattan b tg ≤ manhattan k tg + 1.
Proof.
  intros (d & n & Hd & -> & _). unfold manhattan, cardinal in *. simpl.
  rewrite !elem_of_cons, elem_of_nil in Hd.
  destruct Hd as [-> | [-> | [-> | [-> | []]]]]; simpl; lia.
Qed.

(** The record left by one relaxation attempt from a cell with the finite
    cost [gu]. *)
Lemma relaxed_shape (uN vN tgN : Node) (gu : Z) :
  distance uN = JS.Fin gu → id tgN = tg →
  let R := relaxed manhattanDistance calculateNodeDistance uN vN tgN in
  let cand := gu + weight vN + 1 in
  let heur := if JS.falsy (heuristicDistance vN)
              then JS.Val (manhattan (id vN) tg) else heuristicDistance vN in
  id R = id vN ∧ status R = status vN ∧ weight R = weight vN
  ∧ heuristicDistance R = heur
  ∧ ((JS.ltb (JS.Fin cand) (distance vN) = true
      ∧ distance R = JS.Fin cand
      ∧ totalDistance R = JS.add (JS.Fin cand) (JS.toNumber heur)
      ∧ previousNode R = Some (id uN))
     ∨ (JS.ltb (JS.Fin cand) (distance vN) = false
        ∧ distance R = distance vN
        ∧ totalDistance R = totalDistance vN
        ∧ previousNode R = previousNode vN)).
Proof.
  intros Hgu Htg. cbv zeta.
  unfold relaxed, candidate, withHeuristic, manhattanDistance.
  rewrite calculateNodeDistance_cost, Hgu, Htg.
  change (JS.add (JS.add (JS.Fin gu) (JS.Fin (weight vN))) (JS.Fin 1))
    with (JS.Fin (gu + weight vN + 1)).
  destruct (JS.falsy (heuristicDistance vN)) eqn:Hf;
    destruct (JS.ltb (JS.Fin (gu + weight vN + 1)) (distance vN)) eqn:Hlt;
    split_and!; try done; auto.
Qed.

(** What the search knows while the cells of [C] are closed, [u] is the
    cell being expanded and [todo] are its neighbours still to relax. *)
Record good (C : list Id) (u : Id) (todo : list Id) (nodes : NodeDict) : Prop := {
  good_dom : ∀ k, is_Some (lookupNode nodes k) ↔ is_Some (lookupNode nodes0 k);
  good_same : ∀ k n n0, lookupNode nodes k = Some n → lookupNode nodes0 k = Some n0 →
      id n = k ∧ weight n = weight n0 ∧ (status n = Wall ↔ status n0 = Wall);
  good_start : ∃ n, lookupNode nodes st = Some n ∧ distance n = JS.Fin 0
                    ∧ totalDistance n = JS.Fin 0 ∧ previousNode n = None;
  good_cost : ∀ k n, lookupNode nodes k = Some n → k ≠ st →
      match distance n with
      | JS.Fin g =>
          Route k g ∧ totalDistance n = JS.Fin (g + manhattan k tg)
          ∧ heuristicDistance n = JS.Val (manhattan k tg)
          ∧ ∃ p pn gp, previousNode n = Some p ∧ p ∈ C
                       ∧ lookupNode nodes p = Some pn ∧ distance pn = JS.Fin gp
                       ∧ g = gp + 1 + weight n ∧ Edge p k
      | JS.Infinity =>
          totalDistance n = JS.Infinity ∧ JS.falsy (heuristicDistance n) = true
          ∧ previousNode n = None
      | JS.NaN => False
      end;
  good_closed : ∀ k, k ∈ C →
      ∃ n g, lookupNode nodes k = Some n ∧ distance n = JS.Fin g ∧ status n ≠ Wall
             ∧ ∀ c, Route k c → g ≤ c;
  good_expanded : ∀ k v, k ∈ C → Edge k v →
      (k = u ∧ v ∈ todo)
      ∨ ∃ kn vn gk gv, lookupNode nodes k = Some kn ∧ lookupNode nodes v = Some vn
                       ∧ distance kn = JS.Fin gk ∧ distance vn = JS.Fin gv
                       ∧ gv ≤ gk + 1 + weight vn;
  good_first : C = [] ∨ st ∈ C
}.

Lemma good_route (C : list Id) (u : Id) (todo : list Id) (nodes : NodeDict)
    (k : Id) (n : Node) (g : Z) :
  good C u todo nodes → lookupNode nodes k = Some n → distance n = JS.Fin g → Route k g.
Proof.
  intros HG Hk Hg. destruct (decide (k = st)) as [->|Hne].
  - destruct (good_start _ _ _ _ HG) as (n' & Hn' & Hd & _).
    assert (n' = n) as -> by congruence. rewrite Hd in Hg. injection Hg as <-. constructor.
  - pose proof (good_cost _ _ _ _ HG k n Hk Hne) as Hc. rewrite Hg in Hc. apply Hc.
Qed.

Lemma good_weight (C : list Id) (u : Id) (todo : list Id) (nodes : NodeDict)
    (k : Id) (n : Node) :
  good C u todo nodes → lookupNode nodes k = Some n → weight n = weightOf nodes0 k ∧ id n = k.
Proof.
  intros HG Hk. destruct (proj1 (good_dom _ _ _ _ HG k)) as [n0 Hn0]; [eauto|].
  destruct (good_same _ _ _ _ HG k n n0 Hk Hn0) as (? & ? & _).
  unfold weightOf. rewrite Hn0. done.
Qed.

(** The store in which the loop starts. *)
Lemma good_initial : good [] st [] (initializeStartNode nodes0 st).
Proof.
  destruct Hstart as (sN & HsN & _).
  split.
  - intros k. apply lookupNode_initializeStartNode.
  - intros k n n0 Hn Hn0. unfold initializeStartNode in Hn.
    rewrite lookupNode_mutate, Hn0 in Hn. pose proof (Hids k n0 Hn0) as Hid.
    destruct (decide (st = k)); simpl in Hn; injection Hn as <-; simpl; done.
  - unfold initializeStartNode. rewrite lookupNode_mutate, decide_True, HsN by done.
    simpl. eexists. split_and!; try done. apply (Hunrelaxed st sN HsN).
  - intros k n Hn Hne. unfold initializeStartNode in Hn.
    rewrite lookupNode_mutate, decide_False in Hn by done.
    destruct (Hfresh k n Hn) as (-> & -> & _).
    destruct (Hunrelaxed k n Hn) as [-> ->]. done.
  - intros k Hk. inversion Hk.
  - intros k v Hk. inversion Hk.
  - left. done.
Qed.

Lemma edge_ne (a b : Id) : Edge a b → a ≠ b.
Proof.
  intros (d & n & Hd & -> & _) E. unfold cardinal in Hd.
  rewrite !elem_of_cons, elem_of_nil in Hd. destruct a as [x y]. simpl in E.
  destruct Hd as [-> | [-> | [-> | [-> | []]]]]; simpl in E; injection E; lia.
Qed.

Lemma good_target (C : list Id) (u : Id) (todo : list Id) (nodes : NodeDict) :
  good C u todo nodes → ∃ tgN, lookupNode nodes tg = Some tgN ∧ id tgN = tg.
Proof.
  intros HG. destruct (proj2 (good_dom _ _ _ _ HG tg) Htarget) as [tgN HtgN].
  exists tgN. split; [done|]. apply (good_weight _ _ _ _ _ _ HG HtgN).
Qed.

Lemma good_finite (C : list Id) (u : Id) (todo : list Id) (nodes : NodeDict)
    (k : Id) (n : Node) :
  good C u todo nodes → lookupNode nodes k = Some n → distance n ≠ JS.NaN.
Proof.
  intros HG Hk E. destruct (decide (k = st)) as [->|Hne].
  - destruct (good_start _ _ _ _ HG) as (n' & Hn' & Hd & _). congruence.
  - pose proof (good_cost _ _ _ _ HG k n Hk Hne) as Hc. rewrite E in Hc. done.
Qed.

(** One relaxation attempt from the closed cell [u] on its neighbour [v]. *)
Lemma relax1_good (C : list Id) (u v : Id) (todo : list Id) (nodes : NodeDict) :
  good C u (v :: todo) nodes → u ∈ C → Edge u v →
  good C u todo (relax1 tg u v nodes).
Proof.
  intros HG Hu He.
  destruct (good_closed _ _ _ _ HG u Hu) as (uN & gu & HuN & Hgu & HuW & Huopt).
  pose proof He as (d & v0 & Hd & Hv & Hin & Hv0 & Hv0W).
  destruct (proj2 (good_dom _ _ _ _ HG v)) as [vN HvN]; [eauto|].
  destruct (good_target _ _ _ _ HG) as (tgN & HtgN & Hidtg).
  destruct (good_weight _ _ _ _ _ _ HG HvN) as [Hwv Hidv].
  destruct (good_weight _ _ _ _ _ _ HG HuN) as [_ Hidu].
  pose proof (edge_ne _ _ He) as Huv.
  pose proof (good_route _ _ _ _ _ _ _ HG HuN Hgu) as Hru.
  pose proof (route_nonneg _ _ Hru) as Hgu0.
  pose proof (weightOf_nonneg v) as Hw0.
  assert (Hrv : Route v (gu + 1 + weightOf nodes0 v)) by (eapply route_step; eauto).
  unfold relax1. rewrite HuN, HvN, HtgN.
  set (R := relaxed manhattanDistance calculateNodeDistance uN vN tgN).
  destruct (relaxed_shape uN vN tgN gu Hgu Hidtg) as (Rid & Rst & Rw & Rh & Rcase).
  fold R in Rid, Rst, Rw, Rh, Rcase. rewrite Hidv in Rh, Rcase. rewrite Hidu in Rcase.
  (* a closed neighbour and the start cell are not rewritten *)
  assert (Hkeep : v ∈ C ∨ v = st → JS.ltb (JS.Fin (gu + weight vN + 1)) (distance vN) = false).
  { intros [HvC| ->].
    - destruct (good_closed _ _ _ _ HG v HvC) as (vN' & gv & HvN' & Hgv & _ & Hopt).
      assert (vN' = vN) as -> by congruence. rewrite Hgv. simpl.
      apply Z.ltb_ge. specialize (Hopt _ Hrv). lia.
    - destruct (good_start _ _ _ _ HG) as (sN & HsN & Hd0 & _).
      assert (sN = vN) as -> by congruence. rewrite Hd0. simpl. apply Z.ltb_ge. lia. }
  assert (Hlook : ∀ k, lookupNode (mutate (λ _, R) v nodes) k
                       = if decide (v = k) then Some R else lookupNode nodes k).
  { intros k. rewrite lookupNode_mutate. destruct (decide (v = k)) as [<-|]; [|done].
    rewrite HvN. done. }
  (* every cost stays or falls; the cost of a closed cell stays *)
  assert (Hafter : ∀ k n g, lookupNode nodes k = Some n → distance n = JS.Fin g →
            ∃ n' g', lookupNode (mutate (λ _, R) v nodes) k = Some n'
                     ∧ distance n' = JS.Fin g' ∧ g' ≤ g ∧ weight n' = weight n
                     ∧ status n' = status n ∧ (k ∈ C → g' = g)).
  { intros k n g Hk Hg. rewrite Hlook. destruct (decide (v = k)) as [<-|].
    - assert (n = vN) as -> by congruence.
      destruct Rcase as [(Hlt & Rd & _)|(Hlt & Rd & _)].
      + exists R, (gu + weight vN + 1). split_and!; try done.
        * rewrite Hg in Hlt. simpl in Hlt. apply Z.ltb_lt in Hlt. lia.
        * intros HvC. rewrite Hkeep in Hlt by auto. done.
      + exists R, g. split_and!; try done. congruence.
    - exists n, g. split_and!; try done. }
  split.
  - intros k. rewrite Hlook. destruct (decide (v = k)) as [<-|]; [|apply (good_dom _ _ _ _ HG)].
    split; intros _; eauto.
  - intros k n n0 Hn Hn0. rewrite Hlook in Hn. destruct (decide (v = k)) as [<-|].
    + injection Hn as <-. rewrite Rid, Rst, Rw.
      apply (good_same _ _ _ _ HG v vN n0 HvN Hn0).
    + apply (good_same _ _ _ _ HG k n n0 Hn Hn0).
  - destruct (good_start _ _ _ _ HG) as (sN & HsN & Hd0 & Ht0 & Hp0).
    rewrite Hlook. destruct (decide (v = st)) as [->|]; [|eauto].
    assert (sN = vN) as -> by congruence.
    destruct Rcase as [(Hlt & _)|(_ & Rd & Rt & Rp)].
    { rewrite Hkeep in Hlt by auto. done. }
    exists R. split_and!; congruence.
  - intros k n Hn Hne. rewrite Hlook in Hn. destruct (decide (v = k)) as [<-|Hvk].
    + injection Hn as <-.
      pose proof (good_cost _ _ _ _ HG v vN HvN Hne) as Hold.
      assert (Hheur : heuristicDistance R = JS.Val (manhattan v tg)).
      { rewrite Rh. destruct (JS.falsy (heuristicDistance vN)) eqn:Hf; [done|].
        destruct (distance vN); [apply Hold| |done].
        destruct Hold as (_ & Hf' & _). congruence. }
      destruct Rcase as [(Hlt & Rd & Rt & Rp)|(Hlt & Rd & Rt & Rp)].
      * rewrite Rd. split_and!.
        -- replace (gu + weight vN + 1) with (gu + 1 + weightOf nodes0 v) by lia. done.
        -- rewrite Rt, <- Rh, Hheur. simpl. done.
        -- done.
        -- exists u, uN, gu. rewrite Hlook, decide_False by (intros E; apply Huv; done).
           split_and!; try done. lia.
      * rewrite Rd. destruct (distance vN) as [g| |] eqn:Hdv; [| |done].
        -- destruct Hold as (Hr & Ht & _ & p & pn & gp & Hp & HpC & Hpn & Hgp & Hg & Hpe).
           split_and!; try done; [congruence|].
           exists p, pn, gp. rewrite Hlook.
           rewrite decide_False by (intros E; apply (edge_ne _ _ Hpe); done).
           split_and!; try done; congruence.
        -- simpl in Hlt. done.
    + pose proof (good_cost _ _ _ _ HG k n Hn Hne) as Hold.
      destruct (distance n) as [g| |]; [|done|done].
      destruct Hold as (Hr & Ht & Hh & p & pn & gp & Hp & HpC & Hpn & Hgp & Hg & Hpe).
      split_and!; try done.
      destruct (Hafter p pn gp Hpn Hgp) as (pn' & gp' & Hpn' & Hgp' & _ & _ & _ & Heq).
      exists p, pn', gp'. split_and!; try done. rewrite (Heq HpC). done.
  - intros k Hk.
    destruct (good_closed _ _ _ _ HG k Hk) as (n & g & Hn & Hg & Hw & Hopt).
    destruct (Hafter k n g Hn Hg) as (n' & g' & Hn' & Hg' & _ & _ & Hs & Heq).
    exists n', g'. split_and!; try done; [congruence|]. rewrite (Heq Hk). done.
  - intros k w Hk Hkw.
    assert (Hnow : k = u → w = v →
              ∃ kn vn gk gv, lookupNode (mutate (λ _, R) v nodes) k = Some kn
                ∧ lookupNode (mutate (λ _, R) v nodes) w = Some vn
                ∧ distance kn = JS.Fin gk ∧ distance vn = JS.Fin gv
                ∧ gv ≤ gk + 1 + weight vn).
    { intros -> ->. rewrite !Hlook. rewrite decide_False by (intros E; apply Huv; done).
      rewrite decide_True by done.
      destruct Rcase as [(Hlt & Rd & _)|(Hlt & Rd & _)].
      - exists uN, R, gu, (gu + weight vN + 1). split_and!; try done. lia.
      - destruct (distance vN) as [gv| |] eqn:Hdv.
        + exists uN, R, gu, gv. split_and!; try done.
          simpl in Hlt. apply Z.ltb_ge in Hlt. lia.
        + simpl in Hlt. done.
        + destruct (good_finite _ _ _ _ _ _ HG HvN Hdv). }
    destruct (good_expanded _ _ _ _ HG k w Hk Hkw)
      as [[-> Hin']|(kn & vn & gk & gv & Hkn & Hvn & Hgk & Hgv & Hle)].
    + apply elem_of_cons in Hin' as [->|Hin']; [right; auto|left; done].
    + right.
      destruct (Hafter k kn gk Hkn Hgk) as (kn' & gk' & Hkn' & Hgk' & _ & _ & _ & Heq).
      destruct (Hafter w vn gv Hvn Hgv) as (vn' & gv' & Hvn' & Hgv' & Hle' & Hw' & _).
      exists kn', vn', gk', gv'. split_and!; try done. rewrite (Heq Hk), Hw'. lia.
  - apply (good_first _ _ _ _ HG).
Qed.

Lemma relax_all_good (C : list Id) (u : Id) (vs : list Id) :
  u ∈ C → ∀ nodes, (∀ v, v ∈ vs → Edge u v) → good C u vs nodes →
  good C u [] (foldl (λ nd nb, relax1 tg u nb nd) nodes vs).
Proof.
  intros Hu. induction vs as [|v vs IH]; intros nodes He HG; simpl; [done|].
  apply IH.
  - intros w Hw. apply He. right. done.
  - apply relax1_good; [done..|]. apply He. left.
Qed.

(** Two records that differ in nothing the search reads but the status,
    and not in being a wall. *)
Definition same_costs (n n' : Node) : Prop :=
  id n' = id n ∧ weight n' = weight n ∧ distance n' = distance n
  ∧ totalDistance n' = totalDistance n ∧ heuristicDistance n' = heuristicDistance n
  ∧ previousNode n' = previousNode n ∧ (status n' = Wall ↔ status n = Wall).

Lemma good_ext (C : list Id) (u : Id) (todo : list Id) (nodes nodes' : NodeDict) :
  (∀ k, option_Forall2 same_costs (lookupNode nodes k) (lookupNode nodes' k)) →
  good C u todo nodes → good C u todo nodes'.
Proof.
  intros Hsame HG.
  assert (Hto : ∀ k n, lookupNode nodes k = Some n →
            ∃ n', lookupNode nodes' k = Some n' ∧ same_costs n n').
  { intros k n Hn. specialize (Hsame k). rewrite Hn in Hsame.
    inversion Hsame; subst. eauto. }
  assert (Hfrom : ∀ k n', lookupNode nodes' k = Some n' →
            ∃ n, lookupNode nodes k = Some n ∧ same_costs n n').
  { intros k n' Hn'. specialize (Hsame k). rewrite Hn' in Hsame.
    inversion Hsame; subst. eauto. }
  split.
  - intros k. rewrite <- (good_dom _ _ _ _ HG k). specialize (Hsame k).
    split; intros [x Hx]; rewrite Hx in Hsame; inversion Hsame; eauto.
  - intros k n' n0 Hn' Hn0. destruct (Hfrom k n' Hn') as (n & Hn & Hi & Hw & _ & _ & _ & _ & Hs).
    destruct (good_same _ _ _ _ HG k n n0 Hn Hn0) as (? & ? & ?).
    split_and!; [congruence|congruence|]. rewrite Hs. done.
  - destruct (good_start _ _ _ _ HG) as (n & Hn & Hd & Ht & Hp).
    destruct (Hto st n Hn) as (n' & Hn' & _ & _ & Hd' & Ht' & _ & Hp' & _).
    exists n'. split_and!; congruence.
  - intros k n' Hn' Hne.
    destruct (Hfrom k n' Hn') as (n & Hn & _ & Hw & Hd & Ht & Hh & Hp & _).
    pose proof (good_cost _ _ _ _ HG k n Hn Hne) as Hold.
    rewrite Hd, Ht, Hh, Hp, Hw. destruct (distance n) as [g| |]; [|done|done].
    destruct Hold as (Hr & Ht' & Hh' & p & pn & gp & Hp' & HpC & Hpn & Hgp & Hg & Hpe).
    split_and!; try done.
    destruct (Hto p pn Hpn) as (pn' & Hpn' & _ & _ & Hd' & _).
    exists p, pn', gp. split_and!; try done. congruence.
  - intros k Hk. destruct (good_closed _ _ _ _ HG k Hk) as (n & g & Hn & Hg & Hw & Hopt).
    destruct (Hto k n Hn) as (n' & Hn' & _ & _ & Hd' & _ & _ & _ & Hs).
    exists n', g. split_and!; try done; [congruence|]. rewrite Hs. done.
  - intros k v Hk Hkv.
    destruct (good_expanded _ _ _ _ HG k v Hk Hkv)
      as [?|(kn & vn & gk & gv & Hkn & Hvn & Hgk & Hgv & Hle)]; [left; done|right].
    destruct (Hto k kn Hkn) as (kn' & Hkn' & _ & _ & Hdk & _).
    destruct (Hto v vn Hvn) as (vn' & Hvn' & _ & Hwv & Hdv & _).
    exists kn', vn', gk, gv. split_and!; try done; congruence.
  - apply (good_first _ _ _ _ HG).
Qed.

(** Closing a cell whose cost is the cost of a cheapest route. *)
Lemma good_add (C : list Id) (u : Id) (nodes : NodeDict) (ref : Id) (cur : Node) (g : Z)
    (todo : list Id) :
  good C u [] nodes → lookupNode nodes ref = Some cur → status cur ≠ Wall →
  distance cur = JS.Fin g → (∀ c, Route ref c → g ≤ c) →
  (∀ v, Edge ref v → v ∈ todo) →
  good (ref :: C) ref todo nodes.
Proof.
  intros HG Hcur Hw Hg Hopt Htodo. split.
  - apply (good_dom _ _ _ _ HG).
  - apply (good_same _ _ _ _ HG).
  - apply (good_start _ _ _ _ HG).
  - intros k n Hn Hne. pose proof (good_cost _ _ _ _ HG k n Hn Hne) as Hold.
    destruct (distance n) as [gk| |]; [|done|done].
    destruct Hold as (Hr & Ht' & Hh' & p & pn & gp & Hp' & HpC & Hrest).
    split_and!; try done. exists p, pn, gp. split_and!; try apply Hrest; try done.
    right. done.
  - intros k Hk. apply elem_of_cons in Hk as [->|Hk].
    + exists cur, g. done.
    + apply (good_closed _ _ _ _ HG k Hk).
  - intros k v Hk Hkv. apply elem_of_cons in Hk as [->|Hk].
    + left. split; [done|]. apply Htodo. done.
    + destruct (good_expanded _ _ _ _ HG k v Hk Hkv) as [[_ Hin]|?]; [|right; done].
      apply elem_of_nil in Hin. done.
  - right. destruct (decide (ref = st)) as [->|Hne]; [left|].
    pose proof (good_cost _ _ _ _ HG ref cur Hcur Hne) as Hold. rewrite Hg in Hold.
    destruct Hold as (_ & _ & _ & p & pn & gp & _ & HpC & _).
    destruct (good_first _ _ _ _ HG) as [->|Hst]; [|right; done].
    apply elem_of_nil in HpC. done.
Qed.

Lemma manhattan_nonneg (a b : Id) : 0 ≤ manhattan a b.
Proof. unfold manhattan. lia. Qed.

(** Every route either ends in a closed cell or passes a cell that is still
    open and whose [totalDistance] is no more than the cost of the route and
    the heuristic of its end. *)
Lemma frontier (C : list Id) (u : Id) (nodes : NodeDict) :
  good C u [] nodes → ∀ k c, Route k c →
  k ∈ C ∨ ∃ y yn f, (y ∉ C) ∧ lookupNode nodes y = Some yn ∧ status yn ≠ Wall
                     ∧ totalDistance yn = JS.Fin f ∧ f ≤ c + manhattan k tg.
Proof.
  intros HG k c Hr. induction Hr as [|b k c Hr IH He].
  - destruct (decide (st ∈ C)) as [|Hno]; [left; done|right].
    destruct (good_start _ _ _ _ HG) as (n & Hn & Hd & Ht & _).
    destruct Hstart as (n0 & Hn0 & Hw0).
    exists st, n, 0. split_and!; try done.
    + rewrite (proj2 (proj2 (good_same _ _ _ _ HG st n n0 Hn Hn0))). done.
    + pose proof (manhattan_nonneg st tg). lia.
  - destruct (decide (k ∈ C)) as [|Hno]; [left; done|right].
    pose proof (edge_heuristic _ _ He) as Hh.
    pose proof (weightOf_nonneg k) as Hw0.
    destruct IH as [Hb|(y & yn & f & Hy & Hyn & Hyw & Hf & Hle)].
    2: { exists y, yn, f. split_and!; try done. lia. }
    destruct (good_expanded _ _ _ _ HG b k Hb He)
      as [[_ Hin]|(bn & kn & gb & gk & Hbn & Hkn & Hgb & Hgk & Hle)].
    { apply elem_of_nil in Hin. done. }
    destruct (good_closed _ _ _ _ HG b Hb) as (bn' & gb' & Hbn' & Hgb' & _ & Hopt).
    assert (bn' = bn) as -> by congruence.
    assert (gb' = gb) as -> by congruence.
    specialize (Hopt _ Hr).
    destruct (good_weight _ _ _ _ _ _ HG Hkn) as [Hwk _].
    destruct He as (d & n0 & _ & _ & _ & Hn0 & Hw0').
    assert (Hkw : status kn ≠ Wall).
    { rewrite (proj2 (proj2 (good_same _ _ _ _ HG k kn n0 Hkn Hn0))). done. }
    pose proof (route_nonneg _ _ Hr) as Hc0.
    pose proof (manhattan_nonneg k tg) as Hm0.
    destruct (decide (k = st)) as [->|Hne].
    + destruct (good_start _ _ _ _ HG) as (n & Hn & _ & Ht & _).
      assert (n = kn) as -> by congruence.
      exists st, kn, 0. split_and!; try done. lia.
    + pose proof (good_cost _ _ _ _ HG k kn Hkn Hne) as Hcost. rewrite Hgk in Hcost.
      destruct Hcost as (_ & Ht & _).
      exists k, kn, (gk + manhattan k tg). split_and!; try done. lia.
Qed.

(** The cell [findClosestNode] hands back holds the cost of a cheapest
    route to it. *)
Lemma picked_optimal (C : list Id) (u : Id) (nodes : NodeDict)
    (unvisited unvisited' : list Id) (ref : Id) (cur : Node) (g : Z) :
  good C u [] nodes →
  (∀ k, is_Some (lookupNode nodes0 k) → k ∈ C ∨ k ∈ unvisited) →
  findClosestNode nodes unvisited = JS.Ok (Some ref, unvisited') →
  lookupNode nodes ref = Some cur → distance cur = JS.Fin g →
  ∀ c, Route ref c → g ≤ c.
Proof.
  intros HG Hpart Hfind Hcur Hg c Hr.
  apply improved_findClosestNode_selected in Hfind
    as (index & cur' & _ & _ & Hcur' & _ & Hlow).
  assert (cur' = cur) as -> by congruence.
  destruct (frontier _ _ _ HG _ _ Hr) as [HrefC|(y & yn & f & Hy & Hyn & Hyw & Hf & Hle)].
  { destruct (good_closed _ _ _ _ HG ref HrefC) as (n & g' & Hn & Hg' & _ & Hopt).
    assert (n = cur) as -> by congruence. assert (g' = g) as -> by congruence.
    apply Hopt. done. }
  assert (HyU : y ∈ unvisited).
  { destruct (Hpart y); [|done|done]. apply (good_dom _ _ _ _ HG). eauto. }
  destruct (Hlow y yn HyU Hyn) as [Hgt _].
  { apply bool_decide_eq_false_2. done. }
  pose proof (route_nonneg _ _ Hr) as Hc0.
  destruct (decide (ref = st)) as [->|Hne].
  - destruct (good_start _ _ _ _ HG) as (n & Hn & Hd & _).
    assert (n = cur) as -> by congruence. assert (g = 0) as -> by congruence. done.
  - pose proof (good_cost _ _ _ _ HG ref cur Hcur Hne) as Hcost. rewrite Hg in Hcost.
    destruct Hcost as (_ & Ht & _). rewrite Ht, Hf in Hgt. simpl in Hgt.
    unfold JS.gtb in Hgt. simpl in Hgt. lia.
Qed.

(** The states of the loop before the target is closed, and the states in
    which it is. *)
Definition searching (s : State) : Prop :=
  ∃ C u, good C u [] (nodes s) ∧ (tg ∉ C)
         ∧ (∀ k, is_Some (lookupNode nodes0 k) → k ∈ C ∨ k ∈ unvisitedNodes s)
         ∧ (∀ k, k ∈ unvisitedNodes s → is_Some (lookupNode nodes0 k)).

Definition found (nodes : NodeDict) : Prop :=
  ∃ C u todo, good C u todo nodes ∧ tg ∈ C.

Lemma searching_frontier (s : State) (c : Z) :
  searching s → Route tg c →
  ∃ y yn f, y ∈ unvisitedNodes s ∧ lookupNode (nodes s) y = Some yn
            ∧ status yn ≠ Wall ∧ totalDistance yn = JS.Fin f.
Proof.
  intros (C & u & HG & HtgC & Hpart & _) Hr.
  destruct (frontier _ _ _ HG _ _ Hr) as [?|(y & yn & f & Hy & Hyn & Hyw & Hf & _)]; [done|].
  exists y, yn, f. split_and!; try done.
  destruct (Hpart y); [|done|done]. apply (good_dom _ _ _ _ HG). eauto.
Qed.

(** Closing the cell [ref]: what marking it visited and reading its
    neighbours gives. *)
Lemma good_visit (C : list Id) (u : Id) (nodes : NodeDict) (ref : Id) (cur : Node) (g : Z) :
  good C u [] nodes → lookupNode nodes ref = Some cur → status cur ≠ Wall →
  distance cur = JS.Fin g → (∀ c, Route ref c → g ≤ c) →
  let nodes2 := mutate (set_status Visited) ref nodes in
  (∀ k, option_Forall2 same_costs (lookupNode nodes k) (lookupNode nodes2 k))
  ∧ getNeighbors ref nodes2 boardArray = JS.Ok (neighborsOf boardArray nodes2 ref)
  ∧ (∀ v, Edge ref v ↔ v ∈ neighborsOf boardArray nodes2 ref)
  ∧ good (ref :: C) ref (neighborsOf boardArray nodes2 ref) nodes2.
Proof.
  intros HG Hcur Hskip Hg Hopt nodes2.
  assert (Hsame : ∀ k, option_Forall2 same_costs (lookupNode nodes k) (lookupNode nodes2 k)).
  { intros k. unfold nodes2. rewrite lookupNode_mutate.
    destruct (decide (ref = k)) as [<-|].
    - rewrite Hcur. constructor. unfold same_costs. simpl. split_and!; try done.
    - destruct (lookupNode nodes k); constructor. unfold same_costs. done. }
  assert (Hboard2 : ∀ i j, inBoard boardArray i j = true → is_Some (lookupNode nodes2 (i, j))).
  { intros i j Hin. specialize (Hsame (i, j)).
    destruct (proj2 (good_dom _ _ _ _ HG (i, j)) (Hboard i j Hin)) as [n Hn].
    rewrite Hn in Hsame. inversion Hsame. eauto. }
  assert (Hedges : ∀ v, Edge ref v ↔ v ∈ neighborsOf boardArray nodes2 ref).
  { intros v. rewrite (elem_of_neighborsOf boardArray nodes2 ref v Hboard2).
    unfold edge. split; intros (d & n & Hd & Hv & Hin & Hn & Hw); exists d.
    - destruct (proj2 (good_dom _ _ _ _ HG v)) as [n1 Hn1]; [eauto|].
      pose proof (Hsame v) as Hv2. rewrite Hn1 in Hv2. inversion Hv2 as [? n2 Hs2 E1 E2|].
      exists n2. split_and!; try done.
      destruct Hs2 as (_ & _ & _ & _ & _ & _ & Hs2). rewrite Hs2.
      rewrite (proj2 (proj2 (good_same _ _ _ _ HG v n1 n Hn1 Hn))). done.
    - pose proof (Hsame v) as Hv2. rewrite Hn in Hv2. inversion Hv2 as [n1 ? Hs2 E1 E2|].
      symmetry in E1.
      destruct (proj1 (good_dom _ _ _ _ HG v)) as [n0 Hn0]; [eauto|].
      exists n0. split_and!; try done.
      destruct Hs2 as (_ & _ & _ & _ & _ & _ & Hs2).
      rewrite <- (proj2 (proj2 (good_same _ _ _ _ HG v n1 n0 E1 Hn0))), <- Hs2. done. }
  split_and!; try done.
  - apply getNeighbors_exact. done.
  - apply (good_ext _ _ _ nodes); [done|].
    apply (good_add C u nodes ref cur g); try done. intros v. apply Hedges.
Qed.

(** One turn of the loop. *)
Lemma iteration_searching (s : State) :
  searching s →
  match iteration manhattanDistance boardArray tg s with
  | Next s' => searching s'
  | Stop ReturnSuccess s' => found (nodes s')
  | Stop _ _ => ¬ ∃ c, Route tg c
  end.
Proof.
  intros Hs. pose proof Hs as (C & u & HG & HtgC & Hpart & Hsub).
  unfold iteration.
  destruct (findClosestNode (nodes s) (unvisitedNodes s)) as [[r unv1]|] eqn:Hf.
  2: { exfalso.
       destruct (improved_findClosestNode_total (nodes s) (unvisitedNodes s)) as [r Hr].
       - intros k Hk. apply (good_dom _ _ _ _ HG). auto.
       - congruence. }
  pose proof (improved_findClosestNode_selected _ _ _ _ Hf) as Hsel.
  destruct r as [ref|].
  2: { intros (c & Hr). destruct Hsel as [_ Hall].
       destruct (searching_frontier s c Hs Hr) as (y & yn & f & Hy & Hyn & Hyw & _).
       destruct (Hall y Hy) as (n & Hn & Hskip). apply bool_decide_eq_true in Hskip.
       congruence. }
  destruct Hsel as (index & cur & Hidx & Hunv & Hcur & Hskip & Hlow).
  rewrite Hcur. apply bool_decide_eq_false in Hskip. rewrite decide_False by done.
  destruct (distance cur) as [g| |] eqn:Hg.
  3: { destruct (good_finite _ _ _ _ _ _ HG Hcur Hg). }
  2: { simpl. intros (c & Hr).
       destruct (searching_frontier s c Hs Hr) as (y & yn & f & Hy & Hyn & Hyw & Hfy).
       destruct (Hlow y yn Hy Hyn) as [Hgt _]; [apply bool_decide_eq_false_2; done|].
       destruct (decide (ref = st)) as [->|Hne].
       - destruct (good_start _ _ _ _ HG) as (n & Hn & Hd & _). congruence.
       - pose proof (good_cost _ _ _ _ HG ref cur Hcur Hne) as Hcost. rewrite Hg in Hcost.
         destruct Hcost as (Ht & _). rewrite Ht, Hfy in Hgt. done. }
  simpl.
  pose proof (picked_optimal _ _ _ _ _ _ _ _ HG Hpart Hf Hcur Hg) as Hopt.
  destruct (good_weight _ _ _ _ _ _ HG Hcur) as [_ Hid]. rewrite Hid.
  destruct (good_visit C u (nodes s) ref cur g HG Hcur Hskip Hg Hopt)
    as (Hsame & Hnbs & Hedges & HG2).
  set (nodes2 := mutate (set_status Visited) ref (nodes s)) in *.
  destruct (decide (ref = tg)) as [->|Hne].
  { exists (tg :: C), tg, (neighborsOf boardArray nodes2 tg). split; [done|left]. }
  unfold updateNeighbors. simpl. fold nodes2.
  assert (Hcur2 : lookupNode nodes2 ref = Some (set_status Visited cur))
    by (apply lookupNode_mutate_eq; done).
  rewrite Hcur2. simpl. rewrite Hid, Hnbs.
  destruct (updateNeighbors_each_exact tg ref (neighborsOf boardArray nodes2 ref) nodes2
              (heuristicCalls s)) as [calls' ->].
  - eauto.
  - apply (good_dom _ _ _ _ HG2). done.
  - intros nb Hnb. apply Hedges in Hnb as (d & n & _ & _ & _ & Hn & _).
    apply (good_dom _ _ _ _ HG2). eauto.
  - exists (ref :: C), ref. simpl. split_and!.
    + apply relax_all_good; [left| |done]. intros v. apply Hedges.
    + intros [E|E]%elem_of_cons; [congruence|done].
    + intros k Hk. destruct (decide (k = ref)) as [->|Hkr]; [left; left|].
      destruct (Hpart k Hk) as [?|Hin]; [left; right; done|right].
      rewrite Hunv. eapply elem_of_delete_other; eauto.
    + intros k Hk. apply Hsub. rewrite Hunv in Hk.
      apply list_elem_of_delete_inv in Hk. done.
Qed.

(** The loop: with fuel for every cell of the frontier it ends, in success
    with the target closed, or otherwise only when no route leads to the
    target. *)
Lemma astar_loop_searching (fuel : nat) :
  ∀ s, searching s → (length (unvisitedNodes s) ≤ fuel)%nat →
  ∃ o s', astar_loop manhattanDistance boardArray tg fuel s = Some (o, s')
          ∧ ((o = ReturnSuccess ∧ found (nodes s'))
             ∨ (o ≠ ReturnSuccess ∧ ¬ ∃ c, Route tg c)).
Proof.
  induction fuel as [|fuel IH]; intros s Hs Hlen.
  - destruct (unvisitedNodes s) as [|k rest] eqn:Hu; [|simpl in Hlen; lia].
    simpl. rewrite Hu. exists ReturnFalse, s. split; [done|right]. split; [done|].
    intros (c & Hr). destruct (searching_frontier s c Hs Hr) as (y & _ & _ & Hy & _).
    rewrite Hu in Hy. apply elem_of_nil in Hy. done.
  - simpl. destruct (unvisitedNodes s) as [|k rest] eqn:Hu.
    { exists ReturnFalse, s. split; [done|right]. split; [done|].
      intros (c & Hr). destruct (searching_frontier s c Hs Hr) as (y & _ & _ & Hy & _).
      rewrite Hu in Hy. apply elem_of_nil in Hy. done. }
    pose proof (iteration_searching s Hs) as Hit.
    destruct (iteration manhattanDistance boardArray tg s) as [s1|o s1] eqn:E.
    + apply IH; [done|]. apply iteration_Next_length in E; [|rewrite Hu; done].
      rewrite Hu in E. simpl in *. lia.
    + exists o, s1. split; [done|]. destruct o; [right|left|right]; done.
Qed.

(** The back-pointers of a closed cell lead to the start along a path that
    costs what the cell holds. *)
Lemma good_chain (C : list Id) (u : Id) (todo : list Id) (nodes : NodeDict) :
  good C u todo nodes →
  ∀ (m : nat) k n g, k ∈ C → lookupNode nodes k = Some n → distance n = JS.Fin g →
    g < Z.of_nat m →
    ∃ p, chain nodes (Some k) (reverse p) ∧ head p = Some st ∧ last p = Some k
         ∧ walk boardArray nodes0 p ∧ walk_cost nodes0 p = g.
Proof.
  intros HG. induction m as [|m IH]; intros k n g Hk Hn Hg Hm.
  { pose proof (route_nonneg _ _ (good_route _ _ _ _ _ _ _ HG Hn Hg)). lia. }
  destruct (decide (k = st)) as [->|Hne].
  - destruct (good_start _ _ _ _ HG) as (n' & Hn' & Hd & _ & Hp).
    assert (n' = n) as -> by congruence. assert (g = 0) as -> by congruence.
    exists [st]. split_and!; try done.
    change (reverse [st]) with [st]. econstructor; [done|]. rewrite Hp. constructor.
  - pose proof (good_cost _ _ _ _ HG k n Hn Hne) as Hcost. rewrite Hg in Hcost.
    destruct Hcost as (_ & _ & _ & p0 & pn & gp & Hp & HpC & Hpn & Hgp & Hgeq & He).
    destruct (good_weight _ _ _ _ _ _ HG Hn) as [Hw _].
    pose proof (weightOf_nonneg k) as Hw0.
    destruct (IH p0 pn gp HpC Hpn Hgp) as (q & Hchain & Hhead & Hlast & Hwalk & Hcost);
      [lia|].
    pose proof Hlast as Hq. apply last_Some in Hq as [q' ->].
    exists ((q' ++ [p0]) ++ [k]). split_and!.
    + rewrite reverse_snoc. econstructor; [done|]. rewrite Hp. done.
    + destruct q'; simpl in *; done.
    + apply last_snoc.
    + apply walk_snoc; done.
    + rewrite walk_cost_snoc, Hcost. lia.
Qed.

Lemma found_path (nodes : NodeDict) :
  found nodes →
  ∃ n g p, lookupNode nodes tg = Some n ∧ distance n = JS.Fin g
           ∧ chain nodes (Some tg) (reverse p)
           ∧ head p = Some st ∧ last p = Some tg
           ∧ walk boardArray nodes0 p ∧ walk_cost nodes0 p = g
           ∧ ∀ c, Route tg c → g ≤ c.
Proof.
  intros (C & u & todo & HG & HtgC).
  destruct (good_closed _ _ _ _ HG tg HtgC) as (n & g & Hn & Hg & _ & Hopt).
  pose proof (route_nonneg _ _ (good_route _ _ _ _ _ _ _ HG Hn Hg)) as Hg0.
  destruct (good_chain _ _ _ _ HG (S (Z.to_nat g)) tg n g HtgC Hn Hg) as (p & Hp); [lia|].
  exists n, g, p. split_and!; try apply Hp; done.
Qed.

Lemma found_cost (nodes : NodeDict) :
  found nodes →
  ∃ n g, lookupNode nodes tg = Some n ∧ distance n = JS.Fin g
         ∧ Route tg g ∧ ∀ c, Route tg c → g ≤ c.
Proof.
  intros (C & u & todo & HG & HtgC).
  destruct (good_closed _ _ _ _ HG tg HtgC) as (n & g & Hn & Hg & _ & Hopt).
  exists n, g. split_and!; try done. eapply good_route; eauto.
Qed.

(** The whole call. *)
Lemma astar_searching (trace : list Id) :
  st ≠ tg →
  ∃ o s, astar nodes0 (Some st) (Some tg) trace boardArray manhattanDistance = Some (o, s)
         ∧ ((o = ReturnSuccess ∧ found (nodes s)) ∨ (o ≠ ReturnSuccess ∧ ¬ ∃ c, Route tg c)).
Proof.
  intros Hne. rewrite astar_valid.
  2: { unfold validateInputs. destruct Hstart as (n & -> & _).
       destruct Htarget as [tgN ->]. rewrite bool_decide_eq_false_2; done. }
  apply astar_loop_searching; [|simpl; lia].
  exists [], st. simpl. split_and!.
  - apply good_initial.
  - apply not_elem_of_nil.
  - intros k Hk. right. apply Hkeys. done.
  - intros k Hk. apply Hkeys. done.
Qed.

(** *** [optimizedAStar]: the same search with its frontier in the heap *)

Import PriorityQueue.

(** The order the comparator of [optimizedAStar] makes of the items whose
    cells have their heuristic cached: by priority, and by the Manhattan
    distance to the target on a tie. *)
Definition byCost (a b : Item Id) : Number.t :=
  if negb (JS.eqb (priority a) (priority b)) then Number.sub (priority a) (priority b)
  else Number.sub (JS.Fin (manhattan (element a) tg)) (JS.Fin (manhattan (element b) tg)).

Lemma byCost_orders : orders byCost finite_priority.
Proof.
  unfold orders, above, byCost, finite_priority. split_and!.
  - intros a b [x Ha] [y Hb]. rewrite Ha, Hb. simpl. rewrite (Z.eqb_sym y x).
    destruct (Z.eqb_spec x y); simpl; rewrite !Z.leb_le, ?Z.leb_gt; lia.
  - intros a b [x Ha] [y Hb]. rewrite Ha, Hb. simpl.
    destruct (Z.eqb_spec x y); simpl.
    + destruct (Z.ltb_spec (manhattan (element a) tg - manhattan (element b) tg) 0),
        (Z.leb_spec 0 (manhattan (element a) tg - manhattan (element b) tg)); simpl; lia.
    + destruct (Z.ltb_spec (x - y) 0), (Z.leb_spec 0 (x - y)); simpl; lia.
  - intros a b c [x Ha] [y Hb] [z Hc]. rewrite Ha, Hb, Hc. simpl.
    destruct (Z.eqb_spec y x), (Z.eqb_spec z y), (Z.eqb_spec z x); simpl;
      rewrite !Z.leb_le; lia.
Qed.

(** The cells whose heuristic is cached in the store. *)
Definition cached (nodes : NodeDict) (it : Item Id) : Prop :=
  ∃ n, lookupNode nodes (element it) = Some n
       ∧ heuristicDistance n = JS.Val (manhattan (element it) tg).

Lemma compareNodes_byCost (nodes : NodeDict) (a b : Item Id) :
  cached nodes a → cached nodes b → OptimizedAStar.compareNodes nodes a b = byCost a b.
Proof.
  intros (na & Hna & Ha) (nb & Hnb & Hb). unfold OptimizedAStar.compareNodes, byCost.
  rewrite Hna, Hnb, Ha, Hb. done.
Qed.

(** An item of the queue: its cell is no wall, has its heuristic cached,
    and costs no more than the priority of the item. *)
Definition queued_ok (nodes : NodeDict) (it : Item Id) : Prop :=
  ∃ n f p, lookupNode nodes (element it) = Some n ∧ status n ≠ Wall
           ∧ heuristicDistance n = JS.Val (manhattan (element it) tg)
           ∧ priority it = JS.Fin p ∧ totalDistance n = JS.Fin f ∧ f ≤ p.

Lemma queued_ok_cached (nodes : NodeDict) (values : list (Item Id)) :
  Forall (queued_ok nodes) values → Forall (cached nodes) values.
Proof.
  intros H. eapply Forall_impl; [exact H|].
  intros it (n & f & p & Hn & _ & Hh & _). exists n. done.
Qed.

Lemma queued_ok_finite (nodes : NodeDict) (values : list (Item Id)) :
  Forall (queued_ok nodes) values → Forall finite_priority values.
Proof.
  intros H. eapply Forall_impl; [exact H|].
  intros it (n & f & p & _ & _ & _ & Hp & _). exists p. done.
Qed.

(** The body of the [for] loop on a neighbour that is not in [visited]:
    the store is left as by [updateSingleNeighbor], and the neighbour is
    queued when its cost was lowered. *)
Lemma processNeighbor_exact (s : OptimizedAStar.State) (u v : Id) (uN vN tgN : Node) :
  v ∉ OptimizedAStar.visited s →
  lookupNode (OptimizedAStar.nodes s) u = Some uN → id uN = u → u ≠ v →
  lookupNode (OptimizedAStar.nodes s) v = Some vN → status vN ≠ Wall →
  lookupNode (OptimizedAStar.nodes s) tg = Some tgN →
  let R := relaxed manhattanDistance calculateNodeDistance uN vN tgN in
  let nodes' := mutate (λ _, R) v (OptimizedAStar.nodes s) in
  OptimizedAStar.processNeighbor tg u v s
  = JS.Ok {| OptimizedAStar.nodes := nodes';
             OptimizedAStar.unvisitedQueue :=
               if JS.ltb (candidate calculateNodeDistance uN vN) (distance vN)
               then enqueue (OptimizedAStar.compareNodes nodes')
                      (OptimizedAStar.unvisitedQueue s) v (totalDistance R)
               else OptimizedAStar.unvisitedQueue s;
             OptimizedAStar.visited := OptimizedAStar.visited s;
             OptimizedAStar.nodesToAnimate := OptimizedAStar.nodesToAnimate s |}.
Proof.
  intros Hv Hu Hid Hne Hnb Hw Htg. cbv zeta. unfold OptimizedAStar.processNeighbor.
  rewrite bool_decide_eq_false_2 by done. rewrite Hnb, decide_False by done.
  unfold relaxed, withHeuristic, candidate.
  change (OptimizedAStar.getDistance) with calculateNodeDistance.
  change (OptimizedAStar.manhattanDistance) with manhattanDistance.
  destruct (JS.falsy (heuristicDistance vN)) eqn:Hf; simpl.
  - rewrite Htg. simpl.
    rewrite (lookupNode_mutate_eq _ _ _ _ Hnb), lookupNode_mutate_ne, Hu by done. simpl.
    change (calculateNodeDistance uN (set_heuristicDistance _ vN))
      with (calculateNodeDistance uN vN).
    destruct (JS.ltb _ (distance vN)) eqn:Hlt.
    + assert (E : mutate (λ _, OptimizedAStar.withNewPath
                    (JS.add (JS.add (distance uN) (JS.Fin (weight vN)))
                       (JS.Fin (calculateNodeDistance uN vN).1.1)) u
                    (calculateNodeDistance uN vN)
                    (set_heuristicDistance (JS.Val (manhattanDistance vN tgN)) vN)) v
                  (mutate (set_heuristicDistance (JS.Val (manhattanDistance vN tgN))) v
                     (OptimizedAStar.nodes s))
                = mutate (λ _, updateNodeWithNewPath
                    (JS.add (JS.add (distance uN) (JS.Fin (weight vN)))
                       (JS.Fin (calculateNodeDistance uN vN).1.1)) (id uN)
                    (calculateNodeDistance uN vN)
                    (set_heuristicDistance (JS.Val (manhattanDistance vN tgN)) vN)) v
                  (OptimizedAStar.nodes s)).
      { rewrite mutate_mutate, Hid. apply mutate_ext. intros n Hn. done. }
      rewrite E. done.
    + f_equal. f_equal. apply mutate_ext.
      intros n Hn. assert (n = vN) as -> by congruence. reflexivity.
  - rewrite Hu, Hnb.
    destruct (JS.ltb _ (distance vN)) eqn:Hlt.
    + rewrite Hid. done.
    + f_equal. f_equal. unfold mutate. destruct (OptimizedAStar.nodes s) as [ks m]. simpl.
      f_equal. symmetry. apply alter_id. intros n Hn. unfold lookupNode in Hnb.
      simpl in Hnb. congruence.
Qed.

(** A neighbour that is closed already needs no relaxation. *)
Lemma good_skip (C : list Id) (u v : Id) (todo : list Id) (nodes : NodeDict) :
  good C u (v :: todo) nodes → u ∈ C → Edge u v → v ∈ C → good C u todo nodes.
Proof.
  intros HG Hu He Hv. split; try apply HG.
  intros k w Hk Hkw.
  destruct (good_expanded _ _ _ _ HG k w Hk Hkw) as [[-> Hin]|?]; [|right; done].
  apply elem_of_cons in Hin as [->|Hin]; [right|left; done].
  destruct (good_closed _ _ _ _ HG u Hu) as (uN & gu & HuN & Hgu & _ & _).
  destruct (good_closed _ _ _ _ HG v Hv) as (vN & gv & HvN & Hgv & _ & Hopt).
  exists uN, vN, gu, gv. split_and!; try done.
  destruct (good_weight _ _ _ _ _ _ HG HvN) as [-> _].
  apply Hopt. eapply route_step; [|done]. eapply good_route; eauto.
Qed.

(** What holds of the store, of the set and of the queue while a cell is
    expanded ([todo] holds the neighbours still to be processed) and
    between two turns of the loop ([todo] is empty). *)
Record opt_inv (C : list Id) (u : Id) (todo : list Id) (s : OptimizedAStar.State)
    : Prop := {
  opt_good : good C u todo (OptimizedAStar.nodes s);
  opt_visited : ∀ k, k ∈ C ↔ k ∈ OptimizedAStar.visited s;
  opt_start : st ∈ C;
  opt_items : Forall (queued_ok (OptimizedAStar.nodes s)) (OptimizedAStar.unvisitedQueue s);
  opt_heap : heap_ordered byCost (OptimizedAStar.unvisitedQueue s);
  opt_open : ∀ k n g, k ∉ C → lookupNode (OptimizedAStar.nodes s) k = Some n →
      distance n = JS.Fin g →
      ∃ it, it ∈ OptimizedAStar.unvisitedQueue s ∧ element it = k
            ∧ priority it = totalDistance n }.

Lemma processNeighbor_inv (C : list Id) (u v : Id) (todo : list Id)
    (s : OptimizedAStar.State) :
  opt_inv C u (v :: todo) s → u ∈ C → Edge u v →
  ∃ s', OptimizedAStar.processNeighbor tg u v s = JS.Ok s' ∧ opt_inv C u todo s'.
Proof.
  intros [HG Hvis Hst Hitems Hheap Hopen] Hu He.
  destruct (decide (v ∈ OptimizedAStar.visited s)) as [Hv|Hv].
  { exists s. unfold OptimizedAStar.processNeighbor.
    rewrite bool_decide_eq_true_2 by done. split; [done|].
    split; try done. apply (good_skip C u v); try done. apply Hvis. done. }
  assert (HvC : v ∉ C) by (rewrite Hvis; done).
  assert (Hvst : v ≠ st) by (intros ->; done).
  destruct (good_closed _ _ _ _ HG u Hu) as (uN & gu & HuN & Hgu & HuW & Huopt).
  pose proof He as (d & v0 & Hd & Hveq & Hin & Hv0 & Hv0W).
  destruct (proj2 (good_dom _ _ _ _ HG v)) as [vN HvN]; [eauto|].
  destruct (good_target _ _ _ _ HG) as (tgN & HtgN & Hidtg).
  destruct (good_weight _ _ _ _ _ _ HG HvN) as [Hwv Hidv].
  destruct (good_weight _ _ _ _ _ _ HG HuN) as [_ Hidu].
  pose proof (edge_ne _ _ He) as Huv.
  assert (HvW : status vN ≠ Wall).
  { rewrite (proj2 (proj2 (good_same _ _ _ _ HG v vN v0 HvN Hv0))). done. }
  rewrite (processNeighbor_exact s u v uN vN tgN) by done.
  set (R := relaxed manhattanDistance calculateNodeDistance uN vN tgN).
  set (nodes' := mutate (λ _, R) v (OptimizedAStar.nodes s)).
  eexists. split; [reflexivity|].
  assert (HG' : good C u todo nodes').
  { pose proof (relax1_good C u v todo _ HG Hu He) as H.
    unfold relax1 in H. rewrite HuN, HvN, HtgN in H. exact H. }
  destruct (relaxed_shape uN vN tgN gu Hgu Hidtg) as (Rid & Rst & Rw & Rh & Rcase).
  fold R in Rid, Rst, Rw, Rh, Rcase. rewrite Hidv in Rh, Rcase. rewrite Hidu in Rcase.
  change (candidate calculateNodeDistance uN vN)
    with (JS.add (JS.add (distance uN) (JS.Fin (weight vN)))
            (JS.Fin (calculateNodeDistance uN vN).1.1)).
  rewrite calculateNodeDistance_cost, Hgu.
  change (JS.add (JS.add (JS.Fin gu) (JS.Fin (weight vN))) (JS.Fin 1))
    with (JS.Fin (gu + weight vN + 1)).
  pose proof (good_cost _ _ _ _ HG v vN HvN Hvst) as Hold.
  assert (Hheur : heuristicDistance R = JS.Val (manhattan v tg)).
  { rewrite Rh. destruct (JS.falsy (heuristicDistance vN)) eqn:Hf; [done|].
    destruct (distance vN); [apply Hold| |done].
    destruct Hold as (_ & Hf' & _). congruence. }
  assert (HR : lookupNode nodes' v = Some R).
  { unfold nodes'. rewrite lookupNode_mutate, decide_True, HvN by done. done. }
  assert (Hother : ∀ k, k ≠ v → lookupNode nodes' k = lookupNode (OptimizedAStar.nodes s) k).
  { intros k Hk. unfold nodes'. rewrite lookupNode_mutate, decide_False by done. done. }
  assert (Htot : ∀ f, totalDistance vN = JS.Fin f →
            ∃ f', totalDistance R = JS.Fin f' ∧ f' ≤ f).
  { intros f Hf. destruct (distance vN) as [g| |] eqn:Hg; [| |done].
    2: { destruct Hold as (Ht & _). congruence. }
    destruct Hold as (_ & Ht & _).
    destruct Rcase as [(Hlt & Rd & Rt & _)|(_ & _ & Rt & _)].
    - exists (gu + weight vN + 1 + manhattan v tg). split.
      + rewrite Rt, <- Rh, Hheur. done.
      + simpl in Hlt. apply Z.ltb_lt in Hlt. rewrite Ht in Hf. injection Hf as <-. lia.
    - exists f. split; [congruence|lia]. }
  assert (Hitems' : Forall (queued_ok nodes') (OptimizedAStar.unvisitedQueue s)).
  { eapply Forall_impl; [exact Hitems|].
    intros it (n & f & p & Hn & Hw & Hh & Hp & Hf & Hle).
    destruct (decide (element it = v)) as [E|E].
    - rewrite E in *. assert (n = vN) as -> by congruence.
      destruct (Htot f Hf) as (f' & Hf' & Hle').
      exists R, f', p. rewrite E. split_and!; try done; [congruence|lia].
    - exists n, f, p. rewrite Hother by done. done. }
  destruct Rcase as [(Hlt & Rd & Rt & Rp)|(Hlt & Rd & Rt & Rp)]; rewrite Hlt.
  - assert (Hnew : queued_ok nodes' (mkItem v (totalDistance R))).
    { exists R, (gu + weight vN + 1 + manhattan v tg), (gu + weight vN + 1 + manhattan v tg).
      simpl. rewrite Rt, <- Rh, Hheur. split_and!; first [done|congruence|lia]. }
    assert (Hq : enqueue (OptimizedAStar.compareNodes nodes')
                   (OptimizedAStar.unvisitedQueue s) v (totalDistance R)
                 = enqueue byCost (OptimizedAStar.unvisitedQueue s) v (totalDistance R)).
    { apply (enqueue_agree _ _ (cached nodes')).
      - apply compareNodes_byCost.
      - apply queued_ok_cached. done.
      - destruct Hnew as (n & f & p & Hn & _ & Hh & _). exists n. done. }
    rewrite Hq.
    pose proof (enqueue_Permutation byCost (OptimizedAStar.unvisitedQueue s) v
                  (totalDistance R)) as Hperm.
    split; simpl; try done.
    + rewrite Hperm. constructor; done.
    + apply (enqueue_heap byCost finite_priority byCost_orders); [|exists (gu + weight vN + 1 + manhattan v tg)|done].
      * apply (queued_ok_finite (OptimizedAStar.nodes s)). done.
      * simpl. rewrite Rt, <- Rh, Hheur. done.
    + intros k n g Hk Hn Hg. destruct (decide (k = v)) as [->|Hkv].
      * exists (mkItem v (totalDistance R)). rewrite Hperm.
        assert (n = R) as -> by congruence. split_and!; [left|done|done].
      * rewrite Hother in Hn by done.
        destruct (Hopen k n g Hk Hn Hg) as (it & Hit & Hel & Hpr).
        exists it. rewrite Hperm. split_and!; [right; done|done|done].
  - split; simpl; try done.
    intros k n g Hk Hn Hg. destruct (decide (k = v)) as [->|Hkv].
    + assert (n = R) as -> by congruence. rewrite Rd in Hg.
      destruct (Hopen v vN g Hk HvN Hg) as (it & Hit & Hel & Hpr).
      exists it. split_and!; try done. congruence.
    + rewrite Hother in Hn by done. apply (Hopen k n g Hk Hn Hg).
Qed.

Lemma processNeighbors_inv (C : list Id) (u : Id) (vs : list Id) :
  u ∈ C → ∀ s, (∀ v, v ∈ vs → Edge u v) → opt_inv C u vs s →
  ∃ s', OptimizedAStar.processNeighbors tg u vs s = JS.Normal s' ∧ opt_inv C u [] s'.
Proof.
  intros Hu. induction vs as [|v vs IH]; intros s He Hinv; simpl; [eauto|].
  destruct (processNeighbor_inv C u v vs s Hinv Hu) as (s1 & -> & Hinv1).
  { apply He. left. }
  apply IH; [|done]. intros w Hw. apply He. right. done.
Qed.

Lemma queued_ok_ext (nodes nodes' : NodeDict) (it : Item Id) :
  (∀ k, option_Forall2 same_costs (lookupNode nodes k) (lookupNode nodes' k)) →
  queued_ok nodes it → queued_ok nodes' it.
Proof.
  intros Hsame (n & f & p & Hn & Hw & Hh & Hp & Hf & Hle).
  specialize (Hsame (element it)). rewrite Hn in Hsame.
  inversion Hsame as [? n' (_ & _ & _ & Ht & Hh' & _ & Hs) E1 E2|]; subst.
  exists n', f, p. split_and!; try done; try congruence. rewrite Hs. done.
Qed.

(** The states of the loop before the target is closed. *)
Definition opt_searching (s : OptimizedAStar.State) : Prop :=
  ∃ C u, opt_inv C u [] s ∧ (tg ∉ C).

(** Expanding the cell taken out of the queue. *)
Lemma opt_expand (C : list Id) (u : Id) (s : OptimizedAStar.State) (k : Id) (cur : Node)
    (g : Z) (rest : list (Item Id)) :
  good C u [] (OptimizedAStar.nodes s) →
  (∀ x, x ∈ C ↔ x ∈ OptimizedAStar.visited s) →
  st ∈ C ∨ k = st → (tg ∉ C) →
  lookupNode (OptimizedAStar.nodes s) k = Some cur → status cur ≠ Wall →
  distance cur = JS.Fin g → (∀ c, Route k c → g ≤ c) →
  Forall (queued_ok (OptimizedAStar.nodes s)) rest → heap_ordered byCost rest →
  (∀ k' n g', k' ∉ C → k' ≠ k → lookupNode (OptimizedAStar.nodes s) k' = Some n →
     distance n = JS.Fin g' →
     ∃ it, it ∈ rest ∧ element it = k' ∧ priority it = totalDistance n) →
  let s2 := {| OptimizedAStar.nodes := mutate (set_status Visited) k (OptimizedAStar.nodes s);
               OptimizedAStar.unvisitedQueue := rest;
               OptimizedAStar.visited := {[k]} ∪ OptimizedAStar.visited s;
               OptimizedAStar.nodesToAnimate := OptimizedAStar.nodesToAnimate s ++ [k] |} in
  (k = tg → found (OptimizedAStar.nodes s2))
  ∧ ∃ neighbors s3,
      OptimizedAStar.getNeighbors k (OptimizedAStar.nodes s2) boardArray = JS.Ok neighbors
      ∧ OptimizedAStar.processNeighbors tg k neighbors s2 = JS.Normal s3
      ∧ opt_inv (k :: C) k [] s3.
Proof.
  intros HG Hvis Hst HtgC Hcur Hw Hg Hopt Hitems Hheap Hopen s2.
  destruct (good_visit C u _ k cur g HG Hcur Hw Hg Hopt) as (Hsame & Hnbs & Hedges & HG2).
  set (nodes2 := mutate (set_status Visited) k (OptimizedAStar.nodes s)) in *.
  split.
  { intros ->. exists (tg :: C), tg, (neighborsOf boardArray nodes2 tg). split; [done|left]. }
  exists (neighborsOf boardArray nodes2 k).
  assert (Hinv2 : opt_inv (k :: C) k (neighborsOf boardArray nodes2 k) s2).
  { split; simpl; fold nodes2.
    - done.
    - intros x. rewrite elem_of_cons, elem_of_union, elem_of_singleton, Hvis. done.
    - destruct Hst as [?| ->]; [right; done|left].
    - eapply Forall_impl; [exact Hitems|]. intros it. apply queued_ok_ext. done.
    - done.
    - intros k' n g' Hk' Hn Hg'. apply not_elem_of_cons in Hk' as [Hne Hk'].
      pose proof (Hsame k') as Hs. rewrite Hn in Hs.
      inversion Hs as [n1 ? (_ & _ & Hd & Ht & _) E1 E2|]. symmetry in E1.
      rewrite Ht. apply (Hopen k' n1 g'); try done. congruence. }
  destruct (processNeighbors_inv (k :: C) k (neighborsOf boardArray nodes2 k)) with (s := s2)
    as (s3 & Hrun & Hinv3); [left| |done|].
  { intros v. apply Hedges. }
  exists s3. split_and!; try done.
Qed.

(** One turn of the loop of [optimizedAStar]. *)
Lemma opt_iteration (s : OptimizedAStar.State) :
  opt_searching s → OptimizedAStar.unvisitedQueue s ≠ [] →
  match OptimizedAStar.iteration boardArray tg s with
  | OptimizedAStar.Next s' => opt_searching s'
  | OptimizedAStar.Stop OptimizedAStar.ReturnSuccess s' => found (OptimizedAStar.nodes s')
  | OptimizedAStar.Stop _ _ => False
  end.
Proof.
  intros (C & u & [HG Hvis Hst Hitems Hheap Hopen] & HtgC) Hq.
  destruct (OptimizedAStar.unvisitedQueue s) as [|top others] eqn:Hvalues; [done|].
  pose proof (queued_ok_finite _ _ Hitems) as Hfin.
  destruct (dequeue_heap byCost finite_priority byCost_orders top others Hfin Hheap)
    as (rest & Hdq & Hperm & Hheap' & Habove).
  assert (Hdq' : dequeue (OptimizedAStar.compareNodes (OptimizedAStar.nodes s))
                   (top :: others) = (Some (element top), rest)).
  { rewrite <- Hdq. apply (dequeue_agree _ _ (cached (OptimizedAStar.nodes s))).
    - apply compareNodes_byCost.
    - apply queued_ok_cached. done. }
  unfold OptimizedAStar.iteration. rewrite Hvalues, Hdq'.
  cbn [fst snd OptimizedAStar.nodes OptimizedAStar.visited].
  assert (Hrest : Forall (queued_ok (OptimizedAStar.nodes s)) rest).
  { rewrite Hperm. inversion Hitems; done. }
  assert (Htop : queued_ok (OptimizedAStar.nodes s) top) by (inversion Hitems; done).
  assert (Hin_rest : ∀ it, it ∈ top :: others → element it ≠ element top → it ∈ rest).
  { intros it Hit Hne. rewrite Hperm. apply elem_of_cons in Hit as [->|]; done. }
  destruct (decide (element top ∈ OptimizedAStar.visited s)) as [Hv|Hv].
  - rewrite bool_decide_eq_true_2 by done. exists C, u. split; [|done].
    split; simpl; try done.
    intros k n g Hk Hn Hg. destruct (Hopen k n g Hk Hn Hg) as (it & Hit & Hel & Hpr).
    exists it. split_and!; try done. apply Hin_rest; [done|].
    rewrite Hel. intros ->. apply Hk, Hvis. done.
  - rewrite bool_decide_eq_false_2 by done.
    destruct Htop as (cur & f & p & Hcur & Hw & Hh & Hp & Hf & Hle).
    rewrite Hcur, decide_False by done.
    set (k := element top) in *.
    assert (HkC : k ∉ C) by (rewrite Hvis; done).
    assert (Hkst : k ≠ st) by (intros E; rewrite E in HkC; done).
    pose proof (good_cost _ _ _ _ HG k cur Hcur Hkst) as Hcost.
    destruct (distance cur) as [g| |] eqn:Hg; [| |done].
    2: { destruct Hcost as (Ht & _). congruence. }
    destruct Hcost as (_ & Ht & _).
    assert (Hopt : ∀ c, Route k c → g ≤ c).
    { intros c Hr.
      destruct (frontier _ _ _ HG _ _ Hr)
        as [?|(y & yn & fy & Hy & Hyn & Hyw & Hfy & Hley)]; [done|].
      assert (Hyst : y ≠ st) by (intros ->; done).
      pose proof (good_cost _ _ _ _ HG y yn Hyn Hyst) as Hcy.
      destruct (distance yn) as [gy| |] eqn:Hgy; [| |done].
      2: { destruct Hcy as (Hty & _). congruence. }
      destruct (Hopen y yn gy Hy Hyn Hgy) as (it & Hit & Hel & Hpr).
      specialize (Habove it Hit).
      unfold above, byCost in Habove. rewrite Hpr, Hfy, Hp in Habove. simpl in Habove.
      assert (p ≤ fy).
      { destruct (Z.eqb_spec fy p); simpl in Habove; [lia|]. apply Z.leb_le in Habove. lia. }
      rewrite Ht in Hf. injection Hf as <-. lia. }
    edestruct (opt_expand C u s k cur g rest)
      as (Hfound & neighbors & s3 & Hn & Hrun & Hinv3); try done.
    { left; done. }
    { intros k' n g' Hk' Hne Hn Hg'.
      destruct (Hopen k' n g' Hk' Hn Hg') as (it & Hit & Hel & Hpr).
      exists it. split_and!; try done. apply Hin_rest; [done|]. rewrite Hel. done. }
    destruct (decide (k = tg)) as [E|E]; [apply Hfound; done|].
    cbn [OptimizedAStar.nodes] in Hn. rewrite Hn, Hrun. exists (k :: C), k. split; [done|].
    intros [?|?]%elem_of_cons; done.
Qed.

Lemma enqueue_nil {A : Type} (compare : Item A → Item A → Number.t) (x : A) (p : JS.Num) :
  enqueue compare [] x p = [mkItem x p].
Proof. unfold enqueue, bubbleUp. simpl. rewrite bubbleUp_loop_equation_1. done. Qed.

Lemma opt_searching_open (s : OptimizedAStar.State) :
  opt_searching s → OptimizedAStar.unvisitedQueue s = [] → ¬ ∃ c, Route tg c.
Proof.
  intros (C & u & [HG Hvis Hst Hitems Hheap Hopen] & HtgC) Hq (c & Hr).
  destruct (frontier _ _ _ HG _ _ Hr)
    as [?|(y & yn & fy & Hy & Hyn & Hyw & Hfy & Hley)]; [done|].
  assert (Hyst : y ≠ st) by (intros ->; done).
  pose proof (good_cost _ _ _ _ HG y yn Hyn Hyst) as Hcy.
  destruct (distance yn) as [gy| |] eqn:Hgy; [| |done].
  2: { destruct Hcy as (Hty & _). congruence. }
  destruct (Hopen y yn gy Hy Hyn Hgy) as (it & Hit & _).
  rewrite Hq in Hit. apply elem_of_nil in Hit. done.
Qed.

(** The first turn expands the start. *)
Lemma opt_first (trace : list Id) :
  st ≠ tg →
  match OptimizedAStar.iteration boardArray tg (OptimizedAStar.initial nodes0 st trace) with
  | OptimizedAStar.Next s' => opt_searching s'
  | OptimizedAStar.Stop _ _ => False
  end.
Proof.
  intros Hne. pose proof good_initial as HG.
  destruct (good_start _ _ _ _ HG) as (cur & Hcur & Hd & _).
  destruct Hstart as (n0 & Hn0 & Hw0).
  assert (Hw : status cur ≠ Wall).
  { rewrite (proj2 (proj2 (good_same _ _ _ _ HG st cur n0 Hcur Hn0))). done. }
  unfold OptimizedAStar.iteration, OptimizedAStar.initial.
  cbn [OptimizedAStar.nodes OptimizedAStar.unvisitedQueue OptimizedAStar.visited
       OptimizedAStar.nodesToAnimate].
  rewrite enqueue_nil.
  change (dequeue _ [mkItem st (JS.Fin 0)]) with (Some st, @nil (Item Id)).
  cbn [fst snd].
  rewrite bool_decide_eq_false_2 by (apply not_elem_of_empty).
  change (mutate _ st nodes0) with (initializeStartNode nodes0 st).
  rewrite Hcur, decide_False, decide_False by done.
  edestruct (opt_expand [] st
               {| OptimizedAStar.nodes := initializeStartNode nodes0 st;
                  OptimizedAStar.unvisitedQueue := [];
                  OptimizedAStar.visited := ∅;
                  OptimizedAStar.nodesToAnimate := trace |} st cur 0 [])
    as (_ & neighbors & s3 & Hn & Hrun & Hinv3); try done.
  - intros x. rewrite elem_of_nil. split; [done|]. apply not_elem_of_empty.
  - right. done.
  - apply not_elem_of_nil.
  - intros c Hr. apply (route_nonneg _ _ Hr).
  - intros k' n g' _ Hk' Hn Hg'. simpl in Hn.
    pose proof (good_cost _ _ _ _ HG k' n Hn Hk') as Hcost. rewrite Hg' in Hcost.
    destruct Hcost as (_ & _ & _ & p & pn & gp & _ & HpC & _).
    apply elem_of_nil in HpC. done.
  - cbn [OptimizedAStar.nodes OptimizedAStar.visited OptimizedAStar.nodesToAnimate] in Hn, Hrun.
    rewrite Hn, Hrun. exists [st], st. split; [done|].
    intros [?|?%elem_of_nil]%elem_of_cons; done.
Qed.

(** The loop: it ends, in success with the target closed, or with [false]
    when no route leads to the target. *)
Lemma opt_loop (fuel : nat) :
  ∀ s, opt_searching s → (workLeft s ≤ fuel)%nat →
  ∃ o s', OptimizedAStar.optimizedAStar_loop boardArray tg fuel s = Some (o, s')
          ∧ ((o = OptimizedAStar.ReturnSuccess ∧ found (OptimizedAStar.nodes s'))
             ∨ (o = OptimizedAStar.ReturnFalse ∧ ¬ ∃ c, Route tg c)).
Proof.
  induction fuel as [|fuel IH]; intros s Hs Hfuel; simpl; unfold isEmpty.
  - destruct (OptimizedAStar.unvisitedQueue s) as [|it rest] eqn:Hq.
    + rewrite bool_decide_eq_true_2 by done. eexists _, _. split; [done|right].
      split; [done|]. apply (opt_searching_open s); done.
    + unfold workLeft in Hfuel. rewrite Hq in Hfuel. simpl in Hfuel. lia.
  - destruct (OptimizedAStar.unvisitedQueue s) as [|it rest] eqn:Hq.
    + rewrite bool_decide_eq_true_2 by done. eexists _, _. split; [done|right].
      split; [done|]. apply (opt_searching_open s); done.
    + rewrite bool_decide_eq_false_2 by done.
      pose proof (opt_iteration s Hs) as Hit. rewrite Hq in Hit.
      pose proof (iteration_effect_optimized boardArray tg s) as Heff. rewrite Hq in Heff.
      destruct (OptimizedAStar.iteration boardArray tg s) as [s'|o s'].
      * apply IH; [apply Hit; done|]. destruct Heff as [Hlt _]; [done|]. lia.
      * exists o, s'. split; [done|]. destruct o; [destruct Hit; done|left|destruct Hit; done].
        split; [done|]. apply Hit. done.
Qed.

(** The whole call. *)
Lemma optimizedAStar_searching (trace : list Id) :
  st ≠ tg →
  ∃ o s, OptimizedAStar.optimizedAStar nodes0 (Some st) (Some tg) trace boardArray
         = Some (o, s)
         ∧ ((o = OptimizedAStar.ReturnSuccess ∧ found (OptimizedAStar.nodes s))
            ∨ (o = OptimizedAStar.ReturnFalse ∧ ¬ ∃ c, Route tg c)).
Proof.
  intros Hne. unfold OptimizedAStar.optimizedAStar.
  rewrite bool_decide_eq_false_2 by done.
  destruct Hstart as (n0 & Hn0 & _). rewrite Hn0.
  replace (4 * base.size (oget nodes0) + 1)%nat with (S (4 * base.size (oget nodes0))) by lia.
  pose proof (opt_first trace Hne) as Hfirst.
  pose proof (iteration_effect_optimized boardArray tg (OptimizedAStar.initial nodes0 st trace))
    as Heff.
  cbn [OptimizedAStar.optimizedAStar_loop]. unfold isEmpty.
  assert (Hq : OptimizedAStar.unvisitedQueue (OptimizedAStar.initial nodes0 st trace)
               = [mkItem st (JS.Fin 0)]).
  { unfold OptimizedAStar.initial. cbn [OptimizedAStar.unvisitedQueue]. apply enqueue_nil. }
  rewrite Hq in Heff |- *. rewrite bool_decide_eq_false_2 by done.
  destruct (OptimizedAStar.iteration boardArray tg (OptimizedAStar.initial nodes0 st trace))
    as [s1|o s1]; [|done].
  apply opt_loop; [done|]. destruct Heff as [Hlt _]; [done|].
  unfold workLeft in Hlt at 2. rewrite Hq in Hlt.
  unfold OptimizedAStar.initial in Hlt.
  cbn [OptimizedAStar.nodes OptimizedAStar.visited] in Hlt.
  rewrite dom_mutate, difference_empty_L, size_dom in Hlt. simpl in Hlt. lia.
Qed.

End Cheapest.

Section CheapestTheorems.

Import Improved.

Lemma route_reachable (boardArray : Board) (nodes : NodeDict) (a k : Id) :
  (∃ c, route boardArray nodes a k c) ↔ reachable boardArray nodes a k.
Proof.
  split.
  - intros (c & Hr). induction Hr as [|b k c _ IH He]; [apply rtc_refl|].
    eapply rtc_r; eauto.
  - intros Hr.
    apply (rtc_ind_r (R := edge boardArray nodes)
             (λ k, ∃ c, route boardArray nodes a k c) a); [| |done].
    + exists 0. constructor.
    + intros b k' _ He (c & IH). eexists. eapply route_step; eauto.
Qed.

(** X13.  On a reset grid of small numbers ([small_numbers]: the sums of the
    search are exact) whose board cells all have nodes, with a start that is
    not a wall and a target that moves can reach, [astar] with the Manhattan
    heuristic returns ["success!"]; following the back-pointers from the
    target, [getShortestPath] then returns a path of moves from the start to
    the target, the target's [distance] is the cost of that path (one unit
    and the weight of the cell for every cell entered), and no path of moves
    from the start to the target costs less. *)
Theorem astar_finds_a_cheapest_path (nodes : NodeDict) (st tg : Id)
    (trace : list Id) (boardArray : Board) :
  ids_match nodes → fresh_costs nodes → unrelaxed nodes → small_numbers nodes →
  board_has_nodes boardArray nodes → keys_listed nodes →
  (∃ n, lookupNode nodes st = Some n ∧ status n ≠ Wall) →
  st ≠ tg → reachable boardArray nodes st tg →
  ∃ s n g p,
    astar nodes (Some st) (Some tg) trace boardArray manhattanDistance
    = Some (ReturnSuccess, s)
    ∧ lookupNode (Improved.nodes s) tg = Some n ∧ distance n = JS.Fin g
    ∧ (∀ fuel, (length p ≤ fuel)%nat →
         Utils.getShortestPath fuel (Improved.nodes s) (Some tg) = Some (JS.Ok p))
    ∧ head p = Some st ∧ last p = Some tg
    ∧ walk boardArray nodes p ∧ walk_cost nodes p = g
    ∧ ∀ q, head q = Some st → last q = Some tg → walk boardArray nodes q →
           g ≤ walk_cost nodes q.
Proof.
  intros Hids Hfresh Hunrelaxed Hsmall Hboard Hkeys Hstart Hne Hreach.
  assert (Htarget : is_Some (lookupNode nodes tg)).
  { apply rtc_inv_r in Hreach as [?|(b & _ & d & n & _ & _ & _ & Hn & _)]; [done|eauto]. }
  apply route_reachable in Hreach.
  destruct (astar_searching boardArray nodes st tg Hids Hfresh Hunrelaxed Hboard Hkeys
              Hstart Htarget trace Hne) as (o & s & Hrun & [[-> Hfound]|[_ Hnone]]).
  2: { destruct (Hnone Hreach). }
  edestruct (found_path boardArray nodes st tg)
    as (n & g & p & Hn & Hg & Hchain & Hhead & Hlast & Hwalk & Hcost & Hopt);
    [eassumption..|].
  exists s, n, g, p. split_and!; try done.
  - intros fuel Hfuel. unfold Utils.getShortestPath.
    rewrite (getShortestPath_walk_chain _ _ _ Hchain) by (rewrite length_reverse; done).
    rewrite reverse_involutive, app_nil_r. done.
  - intros q Hq Hl Hw. apply Hopt. apply route_walk.
    destruct q as [|a q]; [done|]. injection Hq as ->. exists q. done.
Qed.


(** X16.  On a reset grid of small numbers whose board cells all have
    nodes, with a start that is not a wall and a target that moves can
    reach, [optimizedAStar] returns ["success!"]; [getShortestPath] then
    returns a path of moves from the start to the target, the target's
    [distance] is the cost of that path, and no path of moves from the start
    to the target costs less. *)
Theorem optimizedAStar_finds_a_cheapest_path (nodes : NodeDict) (st tg : Id)
    (trace : list Id) (boardArray : Board) :
  ids_match nodes → fresh_costs nodes → unrelaxed nodes → small_numbers nodes →
  board_has_nodes boardArray nodes →
  (∃ n, lookupNode nodes st = Some n ∧ status n ≠ Wall) →
  st ≠ tg → reachable boardArray nodes st tg →
  ∃ s n g p,
    OptimizedAStar.optimizedAStar nodes (Some st) (Some tg) trace boardArray
    = Some (OptimizedAStar.ReturnSuccess, s)
    ∧ lookupNode (OptimizedAStar.nodes s) tg = Some n ∧ distance n = JS.Fin g
    ∧ (∀ fuel, (length p ≤ fuel)%nat →
         Utils.getShortestPath fuel (OptimizedAStar.nodes s) (Some tg) = Some (JS.Ok p))
    ∧ head p = Some st ∧ last p = Some tg
    ∧ walk boardArray nodes p ∧ walk_cost nodes p = g
    ∧ ∀ q, head q = Some st → last q = Some tg → walk boardArray nodes q →
           g ≤ walk_cost nodes q.
Proof.
  intros Hids Hfresh Hunrelaxed Hsmall Hboard Hstart Hne Hreach.
  assert (Htarget : is_Some (lookupNode nodes tg)).
  { apply rtc_inv_r in Hreach as [?|(b & _ & d & n & _ & _ & _ & Hn & _)]; [done|eauto]. }
  apply route_reachable in Hreach.
  edestruct (optimizedAStar_searching boardArray nodes st tg)
    as (o & s & Hrun & [[-> Hfound]|[_ Hnone]]); [eassumption..| |].
  2: { destruct (Hnone Hreach). }
  edestruct (found_path boardArray nodes st tg)
    as (n & g & p & Hn & Hg & Hchain & Hhead & Hlast & Hwalk & Hcost & Hopt);
    [eassumption..|].
  exists s, n, g, p. split_and!; try done.
  - intros fuel Hfuel. unfold Utils.getShortestPath.
    rewrite (getShortestPath_walk_chain _ _ _ Hchain) by (rewrite length_reverse; done).
    rewrite reverse_involutive, app_nil_r. done.
  - intros q Hq Hl Hw. apply Hopt. apply route_walk.
    destruct q as [|a q]; [done|]. injection Hq as ->. exists q. done.
Qed.

(** X17.  On a reset grid of small numbers whose board cells all have
    nodes, with a start that is not a wall, the two searches agree: [astar]
    with the Manhattan heuristic returns ["success!"] exactly when
    [optimizedAStar] does, and they leave the same [distance] in the
    target. *)
Theorem astar_and_optimizedAStar_agree (nodes : NodeDict) (st tg : Id)
    (trace trace' : list Id) (boardArray : Board) :
  ids_match nodes → fresh_costs nodes → unrelaxed nodes → small_numbers nodes →
  board_has_nodes boardArray nodes → keys_listed nodes →
  (∃ n, lookupNode nodes st = Some n ∧ status n ≠ Wall) →
  is_Some (lookupNode nodes tg) → st ≠ tg →
  ∃ o s o' s',
    astar nodes (Some st) (Some tg) trace boardArray manhattanDistance = Some (o, s)
    ∧ OptimizedAStar.optimizedAStar nodes (Some st) (Some tg) trace' boardArray
      = Some (o', s')
    ∧ (o = ReturnSuccess ↔ o' = OptimizedAStar.ReturnSuccess)
    ∧ (o = ReturnSuccess →
       distance <$> lookupNode (Improved.nodes s) tg
       = distance <$> lookupNode (OptimizedAStar.nodes s') tg).
Proof.
  intros Hids Hfresh Hunrelaxed Hsmall Hboard Hkeys Hstart Htarget Hne.
  edestruct (astar_searching boardArray nodes st tg) as (o & s & Hrun & Hres);
    [eassumption..|].
  edestruct (optimizedAStar_searching boardArray nodes st tg) as (o' & s' & Hrun' & Hres');
    [eassumption..|].
  exists o, s, o', s'. split; [exact Hrun|]. split; [exact Hrun'|].
  destruct Hres as [[-> Hfound]|[Hno Hnone]]; destruct Hres' as [[-> Hfound']|[-> Hnone']].
  - split; [done|]. intros _.
    eapply (found_cost boardArray nodes st tg) in Hfound; try eassumption.
    eapply (found_cost boardArray nodes st tg) in Hfound'; try eassumption.
    destruct Hfound as (n & g & Hn & Hg & Hr & Hopt).
    destruct Hfound' as (n' & g' & Hn' & Hg' & Hr' & Hopt').
    rewrite Hn, Hn'. simpl. rewrite Hg, Hg'.
    specialize (Hopt _ Hr'). specialize (Hopt' _ Hr). do 2 f_equal. lia.
  - eapply (found_cost boardArray nodes st tg) in Hfound; try eassumption.
    destruct Hfound as (n & g & _ & _ & Hr & _). destruct Hnone'. eauto.
  - eapply (found_cost boardArray nodes st tg) in Hfound'; try eassumption.
    destruct Hfound' as (n & g & _ & _ & Hr & _). destruct Hnone. eauto.
  - split; [done|]. intros ->. done.
Qed.

End CheapestTheorems.

Section CheapestWitness.

Import Improved.

Lemma weightedGrid_has_nodes : board_has_nodes (Fixture.fullBoard 4 4) weightedGrid.
Proof.
  intros i j. rewrite inBoard_fullBoard. intros [Hi Hj].
  assert (i = 0 ∨ i = 1 ∨ i = 2 ∨ i = 3) as [-> | [-> | [-> | ->]]] by lia;
  assert (j = 0 ∨ j = 1 ∨ j = 2 ∨ j = 3) as [-> | [-> | [-> | ->]]] by lia;
  vm_compute; eauto.
Qed.

Lemma weightedGrid_keys : keys_listed weightedGrid.
Proof.
  intros k. split.
  - intros Hk. vm_compute in Hk.
    repeat (apply elem_of_cons in Hk as [->|Hk]; [vm_compute; eauto|]).
    inversion Hk.
  - intros [n Hn]. unfold lookupNode in Hn.
    apply (map_Forall_lookup_1 (λ k _, k ∈ okeys weightedGrid) _ k n) in Hn; [done|].
    apply (bool_decide_unpack _). vm_compute. exact I.
Qed.

(** Down the left edge and along the bottom row. *)
Lemma weightedGrid_reachable :
  reachable (Fixture.fullBoard 4 4) weightedGrid (0, 0) (3, 3).
Proof.
  assert (Hmove : ∀ a d, d ∈ cardinal →
            let b := (a.1 + d.1, a.2 + d.2) in
            inBoard (Fixture.fullBoard 4 4) b.1 b.2 = true →
            (∃ n, lookupNode weightedGrid b = Some n ∧ status n ≠ Wall) →
            edge (Fixture.fullBoard 4 4) weightedGrid a b).
  { intros a d Hd b Hin (n & Hn & Hw). exists d, n. done. }
  assert (Hd : (1, 0) ∈ cardinal) by (apply (bool_decide_unpack _); vm_compute; exact I).
  assert (Hr : (0, 1) ∈ cardinal) by (apply (bool_decide_unpack _); vm_compute; exact I).
  apply rtc_l with (1, 0).
  { apply (Hmove (0, 0) (1, 0) Hd); [reflexivity|]. eexists. split; [reflexivity|done]. }
  apply rtc_l with (2, 0).
  { apply (Hmove (1, 0) (1, 0) Hd); [reflexivity|]. eexists. split; [reflexivity|done]. }
  apply rtc_l with (3, 0).
  { apply (Hmove (2, 0) (1, 0) Hd); [reflexivity|]. eexists. split; [reflexivity|done]. }
  apply rtc_l with (3, 1).
  { apply (Hmove (3, 0) (0, 1) Hr); [reflexivity|]. eexists. split; [reflexivity|done]. }
  apply rtc_l with (3, 2).
  { apply (Hmove (3, 1) (0, 1) Hr); [reflexivity|]. eexists. split; [reflexivity|done]. }
  apply rtc_once.
  apply (Hmove (3, 2) (0, 1) Hr); [reflexivity|]. eexists. split; [reflexivity|done].
Qed.

Lemma astar_finds_a_cheapest_path_witness :
  ∃ s n g p,
    astar weightedGrid (Some (0, 0)) (Some (3, 3)) [] (Fixture.fullBoard 4 4)
      manhattanDistance = Some (ReturnSuccess, s)
    ∧ lookupNode (Improved.nodes s) (3, 3) = Some n ∧ distance n = JS.Fin g
    ∧ (∀ fuel, (length p ≤ fuel)%nat →
         Utils.getShortestPath fuel (Improved.nodes s) (Some (3, 3)) = Some (JS.Ok p))
    ∧ head p = Some (0, 0) ∧ last p = Some (3, 3)
    ∧ walk (Fixture.fullBoard 4 4) weightedGrid p ∧ walk_cost weightedGrid p = g
    ∧ ∀ q, head q = Some (0, 0) → last q = Some (3, 3) →
           walk (Fixture.fullBoard 4 4) weightedGrid q → g ≤ walk_cost weightedGrid q.
Proof.
  apply (astar_finds_a_cheapest_path weightedGrid (0, 0) (3, 3) [] (Fixture.fullBoard 4 4)).
  - apply (bool_decide_unpack _). vm_compute. exact I.
  - apply (bool_decide_unpack _). vm_compute. exact I.
  - unfold unrelaxed. apply (bool_decide_unpack _). vm_compute. exact I.
  - apply (bool_decide_unpack _). vm_compute. exact I.
  - exact weightedGrid_has_nodes.
  - exact weightedGrid_keys.
  - eexists. split; [reflexivity|]. vm_compute. discriminate.
  - discriminate.
  - exact weightedGrid_reachable.
Defined.


Lemma optimizedAStar_finds_a_cheapest_path_witness :
  ∃ s n g p,
    OptimizedAStar.optimizedAStar weightedGrid (Some (0, 0)) (Some (3, 3)) []
      (Fixture.fullBoard 4 4) = Some (OptimizedAStar.ReturnSuccess, s)
    ∧ lookupNode (OptimizedAStar.nodes s) (3, 3) = Some n ∧ distance n = JS.Fin g
    ∧ (∀ fuel, (length p ≤ fuel)%nat →
         Utils.getShortestPath fuel (OptimizedAStar.nodes s) (Some (3, 3))
         = Some (JS.Ok p))
    ∧ head p = Some (0, 0) ∧ last p = Some (3, 3)
    ∧ walk (Fixture.fullBoard 4 4) weightedGrid p ∧ walk_cost weightedGrid p = g
    ∧ ∀ q, head q = Some (0, 0) → last q = Some (3, 3) →
           walk (Fixture.fullBoard 4 4) weightedGrid q → g ≤ walk_cost weightedGrid q.
Proof.
  apply (optimizedAStar_finds_a_cheapest_path weightedGrid (0, 0) (3, 3) []
           (Fixture.fullBoard 4 4)).
  - apply (bool_decide_unpack _). vm_compute. exact I.
  - apply (bool_decide_unpack _). vm_compute. exact I.
  - unfold unrelaxed. apply (bool_decide_unpack _). vm_compute. exact I.
  - apply (bool_decide_unpack _). vm_compute. exact I.
  - exact weightedGrid_has_nodes.
  - eexists. split; [reflexivity|]. vm_compute. discriminate.
  - discriminate.
  - exact weightedGrid_reachable.
Defined.

Lemma astar_and_optimizedAStar_agree_witness :
  ∃ o s o' s',
    astar weightedGrid (Some (0, 0)) (Some (3, 3)) [] (Fixture.fullBoard 4 4)
      manhattanDistance = Some (o, s)
    ∧ OptimizedAStar.optimizedAStar weightedGrid (Some (0, 0)) (Some (3, 3)) []
        (Fixture.fullBoard 4 4) = Some (o', s')
    ∧ (o = ReturnSuccess ↔ o' = OptimizedAStar.ReturnSuccess)
    ∧ (o = ReturnSuccess →
       distance <$> lookupNode (Improved.nodes s) (3, 3)
       = distance <$> lookupNode (OptimizedAStar.nodes s') (3, 3)).
Proof.
  apply (astar_and_optimizedAStar_agree weightedGrid (0, 0) (3, 3) [] []
           (Fixture.fullBoard 4 4)).
  - apply (bool_decide_unpack _). vm_compute. exact I.
  - apply (bool_decide_unpack _). vm_compute. exact I.
  - unfold unrelaxed. apply (bool_decide_unpack _). vm_compute. exact I.
  - apply (bool_decide_unpack _). vm_compute. exact I.
  - exact weightedGrid_has_nodes.
  - exact weightedGrid_keys.
  - eexists. split; [reflexivity|]. vm_compute. discriminate.
  - vm_compute. eauto.
  - discriminate.
Defined.

End CheapestWitness.

(** ** The loops of the two classes end *)

Section ModernTermination.

Import ModernAStar.

Variable options : Options.
Variable boardArray : Board.
Variable targetId : Id.

Lemma map_delete_length (m : NumMap) (k : Id) :
  k ∈ m.*1 → S (length (map_delete m k)) = length m.
Proof.
  induction m as [|[k1 v1] m IH]; simpl.
  - intros H. apply elem_of_nil in H. done.
  - intros H. destruct (decide (k1 = k)); [done|].
    apply elem_of_cons in H as [->|H]; [done|]. simpl. rewrite IH; done.
Qed.

Lemma map_set_length (m : NumMap) (k : Id) (v : JS.Num) :
  (length (map_set m k v) ≤ S (length m))%nat.
Proof.
  induction m as [|[k1 v1] m IH]; simpl; [lia|].
  destruct (decide (k1 = k)); simpl; lia.
Qed.

Lemma modern_getNeighbors_from_length (nodes : NodeDict) (x y : Z) :
  ∀ directions neighbors result,
    getNeighbors_from nodes boardArray x y directions neighbors = JS.Ok result →
    (length result ≤ length neighbors + length directions)%nat.
Proof.
  induction directions as [|[dx dy] rest IH]; intros neighbors result H; simpl in H.
  - injection H as <-. lia.
  - simpl. repeat case_match; try done; apply IH in H;
      rewrite ?length_app in H; simpl in H; lia.
Qed.

Lemma dom_assign (k : Id) (v : Node) (nodes : NodeDict) :
  is_Some (lookupNode nodes k) → dom (oget (assign k v nodes)) = dom (oget nodes).
Proof.
  intros Hk. unfold assign. simpl. rewrite dom_insert_L.
  apply subseteq_union_1_L. apply singleton_subseteq_l. apply elem_of_dom. exact Hk.
Qed.

(** What the [forEach] callback leaves of the dictionary and of the map. *)
Definition widened (n : nat) (before after : NodeDict * NumMap) : Prop :=
  dom (oget after.1) = dom (oget before.1)
  ∧ (length after.2 ≤ length before.2 + n)%nat.

Lemma updateNeighbor_widened (currentId : Id) (currentNode : Node) (visitedSet : gset Id)
    (nodes : NodeDict) (m : NumMap) (neighborId : Id) (r : NodeDict * NumMap) :
  updateNeighbor options currentId currentNode targetId visitedSet nodes m neighborId
  = JS.Normal r
  ∨ updateNeighbor options currentId currentNode targetId visitedSet nodes m neighborId
    = JS.Abrupt r →
  widened 1 (nodes, m) r.
Proof.
  unfold updateNeighbor, widened.
  destruct (decide (neighborId ∈ visitedSet)).
  { intros [[= <-]|[=]]. simpl. split; [done|lia]. }
  destruct (lookupNode nodes neighborId) as [neighborNode|] eqn:Hn.
  2: { intros [[=]|[= <-]]. simpl. split; [done|lia]. }
  destruct (getDistance currentNode neighborNode) as [[cost steps] heading].
  destruct (JS.ltb _ _).
  2: { intros [[= <-]|[=]]. simpl. split; [done|lia]. }
  set (updated := mkNode _ _ _ _ _ _ _ _ _).
  assert (Hd1 : dom (oget (assign neighborId updated nodes)) = dom (oget nodes))
    by (apply dom_assign; eauto).
  assert (Hd2 : ∀ v, dom (oget (assign neighborId v (assign neighborId updated nodes)))
                     = dom (oget nodes)).
  { intros v. rewrite dom_assign; [done|]. rewrite lookupNode_assign, decide_True by done.
    eauto. }
  destruct (decide (heuristicDistance neighborNode = JS.Undefined)).
  - destruct (lookupNode (assign neighborId updated nodes) targetId).
    + intros [[= <-]|[=]]. cbn [fst snd]. split; [apply Hd2|].
      rewrite Nat.add_1_r. apply map_set_length.
    + intros [[=]|[= <-]]. cbn [fst snd]. split; [done|lia].
  - intros [[= <-]|[=]]. cbn [fst snd]. split; [apply Hd2|].
    rewrite Nat.add_1_r. apply map_set_length.
Qed.

Lemma updateNeighbors_each_widened (currentId : Id) (currentNode : Node)
    (visitedSet : gset Id) (neighbors : list Id) :
  ∀ nodes m r,
    updateNeighbors_each options currentId currentNode targetId visitedSet nodes m neighbors
    = JS.Normal r
    ∨ updateNeighbors_each options currentId currentNode targetId visitedSet nodes m neighbors
      = JS.Abrupt r →
    widened (length neighbors) (nodes, m) r.
Proof.
  induction neighbors as [|nb rest IH]; intros nodes m r H; simpl in H.
  - destruct H as [[= <-]|[=]]. unfold widened. simpl. split; [done|lia].
  - destruct (updateNeighbor options currentId currentNode targetId visitedSet nodes m nb)
      as [[nodes1 m1]|r1] eqn:H1.
    + destruct (updateNeighbor_widened currentId currentNode visitedSet nodes m nb
                  (nodes1, m1) (or_introl H1)) as [Hd Hl].
      apply IH in H as [Hd' Hl']. unfold widened in *. simpl in *.
      split; [congruence|lia].
    + destruct H as [[=]|[= <-]].
      destruct (updateNeighbor_widened currentId currentNode visitedSet nodes m nb
                  r1 (or_intror H1)) as [Hd Hl].
      unfold widened in *. simpl in *. split; [done|lia].
Qed.

Lemma updateNeighbors_widened (currentId : Id) (nodes : NodeDict) (m : NumMap)
    (visitedSet : gset Id) (r : NodeDict * NumMap) :
  updateNeighbors options currentId nodes boardArray targetId m visitedSet = JS.Normal r
  ∨ updateNeighbors options currentId nodes boardArray targetId m visitedSet = JS.Abrupt r →
  widened 8 (nodes, m) r.
Proof.
  unfold updateNeighbors.
  destruct (lookupNode nodes currentId) as [currentNode|].
  2: { intros [[=]|[= <-]]. unfold widened. simpl. split; [done|lia]. }
  destruct (getNeighbors options currentId nodes boardArray) as [neighbors|] eqn:Hn.
  2: { intros [[=]|[= <-]]. unfold widened. simpl. split; [done|lia]. }
  intros H. apply updateNeighbors_each_widened in H as [Hd Hl].
  apply modern_getNeighbors_from_length in Hn.
  assert (length neighbors ≤ 8)%nat.
  { destruct (allowDiagonal options); simpl in Hn; lia. }
  unfold widened in *. simpl in *. split; [done|lia].
Qed.

(** The measure of the loop: the entries of the map, and nine for every
    node that is not in the visited set. *)
Definition modern_workLeft (s : State) : nat :=
  (length (unvisitedMap s) + 9 * size (dom (oget (nodes s)) ∖ visitedSet s))%nat.

Lemma execute_loop_ends (fuel : nat) :
  ∀ s, (modern_workLeft s ≤ fuel)%nat →
  ∃ r, ∀ extra, execute_loop options boardArray targetId (fuel + extra) s = Some r.
Proof.
  induction fuel as [|fuel IH]; intros s Hfuel.
  - destruct (unvisitedMap s) as [|[k v] rest] eqn:Hm.
    + exists (ReturnFalse, s). intros extra. destruct (0 + extra)%nat; simpl; rewrite Hm; done.
    + unfold modern_workLeft in Hfuel. rewrite Hm in Hfuel. simpl in Hfuel. lia.
  - destruct (findNodeWithLowestDistance (unvisitedMap s)) as [currentId|] eqn:Hfind.
    2: { exists (ReturnFalse, s). intros extra. simpl. rewrite Hfind. done. }
    pose proof (map_delete_length _ _ (findNodeWithLowestDistance_elem _ _ Hfind)) as Hdel.
    set (s1 := {| nodes := nodes s; nodesToAnimate := nodesToAnimate s;
                  visitedSet := visitedSet s;
                  unvisitedMap := map_delete (unvisitedMap s) currentId;
                  stub := stub s |}).
    assert (Hs1 : (modern_workLeft s1 ≤ fuel)%nat).
    { unfold modern_workLeft in *. simpl. lia. }
    destruct (lookupNode (nodes s) currentId) as [currentNode|] eqn:Hcur.
    2: { exists (Throws, s1). intros extra. simpl. rewrite Hfind, Hcur. done. }
    destruct (bool_decide (status currentNode = Wall)
              || bool_decide (currentId ∈ visitedSet s)) eqn:Hskip.
    { destruct (IH s1 Hs1) as [r Hr]. exists r. intros extra. simpl.
      rewrite Hfind, Hcur, Hskip. apply Hr. }
    apply orb_false_iff in Hskip as Hskip'. destruct Hskip' as [_ Hv].
    apply bool_decide_eq_false in Hv.
    destruct (JS.eqb (distance currentNode) JS.Infinity) eqn:Hinf.
    { exists (ReturnFalse, s1). intros extra. simpl. rewrite Hfind, Hcur, Hskip, Hinf. done. }
    destruct (bool_decide (currentId = targetId)) eqn:Htg.
    { eexists. intros extra. simpl. rewrite Hfind, Hcur, Hskip, Hinf, Htg. done. }
    destruct (updateNeighbors options currentId (mutate (set_status Visited) currentId (nodes s))
                boardArray targetId (map_delete (unvisitedMap s) currentId)
                ({[currentId]} ∪ visitedSet s)) as [[nodes3 map3]|[nodes3 map3]] eqn:Hup.
    2: { eexists. intros extra. simpl. rewrite Hfind, Hcur, Hskip, Hinf, Htg. simpl.
         rewrite Hup. done. }
    destruct (updateNeighbors_widened _ _ _ _ (nodes3, map3) (or_introl Hup)) as [Hd Hl].
    simpl in Hd, Hl.
    destruct (IH {| nodes := nodes3; nodesToAnimate := nodesToAnimate s ++ [currentId];
                    visitedSet := {[currentId]} ∪ visitedSet s; unvisitedMap := map3;
                    stub := stub s |}) as [r Hr].
    { unfold modern_workLeft in *. simpl. rewrite Hd, dom_alter_L.
      rewrite (size_difference_visit _ (visitedSet s) currentId) in Hfuel; [lia| |done].
      apply elem_of_dom. unfold lookupNode in Hcur. eauto. }
    exists r. intros extra. simpl. rewrite Hfind, Hcur, Hskip, Hinf, Htg. simpl.
    rewrite Hup. apply Hr.
Qed.

End ModernTermination.

Section ModernTerminationTheorem.

Import ModernAStar.

(** X20.  [execute] of the ES6 class always returns or raises: on a
    dictionary of [n] nodes its loop makes at most [9 n + 1] turns, and with
    fuel for that many turns or more the result is the same. *)
Theorem modern_execute_terminates (options : Options) (nodes : NodeDict)
    (startId targetId : option Id) (boardArray : Board) :
  ∃ r, ∀ extra,
    execute options (9 * size (oget nodes) + 1 + extra) nodes startId targetId boardArray
    = Some r.
Proof.
  unfold execute. destruct startId as [s|], targetId as [t|]; eauto.
  destruct (bool_decide (s = t)); eauto.
  destruct (lookupNode nodes s) as [startNode|] eqn:Hs.
  - apply execute_loop_ends. unfold modern_workLeft. simpl.
    rewrite dom_insert_L, difference_empty_L.
    rewrite (subseteq_union_1_L {[s]}), size_dom; [lia|].
    apply singleton_subseteq_l. apply elem_of_dom. unfold lookupNode in Hs. eauto.
  - destruct (getNeighbors options s nodes boardArray) as [[|]|]; eauto.
Qed.

End ModernTerminationTheorem.

Section ClassTermination.

Import ClassAStar.

Variable boardArray : Board.
Variable target : Id.

Lemma class_findClosestNode_length (nodes : NodeDict) (unvisited unvisited' : list Id)
    (r : option Id) :
  findClosestNode nodes unvisited = JS.Ok (r, unvisited') → unvisited ≠ [] →
  S (length unvisited') = length unvisited.
Proof.
  intros H Hne. apply class_findClosestNode_selected in H.
  destruct r as [ref|].
  - destruct H as (index & cur & Hidx & -> & _).
    rewrite length_delete by eauto. apply lookup_lt_Some in Hidx. lia.
  - destruct H as [-> _]. destruct unvisited; [done|]. simpl. done.
Qed.

Lemma skipWalls_total (fuel : nat) :
  ∀ nodes currentNode unvisited, (length unvisited ≤ fuel)%nat →
  ∃ r, skipWalls fuel nodes currentNode unvisited = Some r
       ∧ ∀ c unvisited1, r = JS.Ok (c, unvisited1) →
           (length unvisited1 ≤ length unvisited)%nat.
Proof.
  induction fuel as [|fuel IH]; intros nodes currentNode unvisited Hlen.
  - simpl. destruct (currentNode ≫= lookupNode nodes) as [cur|]; [|eexists; split; done].
    destruct (bool_decide (status cur = Wall) && negb (bool_decide (unvisited = []))) eqn:Hw.
    2: { eexists. split; [done|]. intros c u1 [= <- <-]. done. }
    apply andb_true_iff in Hw as [_ Hne]. apply negb_true_iff, bool_decide_eq_false in Hne.
    destruct unvisited; [done|simpl in Hlen; lia].
  - simpl. destruct (currentNode ≫= lookupNode nodes) as [cur|]; [|eexists; split; done].
    destruct (bool_decide (status cur = Wall) && negb (bool_decide (unvisited = []))) eqn:Hw.
    2: { eexists. split; [done|]. intros c u1 [= <- <-]. done. }
    apply andb_true_iff in Hw as [_ Hne]. apply negb_true_iff, bool_decide_eq_false in Hne.
    destruct (findClosestNode nodes unvisited) as [[next unvisited1]|] eqn:Hf;
      [|eexists; split; done].
    apply class_findClosestNode_length in Hf; [|done].
    destruct (IH nodes next unvisited1) as (r & Hr & Hle); [lia|].
    exists r. split; [done|]. intros c u1 E. specialize (Hle c u1 E). lia.
Qed.

Lemma class_execute_loop_total (fuel : nat) :
  ∀ s, (length (unvisitedNodes s) ≤ fuel)%nat →
  ∃ o s', execute_loop fuel boardArray target s = Some (o, s')
          ∧ (o = ReturnUndefined → unvisitedNodes s' = []).
Proof.
  induction fuel as [|fuel IH]; intros s Hlen.
  - destruct (unvisitedNodes s) eqn:Hu; [|simpl in Hlen; lia].
    simpl. rewrite Hu. eauto.
  - simpl. destruct (unvisitedNodes s) as [|k rest] eqn:Hu; [eauto|].
    destruct (findClosestNode (nodes s) (k :: rest)) as [[first unvisited0]|] eqn:Hf.
    2: { eexists _, _. split; [done|done]. }
    apply class_findClosestNode_length in Hf; [|done].
    destruct (skipWalls_total fuel (nodes s) first unvisited0) as (r & -> & Hle).
    { simpl in *. lia. }
    destruct r as [[currentNode unvisited1]|]; [|eexists _, _; split; done].
    specialize (Hle _ _ eq_refl).
    destruct currentNode as [ref|]; [|eexists _, _; split; done]. simpl.
    destruct (lookupNode (nodes s) ref) as [cur|]; [|eexists _, _; split; done].
    destruct (JS.eqb (distance cur) JS.Infinity); [eexists _, _; split; done|].
    destruct (decide (id cur = target)); [eexists _, _; split; done|].
    destruct (updateNeighbors _ _ _ _) as [nodes3|nodes3]; [|eexists _, _; split; done].
    apply IH. simpl in *. lia.
Qed.

End ClassTermination.

Section ClassTerminationTheorem.

Import ClassAStar.

(** X21.  [AStar.execute] of the class hierarchy always returns or raises:
    neither the main loop nor the loop that skips walls runs for ever.  It
    returns [undefined], by falling off the end of the main loop, only when
    [unvisitedNodes] has been emptied. *)
Theorem class_execute_terminates (nodes : NodeDict) (boardArray : Board)
    (nodesToAnimate : list Id) (start target : option Id) :
  ∃ o s', execute nodes boardArray nodesToAnimate start target = Some (o, s')
          ∧ (o = ReturnUndefined → unvisitedNodes s' = []).
Proof.
  unfold execute. destruct start as [s|], target as [t|];
    try (eexists _, _; split; [reflexivity|done]).
  destruct (bool_decide (s = t)); [eexists _, _; split; [reflexivity|done]|].
  destruct (lookupNode nodes s); [|eexists _, _; split; [reflexivity|done]].
  apply class_execute_loop_total. simpl. lia.
Qed.

End ClassTerminationTheorem.

Section SelectionWitnesses.

(** A frontier of three entries. *)
Definition sampleMap : ModernAStar.NumMap :=
  [((0, 0), JS.Fin 3); ((0, 1), JS.Fin 1); ((0, 2), JS.Fin 2)].

Lemma findNodeWithLowestDistance_lowest_witness :
  ∃ v, ModernAStar.map_get sampleMap (0, 1) = Some v
       ∧ ∀ e, e ∈ sampleMap → JS.ltb e.2 v = false.
Proof.
  apply (findNodeWithLowestDistance_lowest sampleMap (0, 1)).
  - apply (bool_decide_unpack _). vm_compute. exact I.
  - reflexivity.
Defined.

End SelectionWitnesses.

Section UtilityCost.

(** X23.  [calculateNodeDistance] of the utilities prices a move between
    adjacent cells of a board by the heading: 1 when the move keeps the
    heading of the first node, 2 otherwise, with the single instruction ["f"]
    and the direction of the move as the new heading; on every pair of nodes
    whose ids name a row and a column it returns what [AStar.getDistance]
    returns. *)
Theorem calculateNodeDistance_prices_turns (nodeOne nodeTwo : Node) (d : Direction) :
  canonical (id nodeOne) → canonical (id nodeTwo) →
  id nodeTwo = step_to d (id nodeOne) →
  Utils.calculateNodeDistance nodeOne nodeTwo
  = (if decide (direction nodeOne = Some d) then 1 else 2, [forward], Some d)
  ∧ ∀ a b, canonical (id a) → canonical (id b) →
           Utils.calculateNodeDistance a b = ClassAStar.getDistance a b.
Proof.
  intros _ _ Hd. split.
  - rewrite (proj1 (sibling_cost_models nodeOne nodeTwo)).
    apply getDistance_adjacent. done.
  - intros a b _ _. apply sibling_cost_models.
Qed.

Lemma calculateNodeDistance_prices_turns_witness :
  Utils.calculateNodeDistance (Fixture.facing (2, 1) Right) (newNode (1, 1) Unvisited)
  = (if decide (direction (Fixture.facing (2, 1) Right) = Some Up) then 1 else 2,
     [forward], Some Up)
  ∧ ∀ a b, canonical (id a) → canonical (id b) →
           Utils.calculateNodeDistance a b = ClassAStar.getDistance a b.
Proof.
  apply (calculateNodeDistance_prices_turns (Fixture.facing (2, 1) Right)
           (newNode (1, 1) Unvisited) Up).
  - apply (bool_decide_unpack _). vm_compute. exact I.
  - apply (bool_decide_unpack _). vm_compute. exact I.
  - reflexivity.
Defined.

End UtilityCost.

(** ** Every search reaches what can be reached *)

(** A grid on which no search has run: no cell has a cost. *)
Definition unsearched (nodes : NodeDict) : Prop :=
  map_Forall (λ _ n, distance n = JS.Infinity ∧ totalDistance n = JS.Infinity)
             (oget nodes).

#[global] Instance unsearched_dec (nodes : NodeDict) : Decision (unsearched nodes).
Proof. unfold unsearched. apply _. Defined.

Section Complete.

Import Improved.

Variable boardArray : Board.
Variable nodes0 : NodeDict.
Variable st : Id.

Hypothesis Hids : ids_match nodes0.
Hypothesis Hfresh : unsearched nodes0.
Hypothesis Hboard : board_has_nodes boardArray nodes0.
Hypothesis Hstart : ∃ n, lookupNode nodes0 st = Some n ∧ status n ≠ Wall.

Local Abbreviation Edge := (edge boardArray nodes0).
Local Abbreviation Reach := (reachable boardArray nodes0 st).

(** What holds of the store while the cell [u] is expanded ([todo] holds
    the neighbours still to be relaxed) and between two turns ([todo] is
    empty): the cells of [C] have been expanded; a cell has a cost only if
    moves lead to it, and then its [totalDistance] is a number too. *)
Record live (C : list Id) (u : Id) (todo : list Id) (nodes : NodeDict) : Prop := {
  live_dom : ∀ k, is_Some (lookupNode nodes k) ↔ is_Some (lookupNode nodes0 k);
  live_same : ∀ k n n0, lookupNode nodes k = Some n → lookupNode nodes0 k = Some n0 →
      id n = k ∧ (status n = Wall ↔ status n0 = Wall);
  live_start : ∃ n g, lookupNode nodes st = Some n ∧ distance n = JS.Fin g;
  live_cost : ∀ k n, lookupNode nodes k = Some n →
      match distance n with
      | JS.Fin _ => Reach k ∧ ∃ f, totalDistance n = JS.Fin f
      | JS.Infinity => totalDistance n = JS.Infinity
      | JS.NaN => False
      end;
  live_closed : ∀ k, k ∈ C → ∃ n g, lookupNode nodes k = Some n ∧ distance n = JS.Fin g;
  live_expanded : ∀ k v, k ∈ C → Edge k v →
      (k = u ∧ v ∈ todo)
      ∨ ∃ vn gv, lookupNode nodes v = Some vn ∧ distance vn = JS.Fin gv }.

(** The store in which the start has been given a cost. *)
Lemma live_started (nodes' : NodeDict) (sN R : Node) :
  lookupNode nodes0 st = Some sN →
  (∀ k, lookupNode nodes' k = if decide (st = k) then Some R else lookupNode nodes0 k) →
  id R = id sN → status R = status sN →
  (∃ g, distance R = JS.Fin g) → (∃ f, totalDistance R = JS.Fin f) →
  live [] st [] nodes'.
Proof.
  intros HsN Hl Rid Rst [g Hg] [f Hf]. split.
  - intros k. rewrite Hl. destruct (decide (st = k)) as [<-|]; [|done].
    split; intros _; eauto.
  - intros k n n0 Hn Hn0. rewrite Hl in Hn. pose proof (Hids k n0 Hn0) as Hid.
    destruct (decide (st = k)) as [<-|].
    + injection Hn as <-. assert (n0 = sN) as -> by congruence. rewrite Rid, Rst.
      split; [done|tauto].
    + assert (n = n0) as -> by congruence. done.
  - exists R, g. rewrite Hl, decide_True by done. done.
  - intros k n Hn. rewrite Hl in Hn. destruct (decide (st = k)) as [<-|].
    + injection Hn as <-. rewrite Hg. split; [apply rtc_refl|eauto].
    + destruct (Hfresh k n Hn) as [-> ->]. done.
  - intros k Hk. apply elem_of_nil in Hk. done.
  - intros k v Hk. apply elem_of_nil in Hk. done.
Qed.

Lemma live_initial : live [] st [] (initializeStartNode nodes0 st).
Proof.
  destruct Hstart as (sN & HsN & _).
  apply (live_started _ sN
           {| id := id sN; status := status sN; previousNode := previousNode sN;
              path := path sN; direction := Some Up; distance := JS.Fin 0;
              totalDistance := JS.Fin 0; heuristicDistance := heuristicDistance sN;
              weight := weight sN |}); simpl; eauto.
  intros k. unfold initializeStartNode. rewrite lookupNode_mutate.
  destruct (decide (st = k)) as [<-|]; [rewrite HsN|]; done.
Qed.

(** A cell that has a cost is no wall. *)
Lemma live_free (C : list Id) (u : Id) (todo : list Id) (nodes : NodeDict)
    (k : Id) (n : Node) (g : Z) :
  live C u todo nodes → lookupNode nodes k = Some n → distance n = JS.Fin g →
  status n ≠ Wall.
Proof.
  intros HL Hn Hg. pose proof (live_cost _ _ _ _ HL k n Hn) as Hc. rewrite Hg in Hc.
  destruct Hc as [Hr _].
  destruct (proj1 (live_dom _ _ _ _ HL k)) as [n0 Hn0]; [eauto|].
  rewrite (proj2 (live_same _ _ _ _ HL k n n0 Hn Hn0)).
  apply rtc_inv_r in Hr as [<-|(b & _ & d & n1 & _ & _ & _ & Hn1 & Hw)].
  - destruct Hstart as (sN & HsN & Hw). congruence.
  - congruence.
Qed.

Section Relax.

(** The heuristic and the cost of a step, as the rendition has them. *)
Variable heuristic : Node → Node → Z.
Variable stepCost : Node → Node → Z * list Move * option Direction.

Lemma withHeuristic_number (nb tgN : Node) :
  ∃ z, JS.toNumber (heuristicDistance (withHeuristic heuristic nb tgN)) = JS.Fin z.
Proof.
  unfold withHeuristic. destruct (JS.falsy (heuristicDistance nb)) eqn:Hf; simpl; [eauto|].
  destruct (heuristicDistance nb); try done. simpl. eauto.
Qed.

(** Storing at the neighbour [v] of the closed cell [u] an object that has
    a cost and the id and the status of the one it replaces. *)
Lemma live_update (C : list Id) (u v : Id) (todo : list Id) (nodes nodes' : NodeDict)
    (vN R : Node) :
  live C u (v :: todo) nodes → u ∈ C → Edge u v →
  lookupNode nodes v = Some vN →
  (∀ k, lookupNode nodes' k = if decide (v = k) then Some R else lookupNode nodes k) →
  id R = id vN → status R = status vN →
  (∃ g, distance R = JS.Fin g) → (∃ f, totalDistance R = JS.Fin f) →
  live C u todo nodes'.
Proof.
  intros HL Hu He HvN Hlook Rid Rst [g' Hg'] [f' Hf'].
  destruct (live_closed _ _ _ _ HL u Hu) as (uN & gu & HuN & Hgu).
  pose proof (live_cost _ _ _ _ HL u uN HuN) as Hcu. rewrite Hgu in Hcu.
  destruct Hcu as [Hru _].
  assert (Hafter : ∀ k n g, lookupNode nodes k = Some n → distance n = JS.Fin g →
            ∃ n' g', lookupNode nodes' k = Some n' ∧ distance n' = JS.Fin g').
  { intros k n g Hk Hg. rewrite Hlook. destruct (decide (v = k)); eauto. }
  split.
  - intros k. rewrite Hlook. destruct (decide (v = k)) as [<-|]; [|apply (live_dom _ _ _ _ HL)].
    rewrite <- (live_dom _ _ _ _ HL v). split; intros _; eauto.
  - intros k n n0 Hn Hn0. rewrite Hlook in Hn. destruct (decide (v = k)) as [<-|].
    + injection Hn as <-. rewrite Rid, Rst. apply (live_same _ _ _ _ HL v vN n0 HvN Hn0).
    + apply (live_same _ _ _ _ HL k n n0 Hn Hn0).
  - destruct (live_start _ _ _ _ HL) as (n & g & Hn & Hg). apply (Hafter st n g Hn Hg).
  - intros k n Hn. rewrite Hlook in Hn. destruct (decide (v = k)) as [<-|].
    + injection Hn as <-. rewrite Hg'. split; [|eauto]. eapply rtc_r; eauto.
    + apply (live_cost _ _ _ _ HL k n Hn).
  - intros k Hk. destruct (live_closed _ _ _ _ HL k Hk) as (n & g & Hn & Hg).
    apply (Hafter k n g Hn Hg).
  - intros k w Hk Hkw.
    destruct (live_expanded _ _ _ _ HL k w Hk Hkw) as [[-> Hin]|(wn & gw & Hwn & Hgw)].
    + apply elem_of_cons in Hin as [->|Hin]; [right|left; done].
      exists R, g'. rewrite Hlook, decide_True by done. done.
    + right. apply (Hafter w wn gw Hwn Hgw).
Qed.

(** One relaxation attempt from the closed cell [u] on its neighbour [v]:
    whatever the heuristic and the cost of the step, [v] has a cost
    afterwards. *)
Lemma live_relax (C : list Id) (u v : Id) (todo : list Id) (nodes : NodeDict)
    (uN vN tgN : Node) :
  live C u (v :: todo) nodes → u ∈ C → Edge u v →
  lookupNode nodes u = Some uN → lookupNode nodes v = Some vN →
  live C u todo (mutate (λ _, relaxed heuristic stepCost uN vN tgN) v nodes).
Proof.
  intros HL Hu He HuN HvN.
  destruct (live_closed _ _ _ _ HL u Hu) as (uN' & gu & HuN' & Hgu).
  assert (uN' = uN) as -> by congruence.
  set (R := relaxed heuristic stepCost uN vN tgN).
  destruct (relaxed_frame heuristic stepCost uN vN tgN) as (Rid & Rst & _).
  fold R in Rid, Rst.
  pose proof (live_cost _ _ _ _ HL v vN HvN) as Hcv.
  assert (HR : (∃ g, distance R = JS.Fin g) ∧ ∃ f, totalDistance R = JS.Fin f).
  { assert (Hcand : candidate stepCost uN vN
                    = JS.Fin (gu + weight vN + (stepCost uN vN).1.1)).
    { unfold candidate. rewrite Hgu. done. }
    destruct (JS.ltb (candidate stepCost uN vN) (distance vN)) eqn:Hlt.
    - destruct (relaxed_improves heuristic stepCost uN vN tgN Hlt) as (Rd & Rt & _).
      fold R in Rd, Rt. rewrite Rd, Rt, Hcand.
      destruct (withHeuristic_number vN tgN) as [z ->]. simpl. eauto.
    - destruct (relaxed_keeps heuristic stepCost uN vN tgN Hlt) as (Rd & Rt & _).
      fold R in Rd, Rt. rewrite Rd, Rt. rewrite Hcand in Hlt.
      destruct (distance vN) as [gv| |]; [|done|done].
      destruct Hcv as [_ Hf]. eauto. }
  destruct HR as [HRg HRf].
  eapply (live_update C u v todo nodes _ vN R); try done.
  intros k. rewrite lookupNode_mutate. destruct (decide (v = k)) as [<-|]; [|done].
  rewrite HvN. done.
Qed.

End Relax.

(** Closing a cell that has a cost and marking it visited. *)
Lemma live_visit (C : list Id) (u : Id) (nodes : NodeDict) (ref : Id) (cur : Node) (g : Z)
    (todo : list Id) :
  live C u [] nodes → lookupNode nodes ref = Some cur → distance cur = JS.Fin g →
  (∀ v, Edge ref v → v ∈ todo) →
  live (ref :: C) ref todo (mutate (set_status Visited) ref nodes).
Proof.
  intros HL Hcur Hg Htodo.
  pose proof (live_free _ _ _ _ _ _ _ HL Hcur Hg) as Hw.
  assert (Hlook : ∀ k, lookupNode (mutate (set_status Visited) ref nodes) k
                       = if decide (ref = k) then Some (set_status Visited cur)
                         else lookupNode nodes k).
  { intros k. rewrite lookupNode_mutate. destruct (decide (ref = k)) as [<-|]; [|done].
    rewrite Hcur. done. }
  assert (Hafter : ∀ k n g, lookupNode nodes k = Some n → distance n = JS.Fin g →
            ∃ n' g', lookupNode (mutate (set_status Visited) ref nodes) k = Some n'
                     ∧ distance n' = JS.Fin g').
  { intros k n g1 Hk Hg1. rewrite Hlook. destruct (decide (ref = k)) as [<-|]; [|eauto].
    assert (n = cur) as -> by congruence. eauto. }
  split.
  - intros k. rewrite Hlook. destruct (decide (ref = k)) as [<-|]; [|apply (live_dom _ _ _ _ HL)].
    rewrite <- (live_dom _ _ _ _ HL ref). split; intros _; eauto.
  - intros k n n0 Hn Hn0. rewrite Hlook in Hn. destruct (decide (ref = k)) as [<-|].
    + injection Hn as <-. simpl.
      destruct (live_same _ _ _ _ HL ref cur n0 Hcur Hn0) as [Hid Hs].
      split; [done|]. split; [done|]. intros Hw0. destruct Hw. apply Hs. done.
    + apply (live_same _ _ _ _ HL k n n0 Hn Hn0).
  - destruct (live_start _ _ _ _ HL) as (n & g1 & Hn & Hg1). apply (Hafter st n g1 Hn Hg1).
  - intros k n Hn. rewrite Hlook in Hn. destruct (decide (ref = k)) as [<-|].
    + injection Hn as <-. simpl. apply (live_cost _ _ _ _ HL ref cur Hcur).
    + apply (live_cost _ _ _ _ HL k n Hn).
  - intros k Hk. apply elem_of_cons in Hk as [->|Hk].
    + apply (Hafter ref cur g Hcur Hg).
    + destruct (live_closed _ _ _ _ HL k Hk) as (n & g1 & Hn & Hg1).
      apply (Hafter k n g1 Hn Hg1).
  - intros k w Hk Hkw. apply elem_of_cons in Hk as [->|Hk].
    + left. split; [done|]. apply Htodo. done.
    + destruct (live_expanded _ _ _ _ HL k w Hk Hkw) as [[_ Hin]|(wn & gw & Hwn & Hgw)].
      * apply elem_of_nil in Hin. done.
      * right. apply (Hafter w wn gw Hwn Hgw).
Qed.

(** Whatever can be reached is closed or lies behind a cell that has a
    cost and is not closed. *)
Lemma live_frontier (C : list Id) (u : Id) (nodes : NodeDict) (k : Id) :
  live C u [] nodes → Reach k →
  k ∈ C ∨ ∃ y yn f, (y ∉ C) ∧ lookupNode nodes y = Some yn ∧ status yn ≠ Wall
                     ∧ totalDistance yn = JS.Fin f.
Proof.
  intros HL Hr.
  assert (Hopen : ∀ y yn gy, lookupNode nodes y = Some yn → distance yn = JS.Fin gy →
            y ∈ C ∨ ∃ y yn f, (y ∉ C) ∧ lookupNode nodes y = Some yn ∧ status yn ≠ Wall
                               ∧ totalDistance yn = JS.Fin f).
  { intros y yn gy Hyn Hgy. destruct (decide (y ∈ C)); [left; done|right].
    pose proof (live_cost _ _ _ _ HL y yn Hyn) as Hc. rewrite Hgy in Hc.
    destruct Hc as [_ [f Hf]]. exists y, yn, f. split_and!; try done.
    eapply live_free; eauto. }
  apply (rtc_ind_r (R := edge boardArray nodes0)
           (λ k, k ∈ C ∨ ∃ y yn f, (y ∉ C) ∧ lookupNode nodes y = Some yn
                                     ∧ status yn ≠ Wall ∧ totalDistance yn = JS.Fin f) st);
    [| |done].
  - destruct (live_start _ _ _ _ HL) as (n & g & Hn & Hg). apply (Hopen st n g Hn Hg).
  - intros b k' _ He [Hb|?]; [|right; done].
    destruct (live_expanded _ _ _ _ HL b k' Hb He) as [[_ Hin]|(kn & gk & Hkn & Hgk)].
    + apply elem_of_nil in Hin. done.
    + apply (Hopen k' kn gk Hkn Hgk).
Qed.

(** The neighbours that the loop of [getNeighbors] lists, in whatever order
    it looks in the four directions, are the cells one move away. *)
Lemma getNeighbors_from_edges (directions : list (Z * Z)) (nodes : NodeDict) (ref : Id)
    (C : list Id) (u : Id) (todo : list Id) :
  (∀ d, d ∈ directions ↔ d ∈ cardinal) → live C u todo nodes →
  ∃ neighbors,
    Improved.getNeighbors_from nodes boardArray ref.1 ref.2 directions [] = JS.Ok neighbors
    ∧ ∀ v, v ∈ neighbors ↔ Edge ref v.
Proof.
  intros Hdirs HL. rewrite improved_getNeighbors_from_exact.
  assert (Hb : ∀ i j, inBoard boardArray i j = true → is_Some (lookupNode nodes (i, j))).
  { intros i j Hin. apply (live_dom _ _ _ _ HL). apply Hboard. done. }
  assert (Hnone : existsb (missing nodes boardArray ref.1 ref.2) directions = false).
  { apply not_true_is_false. intros H. apply existsb_exists in H as (d & _ & H).
    unfold missing in H. apply andb_true_iff in H as [Hin Hno].
    apply bool_decide_eq_true in Hno. destruct (Hb _ _ Hin) as [n Hn]. congruence. }
  rewrite Hnone. eexists. split; [done|]. intros v. simpl.
  rewrite list_elem_of_fmap. unfold edge. split.
  - intros (d & -> & Hd). apply list_elem_of_filter in Hd as [Hfree Hd].
    apply Is_true_true in Hfree. unfold free in Hfree.
    apply andb_true_iff in Hfree as [Hin Hw]. apply negb_true_iff in Hw.
    unfold isWall in Hw. unfold shift.
    destruct (Hb _ _ Hin) as [n Hn]. rewrite Hn in Hw. apply bool_decide_eq_false in Hw.
    destruct (proj1 (live_dom _ _ _ _ HL (ref.1 + d.1, ref.2 + d.2))) as [n0 Hn0]; [eauto|].
    exists d, n0. split_and!; try done; [apply Hdirs; done|].
    rewrite <- (proj2 (live_same _ _ _ _ HL _ n n0 Hn Hn0)). done.
  - intros (d & n0 & Hd & -> & Hin & Hn0 & Hw). exists d. split; [done|].
    apply list_elem_of_filter. split; [|apply Hdirs; done]. apply Is_true_true. unfold free.
    simpl in Hin. rewrite Hin. simpl. unfold isWall.
    destruct (proj2 (live_dom _ _ _ _ HL (ref.1 + d.1, ref.2 + d.2))) as [n Hn]; [eauto|].
    rewrite Hn. apply negb_true_iff, bool_decide_eq_false.
    rewrite (proj2 (live_same _ _ _ _ HL _ n n0 Hn Hn0)). done.
Qed.

End Complete.

Section ClassComplete.

Import ClassAStar.

Variable boardArray : Board.
Variable nodes0 : NodeDict.
Variables st tg : Id.

Hypothesis Hids : ids_match nodes0.
Hypothesis Hfresh : unsearched nodes0.
Hypothesis Hboard : board_has_nodes boardArray nodes0.
Hypothesis Hstart : ∃ n, lookupNode nodes0 st = Some n ∧ status n ≠ Wall.
Hypothesis Htarget : is_Some (lookupNode nodes0 tg).

Local Abbreviation Edge := (edge boardArray nodes0).
Local Abbreviation Reach := (reachable boardArray nodes0 st).
Local Abbreviation Live := (live boardArray nodes0 st).








End ClassComplete.

Section ImprovedComplete.

Import Improved.

Variable boardArray : Board.
Variable nodes0 : NodeDict.
Variables st tg : Id.
Variable heuristic : Node → Node → Z.

Hypothesis Hids : ids_match nodes0.
Hypothesis Hfresh : unsearched nodes0.
Hypothesis Hboard : board_has_nodes boardArray nodes0.
Hypothesis Hstart : ∃ n, lookupNode nodes0 st = Some n ∧ status n ≠ Wall.
(** The target is not a wall. *)
Hypothesis Hopen : ∃ n, lookupNode nodes0 tg = Some n ∧ status n ≠ Wall.

Lemma open_target_has_node : is_Some (lookupNode nodes0 tg).
Proof. destruct Hopen as (n & Hn & _). eauto. Qed.

Local Abbreviation Edge := (edge boardArray nodes0).
Local Abbreviation Reach := (reachable boardArray nodes0 st).
Local Abbreviation Live := (live boardArray nodes0 st).

Lemma improved_updateNeighbors_each_live (C : list Id) (u : Id) :
  u ∈ C →
  ∀ neighbors nodes calls, Live C u neighbors nodes → (∀ v, v ∈ neighbors → Edge u v) →
  ∃ nodes' calls',
    updateNeighbors_each heuristic nodes calls u neighbors tg = JS.Normal (nodes', calls')
    ∧ Live C u [] nodes'.
Proof.
  intros Hu. induction neighbors as [|v rest IH]; intros nodes calls HL Hedges; simpl;
    [eauto|].
  destruct (live_closed _ _ _ _ _ _ _ HL u Hu) as (uN & gu & HuN & _).
  assert (He : Edge u v) by (apply Hedges; left).
  destruct (proj2 (live_dom _ _ _ _ _ _ _ HL v)) as [vN HvN].
  { destruct He as (d & n & _ & _ & _ & Hn & _). eauto. }
  destruct (proj2 (live_dom _ _ _ _ _ _ _ HL tg)) as [tgN HtgN];
    [apply open_target_has_node|].
  rewrite (updateSingleNeighbor_relaxed heuristic nodes calls u v tg uN vN tgN HuN HvN HtgN).
  apply IH.
  - eapply (live_relax boardArray nodes0 st); eauto.
  - intros w Hw. apply Hedges. right. done.
Qed.

Lemma improved_expand_live (C : list Id) (u : Id) (nodes : NodeDict) (calls : list Id)
    (ref : Id) (cur : Node) (g : Z) :
  Live C u [] nodes → lookupNode nodes ref = Some cur → distance cur = JS.Fin g →
  ∃ nodes3 calls3,
    updateNeighbors heuristic (mutate (set_status Visited) ref nodes) calls ref
      boardArray tg = JS.Normal (nodes3, calls3)
    ∧ Live (ref :: C) ref [] nodes3.
Proof.
  intros HL Hcur Hg.
  edestruct (getNeighbors_from_edges boardArray nodes0 st) as (todo1 & _ & Htodo1);
    [eassumption|reflexivity|exact HL|].
  assert (HL1 : Live (ref :: C) ref todo1 (mutate (set_status Visited) ref nodes)).
  { eapply (live_visit boardArray nodes0 st); eauto. intros v Hv. apply Htodo1. done. }
  edestruct (getNeighbors_from_edges boardArray nodes0 st) as (neighbors & Hget & Hnb);
    [eassumption|reflexivity|exact HL1|].
  assert (HL2 : Live (ref :: C) ref neighbors (mutate (set_status Visited) ref nodes)).
  { eapply (live_visit boardArray nodes0 st); eauto. intros v Hv. apply Hnb. done. }
  unfold updateNeighbors. rewrite (lookupNode_mutate_eq _ _ _ _ Hcur).
  destruct (proj1 (live_dom _ _ _ _ _ _ _ HL ref)) as [n0 Hn0]; [eauto|].
  destruct (live_same _ _ _ _ _ _ _ HL ref cur n0 Hcur Hn0) as [Hid _].
  cbn [id set_status]. rewrite Hid. unfold getNeighbors. rewrite Hget.
  apply improved_updateNeighbors_each_live; [left|done|].
  intros v Hv. apply Hnb. done.
Qed.

(** The loop from a store that satisfies [live]: with fuel for every cell of
    the array it ends, in ["success!"] if moves lead from the start to the
    target and in [false] otherwise. *)
Lemma astar_loop_reaches (fuel : nat) :
  ∀ s C u,
    Live C u [] (nodes s) →
    (∀ k, is_Some (lookupNode nodes0 k) → k ∈ C ∨ k ∈ unvisitedNodes s) →
    (∀ k, k ∈ unvisitedNodes s → is_Some (lookupNode nodes0 k)) →
    tg ∉ C → (length (unvisitedNodes s) ≤ fuel)%nat →
    ∃ o s', astar_loop heuristic boardArray tg fuel s = Some (o, s')
            ∧ ((o = ReturnSuccess ∧ Reach tg) ∨ (o = ReturnFalse ∧ ¬ Reach tg)).
Proof.
  induction fuel as [|fuel IH]; intros s C u HL Hlisted Hknown HtgC Hlen.
  { destruct (unvisitedNodes s) eqn:Hu; [|simpl in Hlen; lia].
    destruct (Hlisted tg open_target_has_node) as [?|Hin]; [done|inversion Hin]. }
  simpl. destruct (unvisitedNodes s) as [|k0 rest] eqn:Hu.
  { destruct (Hlisted tg open_target_has_node) as [?|Hin]; [done|inversion Hin]. }
  assert (Hhas : ∀ k, k ∈ k0 :: rest → is_Some (lookupNode (nodes s) k)).
  { intros k Hk. apply (live_dom _ _ _ _ _ _ _ HL). apply Hknown. done. }
  assert (Hfront : Reach tg →
            ∃ y yn f, y ∈ k0 :: rest ∧ lookupNode (nodes s) y = Some yn
                      ∧ status yn ≠ Wall ∧ totalDistance yn = JS.Fin f).
  { intros Hr.
    destruct (live_frontier boardArray nodes0 st Hstart C u (nodes s) tg HL Hr)
      as [?|(y & yn & f & HyC & Hyn & Hyw & Hf)]; [done|].
    exists y, yn, f. split_and!; try done.
    destruct (Hlisted y) as [?|Hy]; [|done|done].
    apply (live_dom _ _ _ _ _ _ _ HL). eauto. }
  unfold iteration. rewrite ?Hu.
  destruct (improved_findClosestNode_total (nodes s) (k0 :: rest) Hhas) as [[r u'] Hf].
  rewrite Hf. pose proof (improved_findClosestNode_selected _ _ _ _ Hf) as Hsel.
  destruct r as [ref|]; simpl in Hsel.
  2: { (* every cell of the array would be a wall, and the target is in it *)
    exfalso. destruct Hsel as [_ Hwalls].
    destruct (Hlisted tg open_target_has_node) as [?|Htg]; [done|].
    destruct (Hwalls tg Htg) as (n & Hn & Hw). apply bool_decide_eq_true in Hw.
    destruct Hopen as (n0 & Hn0 & Hw0).
    apply Hw0. apply (live_same _ _ _ _ _ _ _ HL tg n n0 Hn Hn0). done. }
  destruct Hsel as (index & cur & Hi & -> & Hcur & Hcw & Hmin).
  apply bool_decide_eq_false in Hcw. rewrite Hcur.
  destruct (decide (status cur = Wall)); [done|].
  pose proof (live_cost _ _ _ _ _ _ _ HL ref cur Hcur) as Hc.
  destruct (distance cur) as [g| |] eqn:Hg; [| |done]; cbn [JS.eqb].
  - destruct (proj1 (live_dom _ _ _ _ _ _ _ HL ref)) as [n0 Hn0]; [eauto|].
    destruct (live_same _ _ _ _ _ _ _ HL ref cur n0 Hcur Hn0) as [Hid _].
    destruct (decide (id cur = tg)) as [Ht|Ht].
    + eexists _, _. split; [done|]. left. split; [done|].
      rewrite <- Ht, Hid. apply Hc.
    + cbn [nodes heuristicCalls].
      destruct (improved_expand_live C u (nodes s) (heuristicCalls s) ref cur g HL Hcur Hg)
        as (nodes3 & calls3 & -> & HL3).
      eapply (IH _ (ref :: C) ref); cbn [nodes unvisitedNodes]; try done.
      * intros k Hk. destruct (decide (k = ref)) as [->|Hne]; [left; left|].
        destruct (Hlisted k Hk) as [HkC|Hkin]; [left; right; done|right].
        eapply elem_of_delete_other; eauto.
      * intros k Hk. apply Hknown. eapply list_elem_of_delete_inv; eauto.
      * intros Hin. apply elem_of_cons in Hin as [->|Hin]; [congruence|done].
      * rewrite length_delete by eauto. simpl in *. lia.
  - eexists _, _. split; [done|]. right. split; [done|].
    intros Hr. destruct (Hfront Hr) as (y & yn & f & Hy & Hyn & Hyw & Hyf).
    destruct (Hmin y yn Hy Hyn) as [Hgt _].
    { apply bool_decide_eq_false. done. }
    rewrite Hc, Hyf in Hgt. done.
Qed.

End ImprovedComplete.

Section ModernComplete.

Import ModernAStar.

Variable options : Options.
Variable boardArray : Board.
Variable nodes0 : NodeDict.
Variables st tg : Id.

Hypothesis Hdiag : allowDiagonal options = false.
Hypothesis Hids : ids_match nodes0.
Hypothesis Hfresh : unsearched nodes0.
Hypothesis Hboard : board_has_nodes boardArray nodes0.
Hypothesis Hstart : ∃ n, lookupNode nodes0 st = Some n ∧ status n ≠ Wall.
Hypothesis Htarget : is_Some (lookupNode nodes0 tg).

Local Abbreviation Edge := (edge boardArray nodes0).
Local Abbreviation Reach := (reachable boardArray nodes0 st).
Local Abbreviation Live := (live boardArray nodes0 st).









End ModernComplete.

Section CompleteTheorems.

Lemma fresh_costs_unsearched (nodes : NodeDict) : fresh_costs nodes → unsearched nodes.
Proof. intros H k n Hn. destruct (H k n Hn) as (Hd & Ht & _). done. Qed.



(** X12.  On a reset grid of small numbers whose board cells all have nodes,
    with a start and a target that are not walls, [astar] with the Manhattan
    heuristic returns ["success!"] if some sequence of moves leads from the
    start to the target and [false] otherwise; it does not raise. *)
Theorem astar_succeeds_iff_reachable (nodes : NodeDict) (st tg : Id)
    (trace : list Id) (boardArray : Board) :
  ids_match nodes → fresh_costs nodes → unrelaxed nodes → small_numbers nodes →
  board_has_nodes boardArray nodes → keys_listed nodes →
  (∃ n, lookupNode nodes st = Some n ∧ status n ≠ Wall) →
  (∃ n, lookupNode nodes tg = Some n ∧ status n ≠ Wall) → st ≠ tg →
  ∃ o s, Improved.astar nodes (Some st) (Some tg) trace boardArray
           Improved.manhattanDistance = Some (o, s)
         ∧ (reachable boardArray nodes st tg → o = Improved.ReturnSuccess)
         ∧ (¬ reachable boardArray nodes st tg → o = Improved.ReturnFalse).
Proof.
  intros Hids Hfresh Hunrelaxed Hsmall Hboard Hkeys Hstart Htarget Hne.
  rewrite astar_valid.
  2: { unfold Improved.validateInputs. destruct Hstart as (n & -> & _).
       destruct Htarget as (tgN & -> & _). rewrite bool_decide_eq_false_2; done. }
  edestruct (astar_loop_reaches boardArray nodes st tg Improved.manhattanDistance
               Hboard Hstart Htarget) as (o & s & -> & Hres).
  - apply (live_initial boardArray nodes st Hids (fresh_costs_unsearched _ Hfresh) Hstart).
  - intros k Hk. right. apply Hkeys. done.
  - intros k Hk. apply Hkeys. done.
  - apply not_elem_of_nil.
  - done.
  - exists o, s. split; [done|]. destruct Hres as [[-> Hr]|[-> Hr]]; split; done.
Qed.


End CompleteTheorems.

Section CompleteWitness.

(** A target that is not a wall. *)
Lemma weightedGrid_target :
  ∃ n, lookupNode weightedGrid (3, 3) = Some n ∧ status n ≠ Wall.
Proof. eexists. split; [reflexivity|]. vm_compute. discriminate. Qed.



Lemma astar_succeeds_iff_reachable_witness :
  ∃ o s, Improved.astar weightedGrid (Some (0, 0)) (Some (3, 3)) []
           (Fixture.fullBoard 4 4) Improved.manhattanDistance = Some (o, s)
         ∧ (reachable (Fixture.fullBoard 4 4) weightedGrid (0, 0) (3, 3)
            → o = Improved.ReturnSuccess)
         ∧ (¬ reachable (Fixture.fullBoard 4 4) weightedGrid (0, 0) (3, 3)
            → o = Improved.ReturnFalse).
Proof.
  apply (astar_succeeds_iff_reachable weightedGrid (0, 0) (3, 3) []
           (Fixture.fullBoard 4 4)).
  - apply (bool_decide_unpack _). vm_compute. exact I.
  - apply (bool_decide_unpack _). vm_compute. exact I.
  - unfold unrelaxed. apply (bool_decide_unpack _). vm_compute. exact I.
  - apply (bool_decide_unpack _). vm_compute. exact I.
  - exact weightedGrid_has_nodes.
  - exact weightedGrid_keys.
  - eexists. split; [reflexivity|]. vm_compute. discriminate.
  - exact weightedGrid_target.
  - discriminate.
Defined.


End CompleteWitness.

(** ** The path that [getShortestPath] returns after the ES6 [execute] *)

Section ModernPath.

Import ModernAStar.

Variable options : Options.
Variable boardArray : Board.
Variable nodes0 : NodeDict.
Variables st tg : Id.

Hypothesis Hdiag : allowDiagonal options = false.
Hypothesis Hboard : board_has_nodes boardArray nodes0.
Hypothesis Hstart : ∃ n, lookupNode nodes0 st = Some n ∧ status n ≠ Wall.
Hypothesis Htarget : is_Some (lookupNode nodes0 tg).

Local Abbreviation Edge := (edge boardArray nodes0).
Local Abbreviation Live := (live boardArray nodes0 st).





Lemma modern_getDistance_cost (a b : Node) : (getDistance a b).1.1 = 1.
Proof.
  unfold getDistance. destruct (id a) as [x1 y1], (id b) as [x2 y2].
  repeat case_match; done.
Qed.






End ModernPath.

Section ModernPathTheorem.


End ModernPathTheorem.

Section ModernPathWitness.


End ModernPathWitness.

(** ** The animation trace of the ES6 [execute] *)

Section ModernOnce.

Import ModernAStar.

Variable options : Options.
Variable boardArray : Board.
Variable targetId : Id.

(** The trace lists the visited set, without repetition, and its cells are
    marked visited. *)
Definition once (s : State) : Prop :=
  NoDup (nodesToAnimate s)
  ∧ (∀ k, k ∈ nodesToAnimate s ↔ k ∈ visitedSet s)
  ∧ ∀ k, k ∈ nodesToAnimate s → status <$> lookupNode (nodes s) k = Some Visited.

Lemma execute_loop_once (fuel : nat) :
  ∀ s o s', once s → execute_loop options boardArray targetId fuel s = Some (o, s') →
  once s'.
Proof.
  induction fuel as [|fuel IH]; intros s o s' Hs Hrun; simpl in Hrun.
  { destruct (findNodeWithLowestDistance (unvisitedMap s)); [done|].
    injection Hrun as _ <-. done. }
  destruct (findNodeWithLowestDistance (unvisitedMap s)) as [currentId|] eqn:Hfind.
  2: { injection Hrun as _ <-. done. }
  destruct (lookupNode (nodes s) currentId) as [cur|] eqn:Hcur.
  2: { injection Hrun as _ <-. done. }
  destruct (bool_decide (status cur = Wall) || bool_decide (currentId ∈ visitedSet s))
    eqn:Hskip.
  { apply IH in Hrun; done. }
  apply orb_false_iff in Hskip as [_ Hv]. apply bool_decide_eq_false in Hv.
  destruct (JS.eqb (distance cur) JS.Infinity).
  { injection Hrun as _ <-. done. }
  destruct Hs as (Hnd & Hin & Hst).
  assert (Hnew : currentId ∉ nodesToAnimate s) by (rewrite Hin; done).
  assert (Hs2 : ∀ nodes3,
            (∀ k, k ∈ ({[currentId]} ∪ visitedSet s : gset Id) →
                  lookupNode nodes3 k
                  = lookupNode (mutate (set_status Visited) currentId (nodes s)) k) →
            NoDup (nodesToAnimate s ++ [currentId])
            ∧ (∀ k, k ∈ nodesToAnimate s ++ [currentId]
                    ↔ k ∈ ({[currentId]} ∪ visitedSet s : gset Id))
            ∧ ∀ k, k ∈ nodesToAnimate s ++ [currentId] →
                   status <$> lookupNode nodes3 k = Some Visited).
  { intros nodes3 Hframe. split_and!.
    - apply NoDup_app. split_and!; [done| |apply NoDup_singleton].
      intros k Hk Hk'. apply list_elem_of_singleton in Hk' as ->. done.
    - intros k. rewrite elem_of_app, list_elem_of_singleton, elem_of_union,
        elem_of_singleton, Hin. tauto.
    - intros k Hk. rewrite Hframe.
      2: { apply elem_of_app in Hk as [Hk|Hk].
           - apply elem_of_union. right. apply Hin. done.
           - apply list_elem_of_singleton in Hk as ->. apply elem_of_union. left.
             apply elem_of_singleton. done. }
      rewrite lookupNode_mutate. destruct (decide (currentId = k)) as [<-|].
      + rewrite Hcur. done.
      + apply elem_of_app in Hk as [Hk|Hk]; [apply Hst; done|].
        apply list_elem_of_singleton in Hk. congruence. }
  destruct (bool_decide (currentId = targetId)).
  { injection Hrun as _ <-. apply Hs2. done. }
  simpl in Hrun.
  pose proof (updateNeighbors_frame options boardArray targetId currentId
                (mutate (set_status Visited) currentId (nodes s))
                (map_delete (unvisitedMap s) currentId)
                ({[currentId]} ∪ visitedSet s)) as Hframe.
  destruct (updateNeighbors options currentId _ boardArray targetId _ _)
    as [[nodes3 m3]|[nodes3 m3]].
  - apply IH in Hrun; [done|]. apply Hs2. intros k Hk. apply (Hframe k Hk _ eq_refl).
  - injection Hrun as _ <-. apply Hs2. intros k Hk. apply (Hframe k Hk _ eq_refl).
Qed.

End ModernOnce.

Section ModernOnceTheorem.

Import ModernAStar.

(** X28.  When two different ids are passed and the start id has a node,
    [execute] of the ES6 class returns or raises with a trace that lists the
    cells of its visited set, each once, and every cell of the trace is
    marked visited. *)
Theorem modern_execute_animates_each_cell_once (options : Options) (nodes : NodeDict)
    (st tg : Id) (boardArray : Board) :
  st ≠ tg → is_Some (lookupNode nodes st) →
  ∃ o s,
    (∀ extra, execute options (9 * size (oget nodes) + 1 + extra) nodes (Some st) (Some tg)
                boardArray = Some (o, s))
    ∧ NoDup (nodesToAnimate s)
    ∧ (∀ k, k ∈ nodesToAnimate s ↔ k ∈ visitedSet s)
    ∧ ∀ k, k ∈ nodesToAnimate s →
           status <$> lookupNode (ModernAStar.nodes s) k = Some Visited.
Proof.
  intros Hne [startNode Hs].
  unfold execute. rewrite bool_decide_eq_false_2 by done. rewrite Hs.
  set (s0 := mkState _ _ _ _ _).
  destruct (execute_loop_ends options boardArray tg (9 * size (oget nodes) + 1) s0)
    as [[o s'] Hrun].
  { unfold modern_workLeft. subst s0. simpl.
    rewrite dom_insert_L, difference_empty_L.
    rewrite (subseteq_union_1_L {[st]}), size_dom; [lia|].
    apply singleton_subseteq_l. apply elem_of_dom. unfold lookupNode in Hs. eauto. }
  exists o, s'. split; [done|].
  apply (execute_loop_once options boardArray tg (9 * size (oget nodes) + 1 + 0) s0 o s');
    [|exact (Hrun 0%nat)].
  subst s0. split_and!; simpl.
  - apply NoDup_nil. done.
  - intros k. rewrite elem_of_nil, elem_of_empty. done.
  - intros k Hk. inversion Hk.
Qed.

Lemma modern_execute_animates_each_cell_once_witness :
  ∃ o s,
    (∀ extra, execute defaultOptions (9 * size (oget walledGrid) + 1 + extra) walledGrid
                (Some (0, 0)) (Some (3, 3)) (Fixture.fullBoard 4 4) = Some (o, s))
    ∧ NoDup (nodesToAnimate s)
    ∧ (∀ k, k ∈ nodesToAnimate s ↔ k ∈ visitedSet s)
    ∧ ∀ k, k ∈ nodesToAnimate s →
           status <$> lookupNode (ModernAStar.nodes s) k = Some Visited.
Proof.
  apply (modern_execute_animates_each_cell_once defaultOptions walledGrid (0, 0) (3, 3)
           (Fixture.fullBoard 4 4)).
  - discriminate.
  - vm_compute. eauto.
Defined.

End ModernOnceTheorem.

(** ** The numbers of a search stay small

    On a grid of small numbers every cost that a search stores is a sum of
    at most one step for each cell it has closed, so the integers of this
    embedding are the doubles of the source. *)

Section RangedRelax.

Variable heuristic : Node → Node → Z.
Variable stepCost : Node → Node → Z * list Move * option Direction.
Variable W : Z.

Hypothesis heuristic_small :
  ∀ a b, canonical (id a) → canonical (id b) → Z.abs (heuristic a b) ≤ 2 ^ 51.
Hypothesis stepCost_small : ∀ a b, 1 ≤ (stepCost a b).1.1 ≤ 2.

(** The numbers of a record: the row and the column of a board, a weight
    that one step of cost [W] covers, a cached heuristic of magnitude at most
    [2^51], a [distance] of magnitude at most [M] and a [totalDistance] of
    magnitude at most [M + 2^51]. *)
Definition ranged_node (M : Z) (n : Node) : Prop :=
  canonical (id n)
  ∧ Z.abs (weight n) + 2 ≤ W
  ∧ Z.abs (match heuristicDistance n with JS.Val h => h | _ => 0 end) ≤ 2 ^ 51
  ∧ (∀ d, distance n = JS.Fin d → Z.abs d ≤ M)
  ∧ (∀ t, totalDistance n = JS.Fin t → Z.abs t ≤ M + 2 ^ 51).

Definition ranged (M : Z) (nodes : NodeDict) : Prop :=
  ∀ k n, lookupNode nodes k = Some n → ranged_node M n.

Lemma ranged_node_mono (M M' : Z) (n : Node) :
  M ≤ M' → ranged_node M n → ranged_node M' n.
Proof.
  intros HM (Hc & Hw & Hh & Hd & Ht). split_and!; [done|done|done| |].
  - intros d Hdd. specialize (Hd d Hdd). lia.
  - intros t Htt. specialize (Ht t Htt). lia.
Qed.

Lemma ranged_mono (M M' : Z) (nodes : NodeDict) :
  M ≤ M' → ranged M nodes → ranged M' nodes.
Proof. intros HM H k n Hk. apply (ranged_node_mono M); [done|]. apply (H k n Hk). Qed.

(** One relaxation attempt from a cell whose cost is within [M] keeps the
    neighbour within [M + W]. *)
Lemma relaxed_ranged (M : Z) (cur nb tg : Node) :
  (∀ d, distance cur = JS.Fin d → Z.abs d ≤ M) →
  canonical (id tg) →
  ranged_node (M + W) nb →
  ranged_node (M + W) (relaxed heuristic stepCost cur nb tg).
Proof.
  intros Hcur Htg (Hid & Hw & Hh & Hd & Ht).
  pose proof (stepCost_small cur nb) as Hc.
  pose proof (heuristic_small nb tg Hid Htg) as Hheur.
  unfold relaxed, candidate, withHeuristic.
  destruct (JS.ltb _ _) eqn:Hlt.
  - destruct (distance cur) as [d| |] eqn:Hdc; simpl in Hlt; try discriminate.
    specialize (Hcur d eq_refl).
    destruct (JS.falsy (heuristicDistance nb)) eqn:Hf; simpl.
    + split_and!; simpl; [done|done|done| |].
      * intros d' [= <-]. lia.
      * intros t [= <-]. lia.
    + split_and!; simpl; [done|done|done| |].
      * intros d' [= <-]. lia.
      * destruct (heuristicDistance nb) as [| |h]; simpl; try done.
        all: intros t [= <-]; lia.
  - destruct (JS.falsy (heuristicDistance nb)); simpl; split_and!; simpl; done.
Qed.

End RangedRelax.

Section ImprovedRange.

Import Improved.

Variable heuristic : Node → Node → Z.
Variable boardArray : Board.
Variable tg : Id.
Variable W : Z.

Hypothesis heuristic_small :
  ∀ a b, canonical (id a) → canonical (id b) → Z.abs (heuristic a b) ≤ 2 ^ 51.

Lemma improved_stepCost_small (a b : Node) : 1 ≤ (calculateNodeDistance a b).1.1 ≤ 2.
Proof. rewrite calculateNodeDistance_cost. lia. Qed.

Definition completion_store (c : JS.Completion (NodeDict * list Id)) : NodeDict :=
  match c with
  | JS.Normal (nodes, _) => nodes
  | JS.Abrupt (nodes, _) => nodes
  end.

Lemma improved_updateNeighbors_each_ranged (M : Z) (cur : Id) (curN : Node) :
  (∀ d, distance curN = JS.Fin d → Z.abs d ≤ M) →
  ∀ neighbors nodes calls,
    cur ∉ neighbors → lookupNode nodes cur = Some curN →
    is_Some (lookupNode nodes tg) → ids_match nodes →
    ranged W (M + W) nodes →
    let nodes' :=
      completion_store (updateNeighbors_each heuristic nodes calls cur neighbors tg) in
    ranged W (M + W) nodes' ∧ ids_match nodes' ∧ is_Some (lookupNode nodes' tg).
Proof.
  intros Hcur. induction neighbors as [|nb rest IH]; intros nodes calls Hnot Hc Htg Hids Hr.
  { done. }
  apply not_elem_of_cons in Hnot as [Hne Hnot]. simpl.
  destruct (lookupNode nodes nb) as [nbN|] eqn:Hnb.
  - destruct Htg as [tgN Htg].
    rewrite (updateSingleNeighbor_relaxed heuristic nodes calls cur nb tg curN nbN tgN)
      by done.
    apply IH; [done| | | |].
    + rewrite lookupNode_mutate_ne by done. done.
    + rewrite lookupNode_mutate. destruct (decide (nb = tg)); rewrite Htg; simpl; eauto.
    + intros k n. fold (lookupNode (mutate (λ _, relaxed heuristic calculateNodeDistance
                                                  curN nbN tgN) nb nodes) k).
      rewrite lookupNode_mutate. destruct (decide (nb = k)) as [<-|].
      * rewrite Hnb. simpl. intros [= <-].
        destruct (relaxed_frame heuristic calculateNodeDistance curN nbN tgN) as [-> _].
        apply (Hids _ _ Hnb).
      * apply Hids.
    + intros k n. rewrite lookupNode_mutate. destruct (decide (nb = k)) as [<-|].
      * rewrite Hnb. simpl. intros [= <-].
        apply relaxed_ranged;
          [done|apply improved_stepCost_small|done|apply (Hr tg tgN Htg)
          |apply (Hr nb nbN Hnb)].
      * apply Hr.
  - unfold updateSingleNeighbor. rewrite Hc, Hnb. done.
Qed.

(** The cells [getNeighbors] returns differ from the cell it was asked
    about. *)
Lemma improved_getNeighbors_other (nodes : NodeDict) (c : Id) (neighbors : list Id) :
  getNeighbors c nodes boardArray = JS.Ok neighbors → c ∉ neighbors.
Proof.
  intros Hg Hin. unfold getNeighbors in Hg.
  destruct (getNeighbors_from_sound nodes boardArray c.1 c.2 cardinal [] neighbors Hg c Hin)
    as [Hnil|(d & n & Hd & Heq & _)].
  { inversion Hnil. }
  destruct c as [x y]. simpl in Heq. injection Heq as Hx Hy.
  unfold cardinal in Hd. rewrite !elem_of_cons, elem_of_nil in Hd.
  destruct Hd as [->|[->|[->|[->|[]]]]]; simpl in *; lia.
Qed.

(** The states of a run that started with [L] cells in the array: after
    [i] turns every number is within [i] steps. *)
Definition small_run (L : nat) (s : State) : Prop :=
  ids_match (nodes s) ∧ is_Some (lookupNode (nodes s) tg)
  ∧ ∃ i : nat, (i + length (unvisitedNodes s) ≤ L)%nat
               ∧ ranged W (Z.of_nat i * W) (nodes s).

Lemma ranged_visit (M : Z) (ref : Id) (nodes : NodeDict) :
  ranged W M nodes → ranged W M (mutate (set_status Visited) ref nodes).
Proof.
  intros Hr k n. rewrite lookupNode_mutate. destruct (decide (ref = k)) as [<-|].
  - destruct (lookupNode nodes ref) as [n0|] eqn:Hn0; [|done]. simpl. intros [= <-].
    apply (Hr ref n0 Hn0).
  - apply Hr.
Qed.

Lemma iteration_small_run (L : nat) (s : State) :
  0 ≤ W → unvisitedNodes s ≠ [] → small_run L s →
  small_run L (result_state (iteration heuristic boardArray tg s)).
Proof.
  intros HW Hne (Hids & Htg & i & Hlen & Hr). unfold iteration.
  destruct (findClosestNode (nodes s) (unvisitedNodes s)) as [[r unv1]|] eqn:Hf.
  2: { simpl. split_and!; [done|done|]. eauto. }
  pose proof (improved_findClosestNode_selected _ _ _ _ Hf) as Hsel.
  assert (Hlen1 : S (length unv1) = length (unvisitedNodes s)).
  { destruct r as [ref|]; simpl in Hsel.
    - destruct Hsel as (index & cur & H1 & -> & _).
      rewrite length_delete by eauto.
      apply lookup_lt_Some in H1. lia.
    - destruct Hsel as [-> _]. destruct (unvisitedNodes s); [done|]. simpl. lia. }
  assert (Hsame : ∀ trace calls, small_run L (mkState (nodes s) unv1 trace calls)).
  { intros trace calls. split_and!; [done|done|]. exists i. simpl. split; [lia|done]. }
  destruct r as [ref|]; [|apply Hsame].
  destruct (lookupNode (nodes s) ref) as [cur|] eqn:Hcur; [|apply Hsame].
  destruct (decide (status cur = Wall)); [apply Hsame|].
  destruct (JS.eqb (distance cur) JS.Infinity); [apply Hsame|].
  assert (Hids2 : ids_match (mutate (set_status Visited) ref (nodes s))).
  { intros k m. unfold mutate. simpl. rewrite lookup_alter_Some.
    intros [(-> & m0 & Hm0 & ->)|[_ Hm]]; simpl; [apply (Hids _ _ Hm0)|apply (Hids _ _ Hm)]. }
  assert (Htg2 : is_Some (lookupNode (mutate (set_status Visited) ref (nodes s)) tg)).
  { rewrite lookupNode_mutate. destruct (decide (ref = tg)); [|done].
    destruct Htg as [tgN ->]. simpl. eauto. }
  destruct (decide (id cur = tg)).
  { simpl. split_and!; [done|done|]. exists i. simpl. split; [lia|].
    apply ranged_visit. done. }
  unfold updateNeighbors. simpl.
  rewrite (lookupNode_mutate_eq _ _ _ _ Hcur). simpl.
  destruct (getNeighbors (id cur) _ boardArray) as [neighbors|] eqn:Hg.
  2: { simpl. split_and!; [done|done|]. exists i. simpl. split; [lia|].
       apply ranged_visit. done. }
  assert (Hidc : id cur = ref) by apply (Hids _ _ Hcur).
  pose proof (improved_getNeighbors_other _ _ _ Hg) as Hnot. rewrite Hidc in Hnot.
  pose proof (improved_updateNeighbors_each_ranged (Z.of_nat i * W) ref (set_status Visited cur))
    as Hstep.
  specialize (Hstep (λ d Hd, proj1 (proj2 (proj2 (proj2 (Hr ref cur Hcur)))) d Hd)
                neighbors (mutate (set_status Visited) ref (nodes s)) (heuristicCalls s)
                Hnot (lookupNode_mutate_eq _ _ _ _ Hcur) Htg2 Hids2).
  specialize (Hstep (ranged_mono W (Z.of_nat i * W) (Z.of_nat i * W + W) _ ltac:(lia)
                       (ranged_visit _ _ _ Hr))).
  simpl in Hstep. destruct Hstep as (Hr3 & Hids3 & Htg3).
  destruct (updateNeighbors_each _ _ _ _ _ _) as [[nodes3 calls3]|[nodes3 calls3]];
    simpl in *; (split_and!; [done|done|]); exists (S i); simpl;
    (split; [lia|]); replace (Z.of_nat (S i) * W) with (Z.of_nat i * W + W) by lia; done.
Qed.

(** Every state of the loop is within the steps of the turns taken. *)
Lemma during_small_run (L : nat) (s0 s : State) :
  0 ≤ W → small_run L s0 → during heuristic boardArray tg s0 s → small_run L s.
Proof.
  intros HW H0 Hd. induction Hd as [|s s' Hd IH Hne Hit|s o s' Hd IH Hne Hit]; [done| |].
  - pose proof (iteration_small_run L s HW Hne IH) as H. rewrite Hit in H. done.
  - pose proof (iteration_small_run L s HW Hne IH) as H. rewrite Hit in H. done.
Qed.

End ImprovedRange.

(** The numbers a store holds are doubles that the integers stand for
    exactly, with room for one more sum. *)
Definition exact_numbers (nodes : NodeDict) : Prop :=
  ∀ k n, lookupNode nodes k = Some n →
    (∀ d, distance n = JS.Fin d → Z.abs d ≤ 2 ^ 51)
    ∧ (∀ t, totalDistance n = JS.Fin t → Z.abs t ≤ 2 ^ 52)
    ∧ Z.abs (weight n) ≤ 2 ^ 51
    ∧ Z.abs (match heuristicDistance n with JS.Val h => h | _ => 0 end) ≤ 2 ^ 51.

Lemma max_step (s B : Z) (l : list Z) :
  0 ≤ s → 0 ≤ B → (∀ x, x ∈ l → x * s ≤ B) →
  0 ≤ foldr Z.max 0 l ∧ foldr Z.max 0 l * s ≤ B ∧ ∀ x, x ∈ l → x ≤ foldr Z.max 0 l.
Proof.
  intros Hs HB. induction l as [|a l IH]; intros Hl; simpl.
  { split_and!; [lia|lia|]. intros x Hx. inversion Hx. }
  destruct IH as (H0 & H1 & H2).
  { intros x Hx. apply Hl. right. done. }
  pose proof (Hl a ltac:(left)) as Ha.
  split_and!.
  - lia.
  - destruct (Z.max_spec a (foldr Z.max 0 l)) as [[_ ->]|[_ ->]]; done.
  - intros x Hx. apply elem_of_cons in Hx as [->|Hx]; [lia|]. specialize (H2 x Hx). lia.
Qed.

(** A step that covers every weight of a grid of small numbers. *)
Lemma small_numbers_step (nodes : NodeDict) :
  small_numbers nodes →
  ∃ W, 0 ≤ W ∧ W * Z.of_nat (size (oget nodes)) ≤ 2 ^ 51
       ∧ ∀ k n, lookupNode nodes k = Some n → Z.abs (weight n) + 2 ≤ W.
Proof.
  intros Hsmall.
  destruct (max_step (Z.of_nat (size (oget nodes))) (2 ^ 51)
              ((λ kn, Z.abs (weight kn.2) + 2) <$> map_to_list (oget nodes)))
    as (H0 & H1 & H2); [lia|lia| |].
  { intros x Hx. apply list_elem_of_fmap in Hx as ([k n] & -> & Hkn).
    apply elem_of_map_to_list in Hkn. destruct (Hsmall k n Hkn) as (_ & Hw & _). done. }
  eexists. split_and!; [exact H0|exact H1|].
  intros k n Hk. apply H2. apply list_elem_of_fmap. exists (k, n). split; [done|].
  apply elem_of_map_to_list. done.
Qed.

Lemma keys_listed_length (nodes : NodeDict) :
  keys_listed nodes → NoDup (okeys nodes) → length (okeys nodes) = size (oget nodes).
Proof.
  intros Hkeys Hnd. rewrite <- size_dom, <- (size_list_to_set (C := gset Id)) by done.
  f_equal. apply set_eq. intros k.
  rewrite elem_of_list_to_set, elem_of_dom. apply Hkeys.
Qed.

Section ImprovedRangeTheorem.

Import Improved.

(** On a grid of small numbers on which no search has run, every number
    that [astar] holds in a cell, in any state of its loop, is an integer
    of magnitude at most [2^52]: the sums of the model are the sums of the
    source. *)
Lemma astar_numbers_stay_small (heuristic : Node → Node → Z) (nodes : NodeDict)
    (st tg : Id) (trace : list Id) (boardArray : Board) (s : State) :
  (∀ a b, canonical (id a) → canonical (id b) → Z.abs (heuristic a b) ≤ 2 ^ 51) →
  small_numbers nodes → unsearched nodes → ids_match nodes →
  keys_listed nodes → NoDup (okeys nodes) →
  is_Some (lookupNode nodes tg) →
  during heuristic boardArray tg (initial nodes st trace) s →
  exact_numbers (Improved.nodes s).
Proof.
  intros Hheur Hsmall Hfresh Hids Hkeys Hnd Htg Hd.
  destruct (small_numbers_step nodes Hsmall) as (W & HW & HWs & Hw).
  pose proof (keys_listed_length nodes Hkeys Hnd) as Hlen.
  assert (H0 : small_run tg W (length (okeys nodes)) (initial nodes st trace)).
  { unfold initial. split_and!; simpl.
    - apply initializeStartNode_ids. done.
    - apply lookupNode_initializeStartNode. done.
    - exists 0%nat. split; [unfold initializeStartNode, mutate; simpl; lia|].
      intros k n. unfold initializeStartNode. rewrite lookupNode_mutate.
      destruct (decide (st = k)) as [<-|].
      + destruct (lookupNode nodes st) as [n0|] eqn:Hn0; [|done]. simpl. intros [= <-].
        destruct (Hsmall st n0 Hn0) as (Hcan & _ & Hh).
        split_and!; simpl; [rewrite (Hids st n0 Hn0); done|apply (Hw st n0 Hn0)|done| |].
        * intros d [= <-]. lia.
        * intros t [= <-]. lia.
      + intros Hk. destruct (Hsmall k n Hk) as (Hcan & _ & Hh).
        destruct (Hfresh k n Hk) as [Hdist Htot].
        split_and!; [rewrite (Hids k n Hk); done|apply (Hw k n Hk)|done| |].
        * rewrite Hdist. done.
        * rewrite Htot. done. }
  destruct (during_small_run heuristic boardArray tg W Hheur _ _ _ HW H0 Hd)
    as (_ & _ & i & Hi & Hr).
  assert (HM : Z.of_nat i * W ≤ 2 ^ 51).
  { assert (Z.of_nat i ≤ Z.of_nat (size (oget nodes))) by lia. nia. }
  assert (HW1 : W ≤ 2 ^ 51).
  { destruct (decide (size (oget nodes) = 0%nat)) as [E|]; [|nia].
    apply map_size_empty_iff in E. destruct Htg as [tgN Htg].
    unfold lookupNode in Htg. rewrite E, lookup_empty in Htg. discriminate. }
  intros k n Hk. destruct (Hr k n Hk) as (_ & H1 & H2 & H3 & H4).
  split_and!; [| | lia|done].
  - intros d Hdd. specialize (H3 d Hdd). lia.
  - intros t Htt. specialize (H4 t Htt). lia.
Qed.

End ImprovedRangeTheorem.

Section ClassRange.

Import ClassAStar.

Variable boardArray : Board.
Variable tg : Id.
Variable W : Z.

Lemma manhattan_small (a b : Id) :
  canonical a → canonical b → Z.abs (manhattan a b) ≤ 2 ^ 51.
Proof.
  unfold canonical, manhattan. intros [H1 H2] [H3 H4].
  assert (2 ^ 32 = 4294967296) as E1 by reflexivity.
  assert (2 ^ 51 = 2251799813685248) as E2 by reflexivity.
  lia.
Qed.

Lemma class_stepCost_small (a b : Node) : 1 ≤ (getDistance a b).1.1 ≤ 2.
Proof.
  unfold getDistance. destruct (id a), (id b).
  repeat case_match; simpl; lia.
Qed.

Definition class_store (c : JS.Completion NodeDict) : NodeDict :=
  match c with
  | JS.Normal nodes => nodes
  | JS.Abrupt nodes => nodes
  end.

Lemma class_updateNeighbors_each_ranged (M : Z) (cur : Id) (curN : Node) :
  (∀ d, distance curN = JS.Fin d → Z.abs d ≤ M) →
  ∀ neighbors nodes,
    cur ∉ neighbors → lookupNode nodes cur = Some curN →
    is_Some (lookupNode nodes tg) → ids_match nodes →
    ranged W (M + W) nodes →
    let nodes' := class_store (updateNeighbors_each nodes cur neighbors tg) in
    ranged W (M + W) nodes' ∧ ids_match nodes' ∧ is_Some (lookupNode nodes' tg).
Proof.
  intros Hcur. induction neighbors as [|nb rest IH]; intros nodes Hnot Hc Htg Hids Hr.
  { done. }
  apply not_elem_of_cons in Hnot as [Hne Hnot]. simpl.
  destruct (lookupNode nodes nb) as [nbN|] eqn:Hnb.
  - destruct Htg as [tgN Htg].
    rewrite (updateNode_relaxed nodes cur nb tg curN nbN tgN) by done.
    set (R := relaxed _ _ curN nbN tgN).
    apply IH; [done| | | |].
    + rewrite lookupNode_mutate_ne by done. done.
    + rewrite lookupNode_mutate. destruct (decide (nb = tg)); rewrite Htg; simpl; eauto.
    + intros k n. fold (lookupNode (mutate (λ _, R) nb nodes) k).
      rewrite lookupNode_mutate. destruct (decide (nb = k)) as [<-|].
      * rewrite Hnb. simpl. intros [= <-]. subst R.
        destruct (relaxed_frame (λ a b, calculateManhattanDistance (id a) (id b))
                    getDistance curN nbN tgN) as [-> _].
        apply (Hids _ _ Hnb).
      * apply Hids.
    + intros k n. rewrite lookupNode_mutate. destruct (decide (nb = k)) as [<-|].
      * rewrite Hnb. simpl. intros [= <-]. subst R.
        apply relaxed_ranged;
          [intros a b Ha Hb; apply manhattan_small; done
          |apply class_stepCost_small|done|apply (Hr tg tgN Htg)
          |apply (Hr nb nbN Hnb)].
      * apply Hr.
  - unfold updateNode. rewrite Hc, Hnb. done.
Qed.

Lemma class_getNeighbors_other (nodes : NodeDict) (c : Id) (neighbors : list Id) :
  getNeighbors nodes boardArray c = JS.Ok neighbors → c ∉ neighbors.
Proof.
  intros Hg Hin. unfold getNeighbors in Hg.
  destruct (getNeighbors_from_sound nodes boardArray c.1 c.2 directions [] neighbors Hg c Hin)
    as [Hnil|(d & n & Hd & Heq & _)].
  { inversion Hnil. }
  destruct c as [x y]. simpl in Heq. injection Heq as Hx Hy.
  unfold directions in Hd. rewrite !elem_of_cons, elem_of_nil in Hd.
  destruct Hd as [->|[->|[->|[->|[]]]]]; simpl in *; lia.
Qed.

Lemma skipWalls_length (fuel : nat) :
  ∀ nodes currentNode unvisited c unvisited1,
    skipWalls fuel nodes currentNode unvisited = Some (JS.Ok (c, unvisited1)) →
    (length unvisited1 ≤ length unvisited)%nat.
Proof.
  induction fuel as [|fuel IH]; intros nodes currentNode unvisited c unvisited1; simpl.
  - destruct (currentNode ≫= lookupNode nodes) as [cur|]; [|done].
    destruct (bool_decide (status cur = Wall) && negb (bool_decide (unvisited = [])));
      [done|]. intros [= <- <-]. done.
  - destruct (currentNode ≫= lookupNode nodes) as [cur|]; [|done].
    destruct (bool_decide (status cur = Wall) && negb (bool_decide (unvisited = [])))
      eqn:Hw.
    2: { intros [= <- <-]. done. }
    apply andb_true_iff in Hw as [_ Hne]. apply negb_true_iff, bool_decide_eq_false in Hne.
    destruct (findClosestNode nodes unvisited) as [[next unvisited0]|] eqn:Hf; [|done].
    apply class_findClosestNode_length in Hf; [|done].
    intros H. apply IH in H. lia.
Qed.

(** The states of a run of [AStar.execute] that started with [L] cells in
    the array. *)
Definition class_small_run (L : nat) (s : State) : Prop :=
  ids_match (nodes s) ∧ is_Some (lookupNode (nodes s) tg)
  ∧ ∃ i : nat, (i + length (unvisitedNodes s) ≤ L)%nat
               ∧ ranged W (Z.of_nat i * W) (nodes s).

Lemma class_execute_loop_small (L : nat) (fuel : nat) :
  0 ≤ W →
  ∀ s o s', class_small_run L s → execute_loop fuel boardArray tg s = Some (o, s') →
            class_small_run L s'.
Proof.
  intros HW. induction fuel as [|fuel IH]; intros s o s' Hs Hrun; simpl in Hrun.
  { destruct (unvisitedNodes s); [|done]. injection Hrun as _ <-. done. }
  destruct (unvisitedNodes s) as [|k rest] eqn:Hu.
  { injection Hrun as _ <-. done. }
  destruct (findClosestNode (nodes s) (k :: rest)) as [[first unvisited0]|] eqn:Hf.
  2: { injection Hrun as _ <-. done. }
  apply class_findClosestNode_length in Hf; [|done].
  destruct (skipWalls fuel (nodes s) first unvisited0) as [[[currentNode unvisited1]|]|]
    eqn:Hskip; [| |done].
  2: { injection Hrun as _ <-. done. }
  apply skipWalls_length in Hskip.
  destruct Hs as (Hids & Htg & i & Hlen & Hr).
  assert (Hsame : ∀ trace, class_small_run L (mkState (nodes s) trace unvisited1)).
  { intros trace. split_and!; [done|done|]. exists i. simpl.
    split; [rewrite Hu in Hlen; simpl in *; lia|done]. }
  destruct currentNode as [ref|]; simpl in Hrun.
  2: { injection Hrun as _ <-. apply Hsame. }
  destruct (lookupNode (nodes s) ref) as [cur|] eqn:Hcur.
  2: { injection Hrun as _ <-. apply Hsame. }
  destruct (JS.eqb (distance cur) JS.Infinity).
  { injection Hrun as _ <-. apply Hsame. }
  assert (Hids2 : ids_match (mutate (set_status Visited) ref (nodes s))).
  { intros k' m. unfold mutate. simpl. rewrite lookup_alter_Some.
    intros [(-> & m0 & Hm0 & ->)|[_ Hm]]; simpl; [apply (Hids _ _ Hm0)|apply (Hids _ _ Hm)]. }
  assert (Htg2 : is_Some (lookupNode (mutate (set_status Visited) ref (nodes s)) tg)).
  { rewrite lookupNode_mutate. destruct (decide (ref = tg)); [|done].
    destruct Htg as [tgN ->]. simpl. eauto. }
  destruct (decide (id cur = tg)).
  { injection Hrun as _ <-. split_and!; [done|done|]. exists i. simpl.
    split; [rewrite Hu in Hlen; simpl in *; lia|]. apply ranged_visit. done. }
  unfold updateNeighbors in Hrun.
  rewrite (lookupNode_mutate_eq _ _ _ _ Hcur) in Hrun. simpl in Hrun.
  destruct (getNeighbors _ boardArray (id cur)) as [neighbors|] eqn:Hg.
  2: { injection Hrun as _ <-. split_and!; [done|done|]. exists i. simpl.
       split; [rewrite Hu in Hlen; simpl in *; lia|]. apply ranged_visit. done. }
  assert (Hidc : id cur = ref) by apply (Hids _ _ Hcur).
  pose proof (class_getNeighbors_other _ _ _ Hg) as Hnot. rewrite Hidc in Hnot.
  pose proof (class_updateNeighbors_each_ranged (Z.of_nat i * W) ref
                (set_status Visited cur)) as Hstep.
  specialize (Hstep (λ d Hd, proj1 (proj2 (proj2 (proj2 (Hr ref cur Hcur)))) d Hd)
                neighbors (mutate (set_status Visited) ref (nodes s))
                Hnot (lookupNode_mutate_eq _ _ _ _ Hcur) Htg2 Hids2).
  specialize (Hstep (ranged_mono W (Z.of_nat i * W) (Z.of_nat i * W + W) _ ltac:(lia)
                       (ranged_visit _ _ _ _ Hr))).
  simpl in Hstep. destruct Hstep as (Hr3 & Hids3 & Htg3).
  assert (Hnext : ∀ nodes3 trace,
             ranged W (Z.of_nat i * W + W) nodes3 → ids_match nodes3 →
             is_Some (lookupNode nodes3 tg) →
             class_small_run L (mkState nodes3 trace unvisited1)).
  { intros nodes3 trace H1 H2 H3. split_and!; [done|done|]. exists (S i). simpl.
    split; [rewrite Hu in Hlen; simpl in *; lia|].
    replace (Z.of_nat (S i) * W) with (Z.of_nat i * W + W) by lia. done. }
  destruct (updateNeighbors_each _ _ _ _) as [nodes3|nodes3]; simpl in *.
  - apply (IH _ _ _ (Hnext nodes3 _ Hr3 Hids3 Htg3) Hrun).
  - injection Hrun as _ <-. apply Hnext; done.
Qed.

End ClassRange.

Section ClassRangeTheorem.

Import ClassAStar.

(** On a grid of small numbers on which no search has run, the invariant
    of the loop of [AStar.execute] keeps every number of a cell an integer
    of magnitude at most [2^52]. *)
Lemma class_numbers_stay_small (nodes : NodeDict) (st tg : Id) (trace : list Id)
    (boardArray : Board) (o : Outcome) (s : State) :
  small_numbers nodes → unsearched nodes → ids_match nodes →
  keys_listed nodes → NoDup (okeys nodes) →
  is_Some (lookupNode nodes tg) →
  execute nodes boardArray trace (Some st) (Some tg) = Some (o, s) →
  exact_numbers (ClassAStar.nodes s).
Proof.
  intros Hsmall Hfresh Hids Hkeys Hnd Htg Hrun.
  destruct (small_numbers_step nodes Hsmall) as (W & HW & HWs & Hw).
  pose proof (keys_listed_length nodes Hkeys Hnd) as Hlen.
  assert (HW1 : W ≤ 2 ^ 51).
  { destruct (decide (size (oget nodes) = 0%nat)) as [E|]; [|nia].
    apply map_size_empty_iff in E. destruct Htg as [tgN Htg].
    unfold lookupNode in Htg. rewrite E, lookup_empty in Htg. discriminate. }
  assert (Hstart : ∀ i : nat, ranged W (Z.of_nat i * W) nodes).
  { intros i k n Hk. destruct (Hsmall k n Hk) as (Hcan & _ & Hh).
    destruct (Hfresh k n Hk) as [Hdist Htot].
    split_and!; [rewrite (Hids k n Hk); done|apply (Hw k n Hk)|done| |].
    - rewrite Hdist. done.
    - rewrite Htot. done. }
  assert (Hend : ∀ s', class_small_run tg W (length (okeys nodes)) s' →
                      exact_numbers (ClassAStar.nodes s')).
  { intros s' (_ & _ & i & Hi & Hr).
    assert (HM : Z.of_nat i * W ≤ 2 ^ 51).
    { assert (Z.of_nat i ≤ Z.of_nat (size (oget nodes))) by lia. nia. }
    intros k n Hk. destruct (Hr k n Hk) as (_ & H1 & H2 & H3 & H4).
    split_and!; [| |lia|done].
    - intros d Hdd. specialize (H3 d Hdd). lia.
    - intros t Htt. specialize (H4 t Htt). lia. }
  assert (H0 : ∀ tr, class_small_run tg W (length (okeys nodes)) (mkState nodes tr [])).
  { intros tr. split_and!; [done|done|]. exists 0%nat. simpl. split; [lia|apply Hstart]. }
  unfold execute in Hrun.
  destruct (bool_decide (st = tg)).
  { injection Hrun as _ <-. apply Hend, H0. }
  destruct (lookupNode nodes st) as [stN|] eqn:Hst.
  2: { injection Hrun as _ <-. apply Hend, H0. }
  apply Hend. eapply class_execute_loop_small; [done| |exact Hrun].
  split_and!; simpl.
  - apply initializeStartNode_ids. done.
  - apply lookupNode_initializeStartNode. done.
  - exists 0%nat. split; [unfold Improved.initializeStartNode, mutate; simpl; lia|].
    intros k n. unfold Improved.initializeStartNode. rewrite lookupNode_mutate.
    destruct (decide (st = k)) as [<-|].
    + rewrite Hst. simpl. intros [= <-].
      destruct (Hsmall st stN Hst) as (Hcan & _ & Hh).
      split_and!; simpl; [rewrite (Hids st stN Hst); done|apply (Hw st stN Hst)|done| |].
      * intros d [= <-]. lia.
      * intros t [= <-]. lia.
    + intros Hk. apply (Hstart 0%nat k n Hk).
Qed.

End ClassRangeTheorem.

Section ModernRange.

Import ModernAStar.

Variable options : Options.
Variable boardArray : Board.
Variable tg : Id.
Variable W : Z.

Hypothesis options_weight_small : Z.abs (options_weight options) ≤ 2 ^ 18.

Lemma calculateHeuristic_small (a b : Node) :
  canonical (id a) → canonical (id b) →
  Z.abs (calculateHeuristic options a b) ≤ 2 ^ 51.
Proof.
  unfold canonical, calculateHeuristic. destruct (id a) as [x1 y1], (id b) as [x2 y2].
  simpl. intros [H1 H2] [H3 H4].
  assert (2 ^ 32 = 4294967296) as E1 by reflexivity.
  assert (2 ^ 18 * 2 ^ 33 = 2 ^ 51) as E2 by reflexivity.
  assert (2 ^ 33 = 8589934592) as E3 by reflexivity.
  rewrite <- E2.
  destruct (heuristicFunction options); rewrite Z.abs_mul;
    (apply Z.mul_le_mono_nonneg; [lia|done|lia|lia]).
Qed.

Definition modern_store (c : JS.Completion (NodeDict * NumMap)) : NodeDict :=
  match c with
  | JS.Normal r => r.1
  | JS.Abrupt r => r.1
  end.

(** The dictionary has kept its keys [D] and every record is within [M]. *)
Definition modern_ranged (D : gset Id) (M : Z) (nodes : NodeDict) : Prop :=
  dom (oget nodes) = D ∧ ranged W M nodes.

Lemma modern_updateNeighbor_ranged (D : gset Id) (M : Z) (cur : Id) (curN : Node)
    (visited : gset Id) (nodes : NodeDict) (m : NumMap) (nb : Id) :
  (∀ d, distance curN = JS.Fin d → Z.abs d ≤ M) →
  modern_ranged D (M + W) nodes →
  modern_ranged D (M + W)
    (modern_store (updateNeighbor options cur curN tg visited nodes m nb)).
Proof.
  intros Hcur [Hdom Hr]. unfold updateNeighbor.
  destruct (decide (nb ∈ visited)) as [|Hnv]; [done|].
  destruct (lookupNode nodes nb) as [nbN|] eqn:Hnb; [|done].
  pose proof (modern_getDistance_cost curN nbN) as Hcost.
  destruct (getDistance curN nbN) as [[cost steps] heading]. simpl in Hcost. subst cost.
  destruct (JS.ltb _ _) eqn:Hlt; [|done].
  destruct (Hr nb nbN Hnb) as (Hid & Hw & Hh & Hd & Ht).
  destruct (distance curN) as [d| |] eqn:Hdc; simpl in Hlt; try discriminate.
  specialize (Hcur d eq_refl).
  assert (Hnbdom : is_Some (lookupNode nodes nb)) by eauto.
  set (updated := mkNode _ _ _ _ _ _ _ _ _).
  assert (Hstore : ∀ v, ranged_node W (M + W) v →
             modern_ranged D (M + W) (assign nb v (assign nb updated nodes))).
  { intros v Hv. split.
    - rewrite dom_assign, dom_assign; [done|done|].
      rewrite lookupNode_assign. destruct (decide (nb = nb)); [eauto|done].
    - intros k n. rewrite !lookupNode_assign.
      destruct (decide (nb = k)); [intros [= <-]; done|apply Hr]. }
  assert (Hup : ranged_node W (M + W) updated).
  { subst updated. split_and!; simpl; [done|done|done| |done].
    intros d' [= <-]. lia. }
  destruct (decide (heuristicDistance nbN = JS.Undefined)) as [Hundef|Hdef].
  - destruct (lookupNode (assign nb updated nodes) tg) as [tgN|] eqn:Htg; simpl.
    + apply Hstore.
      assert (Htgc : canonical (id tgN)).
      { rewrite lookupNode_assign in Htg. destruct (decide (nb = tg)).
        - injection Htg as <-. done.
        - apply (Hr tg tgN Htg). }
      pose proof (calculateHeuristic_small nbN tgN Hid Htgc) as Hheur.
      split_and!; simpl; [done|done|done| |].
      * intros d' [= <-]. lia.
      * intros t [= <-]. lia.
    + split.
      * rewrite dom_assign; done.
      * intros k n. rewrite lookupNode_assign.
        destruct (decide (nb = k)); [intros [= <-]; done|apply Hr].
  - simpl. apply Hstore. split_and!; simpl; [done|done|done| |].
    + intros d' [= <-]. lia.
    + destruct (heuristicDistance nbN) as [| |h]; simpl; try done.
      all: intros t [= <-]; lia.
Qed.

Lemma modern_updateNeighbors_each_ranged (D : gset Id) (M : Z) (cur : Id) (curN : Node)
    (visited : gset Id) :
  (∀ d, distance curN = JS.Fin d → Z.abs d ≤ M) →
  ∀ neighbors nodes m,
    modern_ranged D (M + W) nodes →
    modern_ranged D (M + W)
      (modern_store (updateNeighbors_each options cur curN tg visited nodes m neighbors)).
Proof.
  intros Hcur. induction neighbors as [|nb rest IH]; intros nodes m Hr; [done|].
  simpl.
  pose proof (modern_updateNeighbor_ranged D M cur curN visited nodes m nb Hcur Hr) as H.
  destruct (updateNeighbor options cur curN tg visited nodes m nb) as [[nodes1 m1]|r];
    simpl in *; [apply IH; done|done].
Qed.

(** The states of a run of [execute]: the closed cells are cells of the
    dictionary, and every number is within one step for each of them. *)
Definition modern_small_run (D : gset Id) (s : State) : Prop :=
  visitedSet s ⊆ D
  ∧ modern_ranged D (Z.of_nat (size (visitedSet s)) * W) (nodes s).

Lemma modern_execute_loop_small (D : gset Id) (fuel : nat) :
  0 ≤ W →
  ∀ s o s', modern_small_run D s →
            execute_loop options boardArray tg fuel s = Some (o, s') →
            modern_small_run D s'.
Proof.
  intros HW. induction fuel as [|fuel IH]; intros s o s' Hs Hrun; simpl in Hrun.
  { destruct (findNodeWithLowestDistance (unvisitedMap s)); [done|].
    injection Hrun as _ <-. done. }
  destruct (findNodeWithLowestDistance (unvisitedMap s)) as [currentId|] eqn:Hfind.
  2: { injection Hrun as _ <-. done. }
  destruct (lookupNode (nodes s) currentId) as [cur|] eqn:Hcur.
  2: { injection Hrun as _ <-. done. }
  destruct (bool_decide (status cur = Wall) || bool_decide (currentId ∈ visitedSet s))
    eqn:Hskip.
  { eapply IH; [|exact Hrun]. exact Hs. }
  apply orb_false_iff in Hskip as [_ Hfresh]. apply bool_decide_eq_false in Hfresh.
  destruct (JS.eqb (distance cur) JS.Infinity).
  { injection Hrun as _ <-. done. }
  destruct Hs as (Hsub & Hdom & Hr).
  assert (HinD : currentId ∈ D).
  { rewrite <- Hdom. apply elem_of_dom. unfold lookupNode in Hcur. eauto. }
  assert (Hsize : size ({[currentId]} ∪ visitedSet s) = S (size (visitedSet s))).
  { rewrite size_union by (apply disjoint_singleton_l; done).
    rewrite size_singleton. done. }
  assert (Hvis : modern_ranged D (Z.of_nat (size (visitedSet s)) * W + W)
                   (mutate (set_status Visited) currentId (nodes s))).
  { split; [rewrite dom_mutate; done|].
    apply (ranged_mono W (Z.of_nat (size (visitedSet s)) * W)); [lia|].
    apply ranged_visit. done. }
  assert (Hnext : ∀ nodes3 trace m,
             modern_ranged D (Z.of_nat (size (visitedSet s)) * W + W) nodes3 →
             modern_small_run D
               (mkState nodes3 trace ({[currentId]} ∪ visitedSet s) m (stub s))).
  { intros nodes3 trace m H3. split; simpl.
    { apply union_subseteq. split; [apply singleton_subseteq_l; done|done]. }
    rewrite Hsize.
    replace (Z.of_nat (S (size (visitedSet s))) * W)
      with (Z.of_nat (size (visitedSet s)) * W + W) by lia. done. }
  destruct (bool_decide (currentId = tg)).
  { injection Hrun as _ <-. apply Hnext. done. }
  unfold updateNeighbors in Hrun. simpl in Hrun.
  rewrite (lookupNode_mutate_eq _ _ _ _ Hcur) in Hrun.
  destruct (getNeighbors options currentId _ boardArray) as [neighbors|].
  2: { injection Hrun as _ <-. apply Hnext. done. }
  pose proof (modern_updateNeighbors_each_ranged D (Z.of_nat (size (visitedSet s)) * W)
                currentId (set_status Visited cur) ({[currentId]} ∪ visitedSet s)
                (λ d Hd, proj1 (proj2 (proj2 (proj2 (Hr currentId cur Hcur)))) d Hd)
                neighbors (mutate (set_status Visited) currentId (nodes s))
                (map_delete (unvisitedMap s) currentId) Hvis) as Hstep.
  destruct (updateNeighbors_each _ _ _ _ _ _ _ _) as [[nodes3 map3]|[nodes3 map3]];
    simpl in Hstep.
  - apply (IH _ _ _ (Hnext nodes3 _ map3 Hstep) Hrun).
  - injection Hrun as _ <-. apply Hnext. done.
Qed.

End ModernRange.

Section ModernRangeTheorem.

Import ModernAStar.

(** On a grid of small numbers on which no search has run, with a
    heuristic weight of magnitude at most [2^18], the invariant of the loop
    of [execute] keeps every number of a cell an integer of magnitude at
    most [2^52]. *)
Lemma modern_numbers_stay_small (options : Options) (fuel : nat) (nodes : NodeDict)
    (st tg : Id) (boardArray : Board) (o : Outcome) (s : State) :
  Z.abs (options_weight options) ≤ 2 ^ 18 →
  small_numbers nodes → unsearched nodes → ids_match nodes →
  is_Some (lookupNode nodes st) → is_Some (lookupNode nodes tg) →
  execute options fuel nodes (Some st) (Some tg) boardArray = Some (o, s) →
  exact_numbers (ModernAStar.nodes s).
Proof.
  intros Hopt Hsmall Hfresh Hids [stN Hst] Htg Hrun.
  destruct (small_numbers_step nodes Hsmall) as (W & HW & HWs & Hw).
  assert (HW1 : W ≤ 2 ^ 51).
  { destruct (decide (size (oget nodes) = 0%nat)) as [E|]; [|nia].
    apply map_size_empty_iff in E. destruct Htg as [tgN Htg].
    unfold lookupNode in Htg. rewrite E, lookup_empty in Htg. discriminate. }
  assert (Hstart : ∀ M, 0 ≤ M → ranged W M nodes).
  { intros M HM k n Hk. destruct (Hsmall k n Hk) as (Hcan & _ & Hh).
    destruct (Hfresh k n Hk) as [Hdist Htot].
    split_and!; [rewrite (Hids k n Hk); done|apply (Hw k n Hk)|done| |].
    - rewrite Hdist. done.
    - rewrite Htot. done. }
  assert (Hend : ∀ s', modern_small_run W (dom (oget nodes)) s' →
                      exact_numbers (ModernAStar.nodes s')).
  { intros s' (Hsub & _ & Hr).
    assert (HM : Z.of_nat (size (visitedSet s')) * W ≤ 2 ^ 51).
    { apply subseteq_size in Hsub. rewrite size_dom in Hsub.
      assert (Z.of_nat (size (visitedSet s')) ≤ Z.of_nat (size (oget nodes))) by lia.
      nia. }
    intros k n Hk. destruct (Hr k n Hk) as (_ & H1 & H2 & H3 & H4).
    split_and!; [| |lia|done].
    - intros d Hdd. specialize (H3 d Hdd). lia.
    - intros t Htt. specialize (H4 t Htt). lia. }
  unfold execute in Hrun.
  destruct (bool_decide (st = tg)).
  { injection Hrun as _ <-. apply Hend. split; simpl; [apply empty_subseteq|].
    split; [done|]. apply Hstart. nia. }
  rewrite Hst in Hrun.
  apply Hend. eapply modern_execute_loop_small; [exact Hopt|done| |exact Hrun].
  split; simpl; [apply empty_subseteq|]. split.
  - rewrite dom_assign; eauto.
  - intros k n. rewrite lookupNode_assign.
    destruct (decide (st = k)) as [<-|]; [|apply Hstart; nia].
    intros [= <-]. destruct (Hsmall st stN Hst) as (Hcan & _ & Hh).
    split_and!; simpl; [rewrite (Hids st stN Hst); done|apply (Hw st stN Hst)|done| |].
    + intros d [= <-]. lia.
    + intros t [= <-]. lia.
Qed.

End ModernRangeTheorem.

Section OptimizedRange.

Import OptimizedAStar.

Variable boardArray : Board.
Variable tg : Id.
Variable W : Z.

Lemma optimized_getDistance_cost (a b : Node) : (getDistance a b).1.1 = 1.
Proof. unfold getDistance. destruct (id a), (id b). repeat case_match; done. Qed.

(** What the relaxations from the closed cell [cur] keep: its cost is
    within [M], and every record is within [M + W]. *)
Definition optimized_ranged (D : gset Id) (M : Z) (cur : Id) (s : State) : Prop :=
  cur ∈ visited s
  ∧ (∀ curN d, lookupNode (nodes s) cur = Some curN → distance curN = JS.Fin d →
               Z.abs d ≤ M)
  ∧ dom (oget (nodes s)) = D
  ∧ ranged W (M + W) (nodes s).

Lemma processNeighbor_ranged (D : gset Id) (M : Z) (cur nb : Id) (s s' : State) :
  optimized_ranged D M cur s →
  processNeighbor tg cur nb s = JS.Ok s' →
  optimized_ranged D M cur s' ∧ visited s' = visited s.
Proof.
  intros (Hin & Hcur & Hdom & Hr). unfold processNeighbor.
  destruct (bool_decide (nb ∈ visited s)) eqn:Hnv.
  { intros [= <-]. done. }
  apply bool_decide_eq_false in Hnv.
  assert (Hne : nb ≠ cur) by (intros ->; done).
  destruct (lookupNode (nodes s) nb) as [nbN|] eqn:Hnb; [|done].
  destruct (decide (status nbN = Wall)) as [|Hopen].
  { intros [= <-]. done. }
  destruct (Hr nb nbN Hnb) as (Hid & Hw & Hh & Hd & Ht).
  set (cached := if JS.falsy (heuristicDistance nbN) then _ else _).
  assert (Hcached : cached = JS.TypeError
            ∨ ∃ nodes1 nb1, cached = JS.Ok nodes1
                ∧ dom (oget nodes1) = D
                ∧ lookupNode nodes1 nb = Some nb1
                ∧ ranged_node W (M + W) nb1
                ∧ ∀ k, k ≠ nb → lookupNode nodes1 k = lookupNode (nodes s) k).
  { subst cached. destruct (JS.falsy (heuristicDistance nbN)).
    - destruct (lookupNode (nodes s) tg) as [tgN|] eqn:Htg; [|left; done].
      right. eexists _, _. split; [done|]. split_and!.
      + rewrite dom_mutate. done.
      + apply lookupNode_mutate_eq. done.
      + destruct (Hr tg tgN Htg) as (Htgc & _).
        pose proof (manhattan_small (id nbN) (id tgN) Hid Htgc) as Hheur.
        split_and!; simpl; done.
      + intros k Hk. apply lookupNode_mutate_ne. done.
    - right. exists (nodes s), nbN. split_and!; done. }
  destruct Hcached as [->|(nodes1 & nb1 & -> & Hdom1 & Hnb1 & Hr1 & Hframe)]; [done|].
  simpl. rewrite Hnb1, (Hframe cur) by done.
  destruct (lookupNode (nodes s) cur) as [curN|] eqn:Hc; [|done].
  assert (Hcur' : ∀ d, distance curN = JS.Fin d → Z.abs d ≤ M).
  { intros d. apply Hcur. done. }
  assert (Hranged1 : ranged W (M + W) nodes1).
  { intros k n. destruct (decide (k = nb)) as [->|Hk].
    - rewrite Hnb1. intros [= <-]. done.
    - rewrite (Hframe k Hk). apply Hr. }
  pose proof (optimized_getDistance_cost curN nb1) as Hcost.
  destruct (JS.ltb _ _) eqn:Hlt.
  2: { intros [= <-]. simpl. split; [|done]. split_and!; simpl; [done| |done|done].
       intros curN' d. rewrite (Hframe cur), Hc by done. intros [= <-]. apply Hcur'. }
  intros [= <-]. simpl. split; [|done].
  destruct (distance curN) as [d| |] eqn:Hdc; simpl in Hlt; try discriminate.
  pose proof (Hcur' d eq_refl) as Hd0.
  destruct Hr1 as (Hid1 & Hw1 & Hh1 & Hd1 & Ht1).
  split_and!; cbn [nodes visited].
  - done.
  - intros curN' d'. rewrite lookupNode_mutate_ne, (Hframe cur), Hc by done.
    intros [= <-]. rewrite Hdc. intros [= <-]. done.
  - rewrite dom_mutate. done.
  - intros k n. rewrite lookupNode_mutate. destruct (decide (nb = k)) as [<-|].
    + rewrite Hnb1. simpl. intros [= <-]. unfold withNewPath. rewrite Hcost.
      split_and!; simpl; [done|done|done| |].
      * intros d' [= <-]. lia.
      * destruct (heuristicDistance nb1) as [| |h]; simpl; try done.
        all: intros t [= <-]; lia.
    + apply Hranged1.
Qed.

Lemma processNeighbors_ranged (D : gset Id) (M : Z) (cur : Id) (neighbors : list Id) :
  ∀ s, optimized_ranged D M cur s →
       match processNeighbors tg cur neighbors s with
       | JS.Normal s' | JS.Abrupt s' =>
           optimized_ranged D M cur s' ∧ visited s' = visited s
       end.
Proof.
  induction neighbors as [|nb rest IH]; intros s Hs; simpl; [done|].
  destruct (processNeighbor tg cur nb s) as [s1|] eqn:Hp; [|done].
  destruct (processNeighbor_ranged D M cur nb s s1 Hs Hp) as [H1 Hv].
  specialize (IH s1 H1). destruct (processNeighbors tg cur rest s1); rewrite <- Hv; done.
Qed.

(** The states of a run of [optimizedAStar]. *)
Definition optimized_small_run (D : gset Id) (s : State) : Prop :=
  visited s ⊆ D ∧ dom (oget (nodes s)) = D
  ∧ ranged W (Z.of_nat (size (visited s)) * W) (nodes s).

Lemma optimized_iteration_small (D : gset Id) (s : State) :
  0 ≤ W → optimized_small_run D s →
  optimized_small_run D (match iteration boardArray tg s with Next s' | Stop _ s' => s' end).
Proof.
  intros HW (Hsub & Hdom & Hr). unfold iteration.
  destruct (PriorityQueue.dequeue _ _) as [[currentId|] rest]; simpl; [|done].
  destruct (bool_decide (currentId ∈ visited s)) eqn:Hnv; [done|].
  apply bool_decide_eq_false in Hnv.
  destruct (lookupNode (nodes s) currentId) as [cur|] eqn:Hcur; [|done].
  destruct (decide (status cur = Wall)); [done|].
  assert (HinD : currentId ∈ D).
  { rewrite <- Hdom. apply elem_of_dom. unfold lookupNode in Hcur. eauto. }
  assert (Hsize : size ({[currentId]} ∪ visited s) = S (size (visited s))).
  { rewrite size_union by (apply disjoint_singleton_l; done).
    rewrite size_singleton. done. }
  assert (Hsub2 : {[currentId]} ∪ visited s ⊆ D).
  { apply union_subseteq. split; [apply singleton_subseteq_l; done|done]. }
  set (M := Z.of_nat (size (visited s)) * W).
  assert (HM : Z.of_nat (size ({[currentId]} ∪ visited s)) * W = M + W).
  { rewrite Hsize. subst M. lia. }
  set (s2 := mkState (mutate (set_status Visited) currentId (nodes s)) rest
               ({[currentId]} ∪ visited s) (nodesToAnimate s ++ [currentId])).
  assert (H2 : optimized_ranged D M currentId s2).
  { subst s2. split_and!; cbn [nodes visited].
    - apply elem_of_union_l, elem_of_singleton. done.
    - intros curN d. rewrite (lookupNode_mutate_eq _ _ _ _ Hcur). intros [= <-]. simpl.
      apply (Hr currentId cur Hcur).
    - rewrite dom_mutate. done.
    - apply (ranged_mono W M); [lia|]. apply ranged_visit. done. }
  assert (Hnext : ∀ s3, optimized_ranged D M currentId s3 → visited s3 = visited s2 →
                        optimized_small_run D s3).
  { intros s3 (_ & _ & Hdom3 & Hr3) Hv. split_and!; [rewrite Hv; done|done|].
    rewrite Hv. simpl. rewrite HM. done. }
  destruct (decide (currentId = tg)); [apply Hnext; done|].
  destruct (getNeighbors currentId _ boardArray) as [neighbors|]; [|apply Hnext; done].
  pose proof (processNeighbors_ranged D M currentId neighbors s2 H2) as Hstep.
  destruct (processNeighbors tg currentId neighbors s2) as [s3|s3];
    destruct Hstep as [H3 Hv]; apply Hnext; done.
Qed.

Lemma optimizedAStar_loop_small (D : gset Id) (fuel : nat) :
  0 ≤ W →
  ∀ s o s', optimized_small_run D s →
            optimizedAStar_loop boardArray tg fuel s = Some (o, s') →
            optimized_small_run D s'.
Proof.
  intros HW. induction fuel as [|fuel IH]; intros s o s' Hs Hrun; simpl in Hrun.
  { destruct (PriorityQueue.isEmpty (unvisitedQueue s)); [|done]. injection Hrun as _ <-. done. }
  destruct (PriorityQueue.isEmpty (unvisitedQueue s)).
  { injection Hrun as _ <-. done. }
  pose proof (optimized_iteration_small D s HW Hs) as Hit.
  destruct (iteration boardArray tg s) as [s1|o1 s1].
  - apply (IH _ _ _ Hit Hrun).
  - injection Hrun as _ <-. done.
Qed.

End OptimizedRange.

Section OptimizedRangeTheorem.

Import OptimizedAStar.

(** On a grid of small numbers on which no search has run, the invariant
    of the loop of [optimizedAStar] keeps every number of a cell an integer
    of magnitude at most [2^52]. *)
Lemma optimizedAStar_numbers_stay_small (nodes : NodeDict) (st tg : Id)
    (trace : list Id) (boardArray : Board) (o : Outcome) (s : State) :
  small_numbers nodes → unsearched nodes → ids_match nodes →
  is_Some (lookupNode nodes tg) →
  optimizedAStar nodes (Some st) (Some tg) trace boardArray = Some (o, s) →
  exact_numbers (OptimizedAStar.nodes s).
Proof.
  intros Hsmall Hfresh Hids Htg Hrun.
  destruct (small_numbers_step nodes Hsmall) as (W & HW & HWs & Hw).
  assert (HW1 : W ≤ 2 ^ 51).
  { destruct (decide (size (oget nodes) = 0%nat)) as [E|]; [|nia].
    apply map_size_empty_iff in E. destruct Htg as [tgN Htg].
    unfold lookupNode in Htg. rewrite E, lookup_empty in Htg. discriminate. }
  assert (Hstart : ∀ M, 0 ≤ M → ranged W M nodes).
  { intros M HM k n Hk. destruct (Hsmall k n Hk) as (Hcan & _ & Hh).
    destruct (Hfresh k n Hk) as [Hdist Htot].
    split_and!; [rewrite (Hids k n Hk); done|apply (Hw k n Hk)|done| |].
    - rewrite Hdist. done.
    - rewrite Htot. done. }
  assert (Hend : ∀ s', optimized_small_run W (dom (oget nodes)) s' →
                      exact_numbers (OptimizedAStar.nodes s')).
  { intros s' (Hsub & _ & Hr).
    assert (HM : Z.of_nat (size (visited s')) * W ≤ 2 ^ 51).
    { apply subseteq_size in Hsub. rewrite size_dom in Hsub.
      assert (Z.of_nat (size (visited s')) ≤ Z.of_nat (size (oget nodes))) by lia.
      nia. }
    intros k n Hk. destruct (Hr k n Hk) as (_ & H1 & H2 & H3 & H4).
    split_and!; [| |lia|done].
    - intros d Hdd. specialize (H3 d Hdd). lia.
    - intros t Htt. specialize (H4 t Htt). lia. }
  assert (H0 : ∀ q tr, optimized_small_run W (dom (oget nodes)) (mkState nodes q ∅ tr)).
  { intros q tr. split_and!; simpl; [apply empty_subseteq|done|]. apply Hstart. nia. }
  unfold optimizedAStar in Hrun.
  destruct (bool_decide (st = tg)).
  { injection Hrun as _ <-. apply Hend, H0. }
  destruct (lookupNode nodes st) as [stN|] eqn:Hst.
  2: { injection Hrun as _ <-. apply Hend, H0. }
  apply Hend. eapply optimizedAStar_loop_small; [done| |exact Hrun].
  unfold initial. split_and!; cbn [OptimizedAStar.nodes OptimizedAStar.visited];
    [apply empty_subseteq|rewrite dom_mutate; done|].
  intros k n. rewrite lookupNode_mutate.
  destruct (decide (st = k)) as [<-|]; [|apply Hstart; nia].
  rewrite Hst. simpl. intros [= <-].
  destruct (Hsmall st stN Hst) as (Hcan & _ & Hh).
  split_and!; simpl; [rewrite (Hids st stN Hst); done|apply (Hw st stN Hst)|done| |].
  - intros d [= <-]. lia.
  - intros t [= <-]. lia.
Qed.

End OptimizedRangeTheorem.
